(* ===== verification/_CoqProject ===== *)
-Q . S2P
Prelude.v
GoStrings.v
Errors.v
Objects.v
Effects.v
Config.v
Validation.v
Json.v
JsonPrint.v
Lvm.v
LvmHost.v
LvmReport.v
LvmSim.v
LvmSpec.v
Mount.v
MountSpec.v
Node.v
Paths.v
HelperPod.v
HelperSpec.v
Admission.v
Progress.v
Sha256.v
Controller.v
ControllerSpec.v
Names.v
Webhook.v
Service.v
Process.v
Provisioner.v
ProvisionerSpec.v
SimSpec.v
CloneSpec.v
Container.v
Interleaving.v
System.v
Reliable.v
Budget.v
