(* ===== verification/Prelude.v ===== *)
(** * A verification library for the Harvester LVM CSI driver

    The program (src/): a CSI driver that provisions logical volumes of LVM volume groups
    that are local to a node.  Its processes are
    - the controller service (pkg/lvm/controllerserver.go), which checks a request, finds
      the node and volume group of the objects it names in the Kubernetes API, and runs a
      privileged helper pod there (pkg/lvm/helper_pod.go);
    - the provisioner that such a pod runs (cmd/provisioner), which creates, clones,
      snapshots and removes logical volumes and thin pools (pkg/lvm/lvm.go);
    - the node service (pkg/lvm/nodeserver.go), which formats, mounts, unmounts and
      expands volumes (the other half of pkg/lvm/lvm.go);
    - the storage class webhook (cmd/webhook, pkg/webhook/storageclass/validator.go).

    ** Files, in the order they build on each other

    - Prelude (this file): results, guards, machine integers, counting, tactics; GoStrings,
      Paths, Json, Sha256: the parts of Go's standard library the driver uses, executable,
      with examples; JsonPrint: the parser reads back what a printer prints; Errors: Go
      errors and gRPC codes; Objects: the fields of Kubernetes objects and CSI messages that
      the driver reads or writes.
    - Effects: a function that talks to the outside is a tree of effects, [prog].  An [env]
      says which effects are permitted in a state and which answers the outside may give;
      [wp] is the total weakest precondition in it, [run] executes a program on a computed
      world, [executes] is its relation to one that may answer in several ways.
    - Config (helper_config.go, NewLvmDriver), Validation (validation.go): pure functions.
    - Lvm (lvm.go, volumes, snapshots and thin pools); LvmHost: the interface a host with
      the lvm2 tools offers, a class with the documented behaviour of the commands;
      LvmReport, LvmSim: the reports of lvs and a computed host, an instance of the class;
      LvmSpec: what the operations achieve on any such host.
    - Mount (lvm.go, filesystems and mounts), MountSpec: guarantees over the log of
      commands, whatever the tools answer; Node (nodeserver.go) with its guarantees.
    - HelperPod (helper_pod.go), HelperSpec: names, deadlines, reuse and the life of one
      helper pod; Admission: the limit on active helpers for requests that interleave;
      Progress: the same requests in infinite fair runs.
    - Controller (controllerserver.go), ControllerSpec: what the answers of the handlers
      mean, against an API server that may fail any request; Names: the names of the
      objects it creates.
    - Webhook (validator.go) with the invariant of the stored classes.
    - Service (server.go, identityserver.go, Run, main.go); Process: the driver's process
      from its flags to the services it registers, and the webhook's (cmd/webhook).
    - Provisioner (cmd/provisioner); ProvisionerSpec, CloneSpec: the commands run with the
      arguments the controller builds refine what the action asks for; SimSpec: on the
      computed host they are pure reference functions; Container: one run of a helper
      pod's container, from its command line to its exit code; Interleaving: two
      provisioners on one host.
    - System: handlers, API server, kubelets and hosts in one interleaved system; Reliable:
      the handlers where nothing fails around them; Budget: the time operations may take.

    ** How code and model correspond

    A definition has the name of the Go function it translates.  A Go pair (value, error)
    is a [result], or a pair where the value is read on an error too; an error keeps its
    format string and operands.  int64, uint64 and time.Duration are [Z] with the
    conversions [to_int64] and [to_uint64] where the code converts.  Maps with string keys
    are [gmap], sets of names [gset]; where the code ranges over a map the theorem shows
    that the order does not matter.  A mutex is a pair of effects, a defer the effect after
    the body, a loop over a slice a [Fixpoint] that carries the loop's variables.  The
    shared state is the API server's objects, the host's volumes and the admission mutex;
    the process-wide timeouts are the record [timeouts], fixed while a process serves.
    Logging is left out, but for the lines of logGRPC.

    ** What the theorems show

    - The whole ([System.answers_backed]): in every interleaving of handlers, API server,
      kubelets and hosts, a positive answer of the controller rests on a completed run of
      the provisioner on the right node that did what the answer says.
    - Controller: a positive answer of CreateVolume, DeleteVolume, CreateSnapshot or
      DeleteSnapshot means that the objects were as required and that the helper pod for
      exactly that work was seen to succeed; no other pod and no other record is touched;
      the record of a snapshot's location survives and is found again.  Conversely
      ([Reliable.requests_served]) a request that may be served is, exactly as asked, where
      nothing fails around it.  Every object it creates has a valid name.
    - Helper pods: a request ends, holds the mutex only to admit, creates only its own pod,
      deletes only pods that ended; a pod is reused only for the same request; no node ever
      has more active helpers on a volume group than configured, under any interleaving;
      under fairness the mutex is free again and again and every request settles;
      deadlines are longer than the timeouts of the commands; a container that exits with 0
      has done its action ([Container.helper_pod_refines]).
    - Volumes: what CreateLVS, RemoveLVSInVG, CreateSnapshot, DeleteSnapshot and extendLVS
      answer holds of the host, a retry changes nothing, and nothing else is removed; end to
      end, createlv, deletelv and clonelv do what the controller's action says; on the
      computed host the volume and snapshot commands equal their reference functions, and a
      deletion undoes a creation.
    - Node: mkfs runs only on a device that two probes found blank; a read-only mount or
      device is read-only or the call fails; unmounting escalates in order; a target that
      may be mounted is never removed; usage numbers are exact.
    - Time: every command has a positive timeout, and each operation of the provisioner and
      the node takes a bounded number of them.
    - Processes: the driver serves only with a valid configuration, on the endpoint's
      address, with its three services, and never panics at its start; the webhook serves
      the storage class validator only.
    - Webhook: what Create accepts, and that classes on one node and group agree.
    - Divergences: a thin pool can be removed under a volume that is being created; a clone
      into a thin volume has too short a deadline; a thin clone ignores the requested size;
      the webhook compares the first topology node only; an endpoint in upper case.

    ** Bounds and assumptions

    Polling a helper pod is the only unbounded loop: [waitForHelper] takes fuel and ends in
    [Diverge], which no [env] permits, when it runs out; the theorems ask for more fuel than
    the number of polls before the request's context ends ([polls_left]), so they include
    that it ends; in Reliable one poll is enough, since the pod has ended by then.
    [Json.parse] has twice the length of the document and two as fuel, more
    than its values and members.  The laws of [LvmHost] are the behaviour lvs(8), vgs(8),
    lvcreate(8), lvremove(8) and lvextend(8) document, and LvmSim a host that has it;
    [Provisioner.parses] and [Container.reads_commands] are what urfave/cli documents of
    flags and sub-commands; DeepDerivative is translated from the vendored
    k8s.io/apimachinery for the types of a pod spec, reduced to the fields the driver sets.
    In System a container run is one step of its host (Interleaving has what happens when
    two overlap), a request's objects change only by its own writes while it runs, no volume
    is called like a thin pool, and requests for one helper name ask for the same pod: the
    code tells helper pods apart by name while it waits, so two concurrent requests for one
    name with different parameters could take each other's pod for their own.  Progress
    assumes that the scheduler and the API server are fair and a mutex without starvation.

    ** Not modelled

    gRPC itself and net.Listen (what they are given is), nonBlockingGRPCServer.Stop and
    ForceStop (nothing calls them), the parsing of command lines by flag and urfave/cli, the
    text of log messages, the rendering of error texts from their formats, vendored
    packages.

    ** Plan

    Next: the policy of RemoveThinPool in concurrent runs that hold a lock; overlapping
    container runs in System; NodeExpandVolume and the block publish as compositions over
    [LvmHost] and a mount table; command traces of the repository's unit tests replayed with
    [run_script]. *)
From Stdlib Require Export Ascii.
From stdpp Require Export base tactics list gmap strings sorting.
From Stdlib Require Export ZArith Lia.

#[global] Open Scope string_scope.
#[global] Arguments String.append !_ _ / : simpl nomatch.

(** ** Go values that come with an error *)

(** The pair [(T, error)] of a Go function that returns the zero value of [T]
    whenever it returns an error. *)
Inductive result (E A : Type) : Type :=
| Ok (a : A)
| Err (e : E).
Arguments Ok {E A} a.
Arguments Err {E A} e.

Definition is_ok {E A} (r : result E A) : bool :=
  match r with Ok _ => true | Err _ => false end.

(** [if err := ...; err != nil { return ..., err }] on such a pair. *)
Definition rbind {E A B} (r : result E A) (k : A -> result E B) : result E B :=
  match r with Ok a => k a | Err e => Err e end.

(** [if cond { return ..., err }] *)
Definition guard {E} (bad : bool) (e : E) : result E unit :=
  if bad then Err e else Ok tt.

(** Replaces the error of a result, as [status.Error(code, err.Error())]. *)
Definition map_err {E F A} (f : E -> F) (r : result E A) : result F A :=
  match r with Ok a => Ok a | Err e => Err (f e) end.

Declare Scope go_scope.
Delimit Scope go_scope with go.
#[global] Open Scope go_scope.

Notation "'let!' x ':=' r 'in' k" := (rbind r (fun x => k))
  (at level 10, x pattern, r at level 100, k at level 200) : go_scope.
Notation "'reject' b 'with' e ; k" := (rbind (guard b e) (fun _ => k))
  (at level 10, b at level 100, e at level 100, k at level 200) : go_scope.

(** Go's [==] on strings, as a boolean. *)
Notation "s =s t" := (String.eqb s t) (at level 70, no associativity) : go_scope.

(** ** Hint databases and tactics *)

Create HintDb go.
Create Rewrite HintDb go.

Lemma eqb_true (s t : string) : (s =s t) = true <-> s = t.
Proof. apply String.eqb_eq. Qed.
Lemma eqb_false (s t : string) : (s =s t) = false <-> s <> t.
Proof. apply String.eqb_neq. Qed.
Lemma eqb_same (s : string) : (s =s s) = true.
Proof. apply String.eqb_refl. Qed.
#[export] Hint Rewrite eqb_same : go.
#[export] Hint Rewrite app_nil_r : go.

(** Turns the boolean tests of a hypothesis or goal into propositions. *)
Ltac go_bool :=
  repeat match goal with
  | H : _ && _ = true |- _ => apply andb_true_iff in H; destruct H
  | H : _ || _ = false |- _ => apply orb_false_iff in H; destruct H
  | H : negb _ = true |- _ => apply negb_true_iff in H
  | H : negb _ = false |- _ => apply negb_false_iff in H
  | H : (_ =s _) = true |- _ => apply eqb_true in H
  | H : (_ =s _) = false |- _ => apply eqb_false in H
  | H : (_ <? _)%Z = true |- _ => apply Z.ltb_lt in H
  | H : (_ <? _)%Z = false |- _ => apply Z.ltb_ge in H
  | H : (_ <=? _)%Z = true |- _ => apply Z.leb_le in H
  | H : (_ <=? _)%Z = false |- _ => apply Z.leb_gt in H
  | H : (_ =? _)%Z = true |- _ => apply Z.eqb_eq in H
  | H : (_ =? _)%Z = false |- _ => apply Z.eqb_neq in H
  | H : bool_decide _ = true |- _ => apply bool_decide_eq_true in H
  | H : bool_decide _ = false |- _ => apply bool_decide_eq_false in H
  end.

(** Splits on every test the goal is stuck on. *)
Ltac go_case :=
  match goal with
  | |- context [match ?x with _ => _ end] =>
      lazymatch x with context [match _ with _ => _ end] => fail | _ => destruct x eqn:? end
  end.
Ltac go_cases := repeat (go_case; cbn in *; try discriminate).

(** Splits on every test a hypothesis is stuck on. *)
Ltac go_inv H :=
  repeat match type of H with
  | context [match ?x with _ => _ end] =>
      lazymatch x with context [match _ with _ => _ end] => fail | _ => destruct x eqn:? end;
      cbn in H; try discriminate H
  end.

Lemma rbind_ok {E A B} (r : result E A) (k : A -> result E B) b :
  rbind r k = Ok b <-> exists a, r = Ok a /\ k a = Ok b.
Proof. destruct r; cbn; naive_solver. Qed.

Lemma guard_ok {E} (bad : bool) (e : E) u : guard bad e = Ok u <-> bad = false.
Proof. destruct bad, u; cbn; naive_solver. Qed.

Lemma map_err_ok {E F A} (f : E -> F) (r : result E A) a : map_err f r = Ok a <-> r = Ok a.
Proof. destruct r; cbn; naive_solver. Qed.

(** Inverts a chain of [let!]/[reject] that returned [Ok]. *)
Ltac go_ok :=
  repeat match goal with
  | H : rbind _ _ = Ok _ |- _ => apply rbind_ok in H; destruct H as (? & ? & H)
  | H : guard _ _ = Ok _ |- _ => apply guard_ok in H
  | H : map_err _ _ = Ok _ |- _ => apply map_err_ok in H
  | H : Ok _ = Ok _ |- _ => injection H as H; subst
  | H : Err _ = Ok _ |- _ => discriminate H
  end; go_bool; simplify_eq.

(** ** Go maps with string keys and values *)

(** [m\[k\]]: the zero value for an absent key. *)
Definition mget (m : gmap string string) (k : string) : string := default "" (m !! k).

(** ** Machine integers *)

Definition two63 : Z := Eval cbv in (2 ^ 63)%Z.
Definition two64 : Z := Eval cbv in (2 ^ 64)%Z.
Definition min_int64 : Z := (- two63)%Z.
Definition max_int64 : Z := (two63 - 1)%Z.
Definition max_uint64 : Z := (two64 - 1)%Z.

Definition is_int64 (z : Z) : Prop := (min_int64 <= z <= max_int64)%Z.
Definition is_uint64 (z : Z) : Prop := (0 <= z <= max_uint64)%Z.

(** The conversions [uint64(x)] and [int64(x)] keep the low 64 bits. *)
Definition to_uint64 (z : Z) : Z := (z mod two64)%Z.
Definition to_int64 (z : Z) : Z :=
  let u := to_uint64 z in if (u <? two63)%Z then u else (u - two64)%Z.

Lemma to_int64_range z : is_int64 (to_int64 z).
Proof.
  unfold is_int64, to_int64, to_uint64, min_int64, max_int64, two63, two64.
  pose proof (Z.mod_pos_bound z 18446744073709551616 ltac:(lia)).
  destruct (Z.ltb_spec (z mod 18446744073709551616) 9223372036854775808); lia.
Qed.

Lemma to_int64_id z : is_int64 z -> to_int64 z = z.
Proof.
  unfold is_int64, to_int64, to_uint64, min_int64, max_int64, two63, two64. intros Hz.
  destruct (decide (0 <= z)%Z).
  - rewrite Z.mod_small by lia. destruct (Z.ltb_spec z 9223372036854775808); lia.
  - assert (z mod 18446744073709551616 = z + 18446744073709551616)%Z as ->.
    { symmetry. apply (Z.mod_unique _ _ (-1)); lia. }
    destruct (Z.ltb_spec (z + 18446744073709551616) 9223372036854775808); lia.
Qed.

Lemma to_uint64_id z : is_uint64 z -> to_uint64 z = z.
Proof. unfold is_uint64, to_uint64, max_uint64, two64. intros. apply Z.mod_small; lia. Qed.

(** ** Lists *)

(** [list] as the values of a filter, counted. *)
Definition count {A} (f : A -> bool) (l : list A) : nat := length (List.filter f l).

Lemma count_nil {A} (f : A -> bool) : count f [] = 0.
Proof. reflexivity. Qed.
Lemma count_cons {A} (f : A -> bool) x l : count f (x :: l) = (if f x then 1 else 0) + count f l.
Proof. unfold count. cbn. by destruct (f x). Qed.
Lemma count_perm {A} (f : A -> bool) l1 l2 : l1 ≡ₚ l2 -> count f l1 = count f l2.
Proof. induction 1; rewrite ?count_cons; lia. Qed.
Lemma count_le {A} (f g : A -> bool) l :
  (forall x, x ∈ l -> f x = true -> g x = true) -> count f l <= count g l.
Proof.
  induction l as [|x l IH]; intros Hle; [done|]. rewrite !count_cons.
  assert (count f l <= count g l) by (apply IH; intros; apply Hle; [by right|done]).
  destruct (f x) eqn:Hf; [|destruct (g x); lia]. rewrite (Hle x); [lia|by left|done].
Qed.
Lemma count_pos {A} (f : A -> bool) l x : x ∈ l -> f x = true -> 0 < count f l.
Proof.
  induction 1 as [x l|x y l _ IH]; intros Hf; rewrite count_cons; [rewrite Hf; lia|].
  specialize (IH Hf). lia.
Qed.
#[export] Hint Rewrite @count_nil @count_cons : go.
