(* ===== verification/GoStrings.v ===== *)
(** * The parts of Go's standard library the driver uses on strings

    Go strings are byte sequences, here [string] (a list of 8-bit [ascii]).
    [strings]: [HasPrefix], [TrimPrefix], [Contains], [Split] and [Join] on a
    one-byte separator, [TrimSpace], [Fields], [ToLower]; [unicode/utf8]: the
    division of a byte string into runes; [strconv]: [FormatInt], [ParseUint],
    [ParseInt], [Atoi]; [time]: [Duration.String].  The lemmas give the round
    trip of integers through text and the shape of trimmed and split strings. *)
From S2P Require Import Prelude.

Definition byte_of (n : nat) : ascii := Ascii.ascii_of_nat n.
Fixpoint bytes (l : list nat) : string :=
  match l with [] => "" | n :: l => String (byte_of n) (bytes l) end.
Definition byte_string (c : ascii) : string := String c "".

(** ** Prefixes and substrings *)

Fixpoint strip_prefix (p s : string) : option string :=
  match p, s with
  | EmptyString, _ => Some s
  | String a p', String b s' => if Ascii.eqb a b then strip_prefix p' s' else None
  | String _ _, EmptyString => None
  end.

Definition has_prefix (s p : string) : bool :=
  match strip_prefix p s with Some _ => true | None => false end.

Definition trim_prefix (s p : string) : string := default s (strip_prefix p s).

Fixpoint contains (s sub : string) : bool :=
  has_prefix s sub || match s with EmptyString => false | String _ s' => contains s' sub end.

Lemma strip_prefix_spec p s r : strip_prefix p s = Some r <-> s = p +:+ r.
Proof.
  revert s. induction p as [|a p IH]; intros s; cbn; [split; congruence|].
  destruct s as [|b s]; cbn; [split; discriminate|].
  destruct (Ascii.eqb_spec a b) as [->|Hab]; [rewrite IH|]; split; congruence.
Qed.

Lemma strip_prefix_app p s : strip_prefix p (p +:+ s) = Some s.
Proof. by apply strip_prefix_spec. Qed.

Lemma has_prefix_app p s : has_prefix (p +:+ s) p = true.
Proof. unfold has_prefix. by rewrite strip_prefix_app. Qed.

(** ** Splitting and joining on a one-byte separator *)

Fixpoint split (c : ascii) (s : string) : list string :=
  match s with
  | EmptyString => [""]
  | String a s' =>
      if Ascii.eqb a c then "" :: split c s'
      else match split c s' with h :: t => String a h :: t | [] => [byte_string a] end
  end.

Definition join (sep : string) (l : list string) : string := String.concat sep l.

Fixpoint has_byte (c : ascii) (s : string) : bool :=
  match s with EmptyString => false | String a s' => Ascii.eqb a c || has_byte c s' end.

Lemma split_no_sep c s : has_byte c s = false -> split c s = [s].
Proof.
  induction s as [|a s IH]; cbn; [done|]. intros [Ha Hs]%orb_false_iff. by rewrite Ha, IH.
Qed.

Lemma split_app c s t : has_byte c s = false -> split c (s +:+ String c t) = s :: split c t.
Proof.
  induction s as [|a s IH]; cbn; [by rewrite Ascii.eqb_refl|].
  intros [Ha Hs]%orb_false_iff. by rewrite Ha, IH.
Qed.

(** [strings.Split(strings.Join(l, sep), sep)] gives [l] back. *)
Lemma split_join c l :
  l <> [] -> Forall (fun s => has_byte c s = false) l -> split c (join (byte_string c) l) = l.
Proof.
  intros Hne Hl. induction Hl as [|s l Hs Hl IH]; [done|].
  destruct l as [|s' l]; [by apply split_no_sep|].
  change (join (byte_string c) (s :: s' :: l)) with (s +:+ String c (join (byte_string c) (s' :: l))).
  by rewrite split_app, IH.
Qed.

(** ** White space

    [unicode.IsSpace] holds of twenty-five code points; these are their UTF-8
    encodings.  No encoding starts with a continuation byte, so matching them
    byte by byte agrees with decoding the string rune by rune. *)
Definition space_encodings : list string :=
  (bytes <$> [[9]; [10]; [11]; [12]; [13]; [32];
     [194; 133]; [194; 160]; [225; 154; 128];
     [226; 128; 128]; [226; 128; 129]; [226; 128; 130]; [226; 128; 131];
     [226; 128; 132]; [226; 128; 133]; [226; 128; 134]; [226; 128; 135];
     [226; 128; 136]; [226; 128; 137]; [226; 128; 138];
     [226; 128; 168]; [226; 128; 169]; [226; 128; 175];
     [226; 129; 159]; [227; 128; 128]])%list.

(** The length of the first of [encs] that [s] starts with, 0 for none. *)
Definition enc_len (encs : list string) (s : string) : nat :=
  match List.find (has_prefix s) encs with Some e => String.length e | None => 0 end.

Fixpoint trim_left (encs : list string) (skip : nat) (s : string) : string :=
  match s with
  | EmptyString => ""
  | String _ s' =>
      match skip with
      | S k => trim_left encs k s'
      | O => match enc_len encs s with O => s | S k => trim_left encs k s' end
      end
  end.

Fixpoint rev_string (s acc : string) : string :=
  match s with EmptyString => acc | String a s' => rev_string s' (String a acc) end.
Definition reverse (s : string) : string := rev_string s "".

(** [strings.TrimSpace] *)
Definition trim_space (s : string) : string :=
  reverse (trim_left (reverse <$> space_encodings)%list 0
    (reverse (trim_left space_encodings 0 s))).

Definition flush (cur : string) (l : list string) : list string :=
  match cur with EmptyString => l | _ => cur :: l end.

Fixpoint fields_from (skip : nat) (cur s : string) : list string :=
  match s with
  | EmptyString => flush cur []
  | String a s' =>
      match skip with
      | S k => fields_from k cur s'
      | O => match enc_len space_encodings s with
             | O => fields_from 0 (cur +:+ byte_string a) s'
             | S k => flush cur (fields_from k "" s')
             end
      end
  end.

(** [strings.Fields] *)
Definition fields (s : string) : list string := fields_from 0 "" s.

(** ** Lower case

    [strings.ToLower]: bytes 'A' to 'Z', and the two code points outside ASCII
    whose lower case is an ASCII letter (U+0130 and U+212A).  Every other rune
    maps to runes outside ASCII; they are left alone here, which makes no
    difference to a comparison with an ASCII string. *)
Definition lower_byte (a : ascii) : ascii :=
  let n := Ascii.nat_of_ascii a in
  if (65 <=? n)%nat && (n <=? 90)%nat then byte_of (n + 32) else a.

Fixpoint to_lower_from (skip : nat) (s : string) : string :=
  match s with
  | EmptyString => ""
  | String a s' =>
      match skip with
      | S k => to_lower_from k s'
      | O =>
          if has_prefix s (bytes [196; 176]) then String "i" (to_lower_from 1 s')
          else if has_prefix s (bytes [226; 132; 170]) then String "k" (to_lower_from 2 s')
          else String (lower_byte a) (to_lower_from 0 s')
      end
  end.
Definition to_lower (s : string) : string := to_lower_from 0 s.

(** ** Runes *)

Definition between (lo hi : nat) (a : ascii) : bool :=
  let n := Ascii.nat_of_ascii a in (lo <=? n)%nat && (n <=? hi)%nat.

(** The number of bytes of the rune [s] starts with, 0 for an invalid one. *)
Definition rune_len (s : string) : nat :=
  let cont := between 128 191 in
  match s with
  | EmptyString => 0
  | String a s1 =>
      if between 0 127 a then 1 else
      match s1 with
      | EmptyString => 0
      | String b s2 =>
          if between 194 223 a && cont b then 2 else
          match s2 with
          | EmptyString => 0
          | String c s3 =>
              let lead3 := between 225 236 a || between 238 239 a in
              if ((between 224 224 a && between 160 191 b) || (lead3 && cont b)
                  || (between 237 237 a && between 128 159 b)) && cont c then 3 else
              match s3 with
              | EmptyString => 0
              | String d _ =>
                  if ((between 240 240 a && between 144 191 b)
                      || (between 241 243 a && cont b)
                      || (between 244 244 a && between 128 143 b)) && cont c && cont d
                  then 4 else 0
              end
          end
      end
  end.

(** U+FFFD, what a conversion puts for an invalid byte. *)
Definition rune_error : string := bytes [239; 191; 189].

(** [\[\]rune(s)], every rune as its encoding. *)
Fixpoint runes_from (skip : nat) (s : string) : list string :=
  match s with
  | EmptyString => []
  | String _ s' =>
      match skip with
      | S k => runes_from k s'
      | O => match rune_len s with
             | O => rune_error :: runes_from 0 s'
             | S k => String.substring 0 (S k) s :: runes_from k s'
             end
      end
  end.
Definition runes (s : string) : list string := runes_from 0 s.

(** ** Integers as text *)

Definition digit (n : Z) : ascii := byte_of (48 + Z.to_nat n).

Fixpoint digits (fuel : nat) (n : Z) : string :=
  match fuel with
  | O => ""
  | S f => (if (n <? 10)%Z then "" else digits f (n / 10)) +:+ byte_string (digit (n mod 10))
  end.

(** [fmt.Sprintf("%d", n)] and [strconv.FormatInt(n, 10)] *)
Definition format_uint (n : Z) : string := digits (S (Z.to_nat (Z.log2 n))) n.
Definition format_int (n : Z) : string :=
  if (n <? 0)%Z then "-" +:+ format_uint (- n) else format_uint n.

Inductive num_error := ErrSyntax | ErrRange.

Definition digit_value (a : ascii) : option Z :=
  let n := Ascii.nat_of_ascii a in
  if (48 <=? n)%nat && (n <=? 57)%nat then Some (Z.of_nat n - 48)%Z else None.

Fixpoint parse_digits (s : string) (acc : Z) : result num_error Z :=
  match s with
  | EmptyString => Ok acc
  | String a s' =>
      match digit_value a with
      | None => Err ErrSyntax
      | Some d =>
          let n := (acc * 10 + d)%Z in
          if (max_uint64 <? n)%Z then Err ErrRange else parse_digits s' n
      end
  end.

(** [strconv.ParseUint(s, 10, 64)] *)
Definition parse_uint (s : string) : result num_error Z :=
  match s with EmptyString => Err ErrSyntax | _ => parse_digits s 0 end.

(** [strconv.ParseInt(s, 10, 64)]; [strconv.Atoi(s)] with 64-bit ints *)
Definition parse_int (s : string) : result num_error Z :=
  let signed (neg : bool) (rest : string) :=
    match parse_uint rest with
    | Err e => Err e
    | Ok un =>
        if neg then (if (two63 <? un)%Z then Err ErrRange else Ok (- un)%Z)
        else if (two63 <=? un)%Z then Err ErrRange else Ok un
    end in
  match s with
  | EmptyString => Err ErrSyntax
  | String a s' =>
      if Ascii.eqb a "+" then signed false s'
      else if Ascii.eqb a "-" then signed true s'
      else signed false s
  end.
Definition atoi (s : string) : result num_error Z := parse_int s.

(** ** [time.Duration], in nanoseconds *)

Definition nanosecond : Z := 1.
Definition second : Z := 1000000000.
Definition minute : Z := 60000000000.

(** [fmtFrac]: the last [prec] digits of [v] without trailing zeros, and [v / 10^prec]. *)
Fixpoint fmt_frac (prec : nat) (v : Z) (acc : string) (print : bool) : string * Z :=
  match prec with
  | O => (if print then "." +:+ acc else acc, v)
  | S p =>
      let d := (v mod 10)%Z in
      let print := print || negb (d =? 0)%Z in
      fmt_frac p (v / 10)%Z (if print then String (digit d) acc else acc) print
  end.

(** [Duration.String] *)
Definition duration_string (d : Z) : string :=
  let u := Z.abs d in
  let body :=
    if (u <? second)%Z then
      if (u =? 0)%Z then "0s"
      else if (u <? 1000)%Z then format_uint u +:+ "ns"
      else if (u <? 1000000)%Z then
        let '(f, v) := fmt_frac 3 u "" false in format_uint v +:+ f +:+ bytes [194; 181] +:+ "s"
      else let '(f, v) := fmt_frac 6 u "" false in format_uint v +:+ f +:+ "ms"
    else
      let '(f, secs) := fmt_frac 9 u "" false in
      let s := format_uint (secs mod 60) +:+ f +:+ "s" in
      let mins := (secs / 60)%Z in
      if (0 <? mins)%Z then
        let m := format_uint (mins mod 60) +:+ "m" +:+ s in
        let hours := (mins / 60)%Z in
        if (0 <? hours)%Z then format_uint hours +:+ "h" +:+ m else m
      else s in
  if (d <? 0)%Z then "-" +:+ body else body.

(** ** Lemmas *)

Lemma string_app_assoc (a b c : string) : (a +:+ b) +:+ c = a +:+ (b +:+ c).
Proof. induction a; cbn; congruence. Qed.
Lemma string_app_empty (a : string) : a +:+ "" = a.
Proof. induction a; cbn; congruence. Qed.
#[export] Hint Rewrite string_app_assoc string_app_empty : go.

Lemma string_length_app (a b : string) :
  String.length (a +:+ b) = (String.length a + String.length b)%nat.
Proof. induction a; cbn; congruence. Qed.

Lemma string_app_ne (p s : string) : p <> "" -> p +:+ s <> s.
Proof.
  intros Hp E. apply (f_equal String.length) in E. rewrite string_length_app in E.
  destruct p; [done|cbn in E; lia].
Qed.

Lemma string_app_inj_l (a b c : string) : a +:+ b = a +:+ c -> b = c.
Proof. induction a; cbn; [done|]. intros [=]; auto. Qed.

Lemma string_app_inj_r (a b : string) c : a +:+ byte_string c = b +:+ byte_string c -> a = b.
Proof.
  revert b. induction a as [|x a IH]; intros [|y b]; cbn; [done|..].
  - intros [= -> H]. by destruct b.
  - intros [= -> H]. by destruct a.
  - intros [= -> H]. f_equal. by apply IH.
Qed.

Lemma digit_value_digit n : (0 <= n < 10)%Z -> digit_value (digit n) = Some n.
Proof.
  intros Hn. unfold digit_value, digit, byte_of.
  rewrite Ascii.nat_ascii_embedding by lia.
  replace ((48 <=? 48 + Z.to_nat n)%nat && (48 + Z.to_nat n <=? 57)%nat) with true.
  - f_equal. lia.
  - symmetry. apply andb_true_iff. rewrite !Nat.leb_le. lia.
Qed.

Lemma parse_digits_app s t acc :
  parse_digits (s +:+ t) acc =
  match parse_digits s acc with Ok n => parse_digits t n | Err e => Err e end.
Proof.
  revert acc. induction s as [|a s IH]; intros acc; cbn; [done|].
  destruct (digit_value a); [|done]. destruct (max_uint64 <? _)%Z; auto.
Qed.

Lemma parse_digits_digits fuel n :
  (0 <= n < 2 ^ Z.of_nat fuel)%Z -> (n <= max_uint64)%Z -> parse_digits (digits fuel n) 0 = Ok n.
Proof.
  revert n. induction fuel as [|f IH]; intros n Hn Hmax; [cbn in *; f_equal; lia|].
  cbn [digits]. rewrite parse_digits_app.
  assert (Hlast : forall m, (m * 10 + n mod 10 = n)%Z ->
    parse_digits (byte_string (digit (n mod 10))) m = Ok n).
  { intros m Hm. cbn. rewrite digit_value_digit by (apply Z.mod_pos_bound; lia).
    rewrite Hm. by destruct (Z.ltb_spec max_uint64 n); [lia|]. }
  rewrite Nat2Z.inj_succ, Z.pow_succ_r in Hn by lia.
  destruct (Z.ltb_spec n 10).
  - cbn [parse_digits]. apply Hlast. rewrite Z.mod_small; lia.
  - rewrite IH; [apply Hlast|..].
    + pose proof (Z.div_mod n 10). lia.
    + split; [apply Z.div_pos; lia|]. apply Z.div_lt_upper_bound; lia.
    + pose proof (Z.div_le_upper_bound n 10 n). lia.
Qed.

Lemma digits_S fuel n : digits (S fuel) n <> "".
Proof. cbn [digits]. by destruct (n <? 10)%Z, (digits fuel (n / 10)). Qed.

(** A [uint64] survives being formatted and parsed. *)
Lemma parse_format_uint n : is_uint64 n -> parse_uint (format_uint n) = Ok n.
Proof.
  intros [Hn Hmax]. unfold parse_uint, format_uint.
  destruct (digits _ n) eqn:E; [by apply digits_S in E|]. rewrite <- E.
  apply parse_digits_digits; [|done]. split; [done|].
  rewrite Nat2Z.inj_succ, Z2Nat.id by apply Z.log2_nonneg.
  destruct (decide (n = 0)%Z) as [->|]; [done|]. apply Z.log2_spec. lia.
Qed.

Lemma format_int_nonneg n : (0 <= n)%Z -> format_int n = format_uint n.
Proof. intros H. unfold format_int. by destruct (Z.ltb_spec n 0); [lia|]. Qed.

(** The operand ["<n>b"] of a size determines the size. *)
Lemma format_size_inj m n : is_uint64 m -> is_uint64 n ->
  format_int m +:+ "b" = format_int n +:+ "b" -> m = n.
Proof.
  intros Hm Hn E. apply (string_app_inj_r _ _ "b") in E.
  rewrite !format_int_nonneg in E by (unfold is_uint64 in *; lia).
  apply parse_format_uint in Hm, Hn. congruence.
Qed.

Lemma digits_head fuel n : (0 <= n)%Z ->
  forall a s, digits fuel n = String a s -> is_Some (digit_value a).
Proof.
  revert n. induction fuel as [|f IH]; intros n Hn a s; cbn [digits]; [done|].
  pose proof (Z.mod_pos_bound n 10 ltac:(lia)).
  destruct (n <? 10)%Z; cbn.
  - intros [= <- <-]. rewrite digit_value_digit by lia. eauto.
  - destruct (digits f (n / 10)) as [|b t] eqn:E; cbn.
    + intros [= <- <-]. rewrite digit_value_digit by lia. eauto.
    + intros [= <- <-]. eapply IH, E. apply Z.div_pos; lia.
Qed.

(** An [int64] survives being formatted and parsed. *)
Lemma parse_format_int n : is_int64 n -> parse_int (format_int n) = Ok n.
Proof.
  unfold is_int64, min_int64, max_int64, two63. intros Hn. unfold parse_int, format_int.
  destruct (Z.ltb_spec n 0).
  - cbn -[parse_uint format_uint]. rewrite parse_format_uint by (unfold is_uint64, max_uint64, two64; lia).
    destruct (Z.ltb_spec two63 (- n)); unfold two63 in *; [lia|f_equal; lia].
  - assert (Hp : parse_uint (format_uint n) = Ok n)
      by (apply parse_format_uint; unfold is_uint64, max_uint64, two64; lia).
    destruct (format_uint n) as [|a s] eqn:E; [done|].
    destruct (digits_head _ n ltac:(lia) _ _ E) as [d Hd].
    destruct (Ascii.eqb_spec a "+") as [->|]; [done|].
    destruct (Ascii.eqb_spec a "-") as [->|]; [done|].
    rewrite Hp. destruct (Z.leb_spec two63 n); unfold two63 in *; [lia|done].
Qed.

Lemma parse_uint_bounds s n : parse_uint s = Ok n -> is_uint64 n.
Proof.
  assert (Hgo : forall acc, is_uint64 acc -> parse_digits s acc = Ok n -> is_uint64 n).
  { induction s as [|a s IH]; intros acc Hacc; cbn; [by intros [= <-]|].
    unfold digit_value. destruct (_ && _) eqn:Hd; [|done]. go_bool.
    destruct (Z.ltb_spec max_uint64 (acc * 10 + (Z.of_nat (Ascii.nat_of_ascii a) - 48))); [done|].
    apply IH. unfold is_uint64 in *. rewrite Nat.leb_le in *. lia. }
  unfold parse_uint. destruct s; [done|]. apply Hgo. split; [done|].
  by vm_compute.
Qed.

Lemma parse_int_bounds s n : parse_int s = Ok n -> is_int64 n.
Proof.
  unfold parse_int, is_int64, min_int64, max_int64. intros H.
  destruct s as [|a s]; [done|].
  destruct (Ascii.eqb a "+"); [|destruct (Ascii.eqb a "-")];
    (destruct (parse_uint _) as [u|] eqn:E; [|done]); apply parse_uint_bounds in E;
    unfold is_uint64 in E; unfold two63 in *;
    match type of H with context [if ?b then _ else _] => destruct b eqn:? end; go_bool;
    simplify_eq; lia.
Qed.

Example format_ex : format_int 1048576 = "1048576" /\ format_int (-20) = "-20" /\ format_int 0 = "0".
Proof. vm_compute. auto. Qed.
Example fields_ex : fields "  vg02 thin-pool	vg02-thinpool 1 " = ["vg02"; "thin-pool"; "vg02-thinpool"; "1"].
Proof. reflexivity. Qed.
Example trim_ex : trim_space "  vg 1 " = "vg 1".
Proof. reflexivity. Qed.
Example duration_ex : duration_string (3 * minute + 30 * second) = "3m30s" /\
  duration_string 1500000 = "1.5ms" /\ duration_string (18 * minute) = "18m0s".
Proof. vm_compute. auto. Qed.
