(* ===== verification/Errors.v ===== *)
(** * Go errors and gRPC status codes

    An error the driver builds is kept as its format string and operands, not as
    rendered text: [Errorf] for [fmt.Errorf] without [%w], [Wrapf] for one whose
    [%w] operand is the last argument here, [Status] for [status.Errorf] and
    [status.Error] (whose message is the operand of a ["%s"]).  An error that
    comes from outside (a command, the Kubernetes API, the file system) is an
    [Ext]: what the driver can observe of it through [errors.Is], [errors.As],
    [k8serror.IsNotFound], [os.IsExist] and [err.Error()]. *)
From S2P Require Import Prelude.

(** [codes.Code] of google.golang.org/grpc. *)
Inductive code :=
| OK | Canceled | Unknown | InvalidArgument | DeadlineExceeded | NotFound | AlreadyExists
| PermissionDenied | ResourceExhausted | FailedPrecondition | Aborted | OutOfRange
| Unimplemented | Internal | Unavailable | DataLoss | Unauthenticated.

#[export] Instance code_eq_dec : EqDecision code.
Proof. solve_decision. Defined.

Record ext_error := mkExt {
  ext_msg : string;              (* err.Error() *)
  ext_not_found : bool;          (* k8serror.IsNotFound *)
  ext_already_exists : bool;     (* k8serror.IsAlreadyExists *)
  ext_cmd_timeout : bool;        (* errors.Is(err, cmd.ErrCmdTimeout) *)
  ext_exit_code : option Z;      (* errors.As to ExitCode() *)
  ext_code : option code;        (* GRPCStatus() *)
  ext_os_exist : bool;           (* os.IsExist *)
  ext_os_not_exist : bool;       (* os.IsNotExist *)
}.

(** An outside error with a message and nothing else to observe. *)
Definition plain_error (msg : string) : ext_error :=
  mkExt msg false false false None None false false.

Inductive error :=
| Ext (x : ext_error)
| Errorf (format : string) (args : list arg)
| Wrapf (format : string) (args : list arg) (wrapped : error)
| Status (c : code) (format : string) (args : list arg)
with arg :=
| AStr (s : string)
| AInt (z : Z)
| AErr (e : error).

(** [errors.As] and [errors.Is] follow the chain of [%w] operands. *)
Fixpoint ext_of (e : error) : option ext_error :=
  match e with Ext x => Some x | Wrapf _ _ w => ext_of w | _ => None end.

Definition observe (f : ext_error -> bool) (e : error) : bool :=
  match ext_of e with Some x => f x | None => false end.

(** [k8serror.IsNotFound], [k8serror.IsAlreadyExists], [errors.Is(_, cmd.ErrCmdTimeout)] *)
Definition is_not_found (e : error) : bool := observe ext_not_found e.
Definition is_already_exists (e : error) : bool := observe ext_already_exists e.
Definition is_cmd_timeout (e : error) : bool := observe ext_cmd_timeout e.

(** [status.Code] of an error that is not nil. *)
Fixpoint status_code (e : error) : code :=
  match e with
  | Ext x => default Unknown (ext_code x)
  | Errorf _ _ => Unknown
  | Wrapf _ _ w => status_code w
  | Status c _ _ => c
  end.

(** [status.Error(c, err.Error())] *)
Definition status_error (c : code) (e : error) : error := Status c "%s" [AErr e].

(** The answer of a handler as its client sees it: [codes.OK] or the error's code. *)
Definition code_of {A} (r : result error A) : code :=
  match r with Ok _ => OK | Err e => status_code e end.

(** The two errors of a done [context.Context]. *)
Inductive ctx_error := CtxDeadlineExceeded | CtxCanceled.

(** [status.FromContextError(err).Err()] *)
Definition from_context_error (e : ctx_error) : error :=
  match e with
  | CtxDeadlineExceeded => Status DeadlineExceeded "context deadline exceeded" []
  | CtxCanceled => Status Canceled "context canceled" []
  end.
