(* ===== verification/Objects.v ===== *)
(** * Kubernetes objects and CSI messages

    The fields of the API objects (k8s.io/api, external-snapshotter) and of the
    CSI protobuf messages that the driver reads or writes.  A nil pointer is
    [None], a nil map is [∅], a nil slice is [\[\]]; a protobuf getter on a nil
    message is the zero value, as in the generated code. *)
From S2P Require Import Prelude.

(** ** Pods *)

Record volume_mount := {
  vm_name : string; vm_path : string; vm_propagation : option string; vm_read_only : bool }.
Record host_path := { hp_path : string; hp_type : option string }.
Record volume := { vol_name : string; vol_host_path : option host_path }.
Record toleration := { tol_key : string; tol_operator : string; tol_value : string; tol_effect : string }.
Record container := {
  c_name : string; c_image : string; c_command : list string; c_args : list string;
  c_mounts : list volume_mount; c_termination_path : string; c_termination_policy : string;
  c_pull_policy : string; c_privileged : option bool }.
Record pod_spec := {
  ps_automount_token : option bool; ps_restart_policy : string; ps_node_name : string;
  ps_active_deadline : option Z; ps_grace_period : option Z; ps_tolerations : list toleration;
  ps_containers : list container; ps_volumes : list volume }.
Record terminated := { t_exit_code : Z; t_reason : string; t_message : string }.
Record container_status := { cs_name : string; cs_terminated : option terminated }.
Record pod_status := {
  st_phase : string; st_reason : string; st_message : string;
  st_containers : list container_status }.
Record pod := {
  pod_name : string; pod_labels : gmap string string; pod_annotations : gmap string string;
  pod_deletion : option Z; pod_spec_of : pod_spec; pod_status_of : pod_status }.

Definition no_status : pod_status :=
  {| st_phase := ""; st_reason := ""; st_message := ""; st_containers := [] |}.

(** ** Persistent volumes, config maps and snapshot contents *)

Record node_requirement := { nr_key : string; nr_operator : string; nr_values : list string }.
(** A [NodeSelectorTerm] is its [MatchExpressions]; [VolumeNodeAffinity.Required] its terms. *)
Record node_affinity := { na_required : option (list (list node_requirement)) }.
Record persistent_volume := {
  pv_name : string;
  pv_csi : option (gmap string string);  (* Spec.CSI.VolumeAttributes *)
  pv_affinity : option node_affinity }.

Record config_map := {
  cm_name : string; cm_namespace : string; cm_labels : gmap string string;
  cm_immutable : option bool; cm_data : gmap string string }.

Record snapshot_status := { ss_handle : option string; ss_restore_size : option Z }.
Record snapshot_content := {
  sc_name : string; sc_annotations : gmap string string;
  sc_volume_handle : option string; sc_snapshot_handle : option string;  (* Spec.Source *)
  sc_status : option snapshot_status }.

(** ** CSI messages *)

Record capacity_range := { required_bytes : Z; limit_bytes : Z }.

(** The [AccessType] oneof. *)
Inductive access_type :=
| AccessNone
| AccessBlock
| AccessMount (fs_type : string) (mount_flags : list string).

(** [VolumeCapability_AccessMode_Mode], an open protobuf enumeration. *)
Definition SINGLE_NODE_WRITER : Z := 1.
Definition SINGLE_NODE_READER_ONLY : Z := 2.
Definition MULTI_NODE_READER_ONLY : Z := 3.
Definition MULTI_NODE_SINGLE_WRITER : Z := 4.
Definition MULTI_NODE_MULTI_WRITER : Z := 5.
Definition SINGLE_NODE_SINGLE_WRITER : Z := 6.
Definition SINGLE_NODE_MULTI_WRITER : Z := 7.

Record volume_capability := { vc_access : access_type; vc_mode : option Z }.

Definition has_block (c : volume_capability) : bool :=
  match vc_access c with AccessBlock => true | _ => false end.
Definition has_mount (c : volume_capability) : bool :=
  match vc_access c with AccessMount _ _ => true | _ => false end.

(** A [Topology] is its segments. *)
Record topology_requirement := {
  requisite : list (gmap string string); preferred : list (gmap string string) }.

(** The [VolumeContentSource] oneof; the id is empty for a nil member. *)
Inductive content_source :=
| SourceNone
| SourceSnapshot (id : string)
| SourceVolume (id : string).

Record create_volume_request := {
  cv_name : string; cv_capacity : option capacity_range;
  cv_capabilities : list (option volume_capability); cv_parameters : gmap string string;
  cv_source : option content_source; cv_accessibility : option topology_requirement }.
Record csi_volume := {
  v_id : string; v_capacity : Z; v_context : gmap string string;
  v_source : option content_source; v_topology : list (gmap string string) }.
Record delete_volume_request := { dv_id : string }.
Record validate_capabilities_request := {
  vq_id : string; vq_context : gmap string string;
  vq_capabilities : list (option volume_capability); vq_parameters : gmap string string }.
Record create_snapshot_request := { cr_source_volume : string; cr_name : string }.
Record csi_snapshot := {
  sn_id : string; sn_source : string; sn_size : Z; sn_created : Z; sn_ready : bool }.
Record delete_snapshot_request := { ds_id : string }.
Record node_publish_request := {
  np_volume : string; np_target : string; np_capability : option volume_capability;
  np_read_only : bool; np_context : gmap string string }.
Record node_unpublish_request := { nu_volume : string; nu_target : string }.
Record node_expand_request := {
  ne_volume : string; ne_path : string; ne_capacity : option capacity_range }.
