(* ===== verification/Effects.v ===== *)
(** * Programs over the outside world

    A driver function that talks to the outside is a [prog]: a tree whose nodes
    are effects ([eff]) and whose branches are the answers ([resp]).  [env] says
    which answers an outside world may give and how its state changes; [wp] is
    the total weakest precondition of a program in such a world, [run] executes
    a program against a computed world.  [Diverge] has no answer: a loop that
    runs out of fuel ends in it, and [wp] holds only where no world state allows
    it, so a proved [wp] includes that the fuel was enough. *)
From S2P Require Import Prelude Errors Objects.

(** Which context a request to the API server carries. *)
Inductive request_ctx := RequestCtx | DetachedCtx.

(** What the driver reads of an [os.FileInfo] and of a [unix.Statfs_t]. *)
Record file_info := { fi_is_dir : bool; fi_is_symlink : bool }.
Record statfs := { fs_bsize : Z; fs_blocks : Z; fs_bfree : Z; fs_files : Z; fs_ffree : Z }.

Inductive eff :=
(* commands of the host, run with a timeout in nanoseconds *)
| Exec (timeout : Z) (command : string) (args : list string)
(* files and devices of the host *)
| MkdirAll (path : string)
| Chmod (path : string)
| CreateExclusive (path : string)
| CloseFile (path : string)
| Lstat (path : string)
| Stat (path : string)
| Remove (path : string)
| OpenDevice (write : bool) (path : string)
| CopyDevice (src dst : string)
| SyncDevice (path : string)
| Statfs (path : string)
(* the Kubernetes API *)
| PodGet (namespace name : string)
| PodList (namespace : string)
| PodCreate (namespace : string) (p : pod)
| PodDelete (ctx : request_ctx) (namespace name : string) (grace : option Z)
| PersistentVolumeGet (name : string)
| NodeGet (name : string)
| ConfigMapGet (namespace name : string)
| ConfigMapCreate (namespace : string) (cm : config_map)
| ConfigMapDelete (namespace name : string)
| SnapshotContentList
(* the request's context, the poll timer, the clock, the admission mutex *)
| CtxErr
| WaitRetry
| UnixNow
| AdmissionLock
| AdmissionUnlock
(* no more fuel *)
| Diverge.

Definition resp (e : eff) : Type :=
  match e with
  | Exec _ _ _ => string * option ext_error
  | MkdirAll _ | Chmod _ | CreateExclusive _ | CloseFile _ | Remove _ => option ext_error
  | Lstat _ | Stat _ => result ext_error file_info
  | OpenDevice _ _ | CopyDevice _ _ | SyncDevice _ => option ext_error
  | Statfs _ => result ext_error statfs
  | PodGet _ _ => result ext_error (option pod)
  | PodList _ => result ext_error (list pod)
  | PodCreate _ _ => option ext_error
  | PodDelete _ _ _ _ => option ext_error
  | PersistentVolumeGet _ => result ext_error (option persistent_volume)
  | NodeGet _ => option ext_error
  | ConfigMapGet _ _ => result ext_error (option config_map)
  | ConfigMapCreate _ _ => option ext_error
  | ConfigMapDelete _ _ => option ext_error
  | SnapshotContentList => result ext_error (list snapshot_content)
  | CtxErr => option ctx_error
  | WaitRetry => option ctx_error
  | UnixNow => Z
  | AdmissionLock => unit
  | AdmissionUnlock => unit
  | Diverge => Empty_set
  end.

Inductive prog (R : Type) : Type :=
| Ret (r : R)
| Vis (e : eff) (k : resp e -> prog R).
Arguments Ret {R} r.
Arguments Vis {R} e k.

Fixpoint bind {R T} (p : prog R) (f : R -> prog T) : prog T :=
  match p with
  | Ret r => f r
  | Vis e k => Vis e (fun x => bind (k x) f)
  end.

Definition call (e : eff) : prog (resp e) := Vis e Ret.
Definition diverge {R} : prog R := Vis Diverge (fun x : resp Diverge => match x with end).

Notation "'let*' x ':=' p 'in' k" := (bind p (fun x => k))
  (at level 10, x pattern, p at level 100, k at level 200) : go_scope.

(** [if err != nil { return err }] on a function that returns an error only. *)
Definition try {T} (p : prog (option error)) (fail : error -> T) (k : prog T) : prog T :=
  let* e := p in match e with Some e => Ret (fail e) | None => k end.

(** [x, err := f(); if err != nil { return zero, err }] *)
Definition try_ok {A B} (p : prog (result error A)) (k : A -> prog (result error B)) :
    prog (result error B) :=
  let* r := p in match r with Err e => Ret (Err e) | Ok a => k a end.
Notation "'let*!' x ':=' p 'in' k" := (try_ok p (fun x => k))
  (at level 10, x pattern, p at level 100, k at level 200) : go_scope.

(** A pure check in an effectful function: [if err := f(); err != nil { return zero, err }]. *)
Definition check_ok {A B} (r : result error A) (k : A -> prog (result error B)) :
    prog (result error B) :=
  match r with Err e => Ret (Err e) | Ok a => k a end.
Notation "'let?' x ':=' r 'in' k" := (check_ok r (fun x => k))
  (at level 10, x pattern, r at level 100, k at level 200) : go_scope.

(** ** The monad laws *)

Lemma bind_ret_l {R T} (r : R) (f : R -> prog T) : bind (Ret r) f = f r.
Proof. reflexivity. Qed.

(** Programs are compared up to pointwise equal continuations. *)
Inductive prog_eq {R} : prog R -> prog R -> Prop :=
| eq_ret r : prog_eq (Ret r) (Ret r)
| eq_vis e k1 k2 : (forall x, prog_eq (k1 x) (k2 x)) -> prog_eq (Vis e k1) (Vis e k2).

#[export] Instance prog_eq_refl {R} : Reflexive (@prog_eq R).
Proof. intros p. induction p; constructor; auto. Qed.

Lemma bind_ret_r {R} (p : prog R) : prog_eq (bind p Ret) p.
Proof. induction p; cbn; constructor; auto. Qed.

Lemma bind_assoc {R T U} (p : prog R) (f : R -> prog T) (g : T -> prog U) :
  prog_eq (bind (bind p f) g) (bind p (fun r => bind (f r) g)).
Proof. induction p as [r|e k IH]; cbn; [reflexivity|]. constructor; auto. Qed.

(** ** Every effect of a program *)

Fixpoint all_effects {R} (P : eff -> Prop) (p : prog R) : Prop :=
  match p with Ret _ => True | Vis e k => P e /\ forall x, all_effects P (k x) end.

Lemma all_effects_bind {R T} P (p : prog R) (f : R -> prog T) :
  all_effects P p -> (forall r, all_effects P (f r)) -> all_effects P (bind p f).
Proof. induction p as [r|e k IH]; cbn; [auto|]. intros [He Hk] Hf. eauto. Qed.

(** Every value a program can return. *)
Fixpoint all_results {R} (Q : R -> Prop) (p : prog R) : Prop :=
  match p with Ret r => Q r | Vis _ k => forall x, all_results Q (k x) end.

Lemma all_results_bind {R T} (P : R -> Prop) Q (p : prog R) (f : R -> prog T) :
  all_results P p -> (forall r, P r -> all_results Q (f r)) -> all_results Q (bind p f).
Proof. induction p as [r|e k IH]; cbn; eauto. Qed.

(** ** Worlds and weakest preconditions *)

Record env (S : Type) := {
  allowed : S -> eff -> Prop;
  step : S -> forall e : eff, resp e -> S -> Prop }.
Arguments allowed {S} _ _ _.
Arguments step {S} _ _ _ _ _.

Fixpoint wp {S R} (E : env S) (p : prog R) (Q : R -> S -> Prop) (s : S) : Prop :=
  match p with
  | Ret r => Q r s
  | Vis e k => allowed E s e /\ forall x s', step E s e x s' -> wp E (k x) Q s'
  end.

Section wp.
Context {S : Type} (E : env S).

Lemma wp_mono {R} (p : prog R) (Q Q' : R -> S -> Prop) s :
  (forall r s, Q r s -> Q' r s) -> wp E p Q s -> wp E p Q' s.
Proof.
  intros HQ. revert s. induction p as [r|e k IH]; intros s; cbn; [auto|].
  intros [Ha Hk]. split; [done|]. eauto.
Qed.

Lemma wp_bind {R T} (p : prog R) (f : R -> prog T) Q s :
  wp E p (fun r => wp E (f r) Q) s <-> wp E (bind p f) Q s.
Proof.
  revert s. induction p as [r|e k IH]; intros s; cbn; [done|].
  split; intros [Ha Hk]; (split; [done|]); intros x s' Hs; apply IH, Hk, Hs.
Qed.

Lemma wp_bind_in {R T} (p : prog R) (f : R -> prog T) Q s :
  wp E p (fun r s => wp E (f r) Q s) s -> wp E (bind p f) Q s.
Proof. apply wp_bind. Qed.

Lemma wp_bind_mono {R T} (p : prog R) (f : R -> prog T) P Q s :
  wp E p P s -> (forall r s, P r s -> wp E (f r) Q s) -> wp E (bind p f) Q s.
Proof. intros Hp Hf. apply wp_bind. by eapply wp_mono. Qed.

Lemma wp_and {R} (p : prog R) Q Q' s :
  wp E p Q s -> wp E p Q' s -> wp E p (fun r s => Q r s /\ Q' r s) s.
Proof.
  revert s. induction p as [r|e k IH]; intros s; cbn; [auto|].
  intros [Ha Hk] [_ Hk']. split; [done|]. eauto.
Qed.

(** A program that is right in one world is right in a world that allows more and
    answers no more. *)
Lemma wp_env_mono {R} (E' : env S) (p : prog R) Q s :
  (forall s e, allowed E s e -> allowed E' s e) ->
  (forall s e x s', allowed E s e -> step E' s e x s' -> step E s e x s') ->
  wp E p Q s -> wp E' p Q s.
Proof.
  intros Ha Hs. revert s. induction p as [r|e k IH]; intros s; cbn; [done|].
  intros [Hal Hk]. split; [auto|]. intros x s' Hx. apply IH, Hk. auto.
Qed.

(** ... where only the effects the program has count. *)
Lemma wp_env_mono_effects {R} (E' : env S) (P : eff -> Prop) (p : prog R) Q s :
  all_effects P p ->
  (forall s e, P e -> allowed E s e -> allowed E' s e) ->
  (forall s e x s', P e -> allowed E s e -> step E' s e x s' -> step E s e x s') ->
  wp E p Q s -> wp E' p Q s.
Proof.
  intros HP Ha Hs. revert s. induction p as [r|e k IH]; intros s; cbn; [done|].
  destruct HP as [He Hall]. intros [Hal Hk]. split; [auto|]. intros x s' Hx. apply IH, Hk; [apply Hall|auto].
Qed.

Lemma wp_try_ok {A B} (p : prog (result error A)) (k : A -> prog (result error B)) P Q s :
  wp E p P s ->
  (forall a s, P (Ok a) s -> wp E (k a) Q s) ->
  (forall e s, P (Err e) s -> Q (Err e) s) ->
  wp E (try_ok p k) Q s.
Proof. intros Hp Ha He. eapply wp_bind_mono; [exact Hp|]. intros [a|e] s' HP; cbn; auto. Qed.

Lemma wp_try {T} (p : prog (option error)) (fail : error -> T) k P Q s :
  wp E p P s ->
  (forall s, P None s -> wp E k Q s) ->
  (forall e s, P (Some e) s -> Q (fail e) s) ->
  wp E (try p fail k) Q s.
Proof. intros Hp Hn He. eapply wp_bind_mono; [exact Hp|]. intros [e|] s' HP; cbn; auto. Qed.
End wp.

(** Simulation: what holds of a program in a world holds in every world related to it. *)
Lemma wp_sim {S S' R} (E : env S) (E' : env S') (rel : S -> S' -> Prop) (p : prog R) Q s s' :
  (forall s s' e, rel s s' -> allowed E s e ->
     allowed E' s' e /\ forall x t', step E' s' e x t' -> exists t, step E s e x t /\ rel t t') ->
  rel s s' -> wp E p Q s -> wp E' p (fun r t' => exists t, rel t t' /\ Q r t) s'.
Proof.
  intros Hsim. revert s s'. induction p as [r|e k IH]; intros s s' Hr; cbn; [eauto|].
  intros [Ha Hk]. destruct (Hsim _ _ _ Hr Ha) as [Ha' Hs]. split; [done|].
  intros x t' Hx. destruct (Hs _ _ Hx) as (t & Ht & Hrt). eapply IH; eauto.
Qed.

#[export] Instance wp_proper {S R} (E : env S) (p : prog R) :
  Proper (pointwise_relation _ (pointwise_relation _ iff) ==> pointwise_relation _ iff) (wp E p).
Proof. intros Q Q' HQ s. split; apply wp_mono; intros r s' H; by apply HQ. Qed.

#[export] Instance wp_prog_eq {S R} (E : env S) :
  Proper (prog_eq ==> eq ==> eq ==> iff) (@wp S R E).
Proof.
  intros p q Hpq Q ? <- s ? <-. revert s. induction Hpq as [r|e k1 k2 _ IH]; intros s; cbn; [done|].
  split; intros [Ha Hk]; (split; [done|]); intros x s' Hs; apply IH, Hk, Hs.
Qed.

(** ** Running a program against a computed world *)

Fixpoint run {S R} (h : forall e, S -> option (resp e * S)) (p : prog R) (s : S) : option (R * S) :=
  match p with
  | Ret r => Some (r, s)
  | Vis e k => match h e s with Some (x, s') => run h (k x) s' | None => None end
  end.

(** A computed world that only gives answers [E] may give realises every [wp]. *)
Lemma wp_run {S R} (E : env S) h (p : prog R) Q s :
  (forall e s x s', h e s = Some (x, s') -> step E s e x s') ->
  wp E p Q s -> forall r s', run h p s = Some (r, s') -> Q r s'.
Proof.
  intros Hh. revert s. induction p as [r0|e k IH]; intros s; cbn; [by intros ? ? ? [= -> ->]|].
  intros [_ Hk] r s'. destruct (h e s) as [[x s1]|] eqn:He; [|done]. eauto.
Qed.

(** ... and one that answers everything [E] allows runs it to its end. *)
Lemma wp_run_total {S R} (E : env S) h (p : prog R) Q s :
  (forall e s, allowed E s e -> exists x s', h e s = Some (x, s') /\ step E s e x s') ->
  wp E p Q s -> exists r s', run h p s = Some (r, s') /\ Q r s'.
Proof.
  intros Hh. revert s. induction p as [r0|e k IH]; intros s; cbn; [eauto|].
  intros [Ha Hk]. destruct (Hh _ _ Ha) as (x & s1 & -> & Hs). eauto.
Qed.

(** ** Executions *)

(** The program ends with [r], the world in [s'], after answers that [E] may give. *)
Fixpoint executes {S R} (E : env S) (p : prog R) (s : S) (r : R) (s' : S) : Prop :=
  match p with
  | Ret x => r = x /\ s' = s
  | Vis e k => exists x t, step E s e x t /\ executes E (k x) t r s'
  end.

Lemma wp_executes {S R} (E : env S) (p : prog R) Q s r s' :
  wp E p Q s -> executes E p s r s' -> Q r s'.
Proof.
  revert s. induction p as [r0|e k IH]; intros s; cbn; [by intros HQ [-> ->]|].
  intros [_ Hk] (x & t & Hs & Hx). eauto.
Qed.

Lemma executes_bind {S R T} (E : env S) (p : prog R) (f : R -> prog T) s r s' :
  executes E (bind p f) s r s' <-> exists x t, executes E p s x t /\ executes E (f x) t r s'.
Proof.
  revert s. induction p as [r0|e k IH]; intros s; cbn.
  - split; [by exists r0, s|]. by intros (x & t & [-> ->] & H).
  - setoid_rewrite IH. naive_solver.
Qed.

(** A host that answers commands from a script and logs them, newest first. *)
Definition script : Type := list (string * option ext_error) * list (string * list string).
Definition script_step (e : eff) (s : script) : option (resp e * script) :=
  match e as e return option (resp e * script) with
  | Exec _ c a => match fst s with
                  | x :: rest => Some (x, (rest, (c, a) :: snd s))
                  | [] => None
                  end
  | _ => None
  end.
(** The result of a program under a script and the commands it ran, in order. *)
Definition run_script {R} (p : prog R) (answers : list (string * option ext_error)) :
    option (R * list (string * list string)) :=
  match run script_step p (answers, []) with
  | Some (r, (_, log)) => Some (r, List.rev log)
  | None => None
  end.

(** ** Tactics *)

(** One step of a [wp] goal: run pure code, or take the next effect's answer. *)
Ltac wp_step := cbn [wp bind call try try_ok check_ok diverge]; try (split; [|intros ? ? ?]).
