(* ===== verification/Config.v ===== *)
(** * Driver and helper configuration: helper_config.go, NewLvmDriver of lvm.go

    Durations are [int64] nanoseconds.  The two process-wide timeouts of lvm.go
    ([commandTimeoutNanos], [thinPoolTimeoutNanos]) are the record [timeouts]. *)
From S2P Require Import Prelude GoStrings Errors.

(** ** Constants of lvm.go and of pkg/utils *)

Definition ThinVolType := "thin".
Definition ThinPoolType := "thin-pool".
Definition LinearType := "linear".
Definition StripedType := "striped".
Definition DmThinType := "dm-thin".
Definition thinPoolDataExtents := "90%FREE".
Definition thinPoolChunkSize := "512K".
Definition thinPoolMetadataSize := "16G".
Definition actionTypeCreate := "create".
Definition actionTypeDelete := "delete".
Definition actionTypeClone := "clone".
Definition pullIfNotPresent := "ifnotpresent".
Definition LVMCSIDriver := "lvm.driver.harvesterhci.io".
Definition topologyKeyNode := "topology.lvm.csi/node".

(** ** HelperConfig *)

Definition DefaultHelperCommandTimeout : Z := (3 * minute)%Z.
Definition DefaultHelperPodTimeout : Z := (3 * minute + 30 * second)%Z.
Definition DefaultThinPoolCreateTimeout : Z := (15 * minute)%Z.
Definition DefaultThinPoolPodTimeout : Z := (18 * minute)%Z.
Definition DefaultMaxActiveHelpers : Z := 3.

Record HelperConfig := {
  CommandTimeout : Z; PodTimeout : Z; ThinPoolCreateTimeout : Z; ThinPoolPodTimeout : Z;
  MaxActive : Z }.

Definition DefaultHelperConfig : HelperConfig := {|
  CommandTimeout := DefaultHelperCommandTimeout;
  PodTimeout := DefaultHelperPodTimeout;
  ThinPoolCreateTimeout := DefaultThinPoolCreateTimeout;
  ThinPoolPodTimeout := DefaultThinPoolPodTimeout;
  MaxActive := DefaultMaxActiveHelpers |}.

(** [HelperConfig.validate] *)
Definition validate (c : HelperConfig) : result error unit :=
  reject (CommandTimeout c <=? 0)%Z
    with Errorf "helper command timeout must be greater than zero" [];
  reject (PodTimeout c <=? CommandTimeout c)%Z
    with Errorf "helper pod timeout %s must be greater than command timeout %s"
           [AStr (duration_string (PodTimeout c)); AStr (duration_string (CommandTimeout c))];
  reject (ThinPoolCreateTimeout c <=? 0)%Z
    with Errorf "thin-pool creation timeout must be greater than zero" [];
  reject (ThinPoolPodTimeout c <=? ThinPoolCreateTimeout c)%Z
    with Errorf "thin-pool helper pod timeout %s must be greater than creation timeout %s"
           [AStr (duration_string (ThinPoolPodTimeout c));
            AStr (duration_string (ThinPoolCreateTimeout c))];
  reject (MaxActive c <=? 0)%Z
    with Errorf "maximum active helpers must be greater than zero" [];
  Ok tt.
#[global] Arguments validate : simpl never.

(** ** The process-wide command timeouts *)

Record timeouts := { commandTimeout : Z; thinPoolCreateTimeout : Z }.

(** [init] of lvm.go *)
Definition initial_timeouts : timeouts := {|
  commandTimeout := DefaultHelperCommandTimeout;
  thinPoolCreateTimeout := DefaultThinPoolCreateTimeout |}.

Definition SetCommandTimeout (timeout : Z) (t : timeouts) : result error timeouts :=
  reject (timeout <=? 0)%Z with Errorf "command timeout must be greater than zero" [];
  Ok {| commandTimeout := timeout; thinPoolCreateTimeout := thinPoolCreateTimeout t |}.

Definition SetThinPoolCreateTimeout (timeout : Z) (t : timeouts) : result error timeouts :=
  reject (timeout <=? 0)%Z with Errorf "thin-pool creation timeout must be greater than zero" [];
  Ok {| commandTimeout := commandTimeout t; thinPoolCreateTimeout := timeout |}.

(** ** The driver *)

Record Lvm := {
  name : string; nodeID : string; version : string; endpoint : string; hostWritePath : string;
  maxVolumesPerNode : Z; provisionerImage : string; pullPolicy : string; namespace : string;
  helperConfig : HelperConfig }.

Definition DriverOption : Type := Lvm -> result error Lvm.

Definition WithHelperConfig (config : HelperConfig) : DriverOption := fun driver =>
  let! _ := validate config in
  Ok {| name := name driver; nodeID := nodeID driver; version := version driver;
        endpoint := endpoint driver; hostWritePath := hostWritePath driver;
        maxVolumesPerNode := maxVolumesPerNode driver;
        provisionerImage := provisionerImage driver; pullPolicy := pullPolicy driver;
        namespace := namespace driver; helperConfig := config |}.

Fixpoint apply_options (options : list DriverOption) (driver : Lvm) : result error Lvm :=
  match options with
  | [] => Ok driver
  | option :: options =>
      match option driver with
      | Err e => Err (Wrapf "invalid driver option: %w" [] e)
      | Ok driver => apply_options options driver
      end
  end.

(** [NewLvmDriver]; [vendorVersion] is the package variable, returned updated. *)
Definition NewLvmDriver (vendorVersion driverName nodeId endpt hostWrite : string)
    (maxVolumes : Z) (vers ns image policy : string) (options : list DriverOption) :
    result error Lvm * string :=
  if driverName =s "" then (Err (Errorf "no driver name provided" []), vendorVersion)
  else if nodeId =s "" then (Err (Errorf "no node id provided" []), vendorVersion)
  else if endpt =s "" then (Err (Errorf "no driver endpoint provided" []), vendorVersion)
  else
    let vendorVersion := if vers =s "" then vendorVersion else vers in
    let pp := if to_lower policy =s pullIfNotPresent then "IfNotPresent" else "Always" in
    (apply_options options {|
       name := driverName; version := vendorVersion; nodeID := nodeId; endpoint := endpt;
       hostWritePath := hostWrite; maxVolumesPerNode := maxVolumes; namespace := ns;
       provisionerImage := image; pullPolicy := pp; helperConfig := DefaultHelperConfig |},
     vendorVersion).

(** ** Lemmas *)

(** What [validate] accepts. *)
Record valid_config (c : HelperConfig) : Prop := {
  valid_command : (0 < CommandTimeout c)%Z;
  valid_pod : (CommandTimeout c < PodTimeout c)%Z;
  valid_thin : (0 < ThinPoolCreateTimeout c)%Z;
  valid_thin_pod : (ThinPoolCreateTimeout c < ThinPoolPodTimeout c)%Z;
  valid_active : (0 < MaxActive c)%Z }.

Lemma validate_ok c : validate c = Ok tt <-> valid_config c.
Proof.
  unfold validate. split.
  - intros H. go_ok. by constructor.
  - intros [? ? ? ? ?].
    repeat match goal with |- context [(?a <=? ?b)%Z] =>
      destruct (Z.leb_spec a b); [lia|]; cbn [guard rbind] end. reflexivity.
Qed.

Lemma default_config_valid : valid_config DefaultHelperConfig.
Proof. by apply validate_ok. Qed.

(** Every driver that [NewLvmDriver] builds with [WithHelperConfig] options runs
    with a valid configuration. *)
Lemma apply_options_valid options driver d :
  Forall (fun o => exists c, o = WithHelperConfig c) options ->
  valid_config (helperConfig driver) ->
  apply_options options driver = Ok d -> valid_config (helperConfig d).
Proof.
  intros Ho. revert driver. induction Ho as [|o options [c ->] _ IH]; intros driver Hv; cbn.
  - by intros [= <-].
  - unfold WithHelperConfig. destruct (validate c) as [[]|e] eqn:Hc; cbn; [|done].
    apply IH. cbn. by apply validate_ok.
Qed.
#[export] Hint Resolve default_config_valid : go.
