(* ===== verification/Validation.v ===== *)
(** * Request and object validation: validation.go

    Each function is a pure function of the message or API object it inspects.
    The order of the checks is the source's, so the error of a request with
    several defects is the one the code returns. *)
From S2P Require Import Prelude GoStrings Errors Objects Config.

(** ** Volume group names and storage class parameters *)

(** The class [\[A-Za-z0-9+_.-\]] of [validVGNamePattern]. *)
Definition vg_name_byte (a : ascii) : bool :=
  between 65 90 a || between 97 122 a || between 48 57 a ||
  Ascii.eqb a "+" || Ascii.eqb a "_" || Ascii.eqb a "." || Ascii.eqb a "-".

Fixpoint all_bytes (f : ascii -> bool) (s : string) : bool :=
  match s with EmptyString => true | String a s' => f a && all_bytes f s' end.

(** [validVGNamePattern.MatchString] *)
Definition validVGNamePattern (s : string) : bool :=
  match s with EmptyString => false | _ => all_bytes vg_name_byte s end.

Definition first_byte_is (c : ascii) (s : string) : bool :=
  match s with EmptyString => false | String a _ => Ascii.eqb a c end.

Definition validateVGName (name : string) : result error unit :=
  reject (name =s "") with Errorf "volume group name is required" [];
  reject (name =s ".") || (name =s "..")
    with Errorf "volume group name %q is reserved" [AStr name];
  reject (first_byte_is "-" name)
    with Errorf "volume group name %q must not begin with a hyphen" [AStr name];
  reject (negb (validVGNamePattern name))
    with Errorf "volume group name %q contains invalid characters" [AStr name];
  Ok tt.

Definition supported_type (lvmType : string) : bool :=
  (lvmType =s StripedType) || (lvmType =s DmThinType).

(** The pair is ([lvmType], [vgName]). *)
Definition parseLVMParameters (parameters : gmap string string) : result error (string * string) :=
  let lvmType := mget parameters "type" in
  reject (negb (supported_type lvmType)) with Errorf "lvmType is incorrect: %q" [AStr lvmType];
  let vgName := mget parameters "vgName" in
  reject (vgName =s "") with Errorf "vgName is missing, please check the storage class" [];
  let! _ := validateVGName vgName in
  Ok (lvmType, vgName).

Definition validateCapacityRange (capacityRange : option capacity_range) : result error Z :=
  let missing := Errorf "capacity range with required bytes greater than zero is required" [] in
  match capacityRange with
  | None => Err missing
  | Some c => reject (required_bytes c <=? 0)%Z with missing; Ok (required_bytes c)
  end.

(** The pair is (snapshot name, source volume). *)
Definition validateCreateSnapshotRequest (req : create_snapshot_request) :
    result error (string * string) :=
  reject (cr_source_volume req =s "") with Errorf "source volume ID missing in request" [];
  reject (cr_name req =s "") with Errorf "snapshot name missing in request" [];
  Ok (cr_name req, cr_source_volume req).

Definition validateDeleteVolumeRequest (req : delete_volume_request) : result error unit :=
  reject (dv_id req =s "") with Errorf "volume ID missing in request" []; Ok tt.

Definition buildVolumeContext (parameters : gmap string string) (requiredBytes : Z) :
    gmap string string :=
  <["RequiredBytes" := format_int requiredBytes]> parameters.

(** ** Volume capabilities *)

Definition supported_mode (mode : Z) : bool :=
  (mode =? SINGLE_NODE_WRITER)%Z || (mode =? SINGLE_NODE_READER_ONLY)%Z ||
  (mode =? SINGLE_NODE_SINGLE_WRITER)%Z.

Fixpoint check_capabilities (capabilities : list (option volume_capability))
    (hasBlock hasMount : bool) : result error unit :=
  match capabilities with
  | [] =>
      reject (hasBlock && hasMount)
        with Errorf "cannot combine block and mount access types" [];
      Ok tt
  | None :: _ => Err (Errorf "volume capability must not be nil" [])
  | Some capability :: rest =>
      let block := has_block capability in
      let mount := has_mount capability in
      reject (Bool.eqb block mount)
        with Errorf "volume capability must specify exactly one of block or mount access type" [];
      match vc_mode capability with
      | None => Err (Errorf "volume access mode is required" [])
      | Some mode =>
          reject (negb (supported_mode mode)) with Errorf "unsupported access mode %q" [AInt mode];
          check_capabilities rest (hasBlock || block) (hasMount || mount)
      end
  end.

Definition validateVolumeCapabilities (capabilities : list (option volume_capability)) :
    result error unit :=
  match capabilities with
  | [] => Err (Errorf "volume capabilities are required" [])
  | _ => check_capabilities capabilities false false
  end.

Definition is_reader_only (capability : volume_capability) : bool :=
  match vc_mode capability with
  | Some mode => (mode =? SINGLE_NODE_READER_ONLY)%Z
  | None => false
  end.

Definition validateNodePublishCapability (capability : volume_capability) (readOnly : bool) :
    result error unit :=
  let! _ := validateVolumeCapabilities [Some capability] in
  reject (is_reader_only capability && negb readOnly)
    with Errorf "SINGLE_NODE_READER_ONLY requires readonly=true" [];
  Ok tt.

(** [filepath.IsAbs] on Unix *)
Definition is_abs (path : string) : bool := has_prefix path "/".

(** The result is the volume group name. *)
Definition validateNodePublishRequest (req : node_publish_request) : result error string :=
  match np_capability req with
  | None => Err (Errorf "volume capability missing in request" [])
  | Some capability =>
      reject (np_volume req =s "") with Errorf "volume ID missing in request" [];
      reject (np_target req =s "") with Errorf "target path missing in request" [];
      reject (negb (is_abs (np_target req))) with Errorf "target path must be absolute" [];
      let! _ := validateNodePublishCapability capability (np_read_only req) in
      let vgName := mget (np_context req) "vgName" in
      reject (vgName =s "") with Errorf "vgName is missing from volume context" [];
      let! _ := validateVGName vgName in
      Ok vgName
  end.

(** The pair is (volume id, target path). *)
Definition validateNodeUnpublishRequest (req : node_unpublish_request) :
    result error (string * string) :=
  reject (nu_volume req =s "") with Errorf "volume ID missing in request" [];
  reject (nu_target req =s "") with Errorf "target path missing in request" [];
  reject (negb (is_abs (nu_target req))) with Errorf "target path must be absolute" [];
  Ok (nu_volume req, nu_target req).

(** The triple is (volume id, volume path, capacity). *)
Definition validateNodeExpandRequest (req : node_expand_request) :
    result error (string * string * Z) :=
  reject (ne_volume req =s "") with Errorf "volume ID missing in request" [];
  reject (ne_path req =s "") with Errorf "volume path not provided" [];
  let! capacity := validateCapacityRange (ne_capacity req) in
  Ok (ne_volume req, ne_path req, capacity).

(** ** The node of a volume *)

(** [if node != "" { nodes\[node\] = struct{}{} }] *)
Definition add_node (nodes : gset string) (node : string) : gset string :=
  if node =s "" then nodes else {[node]} ∪ nodes.

(** The first loop of [nodeFromAccessibility]. *)
Definition requisite_nodes (topologies : list (gmap string string)) : gset string :=
  foldl (fun nodes topology => add_node nodes (mget topology topologyKeyNode)) ∅ topologies.

(** The second loop: the first preferred topology that names a node decides. *)
Fixpoint preferred_node (requisiteNodes : gset string) (topologies : list (gmap string string)) :
    option (result error string) :=
  match topologies with
  | [] => None
  | topology :: rest =>
      let node := mget topology topologyKeyNode in
      if node =s "" then preferred_node requisiteNodes rest
      else if bool_decide (0 < size requisiteNodes) && negb (bool_decide (node ∈ requisiteNodes))
      then Some (Err (Errorf "preferred node %q is not present in requisite topologies" [AStr node]))
      else Some (Ok node)
  end.

Definition nodeFromAccessibility (requirement : option topology_requirement) :
    result error string :=
  match requirement with
  | None => Err (Errorf "accessibility requirements are required for local LVM volumes" [])
  | Some requirement =>
      let requisiteNodes := requisite_nodes (requisite requirement) in
      match preferred_node requisiteNodes (preferred requirement) with
      | Some r => r
      | None =>
          reject bool_decide (size requisiteNodes = 0)
            with Errorf "accessibility requirements do not contain %q" [AStr topologyKeyNode];
          reject bool_decide (1 < size requisiteNodes)
            with Errorf "multiple requisite nodes are unsupported without a preferred node" [];
          match elements requisiteNodes with
          | node :: _ => Ok node
          | [] => Err (Errorf "unable to select a topology node" [])
          end
      end
  end.

Definition topologyFromAccessibility (requirement : option topology_requirement) :
    result error (string * list (gmap string string)) :=
  let! node := nodeFromAccessibility requirement in
  Ok (node, [{[topologyKeyNode := node]}]).

(** ** Persistent volumes *)

(** The pair is ([vgName], [lvmType]). *)
Definition lvmAttributesFromPV (name : string) (source : option (gmap string string)) :
    result error (string * string) :=
  match source with
  | None => Err (Errorf "persistent volume %q has no CSI source" [AStr name])
  | Some attributes =>
      let vgName := mget attributes "vgName" in
      reject (vgName =s "") with Errorf "persistent volume %q has no vgName attribute" [AStr name];
      let! _ := map_err (Wrapf "persistent volume %q has an invalid vgName attribute: %w" [AStr name])
                  (validateVGName vgName) in
      let lvmType := mget attributes "type" in
      reject (negb (supported_type lvmType))
        with Errorf "persistent volume %q has invalid LVM type %q" [AStr name; AStr lvmType];
      Ok (vgName, lvmType)
  end.

Definition matchExpressionsFromTerms (terms : list (list node_requirement)) :
    list node_requirement :=
  foldl (fun expressions term => (expressions ++ term)%list) [] terms.

(** [v1.NodeSelectorOpIn] *)
Definition NodeSelectorOpIn : string := "In".

Definition add_nodes (values : list string) (nodes : gset string) : gset string :=
  foldl (fun nodes node => add_node nodes node) nodes values.

Fixpoint affinity_nodes (name : string) (expressions : list node_requirement)
    (nodes : gset string) : result error (gset string) :=
  match expressions with
  | [] => Ok nodes
  | expression :: rest =>
      if negb (nr_key expression =s topologyKeyNode) then affinity_nodes name rest nodes
      else
        reject negb (nr_operator expression =s NodeSelectorOpIn)
          with Errorf "persistent volume %q topology expression must use operator In" [AStr name];
        affinity_nodes name rest (add_nodes (nr_values expression) nodes)
  end.

Definition nodeFromPVAffinity (name : string) (affinity : option node_affinity) :
    result error string :=
  let missing := Errorf "persistent volume %q has no required node affinity" [AStr name] in
  match affinity with
  | None => Err missing
  | Some affinity =>
      match na_required affinity with
      | None => Err missing
      | Some terms =>
          let! nodes := affinity_nodes name (matchExpressionsFromTerms terms) ∅ in
          reject negb (bool_decide (size nodes = 1))
            with Errorf "persistent volume %q must reference exactly one %q node, found %d"
                   [AStr name; AStr topologyKeyNode; AInt (Z.of_nat (size nodes))];
          match elements nodes with
          | node :: _ => Ok node
          | [] => Err (Errorf "unable to select node for persistent volume %q" [AStr name])
          end
      end
  end.

(** The triple is (node, volume group, LVM type). *)
Definition metadataFromPV (volume : option persistent_volume) :
    result error (string * string * string) :=
  match volume with
  | None => Err (Errorf "persistent volume is nil" [])
  | Some volume =>
      let! (vgName, lvmType) := lvmAttributesFromPV (pv_name volume) (pv_csi volume) in
      let! nodeName := nodeFromPVAffinity (pv_name volume) (pv_affinity volume) in
      Ok (nodeName, vgName, lvmType)
  end.

Definition requiredBytesFromPersistentVolume (volume : option persistent_volume) :
    result error Z :=
  match volume with
  | None => Err (Errorf "persistent volume is nil" [])
  | Some volume =>
      match pv_csi volume with
      | None => Err (Errorf "persistent volume %q has no CSI source" [AStr (pv_name volume)])
      | Some attributes =>
          let value := mget attributes "RequiredBytes" in
          let invalid := Errorf "persistent volume %q has invalid RequiredBytes attribute %q"
                           [AStr (pv_name volume); AStr value] in
          match parse_int value with
          | Err _ => Err invalid
          | Ok size => reject (size <=? 0)%Z with invalid; Ok size
          end
      end
  end.

(** ** Snapshot contents *)

(** The triple is (source volume handle, snapshot handle, restore size). *)
Definition metadataFromSnapshotContent (content : option snapshot_content) :
    result error (string * string * Z) :=
  match content with
  | None => Err (Errorf "snapshot content is nil" [])
  | Some content =>
      let source := default "" (sc_volume_handle content) in
      reject (source =s "")
        with Errorf "snapshot content %q has no source volume handle" [AStr (sc_name content)];
      let not_ready := Errorf "snapshot content %q is not ready to restore" [AStr (sc_name content)] in
      match sc_status content with
      | Some {| ss_handle := Some handle; ss_restore_size := Some restoreSize |} =>
          reject (handle =s "") || (restoreSize <=? 0)%Z with not_ready;
          Ok (source, handle, restoreSize)
      | _ => Err not_ready
      end
  end.

(** The pair is (snapshot handle, restore size or 0 for unknown). *)
Definition preProvisionedSnapshotMetadata (content : option snapshot_content) :
    result error (string * Z) :=
  match content with
  | None => Err (Errorf "snapshot content is nil" [])
  | Some content =>
      let statusHandle := default "" (sc_status content ≫= ss_handle) in
      let sourceHandle := default "" (sc_snapshot_handle content) in
      reject negb (statusHandle =s "") && negb (sourceHandle =s "") &&
             negb (statusHandle =s sourceHandle)
        with Errorf "pre-provisioned snapshot content %q has conflicting snapshot handles %q and %q"
               [AStr (sc_name content); AStr statusHandle; AStr sourceHandle];
      let snapshotID := if statusHandle =s "" then sourceHandle else statusHandle in
      reject (snapshotID =s "")
        with Errorf "pre-provisioned snapshot content %q has no snapshot handle"
               [AStr (sc_name content)];
      match sc_status content ≫= ss_restore_size with
      | None => Ok (snapshotID, 0%Z)
      | Some restoreSize =>
          reject (restoreSize <? 0)%Z
            with Errorf "pre-provisioned snapshot content %q has invalid restore size %d"
                   [AStr (sc_name content); AInt restoreSize];
          Ok (snapshotID, restoreSize)
      end
  end.

#[global] Arguments validateVGName : simpl never.
#[global] Arguments validateVolumeCapabilities : simpl never.
#[global] Arguments nodeFromAccessibility : simpl never.
#[global] Arguments metadataFromPV : simpl never.
#[global] Arguments nodeFromPVAffinity : simpl never.
#[global] Arguments lvmAttributesFromPV : simpl never.

(** ** Volume group names *)

(** A name LVM accepts and that no command line or device path can misread. *)
Record vg_name (s : string) : Prop := {
  vg_not_dot : s <> "."; vg_not_dotdot : s <> "..";
  vg_no_hyphen : first_byte_is "-" s = false;
  vg_nonempty : s <> ""; vg_bytes : all_bytes vg_name_byte s = true }.

Lemma validateVGName_ok s : validateVGName s = Ok tt <-> vg_name s.
Proof.
  unfold validateVGName, validVGNamePattern. split.
  - intros H. go_ok. split; destruct s; done.
  - intros [H1 H2 H3 H4 H5]. apply eqb_false in H1, H2.
    destruct s as [|a s]; [done|]. rewrite H1, H2, H3, H5. done.
Qed.

Lemma all_bytes_no_sep f c s : all_bytes f s = true -> f c = false -> has_byte c s = false.
Proof.
  intros Hs Hc. induction s as [|a s IH]; cbn in *; [done|]. go_bool.
  rewrite IH by done. destruct (Ascii.eqb_spec a c) as [->|]; [congruence|done].
Qed.

(** A volume group name holds no slash. *)
Lemma vg_name_no_slash s : vg_name s -> has_byte "/" s = false.
Proof. intros [_ _ _ _ Hb]. by eapply all_bytes_no_sep. Qed.
#[export] Hint Resolve vg_name_no_slash : go.

Lemma app_sep_inj c a b a' b' :
  has_byte c a = false -> has_byte c a' = false ->
  a +:+ String c b = a' +:+ String c b' -> a = a' /\ b = b'.
Proof.
  revert a'. induction a as [|x a IH]; intros [|x' a'] Ha Ha'; cbn in *.
  - by intros [= ->].
  - intros [= -> _]. by rewrite Ascii.eqb_refl in Ha'.
  - intros [= -> _]. by rewrite Ascii.eqb_refl in Ha.
  - intros [= -> Heq]. go_bool. destruct (IH a' ltac:(done) ltac:(done) Heq) as [-> ->]. done.
Qed.

(** ** Capabilities *)

(** What one entry of a capability list must look like, [block] telling its kind. *)
Definition good_capability (block : bool) (c : option volume_capability) : Prop :=
  match c with
  | None => False
  | Some c => has_block c = block /\ has_mount c = negb block /\
              exists mode, vc_mode c = Some mode /\ supported_mode mode = true
  end.

Lemma check_capabilities_ok l hb hm :
  check_capabilities l hb hm = Ok tt <->
  Forall (fun c => exists block, good_capability block c) l /\
  (hb || existsb (fun c => match c with Some c => has_block c | None => false end) l) &&
  (hm || existsb (fun c => match c with Some c => has_mount c | None => false end) l) = false.
Proof.
  revert hb hm. induction l as [|[c|] l IH]; intros hb hm.
  - cbn. rewrite !orb_false_r. destruct (hb && hm); cbn; naive_solver.
  - cbn [check_capabilities existsb]. rewrite Forall_cons, !orb_assoc.
    destruct (Bool.eqb (has_block c) (has_mount c)) eqn:Hbm; cbn [guard rbind].
    { apply Bool.eqb_prop in Hbm. split; [done|]. intros [[(b & H1 & H2 & _) _] _].
      rewrite Hbm, H2 in H1. by destruct b. }
    destruct (vc_mode c) as [mode|] eqn:Hm; [|split; [done|]; intros [[(b & _ & _ & m & Hm' & _) _] _]; congruence].
    destruct (supported_mode mode) eqn:Hs; cbn [negb guard rbind].
    2:{ split; [done|]. intros [[(b & _ & _ & m & Hm' & Hs') _] _]. congruence. }
    rewrite IH. split; [|naive_solver]. intros [Hl He]. split; [|done]. split; [|done].
    exists (has_block c). split_and!; [done| |eauto].
    by destruct (has_block c), (has_mount c).
  - split; [done|]. rewrite Forall_cons. intros [[(b & []) _] _].
Qed.

Lemma good_capability_block b c :
  good_capability b c ->
  match c with Some c => has_block c | None => false end = b /\
  match c with Some c => has_mount c | None => false end = negb b.
Proof. destruct c; [|done]. intros (H1 & H2 & _). done. Qed.

(** ** Sets of named nodes *)

Lemma elem_of_fold_add {A} (f : A -> string) (l : list A) (X : gset string) n :
  n ∈ foldl (fun X a => add_node X (f a)) X l <->
  n ∈ X \/ (n <> "" /\ exists a, a ∈ l /\ f a = n).
Proof.
  revert X. induction l as [|a l IH]; intros X; cbn [foldl].
  - split; [auto|]. intros [?|(_ & a & []%elem_of_nil & _)]; done.
  - rewrite IH. unfold add_node. setoid_rewrite elem_of_cons.
    destruct (String.eqb_spec (f a) "") as [Ha|Ha].
    + split; [naive_solver|]. intros [?|(? & ? & [->|?] & ?)]; [by left| |right; eauto]. congruence.
    + rewrite elem_of_union, elem_of_singleton. split; [naive_solver|].
      intros [?|(? & ? & [->|?] & ?)]; [auto| |right; eauto]. left; left; congruence.
Qed.

Lemma size_one (X : gset string) n : X = {[n]} -> size X = 1 /\ elements X = [n].
Proof. intros ->. split; [apply size_singleton|apply elements_singleton]. Qed.

Lemma size_one_inv (X : gset string) : size X = 1 -> exists n, X = {[n]}.
Proof. intros H. apply size_1_elem_of in H as [n Hn]. exists n. by apply leibniz_equiv. Qed.

(** C33: [validateVGName] accepts exactly the names that are not empty, not ["."] or
    [".."], do not begin with a hyphen and hold only the bytes [A-Za-z0-9+_.-]; and
    with an accepted group, the command operand ["<vg>/<lv>"] and the device path
    ["/dev/<vg>/<lv>"] determine the group and the volume. *)
Theorem validateVGName_sound vg :
  (validateVGName vg = Ok tt <-> vg_name vg) /\
  (validateVGName vg = Ok tt ->
   forall vg' lv lv', validateVGName vg' = Ok tt ->
     vg +:+ "/" +:+ lv = vg' +:+ "/" +:+ lv' -> vg = vg' /\ lv = lv').
Proof.
  split; [apply validateVGName_ok|].
  intros H vg' lv lv' H'. apply validateVGName_ok in H, H'. apply app_sep_inj; auto with go.
Qed.

Lemma validateVGName_sound_witness :
  validateVGName "vg.01" = Ok tt /\
  forall lv lv', "vg.01" +:+ "/" +:+ lv = "vg.02" +:+ "/" +:+ lv' -> "vg.01" = "vg.02" /\ lv = lv'.
Proof.
  split; [reflexivity|]. intros lv lv'.
  exact (proj2 (validateVGName_sound "vg.01") eq_refl "vg.02" lv lv' eq_refl).
Defined.

(** C34: [validateVolumeCapabilities] accepts a list exactly when it is not empty and
    every entry is present, asks for the same one access type (all block, or all
    mount), and has one of the three single-node access modes. *)
Theorem validateVolumeCapabilities_spec l :
  validateVolumeCapabilities l = Ok tt <->
  l <> [] /\ exists block, Forall (good_capability block) l.
Proof.
  unfold validateVolumeCapabilities. destruct l as [|c l]; [naive_solver|].
  rewrite check_capabilities_ok. cbn [orb]. split.
  - intros [Hall Hmix]. split; [done|].
    set (hb := existsb _ _) in Hmix. set (hm := existsb _ _) in Hmix.
    exists hb. rewrite Forall_forall in Hall |- *. intros c' Hc'.
    destruct (Hall _ Hc') as [b Hg]. pose proof (good_capability_block _ _ Hg) as [H1 H2].
    enough (b = hb) as <- by done. destruct b.
    + symmetry. apply existsb_exists. exists c'. by rewrite <- list_elem_of_In.
    + assert (hm = true) as Hm by (apply existsb_exists; exists c'; by rewrite <- list_elem_of_In).
      rewrite Hm, andb_true_r in Hmix. done.
  - intros [_ [b Hall]]. split; [eapply Forall_impl; [exact Hall|]; eauto|].
    rewrite Forall_forall in Hall. apply not_true_is_false. intros [H1 H2]%andb_true_iff.
    apply existsb_exists in H1 as (c1 & Hc1 & H1), H2 as (c2 & Hc2 & H2).
    apply list_elem_of_In in Hc1, Hc2.
    destruct (good_capability_block _ _ (Hall _ Hc1)) as [E1 _].
    destruct (good_capability_block _ _ (Hall _ Hc2)) as [_ E2].
    rewrite H1 in E1. rewrite H2, <- E1 in E2. done.
Qed.

(** The node of the first preferred topology that names one. *)
Fixpoint first_named (topologies : list (gmap string string)) : option string :=
  match topologies with
  | [] => None
  | topology :: rest =>
      let node := mget topology topologyKeyNode in
      if node =s "" then first_named rest else Some node
  end.

(** [n] is a node the requisite topologies name. *)
Definition requisite_names (r : topology_requirement) (n : string) : Prop :=
  n <> "" /\ exists t, t ∈ requisite r /\ mget t topologyKeyNode = n.

Lemma requisite_nodes_spec r n : n ∈ requisite_nodes (requisite r) <-> requisite_names r n.
Proof. unfold requisite_nodes, requisite_names. rewrite elem_of_fold_add. set_solver. Qed.

Lemma preferred_node_spec X l :
  preferred_node X l =
  match first_named l with
  | None => None
  | Some node =>
      if bool_decide (X = ∅ \/ node ∈ X) then Some (Ok node)
      else Some (Err (Errorf "preferred node %q is not present in requisite topologies" [AStr node]))
  end.
Proof.
  induction l as [|t l IH]; cbn; [done|]. destruct (_ =s "") eqn:Ht; [done|]. cbn.
  rewrite (bool_decide_ext (0 < size X) (X <> ∅)).
  2:{ pose proof (size_empty_iff X) as Hs. rewrite (leibniz_equiv_iff X ∅) in Hs. destruct (size X); naive_solver lia. }
  repeat case_bool_decide; cbn; try done; naive_solver.
Qed.

(** C35: [nodeFromAccessibility] returns [node] exactly when the first preferred
    topology naming a node names [node] and the requisite topologies either name no
    node or include it, or when no preferred topology names a node and [node] is the
    only one the requisite topologies name; so the choice never depends on the
    iteration order of the map, and the node is never empty. *)
Theorem nodeFromAccessibility_spec requirement node :
  nodeFromAccessibility requirement = Ok node <->
  exists r, requirement = Some r /\
    match first_named (preferred r) with
    | Some n => n = node /\ ((forall n', ~ requisite_names r n') \/ requisite_names r node)
    | None => forall n', requisite_names r n' <-> n' = node
    end.
Proof.
  unfold nodeFromAccessibility. destruct requirement as [r|]; [|naive_solver].
  rewrite preferred_node_spec. set (X := requisite_nodes (requisite r)).
  assert (HX : forall n, requisite_names r n <-> n ∈ X)
    by (intros n; by rewrite <- requisite_nodes_spec).
  destruct (first_named (preferred r)) as [n|] eqn:Hf.
  - case_bool_decide as Hn.
    + split; [intros [= ->]|].
      * exists r. split; [done|]. rewrite Hf. split; [done|].
        destruct Hn as [Hn|]; [left; intros n'; rewrite HX, Hn; set_solver|right; by apply HX].
      * intros (r' & [= <-] & H). rewrite Hf in H. by destruct H as [-> _].
    + split; [done|]. intros (r' & [= <-] & H). rewrite Hf in H. destruct H as [-> [H|H]].
      * destruct Hn. left. apply leibniz_equiv. setoid_rewrite HX in H. set_solver.
      * destruct Hn. right. by apply HX.
  - split.
    + intros H. exists r. split; [done|]. rewrite Hf. go_ok.
      assert (size X = 1) as [m Hm]%size_one_inv by lia.
      rewrite (proj2 (size_one _ _ Hm)) in H. injection H as ->. intros n'. rewrite HX, Hm. set_solver.
    + intros (r' & [= <-] & H). rewrite Hf in H. setoid_rewrite HX in H.
      assert (X = {[node]}) as HXn by (apply leibniz_equiv; set_solver).
      destruct (size_one _ _ HXn) as [-> ->]. done.
Qed.

(** ** Persistent volumes *)

Lemma matchExpressions_concat terms : matchExpressionsFromTerms terms = concat terms.
Proof.
  unfold matchExpressionsFromTerms.
  enough (forall acc, foldl (fun l t => (l ++ t)%list) acc terms = (acc ++ concat terms)%list) as H
    by apply (H []).
  induction terms as [|t terms IH]; intros acc; cbn; [by rewrite app_nil_r|].
  by rewrite IH, app_assoc.
Qed.

Lemma affinity_nodes_ok name l X Y :
  affinity_nodes name l X = Ok Y <->
  Forall (fun e => nr_key e = topologyKeyNode -> nr_operator e = NodeSelectorOpIn) l /\
  forall n, n ∈ Y <-> n ∈ X \/ (n <> "" /\ exists e, e ∈ l /\ nr_key e = topologyKeyNode /\ n ∈ nr_values e).
Proof.
  revert X. induction l as [|e l IH]; intros X; cbn [affinity_nodes].
  - split; [intros [= ->]; split; [constructor|set_solver]|].
    intros [_ H]. f_equal. apply leibniz_equiv. set_solver.
  - rewrite Forall_cons. destruct (String.eqb_spec (nr_key e) topologyKeyNode) as [Hk|Hk]; cbn [negb].
    + destruct (String.eqb_spec (nr_operator e) NodeSelectorOpIn) as [Ho|Ho]; cbn [negb guard rbind].
      2:{ split; [done|]. intros [[H _] _]. destruct Ho. by apply H. }
      rewrite IH. unfold add_nodes. setoid_rewrite elem_of_fold_add.
      setoid_rewrite elem_of_cons. split; intros [H1 H2]; (split; [naive_solver|]);
        intros n; rewrite H2; naive_solver.
    + rewrite IH. setoid_rewrite elem_of_cons. split; intros [H1 H2];
        (split; [naive_solver|]); intros n; rewrite H2; naive_solver.
Qed.

(** C36: [nodeFromPVAffinity] returns [node] exactly when the volume has a required node
    affinity, every topology expression in any of its terms uses the operator [In],
    and the non-empty values of these expressions are the one node [node]. *)
Theorem nodeFromPVAffinity_spec name affinity node :
  nodeFromPVAffinity name affinity = Ok node <->
  exists a terms, affinity = Some a /\ na_required a = Some terms /\
    let topology e := e ∈ concat terms /\ nr_key e = topologyKeyNode in
    (forall e, topology e -> nr_operator e = NodeSelectorOpIn) /\
    (forall n, (n <> "" /\ exists e, topology e /\ n ∈ nr_values e) <-> n = node).
Proof.
  unfold nodeFromPVAffinity. destruct affinity as [a|]; [|naive_solver].
  destruct (na_required a) as [terms|] eqn:Ha; [|naive_solver].
  rewrite matchExpressions_concat. split.
  - intros H. apply rbind_ok in H as (X & HX & H). apply affinity_nodes_ok in HX as [Hop HX].
    go_ok. assert (exists m, X = {[m]}) as [m Hm] by by apply size_one_inv.
    exists a, terms. split_and!; [done|done|..].
    + intros e [He Hk]. rewrite Forall_forall in Hop. by apply Hop.
    + rewrite (proj2 (size_one _ _ Hm)) in H. injection H as ->.
      intros n. transitivity (n ∈ X); [rewrite HX|rewrite Hm]; set_solver.
  - intros (a' & terms' & [= <-] & Ht & Hop & Hn). rewrite Ha in Ht. injection Ht as <-.
    destruct (affinity_nodes name (concat terms) ∅) as [X|e] eqn:HX.
    + apply affinity_nodes_ok in HX as [_ HX]. cbn [rbind].
      assert (X = {[node]}) as HXn by (apply leibniz_equiv; intros n; rewrite HX, elem_of_singleton, <- Hn; set_solver).
      destruct (size_one _ _ HXn) as [-> ->]. done.
    + exfalso. assert (affinity_nodes name (concat terms) ∅ = Ok {[node]}) as Hok; [|congruence].
      apply affinity_nodes_ok. split.
      * apply Forall_forall. intros e' He' Hk. by apply Hop.
      * intros n. rewrite elem_of_singleton, <- Hn. set_solver.
Qed.

(** The persistent volume the external provisioner makes of a created volume: the
    volume context becomes the CSI attributes, every accessible topology a term. *)
Definition pv_of_volume (v : csi_volume) : persistent_volume := {|
  pv_name := v_id v;
  pv_csi := Some (v_context v);
  pv_affinity := Some {| na_required := Some (
    (fun segments : gmap string string =>
      (fun kv : string * string =>
         {| nr_key := fst kv; nr_operator := NodeSelectorOpIn; nr_values := [snd kv] |})
      <$> map_to_list segments) <$> v_topology v) |} |}.

Lemma mget_insert_ne m (k k' v : string) : k <> k' -> mget (<[k:=v]> m) k' = mget m k'.
Proof. intros H. unfold mget. by rewrite lookup_insert_ne. Qed.
Lemma mget_insert m (k v : string) : mget (<[k:=v]> m) k = v.
Proof. unfold mget. by rewrite lookup_insert_eq. Qed.
#[export] Hint Rewrite mget_insert : go.

Lemma capacity_ok c n : validateCapacityRange c = Ok n ->
  exists r, c = Some r /\ required_bytes r = n /\ (0 < n)%Z.
Proof. destruct c as [r|]; [|done]. cbn. intros H. go_ok. exists r. naive_solver lia. Qed.

Lemma parseLVMParameters_ok m t vg : parseLVMParameters m = Ok (t, vg) ->
  mget m "type" = t /\ mget m "vgName" = vg /\ supported_type t = true /\ vg_name vg.
Proof.
  unfold parseLVMParameters. intros H. go_ok.
  match goal with H : validateVGName _ = Ok ?u |- _ => destruct u; apply validateVGName_ok in H end.
  auto.
Qed.

Lemma lvmAttributesFromPV_ok name m :
  supported_type (mget m "type") = true -> vg_name (mget m "vgName") ->
  lvmAttributesFromPV name (Some m) = Ok (mget m "vgName", mget m "type").
Proof.
  intros Ht Hvg. unfold lvmAttributesFromPV. rewrite Ht, (proj2 (validateVGName_ok _) Hvg).
  apply vg_nonempty, eqb_false in Hvg. by rewrite Hvg.
Qed.

Lemma topology_ok r node topo : topologyFromAccessibility r = Ok (node, topo) ->
  nodeFromAccessibility r = Ok node /\ topo = [{[topologyKeyNode := node]}].
Proof. unfold topologyFromAccessibility. intros H. go_ok. auto. Qed.

Lemma first_named_nonempty l n : first_named l = Some n -> n <> "".
Proof.
  induction l as [|t l IH]; cbn; [done|].
  destruct (String.eqb_spec (mget t topologyKeyNode) ""); naive_solver.
Qed.

Lemma nodeFromAccessibility_nonempty r node : nodeFromAccessibility r = Ok node -> node <> "".
Proof.
  intros H. unfold nodeFromAccessibility in H. destruct r as [r|]; [|done].
  rewrite preferred_node_spec in H.
  destruct (first_named _) eqn:Hf; [case_bool_decide; simplify_eq; by eapply first_named_nonempty|].
  go_ok. destruct (elements _) as [|m l] eqn:He; [done|]. simplify_eq.
  eapply (proj1 (requisite_nodes_spec r node)), elem_of_elements. rewrite He. by left.
Qed.

Lemma nodeFromPVAffinity_single name node : node <> "" ->
  nodeFromPVAffinity name (Some {| na_required := Some
    [[{| nr_key := topologyKeyNode; nr_operator := NodeSelectorOpIn; nr_values := [node] |}]] |})
  = Ok node.
Proof.
  intros Hn. unfold nodeFromPVAffinity. cbn -[add_nodes]. unfold add_nodes. cbn.
  unfold add_node. apply eqb_false in Hn. rewrite Hn.
  destruct (size_one ({[node]} ∪ ∅) node) as [-> ->]; [set_solver|done].
Qed.

(** What [CreateVolume] puts in a volume is what the other operations read back. *)
Lemma metadata_roundtrip id cap params acc src t vg n node topo :
  parseLVMParameters params = Ok (t, vg) ->
  validateCapacityRange cap = Ok n -> is_int64 n ->
  topologyFromAccessibility acc = Ok (node, topo) ->
  let pv := pv_of_volume {| v_id := id; v_capacity := n;
    v_context := buildVolumeContext params n; v_source := src; v_topology := topo |} in
  metadataFromPV (Some pv) = Ok (node, vg, t) /\
  requiredBytesFromPersistentVolume (Some pv) = Ok n.
Proof.
  intros Hp Hc Hn Ht. apply parseLVMParameters_ok in Hp as (<- & <- & Hty & Hvg).
  apply capacity_ok in Hc as (_ & _ & _ & Hpos). apply topology_ok in Ht as [Hnode ->].
  apply nodeFromAccessibility_nonempty in Hnode. cbn zeta. split.
  - unfold metadataFromPV, pv_of_volume. cbn [pv_csi pv_affinity pv_name v_context v_id v_topology].
    unfold buildVolumeContext.
    rewrite lvmAttributesFromPV_ok by (by rewrite mget_insert_ne). cbn [rbind].
    rewrite !mget_insert_ne by done. cbn [fmap list_fmap]. rewrite map_to_list_singleton. cbn.
    by rewrite nodeFromPVAffinity_single.
  - cbn. unfold buildVolumeContext. rewrite mget_insert, parse_format_int by done.
    destruct (Z.leb_spec n 0); [lia|done].
Qed.
