(* ===== verification/Json.v ===== *)
(** * encoding/json as the driver uses it

    [parse] accepts the documents [json.Unmarshal] accepts (grammar, escapes,
    surrogate pairs, invalid UTF-8 replaced by U+FFFD, nesting at most 10000) and
    the [decode_*] functions store a value into a Go string, slice or struct:
    [null] leaves a string or a struct alone and empties a slice, a key selects a
    field whatever its case, a repeated key decodes into the value already there,
    an unknown key is skipped, any other kind of value is an error. *)
From S2P Require Import Prelude GoStrings.

Inductive json :=
| JNull
| JBool (b : bool)
| JNum (lexeme : string)
| JStr (s : string)
| JArr (l : list json)
| JObj (l : list (string * json)).

Definition dquote : ascii := byte_of 34.
Definition backslash : ascii := byte_of 92.

Definition is_ws (a : ascii) : bool :=
  let n := Ascii.nat_of_ascii a in
  (n =? 32)%nat || (n =? 9)%nat || (n =? 10)%nat || (n =? 13)%nat.

Fixpoint skip_ws (s : string) : string :=
  match s with
  | EmptyString => ""
  | String a s' => if is_ws a then skip_ws s' else s
  end.

(** ** Strings *)

Definition hex_value (a : ascii) : option N :=
  let n := N_of_ascii a in
  if between 48 57 a then Some (n - 48)%N
  else if between 97 102 a then Some (n - 87)%N
  else if between 65 70 a then Some (n - 55)%N
  else None.

Definition hex4 (a b c d : ascii) : option N :=
  match hex_value a, hex_value b, hex_value c, hex_value d with
  | Some a, Some b, Some c, Some d => Some (((a * 16 + b) * 16 + c) * 16 + d)%N
  | _, _, _, _ => None
  end.

Definition byte (n : N) : ascii := ascii_of_N n.

(** [utf8.AppendRune] of a code point that is not a surrogate. *)
Definition utf8 (n : N) : string :=
  if (n <? 128)%N then String (byte n) ""
  else if (n <? 2048)%N then
    String (byte (192 + n / 64)) (String (byte (128 + n mod 64)) "")
  else if (n <? 65536)%N then
    String (byte (224 + n / 4096)) (String (byte (128 + (n / 64) mod 64))
      (String (byte (128 + n mod 64)) ""))
  else
    String (byte (240 + n / 262144)) (String (byte (128 + (n / 4096) mod 64))
      (String (byte (128 + (n / 64) mod 64)) (String (byte (128 + n mod 64)) ""))).

Definition is_high (n : N) : bool := (55296 <=? n)%N && (n <=? 56319)%N.
Definition is_low (n : N) : bool := (56320 <=? n)%N && (n <=? 57343)%N.
Definition is_surrogate (n : N) : bool := is_high n || is_low n.

(** The byte of a one-letter escape. *)
Definition escape (a : ascii) : option ascii :=
  if Ascii.eqb a dquote || Ascii.eqb a backslash || Ascii.eqb a "/" then Some a
  else if Ascii.eqb a "b" then Some (byte_of 8)
  else if Ascii.eqb a "f" then Some (byte_of 12)
  else if Ascii.eqb a "n" then Some (byte_of 10)
  else if Ascii.eqb a "r" then Some (byte_of 13)
  else if Ascii.eqb a "t" then Some (byte_of 9)
  else None.

(** Prepends to the text of a parsed string. *)
Definition prepend (t : string) (r : option (string * string)) : option (string * string) :=
  match r with Some (u, rest) => Some (t +:+ u, rest) | None => None end.

(** The rest of a string literal, after its opening quote; [raw] bytes of the
    current rune are still to be copied. *)
Fixpoint string_body (raw : nat) (s : string) : option (string * string) :=
  match s with
  | EmptyString => None
  | String a s1 =>
      match raw with
      | S k => prepend (byte_string a) (string_body k s1)
      | O =>
          if Ascii.eqb a dquote then Some ("", s1)
          else if Ascii.eqb a backslash then
            match s1 with
            | EmptyString => None
            | String b s2 =>
                if Ascii.eqb b "u" then
                  match s2 with
                  | String h1 (String h2 (String h3 (String h4 s3))) =>
                      match hex4 h1 h2 h3 h4 with
                      | None => None
                      | Some n =>
                          if negb (is_surrogate n) then prepend (utf8 n) (string_body 0 s3)
                          else match s3 with
                          | String b1 (String u1 (String l1 (String l2 (String l3 (String l4 s4))))) =>
                              match hex4 l1 l2 l3 l4 with
                              | Some m =>
                                  if Ascii.eqb b1 backslash && Ascii.eqb u1 "u" && is_high n && is_low m
                                  then prepend (utf8 (65536 + (n - 55296) * 1024 + (m - 56320)))
                                         (string_body 0 s4)
                                  else prepend rune_error (string_body 0 s3)
                              | None => prepend rune_error (string_body 0 s3)
                              end
                          | _ => prepend rune_error (string_body 0 s3)
                          end
                      end
                  | _ => None
                  end
                else match escape b with
                     | Some c => prepend (byte_string c) (string_body 0 s2)
                     | None => None
                     end
            end
          else if between 0 31 a then None
          else match rune_len s with
               | O => prepend rune_error (string_body 0 s1)
               | S k => prepend (byte_string a) (string_body k s1)
               end
      end
  end.

(** ** Numbers *)

Fixpoint span_digits (s : string) : string * string :=
  match s with
  | String a s' =>
      if between 48 57 a then let '(d, r) := span_digits s' in (String a d, r) else ("", s)
  | EmptyString => ("", "")
  end.

(** An optional sign out of [signs]. *)
Definition opt_sign (signs : list ascii) (s : string) : string * string :=
  match s with
  | String a s' => if existsb (Ascii.eqb a) signs then (byte_string a, s') else ("", s)
  | EmptyString => ("", "")
  end.

Definition int_part (s : string) : option (string * string) :=
  match s with
  | String a s' =>
      if Ascii.eqb a "0" then Some ("0", s')
      else let '(d, r) := span_digits s in
           match d with EmptyString => None | _ => Some (d, r) end
  | EmptyString => None
  end.

Definition frac_part (s : string) : option (string * string) :=
  match s with
  | String a s' =>
      if Ascii.eqb a "." then
        let '(d, r) := span_digits s' in
        match d with EmptyString => None | _ => Some ("." +:+ d, r) end
      else Some ("", s)
  | EmptyString => Some ("", "")
  end.

Definition exp_part (s : string) : option (string * string) :=
  match s with
  | String a s' =>
      if Ascii.eqb a "e" || Ascii.eqb a "E" then
        let '(sign, r) := opt_sign ["+"; "-"]%char s' in
        let '(d, r) := span_digits r in
        match d with EmptyString => None | _ => Some (String a (sign +:+ d), r) end
      else Some ("", s)
  | EmptyString => Some ("", "")
  end.

Definition number (s : string) : option (json * string) :=
  let '(sign, r) := opt_sign ["-"%char] s in
  match int_part r with
  | None => None
  | Some (i, r) =>
      match frac_part r with
      | None => None
      | Some (f, r) =>
          match exp_part r with
          | None => None
          | Some (e, r) => Some (JNum (sign +:+ i +:+ f +:+ e), r)
          end
      end
  end.

(** ** Values *)

Definition max_depth : Z := 10000.

(** [elements] and [members] parse what follows the opening bracket of an array or
    object that is not empty. *)
Fixpoint value (fuel : nat) (depth : Z) (s : string) : option (json * string) :=
  match fuel with
  | O => None
  | S f =>
      let s := skip_ws s in
      match s with
      | EmptyString => None
      | String a r =>
          if Ascii.eqb a "[" then
            if (max_depth <=? depth)%Z then None else
            match skip_ws r with
            | String b r' =>
                if Ascii.eqb b "]" then Some (JArr [], r')
                else match elements f (depth + 1) r with
                     | Some (l, r) => Some (JArr l, r)
                     | None => None
                     end
            | EmptyString => None
            end
          else if Ascii.eqb a "{" then
            if (max_depth <=? depth)%Z then None else
            match skip_ws r with
            | String b r' =>
                if Ascii.eqb b "}" then Some (JObj [], r')
                else match members f (depth + 1) r with
                     | Some (l, r) => Some (JObj l, r)
                     | None => None
                     end
            | EmptyString => None
            end
          else if Ascii.eqb a dquote then
            match string_body 0 r with Some (t, r) => Some (JStr t, r) | None => None end
          else match strip_prefix "null" s, strip_prefix "true" s, strip_prefix "false" s with
          | Some r, _, _ => Some (JNull, r)
          | None, Some r, _ => Some (JBool true, r)
          | None, None, Some r => Some (JBool false, r)
          | None, None, None => number s
          end
      end
  end
with elements (fuel : nat) (depth : Z) (s : string) : option (list json * string) :=
  match fuel with
  | O => None
  | S f =>
      match value f depth s with
      | None => None
      | Some (j, r) =>
          match skip_ws r with
          | String a r =>
              if Ascii.eqb a "," then
                match elements f depth r with
                | Some (l, r) => Some (j :: l, r)
                | None => None
                end
              else if Ascii.eqb a "]" then Some ([j], r) else None
          | EmptyString => None
          end
      end
  end
with members (fuel : nat) (depth : Z) (s : string) : option (list (string * json) * string) :=
  match fuel with
  | O => None
  | S f =>
      match skip_ws s with
      | String q r =>
          if negb (Ascii.eqb q dquote) then None else
          match string_body 0 r with
          | None => None
          | Some (key, r) =>
              match skip_ws r with
              | String c r =>
                  if negb (Ascii.eqb c ":") then None else
                  match value f depth r with
                  | None => None
                  | Some (j, r) =>
                      match skip_ws r with
                      | String a r =>
                          if Ascii.eqb a "," then
                            match members f depth r with
                            | Some (l, r) => Some ((key, j) :: l, r)
                            | None => None
                            end
                          else if Ascii.eqb a "}" then Some ([(key, j)], r) else None
                      | EmptyString => None
                      end
                  end
              | EmptyString => None
              end
          end
      | EmptyString => None
      end
  end.

(** Every call spends fuel, and at most two calls share a byte of the input. *)
Definition parse (s : string) : option json :=
  match value (2 * String.length s + 2) 0 s with
  | Some (j, r) => match skip_ws r with EmptyString => Some j | _ => None end
  | None => None
  end.

(** ** Decoding into Go values *)

Definition upper_byte (a : ascii) : ascii :=
  if between 97 122 a then byte_of (Ascii.nat_of_ascii a - 32) else a.

(** [foldName]: ASCII upper case, and the two runes that fold to an ASCII letter. *)
Fixpoint fold_name_from (skip : nat) (s : string) : string :=
  match s with
  | EmptyString => ""
  | String a s' =>
      match skip with
      | S k => fold_name_from k s'
      | O =>
          if has_prefix s (bytes [197; 191]) then String "S" (fold_name_from 1 s')
          else if has_prefix s (bytes [226; 132; 170]) then String "K" (fold_name_from 2 s')
          else String (upper_byte a) (fold_name_from 0 s')
      end
  end.
Definition same_field (key field : string) : bool := fold_name_from 0 key =s fold_name_from 0 field.

Definition decode_string (old : string) (j : json) : option string :=
  match j with JNull => Some old | JStr s => Some s | _ => None end.

Section decode.
Context {A : Type}.

(** A slice of [A]: element [i] decodes into the old element [i], or into [zero]. *)
Fixpoint decode_elements (zero : A) (dec : A -> json -> option A) (old : list A) (l : list json) :
    option (list A) :=
  match l with
  | [] => Some []
  | j :: l =>
      match dec (hd zero old) j, decode_elements zero dec (tl old) l with
      | Some a, Some r => Some (a :: r)
      | _, _ => None
      end
  end.

Definition decode_slice (zero : A) (dec : A -> json -> option A) (old : list A) (j : json) :
    option (list A) :=
  match j with
  | JNull => Some []
  | JArr l => decode_elements zero dec old l
  | _ => None
  end.

(** A struct: [field] stores the value of one key. *)
Fixpoint decode_fields (field : A -> string -> json -> option A) (old : A)
    (l : list (string * json)) : option A :=
  match l with
  | [] => Some old
  | (key, j) :: l =>
      match field old key j with Some a => decode_fields field a l | None => None end
  end.

Definition decode_struct (field : A -> string -> json -> option A) (old : A) (j : json) : option A :=
  match j with JNull => Some old | JObj l => decode_fields field old l | _ => None end.
End decode.
