(* ===== verification/JsonPrint.v ===== *)
(** * Printing JSON, and reading it back

    A document of objects, arrays, booleans, nulls and strings of printable ASCII is
    printed without white space; [parse] reads it back, whatever follows it.  The
    proof is by induction on the document and gives the fuel each call needs: fewer
    than two units for a byte, so the fuel of [parse] is enough. *)
From S2P Require Import Prelude GoStrings Json.

(** ** Documents as trees *)

Section json_ind.
Variable P : json -> Prop.
Hypothesis Hnull : P JNull.
Hypothesis Hbool : forall b, P (JBool b).
Hypothesis Hnum : forall s, P (JNum s).
Hypothesis Hstr : forall s, P (JStr s).
Hypothesis Harr : forall l, Forall P l -> P (JArr l).
Hypothesis Hobj : forall l, Forall (fun kv => P (snd kv)) l -> P (JObj l).

(** Induction with a hypothesis for every element and member. *)
Fixpoint json_tree_ind (j : json) : P j :=
  match j with
  | JNull => Hnull
  | JBool b => Hbool b
  | JNum s => Hnum s
  | JStr s => Hstr s
  | JArr l => Harr l ((fix go l : Forall P l :=
      match l with [] => List.Forall_nil _ | j :: l => List.Forall_cons _ _ _ (json_tree_ind j) (go l) end) l)
  | JObj l => Hobj l ((fix go l : Forall (fun kv => P (snd kv)) l :=
      match l with
      | [] => List.Forall_nil _
      | kv :: l => List.Forall_cons _ _ _ (json_tree_ind (snd kv)) (go l)
      end) l)
  end.
End json_ind.

(** ** The printer *)

Definition plain_byte (a : ascii) : bool :=
  between 32 126 a && negb (Ascii.eqb a dquote) && negb (Ascii.eqb a backslash).
Fixpoint plain_text (s : string) : bool :=
  match s with EmptyString => true | String a s => plain_byte a && plain_text s end.

Definition quoted (s : string) : string := String dquote (s +:+ String dquote "").

Fixpoint print (j : json) : string :=
  match j with
  | JNull => "null"
  | JBool b => if b then "true" else "false"
  | JNum s => s
  | JStr s => quoted s
  | JArr l => String "[" (join "," (print <$> l) +:+ "]")
  | JObj l => String "{" (join "," ((fun kv => quoted (fst kv) +:+ String ":" (print (snd kv))) <$> l) +:+ "}")
  end.

(** The documents that are printed faithfully, of at most [d] levels of nesting. *)
Fixpoint printable (d : nat) (j : json) {struct j} : bool :=
  match j with
  | JNull | JBool _ => true
  | JNum _ => false
  | JStr s => plain_text s
  | JArr l => match d with O => false | S d => forallb (printable d) l end
  | JObj l => match d with O => false | S d => forallb (fun kv => plain_text (fst kv) && printable d (snd kv)) l end
  end.

(** The fuel that reading a document spends. *)
Fixpoint cost (j : json) : nat :=
  match j with
  | JArr l => S (foldr (fun j n => S (cost j + n)) 0 l)
  | JObj l => S (foldr (fun kv n => S (cost (snd kv) + n)) 0 l)
  | _ => 1
  end.
Definition elements_cost (l : list json) : nat := foldr (fun j n => S (cost j + n)) 0 l.
Definition members_cost (l : list (string * json)) : nat := foldr (fun kv n => S (cost (snd kv) + n)) 0 l.

(** ** Reading it back *)

Lemma plain_byte_spec a : plain_byte a = true ->
  between 32 126 a = true /\ Ascii.eqb a dquote = false /\ Ascii.eqb a backslash = false /\
  between 0 31 a = false /\ between 0 127 a = true.
Proof.
  unfold plain_byte. intros H. go_bool. split_and!; try done; revert H; unfold between;
    rewrite ?andb_true_iff, ?andb_false_iff, ?Nat.leb_le, ?Nat.leb_gt; lia.
Qed.

Lemma read_text s r : plain_text s = true -> string_body 0 (s +:+ String dquote r) = Some (s, r).
Proof.
  induction s as [|a s IH]; intros Hs; [reflexivity|].
  cbn [plain_text] in Hs. apply andb_true_iff in Hs as [Ha Hs].
  destruct (plain_byte_spec _ Ha) as (_ & Hq & Hb & Hc & Hl).
  change ((String a s) +:+ ?x) with (String a (s +:+ x)).
  cbn [string_body]. rewrite Hq, Hb, Hc. unfold rune_len. rewrite Hl. cbn [prepend byte_string].
  by rewrite IH.
Qed.

(** A printed document starts with a byte that is neither white space nor a bracket
    that closes. *)
Definition opens (s : string) : bool :=
  match s with
  | String a _ => negb (is_ws a) && negb (Ascii.eqb a "]") && negb (Ascii.eqb a "}")
  | EmptyString => false
  end.

Lemma print_opens d j r : printable d j = true -> opens (print j +:+ r) = true.
Proof. destruct j as [|[]| | | |]; done. Qed.

Lemma skip_opens s : opens s = true -> skip_ws s = s.
Proof. destruct s as [|a s]; cbn; [done|]. by destruct (is_ws a). Qed.

(** What [value] does on a document, once its fuel is enough. *)
Definition reads_back (j : json) : Prop := forall d depth f r,
  printable d j = true -> (depth + Z.of_nat d <= max_depth)%Z -> cost j <= f ->
  value f depth (print j +:+ r) = Some (j, r).

Lemma join_cons (sep s : string) l :
  join sep (s :: l) = match l with [] => s | _ => s +:+ sep +:+ join sep l end.
Proof. by destruct l. Qed.

Lemma read_elements l d depth f r :
  Forall reads_back l -> l <> [] -> forallb (printable d) l = true ->
  (depth + Z.of_nat d <= max_depth)%Z -> elements_cost l <= f ->
  elements f depth (join "," (print <$> l) +:+ String "]" r) = Some (l, r).
Proof.
  intros Hl. revert f. induction Hl as [|j l Hj Hl IH]; intros f Hne Hp Hd Hf; [done|].
  cbn [forallb] in Hp. apply andb_true_iff in Hp as [Hpj Hpl]. cbn [elements_cost foldr] in Hf.
  fold (elements_cost l) in Hf. destruct f as [|f]; [lia|]. cbn [elements].
  rewrite fmap_cons, join_cons. destruct l as [|k l].
  - cbn [fmap list_fmap]. by rewrite (Hj d) by (done || lia).
  - cbn [fmap list_fmap]. rewrite string_app_assoc, (Hj d) by (done || lia).
    cbn [String.append skip_ws]. change (is_ws ",") with false. cbn [Ascii.eqb].
    change (Ascii.eqb "," ",") with true. cbn iota.
    change (print k :: list_fmap _ _ print l) with (print <$> (k :: l)).
    by rewrite IH by (done || lia).
Qed.

Definition print_member (kv : string * json) : string := quoted (fst kv) +:+ String ":" (print (snd kv)).

Lemma print_member_app k j r :
  print_member (k, j) +:+ r = String dquote (k +:+ String dquote (String ":" (print j +:+ r))).
Proof.
  unfold print_member, quoted. cbn [fst snd]. do 3 (rewrite ?string_app_assoc; cbn [String.append]).
  done.
Qed.

Lemma read_members l d depth f r :
  Forall (fun kv => reads_back (snd kv)) l -> l <> [] ->
  forallb (fun kv => plain_text (fst kv) && printable d (snd kv)) l = true ->
  (depth + Z.of_nat d <= max_depth)%Z -> members_cost l <= f ->
  members f depth (join "," (print_member <$> l) +:+ String "}" r) = Some (l, r).
Proof.
  intros Hl. revert f. induction Hl as [|[key j] l Hj Hl IH]; intros f Hne Hp Hd Hf; [done|].
  cbn [forallb fst snd] in Hp, Hj. apply andb_true_iff in Hp as [[Hk Hpj]%andb_true_iff Hpl].
  cbn [members_cost foldr snd] in Hf. fold (members_cost l) in Hf. destruct f as [|f]; [lia|]. cbn [members].
  assert (forall rest, value f depth (print j +:+ rest) = Some (j, rest)) as Hv
    by (intros rest; apply (Hj d); [done..|lia]).
  rewrite fmap_cons, join_cons. destruct l as [|kv l].
  - cbn [fmap list_fmap]. rewrite print_member_app. cbn [skip_ws]. change (is_ws dquote) with false.
    cbn iota. change (negb (Ascii.eqb dquote dquote)) with false. cbn iota. rewrite read_text by done.
    cbn [skip_ws]. change (is_ws ":") with false. cbn iota. change (negb (Ascii.eqb ":" ":")) with false.
    cbn iota. by rewrite Hv.
  - cbn [fmap list_fmap]. rewrite string_app_assoc, print_member_app. cbn [skip_ws].
    change (is_ws dquote) with false. cbn iota. change (negb (Ascii.eqb dquote dquote)) with false.
    cbn iota. rewrite read_text by done. cbn [skip_ws]. change (is_ws ":") with false. cbn iota.
    change (negb (Ascii.eqb ":" ":")) with false. cbn iota. rewrite Hv.
    cbn [String.append skip_ws]. change (is_ws ",") with false. cbn iota.
    change (Ascii.eqb "," ",") with true. cbn iota.
    change (print_member kv :: list_fmap _ _ print_member l) with (print_member <$> (kv :: l)).
    by rewrite IH by (done || lia).
Qed.

Lemma document_reads_back j : reads_back j.
Proof.
  induction j as [|b|s|s|l Hl|l Hl] using json_tree_ind; intros d depth f r Hp Hd Hf;
    (destruct f as [|f]; [cbn in Hf; lia|]).
  - reflexivity.
  - by destruct b.
  - done.
  - cbn [value print]. unfold quoted. change ((String dquote ?x) +:+ ?y) with (String dquote (x +:+ y)).
    rewrite string_app_assoc. cbn [skip_ws]. change (is_ws dquote) with false. cbn iota.
    change (Ascii.eqb dquote "[") with false. change (Ascii.eqb dquote "{") with false.
    change (Ascii.eqb dquote dquote) with true. cbn iota. cbn [String.append]. by rewrite read_text.
  - destruct d as [|d]; [done|]. cbn [printable] in Hp. cbn [cost] in Hf. fold (elements_cost l) in Hf.
    cbn [value print]. change ((String "[" ?x) +:+ ?y) with (String "[" (x +:+ y)).
    cbn [skip_ws]. change (is_ws "[") with false. cbn iota. change (Ascii.eqb "[" "[") with true. cbn iota.
    destruct (Z.leb_spec max_depth depth); [lia|].
    destruct l as [|j l]; [reflexivity|].
    assert (opens ((join "," (print <$> j :: l) +:+ "]") +:+ r) = true) as Ho.
    { rewrite fmap_cons, join_cons. cbn [forallb] in Hp. apply andb_true_iff in Hp as [Hp _].
      destruct (print <$> l); rewrite !string_app_assoc; by eapply print_opens. }
    rewrite (skip_opens _ Ho). destruct ((join _ _ +:+ "]") +:+ r) as [|a t] eqn:Ht; [done|].
    cbn [opens] in Ho. go_bool. match goal with H : Ascii.eqb a "]" = false |- _ => rewrite H end.
    rewrite <- Ht, string_app_assoc. cbn [String.append].
    by rewrite (read_elements (j :: l) d) by (done || lia).
  - destruct d as [|d]; [done|]. cbn [printable] in Hp. cbn [cost] in Hf. fold (members_cost l) in Hf.
    cbn [value print]. change ((String "{" ?x) +:+ ?y) with (String "{" (x +:+ y)).
    cbn [skip_ws]. change (is_ws "{") with false. cbn iota. change (Ascii.eqb "{" "[") with false.
    change (Ascii.eqb "{" "{") with true. cbn iota.
    destruct (Z.leb_spec max_depth depth); [lia|].
    change (fun kv => quoted (fst kv) +:+ String ":" (print (snd kv))) with print_member.
    destruct l as [|kv l]; [reflexivity|].
    assert (exists t, (join "," (print_member <$> kv :: l) +:+ "}") +:+ r = String dquote t) as [t Ht].
    { rewrite fmap_cons, join_cons. destruct kv as [k j].
      destruct (print_member <$> l); rewrite !string_app_assoc, print_member_app; eauto. }
    rewrite Ht. cbn [skip_ws]. change (is_ws dquote) with false. cbn iota.
    change (Ascii.eqb dquote "}") with false. cbn iota. rewrite <- Ht, string_app_assoc. cbn [String.append].
    by rewrite (read_members (kv :: l) d) by (done || lia).
Qed.

(** Every unit of fuel is paid for by half a byte. *)
Lemma cost_length j d : printable d j = true -> cost j + 1 <= 2 * String.length (print j).
Proof.
  revert d. induction j as [|b|s|s|l Hl|l Hl] using json_tree_ind; intros d Hp; cbn [cost print].
  - cbn. lia.
  - destruct b; cbn; lia.
  - done.
  - unfold quoted. cbn [String.length]. rewrite string_length_app. cbn. lia.
  - destruct d as [|d]; [done|]. cbn [printable] in Hp. cbn [String.length]. rewrite string_length_app.
    fold (elements_cost l). enough (elements_cost l <= 2 * String.length (join "," (print <$> l))) by (cbn; lia).
    clear -Hl Hp. induction Hl as [|j l Hj Hl IH]; [cbn; lia|].
    cbn [forallb] in Hp. apply andb_true_iff in Hp as [Hpj Hpl]. specialize (Hj _ Hpj). specialize (IH Hpl).
    cbn [elements_cost foldr]. fold (elements_cost l). rewrite fmap_cons, join_cons.
    destruct l as [|k l]; cbn [fmap list_fmap] in *; [cbn in *; lia|].
    rewrite !string_length_app. cbn [String.length] in *. lia.
  - destruct d as [|d]; [done|]. cbn [printable] in Hp. cbn [String.length]. rewrite string_length_app.
    change (fun kv => quoted (fst kv) +:+ String ":" (print (snd kv))) with print_member.
    fold (members_cost l). enough (members_cost l <= 2 * String.length (join "," (print_member <$> l))) by (cbn; lia).
    clear -Hl Hp. induction Hl as [|[k j] l Hj Hl IH]; [cbn; lia|].
    cbn [forallb fst snd] in Hp, Hj. apply andb_true_iff in Hp as [[_ Hpj]%andb_true_iff Hpl].
    specialize (Hj _ Hpj). specialize (IH Hpl).
    cbn [members_cost foldr snd]. fold (members_cost l).
    assert (String.length (print j) <= String.length (print_member (k, j))) as Hm.
    { unfold print_member. rewrite string_length_app. cbn. lia. }
    rewrite fmap_cons, join_cons.
    destruct l as [|kv l]; cbn [fmap list_fmap] in *; [cbn in *; lia|].
    rewrite !string_length_app. cbn [String.length] in *. lia.
Qed.

(** Reading what was printed gives the document back. *)
Lemma parse_print j d :
  printable d j = true -> (Z.of_nat d <= max_depth)%Z -> parse (print j) = Some j.
Proof.
  intros Hp Hd. unfold parse. rewrite <- (string_app_empty (print j)) at 2.
  pose proof (cost_length _ _ Hp). by rewrite (document_reads_back j d) by (done || lia).
Qed.

Example print_ex : print (JObj [("report", JArr [JObj [("lv", JArr [])]; JNull])]) =
  "{" +:+ quoted "report" +:+ ":[{" +:+ quoted "lv" +:+ ":[]},null]}".
Proof. reflexivity. Qed.
