(* ===== verification/Lvm.v ===== *)
(** * Logical volumes and thin pools: the LVM commands of lvm.go

    A function that runs commands is a [prog] whose effects are [Exec] nodes, one
    per [Execute] call, in the order of the source; [T] holds the process-wide
    timeouts.  A Go pair [(string, error)] whose string is also read on an error
    is kept as a pair [string * option error]. *)
From S2P Require Import Prelude GoStrings Errors Objects Effects Config Json.

(** ** Executors *)

(** What [newCommandExecutor] makes; [ex_timed]: it has a [SetTimeout] method, so
    the assertion to [timedCommandExecutor] succeeds. *)
Record executor := { ex_timeout : Z; ex_timed : bool }.

Definition newCommandExecutor (T : timeouts) : executor :=
  {| ex_timeout := commandTimeout T; ex_timed := true |}.
Definition SetTimeout (timeout : Z) (e : executor) : executor :=
  {| ex_timeout := timeout; ex_timed := ex_timed e |}.
Definition Execute (e : executor) (command : string) (args : list string) :
    prog (string * option ext_error) :=
  call (Exec (ex_timeout e) command args).

(** ** The lvs report *)

Record logicalVolume := {
  lv_Name : string; lv_VGName : string; lv_Size : string; lv_SegType : string; lv_Origin : string }.
#[export] Instance logicalVolume_eq_dec : EqDecision logicalVolume.
Proof. solve_decision. Defined.

Definition zero_volume : logicalVolume := {|
  lv_Name := ""; lv_VGName := ""; lv_Size := ""; lv_SegType := ""; lv_Origin := "" |}.

(** The [json] tags of [logicalVolume]. *)
Definition decode_volume_field (v : logicalVolume) (key : string) (j : json) : option logicalVolume :=
  let set (old : string) (f : string -> logicalVolume) :=
    match decode_string old j with Some s => Some (f s) | None => None end in
  let 'Build_logicalVolume n vg sz ty og := v in
  if same_field key "lv_name" then set n (fun s => Build_logicalVolume s vg sz ty og)
  else if same_field key "vg_name" then set vg (fun s => Build_logicalVolume n s sz ty og)
  else if same_field key "lv_size" then set sz (fun s => Build_logicalVolume n vg s ty og)
  else if same_field key "segtype" then set ty (fun s => Build_logicalVolume n vg sz s og)
  else if same_field key "origin" then set og (fun s => Build_logicalVolume n vg sz ty s)
  else Some v.

(** [logicalVolumeReport]: each report is its slice of volumes. *)
Definition decode_report : json -> option (list (list logicalVolume)) :=
  let volumes := decode_slice zero_volume (decode_struct decode_volume_field) in
  let item old key j := if same_field key "lv" then volumes old j else Some old in
  let reports := decode_slice [] (decode_struct item) in
  decode_struct (fun old key j => if same_field key "report" then reports old j else Some old) [].

Definition normalizeLogicalVolume (volume : logicalVolume) : logicalVolume := {|
  lv_Name := trim_space (lv_Name volume);
  lv_VGName := trim_space (lv_VGName volume);
  lv_Size := trim_space (lv_Size volume);
  lv_SegType := trim_space (lv_SegType volume);
  lv_Origin := trim_space (lv_Origin volume) |}.

(** The error of [json.Unmarshal], whose text the driver only passes on. *)
Definition json_error : error := Errorf "json.Unmarshal" [].

(** The volumes a [lvs] output lists, [None] when it does not parse. *)
Definition parse_report (out : string) : option (list logicalVolume) :=
  match parse out ≫= decode_report with
  | Some reports => Some (normalizeLogicalVolume <$> concat reports)
  | None => None
  end.

Definition lvs_args : list string :=
  ["--reportformat"; "json"; "--units"; "b"; "--nosuffix";
   "--options"; "lv_name,vg_name,lv_size,segtype,origin"].

Definition strconv_error (f s : string) (e : num_error) : error :=
  Errorf "strconv.%s: parsing %q: %s"
    [AStr f; AStr s; AStr match e with ErrSyntax => "invalid syntax" | ErrRange => "value out of range" end].

Definition parseLogicalVolumeSize (volume : logicalVolume) : result error Z :=
  map_err (fun e => Wrapf "unable to parse size %q of logical volume %q/%q: %w"
                      [AStr (lv_Size volume); AStr (lv_VGName volume); AStr (lv_Name volume)]
                      (strconv_error "ParseUint" (lv_Size volume) e))
    (parse_uint (lv_Size volume)).

Definition type_matches (requestedType segType : string) : bool :=
  (requestedType =s DmThinType) && (segType =s ThinVolType) ||
  (requestedType =s StripedType) && ((segType =s StripedType) || (segType =s LinearType)).

Definition validateExistingVolume (volume : logicalVolume) (requestedSize : Z) (requestedType : string) :
    result error unit :=
  let! actualSize := parseLogicalVolumeSize volume in
  reject (actualSize <? requestedSize)%Z
    with Errorf "existing logical volume %q/%q has size %d, smaller than requested size %d"
           [AStr (lv_VGName volume); AStr (lv_Name volume); AInt actualSize; AInt requestedSize];
  reject negb (type_matches requestedType (lv_SegType volume))
    with Errorf "existing logical volume %q/%q has type %q, incompatible with requested type %q"
           [AStr (lv_VGName volume); AStr (lv_Name volume); AStr (lv_SegType volume); AStr requestedType];
  Ok tt.

(** The loop of [getLogicalVolumeByName]. *)
Fixpoint find_by_name (lvName : string) (volumes : list logicalVolume) (found : option logicalVolume) :
    result error logicalVolume :=
  match volumes with
  | [] =>
      match found with
      | None => Err (Errorf "logical volume %q does not exist" [AStr lvName])
      | Some v => Ok v
      end
  | v :: rest =>
      if negb (lv_Name v =s lvName) then find_by_name lvName rest found
      else match found with
           | Some m => Err (Errorf "logical volume name %q is ambiguous across volume groups %q and %q"
                              [AStr lvName; AStr (lv_VGName m); AStr (lv_VGName v)])
           | None => find_by_name lvName rest (Some v)
           end
  end.

Definition is_volume (vgName lvName : string) (v : logicalVolume) : bool :=
  (lv_VGName v =s vgName) && (lv_Name v =s lvName).

Definition thinPoolCreateArgs (vg thinPoolName : string) : list string :=
  ["--type"; ThinPoolType; "--name"; thinPoolName; "--extents"; thinPoolDataExtents;
   "--chunksize"; thinPoolChunkSize; "--poolmetadatasize"; thinPoolMetadataSize;
   "--poolmetadataspare"; "y"; vg].

Definition buildLVExtendArgs (vgName lvName : string) (size : Z) : list string :=
  ["-L"; format_int size +:+ "b"; "-n"; vgName +:+ "/" +:+ lvName].

Definition combineCommandOutput (outputs : list string) : string :=
  join (byte_string (byte_of 10))
    (List.filter (fun o => negb (o =s "")) (trim_space <$> outputs)).

Definition thinPoolCreateError (vgName thinPoolName : string) (err : error) : error :=
  Wrapf "unable to create thin pool %q/%q: %w" [AStr vgName; AStr thinPoolName] err.

(** The loop of [getThinPoolAndCounts]. *)
Fixpoint thin_pool_counts (vgName : string) (lines : list string) (thinInfo : gmap string Z) :
    result error (gmap string Z) :=
  match lines with
  | [] => Ok thinInfo
  | line :: rest =>
      if line =s "" then thin_pool_counts vgName rest thinInfo
      else match fields line with
           | [vg; segtype; name; thinCount] =>
               if (vg =s vgName) && (segtype =s ThinPoolType) then
                 match atoi thinCount with
                 | Err e => Err (strconv_error "Atoi" thinCount e)
                 | Ok count => thin_pool_counts vgName rest (<[name := count]> thinInfo)
                 end
               else thin_pool_counts vgName rest thinInfo
           | _ => thin_pool_counts vgName rest thinInfo
           end
  end.

Section commands.
Variable T : timeouts.

Definition listLogicalVolumes : prog (result error (list logicalVolume)) :=
  let* (out, err) := Execute (newCommandExecutor T) "lvs" lvs_args in
  match err with
  | Some e => Ret (Err (Ext e))
  | None =>
      match parse_report out with
      | None => Ret (Err (Wrapf "unable to parse lvs output: %w" [] json_error))
      | Some volumes => Ret (Ok volumes)
      end
  end.

(** [None] for the flag [found] being false. *)
Definition getLogicalVolume (vgName lvName : string) : prog (result error (option logicalVolume)) :=
  let*! volumes := listLogicalVolumes in
  Ret (Ok (List.find (is_volume vgName lvName) volumes)).

Definition getLogicalVolumeByName (lvName : string) : prog (result error logicalVolume) :=
  let*! volumes := listLogicalVolumes in
  Ret (find_by_name lvName volumes None).

(** *** Volume groups *)

Definition VgExists (vgname : string) : prog bool :=
  let* (out, err) := Execute (newCommandExecutor T) "vgs" [vgname; "--noheadings"; "-o"; "vg_name"] in
  match err with
  | Some _ => Ret false
  | None => Ret (vgname =s trim_space out)
  end.

Definition scanVolumeGroups : prog (option error) :=
  let* (out, err) := Execute (newCommandExecutor T) "vgscan" [] in
  match err with
  | Some e => Ret (Some (Wrapf "unable to scan for volume groups: %w output:%s" [AStr out] (Ext e)))
  | None => Ret None
  end.

Definition activateVolumeGroups (vgNames : list string) : prog (option error) :=
  let* (out, err) := Execute (newCommandExecutor T) "vgchange" ("-ay" :: vgNames) in
  match err with
  | Some e => Ret (Some (Wrapf "unable to activate volume groups: %w output:%s" [AStr out] (Ext e)))
  | None => Ret None
  end.

Definition ensureVGDiscovered (vgName : string) : prog (option error) :=
  let* found := VgExists vgName in
  if found then Ret None
  else
    try scanVolumeGroups Some
      (let* found := VgExists vgName in
       if found then Ret None
       else Ret (Some (Errorf "volume group %q does not exist; ensure it is created on the target node"
                         [AStr vgName]))).

Definition EnsureVG (vgName : string) : prog (option error) :=
  try (ensureVGDiscovered vgName) Some
    (try (activateVolumeGroups [vgName])
       (fun e => Some (Wrapf "unable to activate volume group %q: %w" [AStr vgName] e))
       (Ret None)).

Definition VgActivate : prog (option error) :=
  try scanVolumeGroups Some (activateVolumeGroups []).

Definition pvCount (vgname : string) : prog (result error Z) :=
  let* (out, err) := Execute (newCommandExecutor T) "vgs" [vgname; "--noheadings"; "-o"; "pv_count"] in
  match err with
  | Some e => Ret (Err (Ext e))
  | None => Ret (map_err (strconv_error "Atoi" (trim_space out)) (atoi (trim_space out)))
  end.

(** *** Thin pools *)

Definition validateThinPool (vgName thinpoolName : string) : prog (option error) :=
  let* (out, err) := Execute (newCommandExecutor T) "lvs"
      ["--noheadings"; "-o"; "lv_attr,lv_health_status"; vgName +:+ "/" +:+ thinpoolName] in
  match err with
  | Some e => Ret (Some (Wrapf "unable to inspect thin pool %q/%q: %w output:%s"
                           [AStr vgName; AStr thinpoolName; AStr out] (Ext e)))
  | None =>
      let invalid := Errorf "thin pool %q/%q returned invalid attributes %q"
                       [AStr vgName; AStr thinpoolName; AStr (trim_space out)] in
      match fields out with
      | [] => Ret (Some invalid)
      | attributes :: rest =>
          match String.get 4 attributes with
          | None => Ret (Some invalid)
          | Some state =>
              if negb (Ascii.eqb state "a") then
                Ret (Some (Errorf "thin pool %q/%q is inactive (attributes %q)"
                             [AStr vgName; AStr thinpoolName; AStr attributes]))
              else match rest with
                   | [] => Ret None
                   | _ => Ret (Some (Errorf "thin pool %q/%q is unhealthy: %q"
                                       [AStr vgName; AStr thinpoolName; AStr (join " " rest)]))
                   end
          end
      end
  end.

Definition checkThinPool (pool : logicalVolume) : prog (option error) :=
  if negb (lv_SegType pool =s ThinPoolType) then
    Ret (Some (Errorf "thin pool %q/%q is incomplete: expected segment type %q, found %q"
                 [AStr (lv_VGName pool); AStr (lv_Name pool); AStr ThinPoolType; AStr (lv_SegType pool)]))
  else validateThinPool (lv_VGName pool) (lv_Name pool).

Definition rollbackThinPoolCreate (vgName thinPoolName : string) : prog (option error) :=
  let* r := getLogicalVolume vgName thinPoolName in
  match r with
  | Err e => Ret (Some (Wrapf "unable to inspect timed-out thin-pool creation: %w" [] e))
  | Ok None => Ret None
  | Ok (Some pool) =>
      if lv_SegType pool =s ThinPoolType then Ret None
      else if negb (lv_SegType pool =s LinearType) then
        Ret (Some (Errorf "refusing to remove logical volume %q/%q with unexpected segment type %q"
                     [AStr vgName; AStr thinPoolName; AStr (lv_SegType pool)]))
      else
        let* (out, err) := Execute (newCommandExecutor T) "lvremove"
            ["-q"; "-y"; vgName +:+ "/" +:+ thinPoolName] in
        match err with
        | Some e => Ret (Some (Wrapf "unable to remove incomplete logical volume %q/%q: %w output:%s"
                                 [AStr vgName; AStr thinPoolName; AStr out] (Ext e)))
        | None => Ret None
        end
  end.

Definition handleThinPoolCreateError (vgName thinPoolName : string) (createErr : error) : prog error :=
  if negb (is_cmd_timeout createErr) then Ret (thinPoolCreateError vgName thinPoolName createErr)
  else
    let* rollbackErr := rollbackThinPoolCreate vgName thinPoolName in
    match rollbackErr with
    | None => Ret (thinPoolCreateError vgName thinPoolName createErr)
    | Some e => Ret (Wrapf "unable to create thin pool %q/%q: %w; rollback failed: %v"
                       [AStr vgName; AStr thinPoolName; AErr e] createErr)
    end.

Definition createThinPool (vgName thinPoolName : string) : prog (option error) :=
  let executor := newCommandExecutor T in
  if negb (ex_timed executor) then
    Ret (Some (Errorf "lvcreate executor does not support command timeouts" []))
  else
    let timedExecutor := SetTimeout (thinPoolCreateTimeout T) executor in
    let* (_, err) := Execute timedExecutor "lvcreate" (thinPoolCreateArgs vgName thinPoolName) in
    match err with
    | None => Ret None
    | Some e => let* e := handleThinPoolCreateError vgName thinPoolName (Ext e) in Ret (Some e)
    end.

Definition prepareThinPool (vgName lvmType : string) : prog (result error string) :=
  if negb (lvmType =s DmThinType) then Ret (Ok "")
  else
    let thinPoolName := vgName +:+ "-thinpool" in
    let* r := getLogicalVolume vgName thinPoolName in
    match r with
    | Err e => Ret (Err (Wrapf "unable to determine if thin pool %q/%q exists: %w"
                           [AStr vgName; AStr thinPoolName] e))
    | Ok (Some pool) => try (checkThinPool pool) Err (Ret (Ok thinPoolName))
    | Ok None => try (createThinPool vgName thinPoolName) Err (Ret (Ok thinPoolName))
    end.

Definition getThinPoolAndCounts (vgName : string) : prog (result error (gmap string Z)) :=
  let* (out, err) := Execute (newCommandExecutor T) "lvs"
      ["--noheadings"; "-o"; "vg_name,segtype,name,thin_count"] in
  match err with
  | Some e => Ret (Err (Ext e))
  | None => Ret (thin_pool_counts vgName (split (byte_of 10) out) ∅)
  end.

(** *** Volumes *)

(** The type-specific operands of [lvcreate]. *)
Definition create_type_args (lvmType vg thinPoolName : string) (size pvs : Z) : list string :=
  if lvmType =s StripedType then
    ["-L"; format_int size +:+ "b"; "--type"; "striped"; "--stripes"; format_int pvs; vg]
  else if lvmType =s DmThinType then
    ["-V"; format_int size +:+ "b"; "--thin-pool"; thinPoolName; vg]
  else [].

Definition CreateLVS (vg name : string) (size : Z) (lvmType : string) : prog (string * option error) :=
  if (size =? 0)%Z then Ret ("", Some (Errorf "size must be greater than 0" []))
  else if negb (lvmType =s StripedType) && negb (lvmType =s DmThinType) then
    Ret ("", Some (Errorf "unsupported lvmtype: %q" [AStr lvmType]))
  else
    let* r := getLogicalVolume vg name in
    match r with
    | Err e => Ret ("", Some (Wrapf "unable to check existing logical volume %q/%q: %w"
                                [AStr vg; AStr name] e))
    | Ok (Some existing) =>
        match validateExistingVolume existing size lvmType with
        | Err e => Ret ("", Some e)
        | Ok _ => Ret (name, None)
        end
    | Ok None =>
        let* r := prepareThinPool vg lvmType in
        match r with
        | Err e => Ret ("", Some e)
        | Ok thinPoolName =>
            let* r := pvCount vg in
            match r with
            | Err e => Ret ("", Some (Wrapf "unable to determine pv count of vg: %w" [] e))
            | Ok pvs =>
                let args := (["-v"; "--yes"; "-n"; name; "-W"; "y"]
                             ++ create_type_args lvmType vg thinPoolName size pvs
                             ++ ["--addtag"; "harvester-csi-lvm"])%list in
                let* (out, err) := Execute (newCommandExecutor T) "lvcreate" args in
                Ret (out, Ext <$> err)
            end
        end
    end.

(** The message of a volume that is already gone. *)
Definition absent_message (name : string) : string :=
  "logical volume " +:+ name +:+ " does not exist. Assuming it has already been deleted.".

Definition RemoveLVSInVG (vgName name : string) : prog (string * option error) :=
  let* r := getLogicalVolume vgName name in
  match r with
  | Err e => Ret ("", Some (Wrapf "unable to check logical volume %q/%q: %w" [AStr vgName; AStr name] e))
  | Ok None => Ret (absent_message name, None)
  | Ok (Some _) =>
      let* (out, err) := Execute (newCommandExecutor T) "lvremove"
          ["-q"; "-y"; vgName +:+ "/" +:+ name] in
      Ret (out, Ext <$> err)
  end.

Definition RemoveThinPool (vgName : string) : prog (option error) :=
  let targetThinPool := vgName +:+ "-thinpool" in
  let* r := getThinPoolAndCounts vgName in
  match r with
  | Err e => Ret (Some (Wrapf "unable to get thinpool and count: %w" [] e))
  | Ok thinPoolInfo =>
      match thinPoolInfo !! targetThinPool with
      | None => Ret None
      | Some count =>
          if (0 <? count)%Z then Ret None
          else
            let* (_, err) := RemoveLVSInVG vgName targetThinPool in
            match err with
            | Some e => Ret (Some (Wrapf "unable to remove thinpool: %w" [] e))
            | None => Ret None
            end
      end
  end.

(** *** Snapshots *)

Definition CreateSnapshot (snapshotName srcVolName vgName : string) (volSize : Z)
    (lvType : string) (forClone : bool) : prog (string * option error) :=
  if (snapshotName =s "") || (srcVolName =s "") then
    Ret ("", Some (Errorf "invalid empty name or path" []))
  else if (volSize =? 0)%Z then Ret ("", Some (Errorf "size must be greater than 0" []))
  else
    let* r := getLogicalVolume vgName srcVolName in
    match r with
    | Err e => Ret ("", Some (Wrapf "unable to check source logical volume %q/%q: %w"
                                [AStr vgName; AStr srcVolName] e))
    | Ok None => Ret ("", Some (Errorf "logical volume %q does not exist" [AStr srcVolName]))
    | Ok (Some _) =>
        let backendSnapshotName := if forClone then snapshotName else "lvm-" +:+ snapshotName in
        let* r := getLogicalVolume vgName backendSnapshotName in
        match r with
        | Err e => Ret ("", Some (Wrapf "unable to check existing snapshot %q/%q: %w"
                                    [AStr vgName; AStr backendSnapshotName] e))
        | Ok (Some existing) =>
            if negb (lv_Origin existing =s srcVolName) then
              Ret ("", Some (Errorf "existing snapshot %q/%q has origin %q, expected %q"
                               [AStr vgName; AStr backendSnapshotName; AStr (lv_Origin existing);
                                AStr srcVolName]))
            else Ret (backendSnapshotName, None)
        | Ok None =>
            let args := (["-s"; "-y"] ++ (if forClone then [] else ["-a"; "n"])
                         ++ ["-n"; backendSnapshotName])%list in
            let finish (args : list string) :=
              let* (out, err) := Execute (newCommandExecutor T) "lvcreate"
                  (args ++ [vgName +:+ "/" +:+ srcVolName])%list in
              Ret (out, Ext <$> err) in
            if lvType =s StripedType then finish (args ++ ["-L"; format_int volSize +:+ "b"])%list
            else if lvType =s DmThinType then finish args
            else Ret ("", Some (Errorf "unsupported lvmtype: %q" [AStr lvType]))
        end
    end.

Definition DeleteSnapshot (snapshotName vgName : string) : prog (string * option error) :=
  if snapshotName =s "" then Ret ("", Some (Errorf "invalid empty name" []))
  else
    let snapshotName := "lvm-" +:+ snapshotName in
    let* r := getLogicalVolume vgName snapshotName in
    match r with
    | Err e => Ret ("", Some (Wrapf "unable to check snapshot %q/%q: %w"
                                [AStr vgName; AStr snapshotName] e))
    | Ok None => Ret ("snapshot " +:+ vgName +:+ "/" +:+ snapshotName +:+
                      " does not exist. Assuming it has already been deleted.", None)
    | Ok (Some _) =>
        let* (out, err) := Execute (newCommandExecutor T) "lvremove"
            ["-q"; "-y"; "/dev/" +:+ vgName +:+ "/" +:+ snapshotName] in
        Ret (out, Ext <$> err)
    end.
End commands.

(** The functions unfold on request only. *)
#[global] Arguments listLogicalVolumes : simpl never.
#[global] Arguments getLogicalVolume : simpl never.
#[global] Arguments getLogicalVolumeByName : simpl never.
#[global] Arguments VgExists : simpl never.
#[global] Arguments scanVolumeGroups : simpl never.
#[global] Arguments activateVolumeGroups : simpl never.
#[global] Arguments ensureVGDiscovered : simpl never.
#[global] Arguments EnsureVG : simpl never.
#[global] Arguments pvCount : simpl never.
#[global] Arguments validateThinPool : simpl never.
#[global] Arguments checkThinPool : simpl never.
#[global] Arguments rollbackThinPoolCreate : simpl never.
#[global] Arguments handleThinPoolCreateError : simpl never.
#[global] Arguments createThinPool : simpl never.
#[global] Arguments prepareThinPool : simpl never.
#[global] Arguments getThinPoolAndCounts : simpl never.
#[global] Arguments CreateLVS : simpl never.
#[global] Arguments RemoveLVSInVG : simpl never.
#[global] Arguments RemoveThinPool : simpl never.
#[global] Arguments CreateSnapshot : simpl never.
#[global] Arguments DeleteSnapshot : simpl never.
#[global] Arguments parse_report : simpl never.
#[global] Arguments validateExistingVolume : simpl never.
