(* ===== verification/LvmHost.v ===== *)
(** * What the LVM commands do to a host, and what the driver's operations achieve

    [LvmHost] is the interface the operations of Lvm.v are proved against: the
    logical volumes a host has and what a command may answer and change, as the
    lvm2 manual pages document it (lvs(8), vgs(8), lvcreate(8), lvremove(8)).
    Between two commands of one operation nobody else changes the volumes.
    A [policy] says which commands an operation may run in which state; a [wp]
    over [lvm_env policy] includes that the operation keeps to it. *)
From S2P Require Import Prelude GoStrings Errors Objects Effects Config Validation Json Lvm.

Definition find_volume (vg name : string) (l : list logicalVolume) : option logicalVolume :=
  List.find (is_volume vg name) l.

(** The volume a successful [lvcreate] makes, by the form of its operands. *)
Inductive lvcreate_makes (l : list logicalVolume) : list string -> logicalVolume -> Prop :=
| makes_striped name vg size n stripes tag ty :
    (0 <= size <= n)%Z -> is_uint64 n -> ty = LinearType \/ ty = StripedType ->
    lvcreate_makes l
      ["-v"; "--yes"; "-n"; name; "-W"; "y"; "-L"; format_int size +:+ "b"; "--type"; "striped";
       "--stripes"; stripes; vg; "--addtag"; tag]
      {| lv_Name := name; lv_VGName := vg; lv_Size := format_uint n; lv_SegType := ty; lv_Origin := "" |}
| makes_thin name vg size n pool tag :
    (0 <= size <= n)%Z -> is_uint64 n ->
    lvcreate_makes l
      ["-v"; "--yes"; "-n"; name; "-W"; "y"; "-V"; format_int size +:+ "b"; "--thin-pool"; pool; vg;
       "--addtag"; tag]
      {| lv_Name := name; lv_VGName := vg; lv_Size := format_uint n; lv_SegType := ThinVolType;
         lv_Origin := "" |}
| makes_pool name vg n :
    is_uint64 n ->
    lvcreate_makes l (thinPoolCreateArgs vg name)
      {| lv_Name := name; lv_VGName := vg; lv_Size := format_uint n; lv_SegType := ThinPoolType;
         lv_Origin := "" |}
| makes_snapshot (inactive : bool) name vg src (size : option Z) ty s :
    has_byte "/" vg = false ->
    find_volume vg src l = Some s ->
    (size = None -> ty = ThinVolType) ->
    lvcreate_makes l
      (["-s"; "-y"] ++ (if inactive then ["-a"; "n"] else []) ++ ["-n"; name]
        ++ match size with Some z => ["-L"; format_int z +:+ "b"] | None => [] end
        ++ [vg +:+ "/" +:+ src])%list
      {| lv_Name := name; lv_VGName := vg; lv_Size := lv_Size s; lv_SegType := ty; lv_Origin := src |}.

(** Commands that leave the set of volumes alone. *)
Definition keeping (c : string) : Prop :=
  c ∈ ["lvs"; "vgs"; "vgscan"; "vgchange"; "blkid"; "wipefs"; "resize2fs"; "xfs_growfs"].

(** What goes with the volume [vg/name]: its snapshots and, if it is a thin pool, the
    thin volumes of the group. *)
Definition depends_on (l : list logicalVolume) (vg name : string) (v : logicalVolume) : Prop :=
  lv_VGName v = vg /\
  (lv_Origin v = name \/
   (lv_SegType v = ThinVolType /\
    exists p, find_volume vg name l = Some p /\ lv_SegType p = ThinPoolType)).

(** A thin volume of the group. *)
Definition thin_of (vg : string) (v : logicalVolume) : bool :=
  (lv_VGName v =s vg) && (lv_SegType v =s ThinVolType).

(** The group has no thin pool but [pool], the only one the driver ever creates. *)
Definition only_pool (l : list logicalVolume) (vg pool : string) : Prop :=
  forall p, p ∈ l -> lv_VGName p = vg -> lv_SegType p = ThinPoolType -> lv_Name p = pool.

Definition counts_args : list string := ["--noheadings"; "-o"; "vg_name,segtype,name,thin_count"].

(** [w] is [v] with another size. *)
Definition resized (v w : logicalVolume) : Prop :=
  lv_VGName w = lv_VGName v /\ lv_Name w = lv_Name v /\ lv_SegType w = lv_SegType v /\
  lv_Origin w = lv_Origin v.

Class LvmHost (H : Type) := {
  volumes : H -> list logicalVolume;
  exec : H -> Z -> string -> list string -> string * option ext_error -> H -> Prop;
  (* these commands report, activate or work inside volumes *)
  keeps_volumes h t c a x h' : exec h t c a x h' -> keeping c -> volumes h' = volumes h;
  (* a successful lvextend grows the volume to at least the size asked for *)
  lvextend_grows h t vg name size out h' :
    exec h t "lvextend" (buildLVExtendArgs vg name size) (out, None) h' -> is_uint64 size ->
    exists v w n rest, volumes h ≡ₚ v :: rest /\ volumes h' ≡ₚ w :: rest /\ resized v w /\
      lv_VGName v = vg /\ lv_Name v = name /\ parse_uint (lv_Size w) = Ok n /\ (size <= n)%Z;
  (* the JSON report lists the volumes *)
  lvs_lists h t out h' :
    exec h t "lvs" lvs_args (out, None) h' -> parse_report out = Some (volumes h);
  (* thin_count is the number of volumes of the pool *)
  lvs_counts h t vg out h' m pool n :
    exec h t "lvs" counts_args (out, None) h' ->
    thin_pool_counts vg (split (byte_of 10) out) ∅ = Ok m -> m !! pool = Some n ->
    only_pool (volumes h) vg pool -> n = Z.of_nat (count (thin_of vg) (volumes h));
  (* a successful lvcreate adds one volume under a new name *)
  lvcreate_adds h t a out h' :
    exec h t "lvcreate" a (out, None) h' ->
    exists v, lvcreate_makes (volumes h) a v /\
      find_volume (lv_VGName v) (lv_Name v) (volumes h) = None /\ volumes h' ≡ₚ v :: volumes h;
  (* a successful lvremove removes the volume and what depends on it *)
  lvremove_removes h t vg name operand out h' :
    exec h t "lvremove" ["-q"; "-y"; operand] (out, None) h' ->
    operand = vg +:+ "/" +:+ name \/ operand = "/dev/" +:+ vg +:+ "/" +:+ name ->
    vg <> "" -> has_byte "/" vg = false ->
    find_volume vg name (volumes h') = None /\
    (forall v, v ∈ volumes h' -> v ∈ volumes h) /\
    (forall v, v ∈ volumes h -> is_volume vg name v = false ->
       ~ depends_on (volumes h) vg name v -> v ∈ volumes h') }.

Section host.
Context `{LvmHost H}.

Definition lvm_step (h : H) (e : eff) : resp e -> H -> Prop :=
  match e as e return resp e -> H -> Prop with
  | Exec t c a => exec h t c a
  | _ => fun _ _ => False
  end.
Definition lvm_env (policy : H -> string -> list string -> Prop) : env H := {|
  allowed := fun h e => match e with Exec _ c a => policy h c a | _ => False end;
  step := lvm_step |}.

Definition is_query (c : string) : Prop := c = "lvs" \/ c = "vgs".
(** Commands that change nothing. *)
Definition read_only (h : H) (c : string) (a : list string) : Prop := is_query c.
Definition reads (policy : H -> string -> list string -> Prop) : Prop :=
  forall h c a, is_query c -> policy h c a.

Lemma query_reads h t c a x h' : exec h t c a x h' -> is_query c -> volumes h' = volumes h.
Proof. intros Hx Hc. eapply keeps_volumes; [exact Hx|]. destruct Hc as [-> | ->]; unfold keeping; set_solver. Qed.

(** ** Reading the volumes *)

Lemma wp_list T policy h : reads policy ->
  wp (lvm_env policy) (listLogicalVolumes T)
    (fun r h' => volumes h' = volumes h /\
       match r with Ok l => l = volumes h | Err _ => True end) h.
Proof.
  intros Hp. unfold listLogicalVolumes. cbn. split; [apply Hp; by left|]. intros [out [e|]] h' Hx.
  - cbn. split; [|done]. eapply query_reads; [exact Hx|by left].
  - rewrite (lvs_lists _ _ _ _ Hx). cbn. split; [|done].
    eapply query_reads; [exact Hx|by left].
Qed.

Lemma wp_get T policy vg name h : reads policy ->
  wp (lvm_env policy) (getLogicalVolume T vg name)
    (fun r h' => volumes h' = volumes h /\
       match r with Ok o => o = find_volume vg name (volumes h) | Err _ => True end) h.
Proof.
  intros Hp. eapply wp_try_ok; [by apply wp_list|..].
  - intros l h' [Hv ->]. done.
  - intros e h' [Hv _]. done.
Qed.

(** A query whose answer the continuation inspects. *)
Lemma wp_query {R} policy t c a (k : string * option ext_error -> prog R) Q h :
  reads policy -> is_query c ->
  (forall x h', volumes h' = volumes h -> wp (lvm_env policy) (k x) Q h') ->
  wp (lvm_env policy) (Vis (Exec t c a) k) Q h.
Proof.
  intros Hp Hc Hk. split; [by apply Hp|]. intros x h' Hx. apply Hk.
  eapply query_reads; [exact Hx|done].
Qed.

(** A program that runs only commands that leave the volumes alone. *)
Definition quiet (e : eff) : Prop := match e with Exec _ c _ => keeping c | _ => False end.

Lemma wp_quiet {R} policy (m : prog R) h :
  all_effects quiet m ->
  (forall h' c a, keeping c -> volumes h' = volumes h -> policy h' c a) ->
  wp (lvm_env policy) m (fun _ h' => volumes h' = volumes h) h.
Proof.
  intros Hq Hp.
  assert (forall h', volumes h' = volumes h ->
    wp (lvm_env policy) m (fun _ h' => volumes h' = volumes h) h') as Hm; [|by apply Hm].
  induction m as [r|e k IH]; [done|]. intros h' Hv. destruct Hq as [He Hk].
  destruct e; cbn in He; try done. split; [by apply Hp|]. intros x h'' Hx. apply IH; [apply Hk|].
  rewrite <- Hv. eapply keeps_volumes; [exact Hx|done].
Qed.

Lemma find_volume_cons_ne v l vg name :
  is_volume vg name v = false -> find_volume vg name (v :: l) = find_volume vg name l.
Proof. intros Hv. unfold find_volume. cbn. by rewrite Hv. Qed.

Lemma find_volume_some l vg name v :
  find_volume vg name l = Some v -> v ∈ l /\ lv_VGName v = vg /\ lv_Name v = name.
Proof.
  intros Hf. apply List.find_some in Hf as [Hin Hv]. unfold is_volume in Hv. go_bool.
  rewrite list_elem_of_In. auto.
Qed.

Lemma find_volume_none l vg name v :
  find_volume vg name l = None -> v ∈ l -> is_volume vg name v = false.
Proof. intros Hf Hv. apply List.find_none with (x := v) in Hf; [done|]. by apply list_elem_of_In. Qed.

Lemma find_volume_none_iff l vg name :
  find_volume vg name l = None <-> forall v, v ∈ l -> is_volume vg name v = false.
Proof.
  split; [intros; by eapply find_volume_none|]. intros Hn.
  destruct (find_volume vg name l) as [v|] eqn:Hf; [|done].
  apply List.find_some in Hf as [Hin Hv]. apply list_elem_of_In in Hin. by rewrite Hn in Hv.
Qed.

(** Adding a volume leaves every other name as free as it was. *)
Lemma find_volume_none_add l l' v vg name :
  l' ≡ₚ v :: l -> is_volume vg name v = false ->
  find_volume vg name l = None -> find_volume vg name l' = None.
Proof.
  rewrite !find_volume_none_iff. intros Hp Hv Hn w. rewrite Hp, elem_of_cons.
  intros [->|Hw]; auto.
Qed.

Lemma find_volume_fresh l l' v :
  find_volume (lv_VGName v) (lv_Name v) l = None -> l' ≡ₚ v :: l ->
  find_volume (lv_VGName v) (lv_Name v) l' = Some v.
Proof.
  intros Hf Hp. destruct (find_volume _ _ l') as [w|] eqn:Hw.
  - apply List.find_some in Hw as [Hin Hw]. apply list_elem_of_In in Hin. rewrite Hp in Hin.
    apply elem_of_cons in Hin as [->|Hin]; [done|].
    rewrite (find_volume_none _ _ _ _ Hf Hin) in Hw. done.
  - assert (v ∈ l') as Hv by (rewrite Hp; by left).
    pose proof (find_volume_none _ _ _ _ Hw Hv) as Hn. unfold is_volume in Hn.
    by rewrite !eqb_same in Hn.
Qed.
End host.

(** ** A host in which the documented behaviour is all there is *)

Definition list_exec (h : list logicalVolume) (_ : Z) (c : string) (a : list string)
    (x : string * option ext_error) (h' : list logicalVolume) : Prop :=
  (keeping c -> h' = h) /\
  (c = "lvextend" -> snd x = None -> forall vg name size, a = buildLVExtendArgs vg name size ->
     is_uint64 size -> exists v w n rest, h ≡ₚ v :: rest /\ h' ≡ₚ w :: rest /\ resized v w /\
       lv_VGName v = vg /\ lv_Name v = name /\ parse_uint (lv_Size w) = Ok n /\ (size <= n)%Z) /\
  (c = "lvs" -> a = lvs_args -> snd x = None -> parse_report (fst x) = Some h) /\
  (c = "lvs" -> a = counts_args -> snd x = None -> forall vg m pool n,
     thin_pool_counts vg (split (byte_of 10) (fst x)) ∅ = Ok m -> m !! pool = Some n ->
     only_pool h vg pool -> n = Z.of_nat (count (thin_of vg) h)) /\
  (c = "lvcreate" -> snd x = None -> exists v, lvcreate_makes h a v /\
     find_volume (lv_VGName v) (lv_Name v) h = None /\ h' ≡ₚ v :: h) /\
  (c = "lvremove" -> snd x = None -> forall vg name operand, a = ["-q"; "-y"; operand] ->
     operand = vg +:+ "/" +:+ name \/ operand = "/dev/" +:+ vg +:+ "/" +:+ name ->
     vg <> "" -> has_byte "/" vg = false ->
     find_volume vg name h' = None /\ (forall v, v ∈ h' -> v ∈ h) /\
     (forall v, v ∈ h -> is_volume vg name v = false ->
        ~ depends_on h vg name v -> v ∈ h')).

#[export, refine] Instance list_host : LvmHost (list logicalVolume) :=
  { volumes := fun h => h; exec := list_exec }.
Proof.
  - intros h t c a x h' (Hk & _) Hc. by apply Hk.
  - intros h t vg name size out h' (_ & He & _). by apply He.
  - intros h t out h' (_ & _ & Hl & _). by apply Hl.
  - intros h t vg out h' m pool n (_ & _ & _ & Hn & _). by apply Hn.
  - intros h t a out h' (_ & _ & _ & _ & Hc & _). by apply Hc.
  - intros h t vg name operand out h' (_ & _ & _ & _ & _ & Hr) Ho Hne Hs. by eapply Hr.
Defined.
