(* ===== verification/LvmReport.v ===== *)
(** * What the LVM tools print, and that the driver reads it

    The outputs that lvm.go parses, as lvs(8) and vgs(8) print them for the options the
    driver gives: the JSON report of the volumes, the table of the thin counts, a
    single column.  Reading a printed output back gives the volumes it was printed from.
    Names are [word]s: the bytes LVM accepts in names, none of them white space. *)
From S2P Require Import Prelude GoStrings Errors Objects Effects Config Validation Json JsonPrint Lvm LvmHost.

Definition word (s : string) : bool := all_bytes vg_name_byte s.

(** ** White space around words *)

(** No encoding of white space starts, or ends, with a byte of a name. *)
Lemma word_byte_no_space a s : vg_name_byte a = true ->
  enc_len space_encodings (String a s) = 0 /\
  enc_len (reverse <$> space_encodings)%list (String a s) = 0.
Proof. destruct a as [[] [] [] [] [] [] [] []]; vm_compute; auto; discriminate. Qed.

Lemma word_byte_plain a : vg_name_byte a = true -> plain_byte a = true /\ Ascii.eqb a (byte_of 10) = false.
Proof. destruct a as [[] [] [] [] [] [] [] []]; vm_compute; auto; discriminate. Qed.

Lemma word_plain s : word s = true -> plain_text s = true.
Proof.
  induction s as [|a s IH]; cbn; [done|]. intros [Ha Hs]%andb_true_iff.
  apply word_byte_plain in Ha as [-> _]. auto.
Qed.

Lemma word_no_newline s : word s = true -> has_byte (byte_of 10) s = false.
Proof. intros Hs. by eapply all_bytes_no_sep. Qed.

Lemma rev_string_app s t acc : rev_string (s +:+ t) acc = rev_string t (rev_string s acc).
Proof. revert acc. induction s as [|a s IH]; intros acc; cbn; auto. Qed.
Lemma rev_string_acc s acc : rev_string s acc = rev_string s "" +:+ acc.
Proof.
  revert acc. induction s as [|a s IH]; intros acc; cbn; [done|].
  rewrite IH, (IH (String a "")), string_app_assoc. done.
Qed.
Lemma reverse_app s t : reverse (s +:+ t) = reverse t +:+ reverse s.
Proof. unfold reverse. by rewrite rev_string_app, rev_string_acc. Qed.
Lemma reverse_involutive s : reverse (reverse s) = s.
Proof.
  induction s as [|a s IH]; [done|]. change (String a s) with (byte_string a +:+ s) at 1.
  rewrite reverse_app, reverse_app, IH. done.
Qed.
Lemma word_app s t : word (s +:+ t) = word s && word t.
Proof. unfold word. induction s as [|a s IH]; cbn; [done|]. by rewrite IH, andb_assoc. Qed.
Lemma word_reverse s : word (reverse s) = word s.
Proof.
  induction s as [|a s IH]; [done|]. change (String a s) with (byte_string a +:+ s).
  rewrite reverse_app, !word_app, IH. apply andb_comm.
Qed.

Lemma trim_left_word encs skip s :
  word s = true -> skip = 0 ->
  encs = space_encodings \/ encs = (reverse <$> space_encodings)%list -> trim_left encs skip s = s.
Proof.
  intros Hs -> He. destruct s as [|a s]; [done|]. cbn in Hs. apply andb_true_iff in Hs as [Ha _].
  destruct (word_byte_no_space a s Ha) as [H1 H2]. cbn [trim_left].
  by destruct He as [-> | ->]; rewrite ?H1, ?H2.
Qed.

(** White space that the tools put around a column. *)
Definition padded (s : string) : string := "  " +:+ s +:+ byte_string (byte_of 10).

Lemma trim_word s : word s = true -> trim_space s = s.
Proof.
  intros Hs. unfold trim_space. rewrite (trim_left_word _ 0 s) by auto.
  rewrite trim_left_word; [apply reverse_involutive| |done|by right]. by rewrite word_reverse.
Qed.

Lemma trim_padded s : word s = true -> s <> "" -> trim_space (padded s) = s.
Proof.
  intros Hs Hne. unfold trim_space, padded. cbn [String.append].
  assert (forall t, trim_left space_encodings 0 (String " " t) = trim_left space_encodings 0 t) as Hl by done.
  assert (forall t, trim_left (reverse <$> space_encodings)%list 0 (String (byte_of 10) t) =
                    trim_left (reverse <$> space_encodings)%list 0 t) as Hr by done.
  rewrite !Hl. assert (trim_left space_encodings 0 (s +:+ byte_string (byte_of 10)) =
                       s +:+ byte_string (byte_of 10)) as ->.
  { destruct s as [|a s]; [done|]. cbn in Hs. apply andb_true_iff in Hs as [Ha _].
    change (String a s +:+ ?t) with (String a (s +:+ t)). cbn [trim_left].
    by rewrite (proj1 (word_byte_no_space a _ Ha)). }
  rewrite reverse_app. change (reverse (byte_string (byte_of 10)) +:+ ?t) with (String (byte_of 10) t).
  rewrite Hr, trim_left_word; [apply reverse_involutive| |done|by right]. by rewrite word_reverse.
Qed.

Lemma fields_word w cur s : word w = true -> fields_from 0 cur (w +:+ s) = fields_from 0 (cur +:+ w) s.
Proof.
  revert cur. induction w as [|a w IH]; intros cur Hw; cbn [String.append]; [by rewrite string_app_empty|].
  cbn in Hw. apply andb_true_iff in Hw as [Ha Hw]. cbn [fields_from].
  rewrite (proj1 (word_byte_no_space a _ Ha)), IH, string_app_assoc by done. done.
Qed.

Lemma fields_end w cur : word w = true -> fields_from 0 cur w = flush (cur +:+ w) [].
Proof. intros Hw. rewrite <- (string_app_empty w) at 1. by rewrite fields_word. Qed.

Lemma fields_next w s : word w = true -> w <> "" ->
  fields_from 0 "" (w +:+ String " " s) = w :: fields_from 0 "" s.
Proof.
  intros Hw Hne. rewrite fields_word by done. change ("" +:+ w) with w.
  transitivity (flush w (fields_from 0 "" s)); [done|]. by destruct w.
Qed.

Lemma word_digits fuel n : (0 <= n)%Z -> word (digits fuel n) = true.
Proof.
  revert n. induction fuel as [|f IH]; intros n Hn; [done|]. cbn [digits]. rewrite word_app.
  apply andb_true_iff. split.
  - destruct (n <? 10)%Z; [done|]. apply IH, Z.div_pos; lia.
  - pose proof (Z.mod_pos_bound n 10 ltac:(lia)). generalize dependent (n mod 10)%Z. intros m Hm.
    assert (m = 0 \/ m = 1 \/ m = 2 \/ m = 3 \/ m = 4 \/ m = 5 \/ m = 6 \/ m = 7 \/ m = 8 \/ m = 9)%Z as Hc by lia.
    repeat (destruct Hc as [-> | Hc]; [done|]). by subst.
Qed.

Lemma word_format n : (0 <= n)%Z -> word (format_uint n) = true /\ format_uint n <> "".
Proof. intros Hn. split; [by apply word_digits|apply digits_S]. Qed.

(** ** The JSON report *)

(** The volumes of a report: their names are words, their size is a number of bytes. *)
Definition reportable (v : logicalVolume) : bool :=
  word (lv_Name v) && word (lv_VGName v) && word (lv_SegType v) && word (lv_Origin v) &&
  match parse_uint (lv_Size v) with Ok n => lv_Size v =s format_uint n | Err _ => false end.

Definition volume_json (v : logicalVolume) : json :=
  JObj [("lv_name", JStr (lv_Name v)); ("vg_name", JStr (lv_VGName v)); ("lv_size", JStr (lv_Size v));
        ("segtype", JStr (lv_SegType v)); ("origin", JStr (lv_Origin v))].
Definition report_json (l : list logicalVolume) : json :=
  JObj [("report", JArr [JObj [("lv", JArr (volume_json <$> l))]])].

(** What [lvs --reportformat json] prints. *)
Definition report (l : list logicalVolume) : string := print (report_json l).

Lemma reportable_size v : reportable v = true ->
  word (lv_Name v) = true /\ word (lv_VGName v) = true /\ word (lv_Size v) = true /\
  word (lv_SegType v) = true /\ word (lv_Origin v) = true /\
  exists n, is_uint64 n /\ lv_Size v = format_uint n.
Proof.
  unfold reportable. destruct (parse_uint (lv_Size v)) as [n|] eqn:E; intros H; go_bool; [|done].
  apply parse_uint_bounds in E. split_and!; try done; [|by exists n].
  match goal with H : lv_Size v = _ |- _ => rewrite H end. apply word_format. by destruct E.
Qed.

Lemma normalize_reportable v : reportable v = true -> normalizeLogicalVolume v = v.
Proof.
  intros (H1 & H2 & H3 & H4 & H5 & _)%reportable_size. unfold normalizeLogicalVolume.
  rewrite !trim_word by done. by destruct v.
Qed.

Lemma decode_volume v : decode_struct decode_volume_field zero_volume (volume_json v) = Some v.
Proof. by destruct v. Qed.

Lemma decode_volumes l :
  decode_elements zero_volume (decode_struct decode_volume_field) [] (volume_json <$> l) = Some l.
Proof.
  induction l as [|v l IH]; [done|]. cbn [fmap list_fmap decode_elements hd tl].
  rewrite decode_volume. change (list_fmap _ _ volume_json l) with (volume_json <$> l). by rewrite IH.
Qed.

Lemma report_printable l : forallb reportable l = true -> printable 5 (report_json l) = true.
Proof.
  intros Hl. assert (forallb (printable 1) (volume_json <$> l) = true) as Hv.
  { induction l as [|v l IH]; [done|]. cbn [forallb fmap list_fmap] in *. apply andb_true_iff in Hl as [Hv Hl].
    apply andb_true_iff. split; [|by apply IH].
    apply reportable_size in Hv as (H1 & H2 & H3 & H4 & H5 & _).
    cbn [volume_json printable forallb fst snd]. by rewrite !word_plain. }
  unfold report_json. cbn [printable forallb fst snd]. by rewrite Hv.
Qed.

Lemma parse_report_report l : forallb reportable l = true -> parse_report (report l) = Some l.
Proof.
  intros Hl. unfold parse_report, report. rewrite (parse_print _ 5) by (done || by apply report_printable).
  assert (decode_report (report_json l) = Some [l]) as Hd.
  { transitivity (match decode_elements zero_volume (decode_struct decode_volume_field) []
                          (volume_json <$> l) with Some l => Some [l] | None => None end).
    - unfold decode_report, report_json, decode_struct at 1. cbn [decode_fields].
      change (same_field "report" "report") with true. cbn iota. unfold decode_slice at 1.
      cbn [decode_elements hd tl]. unfold decode_struct at 1. cbn [decode_fields].
      change (same_field "lv" "lv") with true. cbn iota. unfold decode_slice at 1.
      by destruct (decode_elements _ _ _ _).
    - by rewrite decode_volumes. }
  cbn [option_bind mbind]. rewrite Hd. f_equal. cbn [concat]. rewrite app_nil_r.
  rewrite <- (list_fmap_id l) at 2. apply list_fmap_ext. intros i v Hi. apply normalize_reportable.
  rewrite forallb_forall in Hl. apply Hl, list_elem_of_In. by eapply list_elem_of_lookup_2.
Qed.

(** ** The table of thin counts *)

Definition is_pool (vg : string) (v : logicalVolume) : bool :=
  (lv_VGName v =s vg) && (lv_SegType v =s ThinPoolType).

(** The number of thin volumes next to [v]. *)
Definition thin_count (l : list logicalVolume) (v : logicalVolume) : Z :=
  Z.of_nat (count (thin_of (lv_VGName v)) l).

(** A line has a fourth column only for a pool. *)
Definition count_line (l : list logicalVolume) (v : logicalVolume) : string :=
  "  " +:+ lv_VGName v +:+ " " +:+ lv_SegType v +:+ " " +:+ lv_Name v +:+ " " +:+
  (if lv_SegType v =s ThinPoolType then format_uint (thin_count l v) else "").
Definition count_table (l : list logicalVolume) : string :=
  join (byte_string (byte_of 10)) ((count_line l <$> l) ++ [""])%list.

(** The map that [getThinPoolAndCounts] reads off the table. *)
Definition pool_counts (vg : string) (all : list logicalVolume) (l : list logicalVolume)
    (m : gmap string Z) : gmap string Z :=
  foldl (fun m v => if is_pool vg v then <[lv_Name v := thin_count all v]> m else m) m l.

(** A volume as a host has it: reportable, and its names are not empty. *)
Definition well_formed (v : logicalVolume) : bool :=
  reportable v && negb (lv_Name v =s "") && negb (lv_VGName v =s "") && negb (lv_SegType v =s "").

Lemma well_formed_spec v : well_formed v = true ->
  reportable v = true /\ lv_Name v <> "" /\ lv_VGName v <> "" /\ lv_SegType v <> "".
Proof. unfold well_formed. intros H. by go_bool. Qed.

Lemma fields_space s : fields_from 0 "" (String " " s) = fields_from 0 "" s.
Proof. done. Qed.

Lemma fields_count_line l v : well_formed v = true ->
  fields (count_line l v) =
    ([lv_VGName v; lv_SegType v; lv_Name v]
     ++ if lv_SegType v =s ThinPoolType then [format_uint (thin_count l v)] else [])%list.
Proof.
  intros ((H1 & H2 & _ & H4 & _)%reportable_size & Hn & Hg & Hs)%well_formed_spec.
  unfold fields, count_line. cbn [String.append]. rewrite !fields_space.
  rewrite !fields_next by done. destruct (_ =s ThinPoolType); [|done].
  assert (0 <= thin_count l v)%Z as Hc by (unfold thin_count; lia).
  destruct (word_format _ Hc) as [Hw Hne]. rewrite fields_end by done. change ("" +:+ ?t) with t.
  by destruct (format_uint _).
Qed.

Lemma atoi_format n : (0 <= n <= max_int64)%Z -> atoi (format_uint n) = Ok n.
Proof.
  intros Hn. rewrite <- format_int_nonneg by lia. apply parse_format_int.
  unfold is_int64, min_int64, max_int64, two63 in *. lia.
Qed.

(** The counts are numbers an [int] can hold. *)
Definition countable_host (l : list logicalVolume) : Prop := (Z.of_nat (length l) <= max_int64)%Z.

Lemma thin_count_bound l v : countable_host l -> (0 <= thin_count l v <= max_int64)%Z.
Proof.
  unfold countable_host, thin_count, count. pose proof (List.filter_length_le (thin_of (lv_VGName v)) l). lia.
Qed.

Lemma read_count_lines vg all l m :
  countable_host all -> forallb well_formed l = true ->
  thin_pool_counts vg ((count_line all <$> l) ++ [""])%list m = Ok (pool_counts vg all l m).
Proof.
  intros Hc. revert m. induction l as [|v l IH]; intros m Hl; [done|].
  cbn [forallb] in Hl. apply andb_true_iff in Hl as [Hv Hl].
  change ((count_line all <$> v :: l) ++ [""])%list with (count_line all v :: (count_line all <$> l) ++ [""])%list.
  cbn [thin_pool_counts]. change (count_line all v =s "") with false. cbn iota.
  rewrite (fields_count_line _ _ Hv). unfold pool_counts. cbn [foldl]. unfold is_pool at 2.
  destruct (lv_SegType v =s ThinPoolType) eqn:Hty; cbn [app].
  - rewrite Hty. destruct (lv_VGName v =s vg); cbn [andb]; [|by apply IH].
    rewrite atoi_format by by apply thin_count_bound. by apply IH.
  - rewrite andb_false_r. by apply IH.
Qed.

Lemma word_count_line l v : well_formed v = true -> has_byte (byte_of 10) (count_line l v) = false.
Proof.
  intros ((H1 & H2 & _ & H4 & _)%reportable_size & _)%well_formed_spec.
  assert (forall s t, has_byte (byte_of 10) (s +:+ t) = has_byte (byte_of 10) s || has_byte (byte_of 10) t) as Happ.
  { intros s t. induction s as [|a s IH]; [done|]. cbn [String.append has_byte]. by rewrite IH, orb_assoc. }
  apply word_no_newline in H1, H2, H4. unfold count_line. rewrite !Happ, H1, H2, H4.
  change (has_byte (byte_of 10) "  ") with false. change (has_byte (byte_of 10) " ") with false. cbn [orb].
  destruct (_ =s ThinPoolType); [|done]. apply word_no_newline, word_format. unfold thin_count. lia.
Qed.

(** Reading the table gives the count of every pool of the group. *)
Lemma read_count_table vg l :
  countable_host l -> forallb well_formed l = true ->
  thin_pool_counts vg (split (byte_of 10) (count_table l)) ∅ = Ok (pool_counts vg l l ∅).
Proof.
  intros Hc Hl. unfold count_table. rewrite split_join; [by apply read_count_lines|by destruct (count_line l <$> l)|].
  apply Forall_app. split; [|by constructor]. apply Forall_fmap, Forall_forall. intros v Hv.
  apply word_count_line. rewrite forallb_forall in Hl. by apply Hl, list_elem_of_In.
Qed.

(** What the map holds: a pool of the group under each of its keys, and every pool. *)
Lemma pool_counts_some vg all l m name n :
  pool_counts vg all l m !! name = Some n ->
  m !! name = Some n \/ exists v, v ∈ l /\ is_pool vg v = true /\ lv_Name v = name /\ n = thin_count all v.
Proof.
  revert m. induction l as [|v l IH]; intros m; [by left|]. unfold pool_counts. cbn [foldl].
  intros [Hm|(w & Hw & Hp)]%IH; [|right; exists w; split; [by right|done]].
  destruct (is_pool vg v) eqn:Hv; [|by left].
  apply lookup_insert_Some in Hm as [[Hn Hc]|[_ Hm]]; [|by left].
  right. exists v. split_and!; [by left|done..].
Qed.

Lemma pool_counts_keep vg all l m name :
  is_Some (m !! name) -> is_Some (pool_counts vg all l m !! name).
Proof.
  revert m. induction l as [|v l IH]; intros m Hm; [done|]. unfold pool_counts. cbn [foldl]. apply IH.
  destruct (is_pool vg v); [|done]. apply lookup_insert_is_Some'. by right.
Qed.

Lemma pool_counts_pool vg all l m v :
  v ∈ l -> is_pool vg v = true -> is_Some (pool_counts vg all l m !! lv_Name v).
Proof.
  intros Hv Hp. revert m. induction Hv as [v l|v w l _ IH]; intros m; unfold pool_counts; cbn [foldl].
  - rewrite Hp. apply pool_counts_keep. by rewrite lookup_insert_eq.
  - by apply IH.
Qed.

(** The count is the number of thin volumes of the group. *)
Lemma pool_counts_exact vg l name n :
  pool_counts vg l l ∅ !! name = Some n ->
  n = Z.of_nat (count (thin_of vg) l) /\ exists v, v ∈ l /\ is_pool vg v = true /\ lv_Name v = name.
Proof.
  intros [Hm|(v & Hv & Hp & Hn & ->)]%pool_counts_some; [by rewrite lookup_empty in Hm|].
  split; [|by exists v]. unfold thin_count. unfold is_pool in Hp. go_bool. by subst.
Qed.
