(* ===== verification/LvmSim.v ===== *)
(** * A computed host with the LVM tools

    [tool] computes what each command line of lvm.go answers and does on a host with
    volume groups and logical volumes: lvs, vgs, vgscan, vgchange, lvcreate, lvremove
    and lvextend.  It answers in the text that the driver parses (LvmReport.v), rounds
    sizes to extents, and refuses what the tools refuse: a missing group, a name that
    is taken or malformed, a pool that is not there.  It is an [LvmHost]: the laws
    that the theorems of LvmSpec.v assume hold of a function that can be run. *)
From S2P Require Import Prelude GoStrings Errors Objects Effects Config Validation Json JsonPrint Lvm LvmHost LvmReport.

(** Volume groups with their number of physical volumes, and the volumes. *)
Record lvm_sim := { s_groups : list (string * Z); s_volumes : list logicalVolume }.

Definition with_volumes (s : lvm_sim) (l : list logicalVolume) : lvm_sim :=
  {| s_groups := s_groups s; s_volumes := l |}.

Definition group_pvs (s : lvm_sim) (vg : string) : option Z :=
  snd <$> List.find (fun g => fst g =s vg) (s_groups s).

Definition answer : Type := (string * option ext_error) * lvm_sim.
Definition refuse (s : lvm_sim) (why : string) : answer := (("", Some (plain_error why)), s).
Definition accept (out : string) (s : lvm_sim) : answer := ((out, None), s).

(** ** Command lines *)

(** Volumes are made of whole extents. *)
Definition extent : Z := 4194304.
Definition round_up (n : Z) : Z := ((n + extent - 1) / extent * extent)%Z.
Definition pool_bytes : Z := 1073741824.

(** The number of an operand ["<n>b"]. *)
Definition size_of (operand : string) : Z :=
  match parse_uint (String.substring 0 (String.length operand - 1) operand) with
  | Ok n => n
  | Err _ => 0%Z
  end.

(** The group and volume of ["vg/lv"] or ["/dev/vg/lv"]. *)
Definition split_operand (operand : string) : option (string * string) :=
  match split "/" (trim_prefix operand "/dev/") with [vg; name] => Some (vg, name) | _ => None end.

(** The forms of [lvcreate] that the driver uses. *)
Inductive lvcreate_form :=
| FStriped (name vg : string) (size : Z) (stripes tag : string)
| FThin (name vg : string) (size : Z) (pool tag : string)
| FPool (name vg : string)
| FSnapshot (inactive : bool) (name vg src : string) (size : option Z).

Definition form_args (f : lvcreate_form) : list string :=
  match f with
  | FStriped name vg size stripes tag =>
      ["-v"; "--yes"; "-n"; name; "-W"; "y"; "-L"; format_int size +:+ "b"; "--type"; "striped";
       "--stripes"; stripes; vg; "--addtag"; tag]
  | FThin name vg size pool tag =>
      ["-v"; "--yes"; "-n"; name; "-W"; "y"; "-V"; format_int size +:+ "b"; "--thin-pool"; pool; vg;
       "--addtag"; tag]
  | FPool name vg => thinPoolCreateArgs vg name
  | FSnapshot inactive name vg src size =>
      (["-s"; "-y"] ++ (if inactive then ["-a"; "n"] else []) ++ ["-n"; name]
        ++ match size with Some z => ["-L"; format_int z +:+ "b"] | None => [] end
        ++ [vg +:+ "/" +:+ src])%list
  end.

(** A snapshot with the operands at these places. *)
Definition snapshot_at (inactive : bool) (name : string) (size : option string) (operand : string) :
    list lvcreate_form :=
  match split_operand operand with
  | Some (vg, src) => [FSnapshot inactive name vg src (size_of <$> size)]
  | None => []
  end.

(** The forms an argument list can have, by the places of their operands. *)
Definition candidates (a : list string) : list lvcreate_form :=
  let arg i := nth i a "" in
  ([FStriped (arg 3) (arg 12) (size_of (arg 7)) (arg 11) (arg 14);
    FThin (arg 3) (arg 10) (size_of (arg 7)) (arg 9) (arg 12);
    FPool (arg 3) (arg 12)]
   ++ snapshot_at false (arg 3) None (arg 4) ++ snapshot_at true (arg 5) None (arg 6)
   ++ snapshot_at false (arg 3) (Some (arg 5)) (arg 6)
   ++ snapshot_at true (arg 5) (Some (arg 7)) (arg 8))%list.

Definition parse_form (a : list string) : option lvcreate_form :=
  List.find (fun f => bool_decide (form_args f = a)) (candidates a).

(** ** The tools *)

Definition find_in (s : lvm_sim) (vg name : string) : option logicalVolume :=
  find_volume vg name (s_volumes s).

(** The host can hold one more volume, and this one. *)
Definition takes (s : lvm_sim) (v : logicalVolume) : bool :=
  well_formed v && bool_decide (is_Some (group_pvs s (lv_VGName v))) &&
  bool_decide (find_in s (lv_VGName v) (lv_Name v) = None) &&
  (Z.of_nat (S (length (s_volumes s))) <=? max_int64)%Z.

Definition add_volume (s : lvm_sim) (v : logicalVolume) : answer :=
  if takes s v then accept "" (with_volumes s (v :: s_volumes s))
  else refuse s "logical volume cannot be created".

Definition new_volume (name vg : string) (size : Z) (segType origin : string) : logicalVolume := {|
  lv_Name := name; lv_VGName := vg; lv_Size := format_uint size; lv_SegType := segType;
  lv_Origin := origin |}.

(** The segment type lvs shows for a striped volume. *)
Definition striped_type (pvs : Z) : string := if (pvs =? 1)%Z then LinearType else StripedType.

Definition add_sized (s : lvm_sim) (name vg : string) (size : Z) (segType : string) : answer :=
  if (round_up size <=? max_uint64)%Z then add_volume s (new_volume name vg (round_up size) segType "")
  else refuse s "volume too large".

Definition is_thin_pool (s : lvm_sim) (vg pool : string) : bool :=
  match find_in s vg pool with Some p => lv_SegType p =s ThinPoolType | None => false end.

Definition lvcreate (s : lvm_sim) (a : list string) : answer :=
  match parse_form a with
  | None => refuse s "usage"
  | Some (FStriped name vg size stripes tag) =>
      match group_pvs s vg with
      | Some pvs =>
          if stripes =s format_int pvs then add_sized s name vg size (striped_type pvs)
          else refuse s "wrong number of stripes"
      | None => refuse s "volume group not found"
      end
  | Some (FThin name vg size pool tag) =>
      if is_thin_pool s vg pool then add_sized s name vg size ThinVolType
      else refuse s "thin pool not found"
  | Some (FPool name vg) => add_volume s (new_volume name vg pool_bytes ThinPoolType "")
  | Some (FSnapshot inactive name vg src size) =>
      match find_in s vg src with
      | None => refuse s "origin not found"
      | Some o =>
          let snapshot ty := add_volume s {|
            lv_Name := name; lv_VGName := vg; lv_Size := lv_Size o; lv_SegType := ty; lv_Origin := src |} in
          match size with
          | Some _ => snapshot LinearType
          | None => if lv_SegType o =s ThinVolType then snapshot ThinVolType
                    else refuse s "size required"
          end
      end
  end.

(** [v] goes when [vg/name] does. *)
Definition goes (l : list logicalVolume) (vg name : string) (v : logicalVolume) : bool :=
  is_volume vg name v ||
  (lv_VGName v =s vg) &&
  ((lv_Origin v =s name) ||
   (lv_SegType v =s ThinVolType) &&
   match find_volume vg name l with Some p => lv_SegType p =s ThinPoolType | None => false end).

Definition without (l : list logicalVolume) (vg name : string) : list logicalVolume :=
  List.filter (fun v => negb (goes l vg name v)) l.

Definition lvremove (s : lvm_sim) (a : list string) : answer :=
  match a with
  | [q; y; operand] =>
      match split_operand operand with
      | Some (vg, name) =>
          if bool_decide (a = ["-q"; "-y"; operand] /\ is_Some (find_in s vg name)) then
            accept "" (with_volumes s (without (s_volumes s) vg name))
          else refuse s "failed to find logical volume"
      | None => refuse s "usage"
      end
  | _ => refuse s "usage"
  end.

Definition resize (v : logicalVolume) (n : Z) : logicalVolume := {|
  lv_Name := lv_Name v; lv_VGName := lv_VGName v; lv_Size := format_uint n;
  lv_SegType := lv_SegType v; lv_Origin := lv_Origin v |}.

(** Replaces the volume [vg/name] by what [f] makes of it. *)
Fixpoint update_volume (vg name : string) (f : logicalVolume -> option logicalVolume)
    (l : list logicalVolume) : option (list logicalVolume) :=
  match l with
  | [] => None
  | v :: l =>
      if is_volume vg name v then (fun w => w :: l) <$> f v
      else cons v <$> update_volume vg name f l
  end.

(** An extension to a size in range and above the present one. *)
Definition grow (size : Z) (v : logicalVolume) : option logicalVolume :=
  match parse_uint (lv_Size v) with
  | Ok n => if (n <? round_up size)%Z && (round_up size <=? max_uint64)%Z
            then Some (resize v (round_up size)) else None
  | Err _ => None
  end.

Definition lvextend (s : lvm_sim) (a : list string) : answer :=
  match a with
  | [_; size; _; operand] =>
      match split_operand operand with
      | Some (vg, name) =>
          if bool_decide (a = buildLVExtendArgs vg name (size_of size)) then
            match update_volume vg name (grow (size_of size)) (s_volumes s) with
            | Some l => accept "" (with_volumes s l)
            | None => refuse s "cannot extend"
            end
          else refuse s "usage"
      | None => refuse s "usage"
      end
  | _ => refuse s "usage"
  end.

(** The attributes of an active, healthy volume. *)
Definition attributes (v : logicalVolume) : string :=
  if lv_SegType v =s ThinPoolType then "twi-aotz--" else "-wi-a-----".

Definition lvs (s : lvm_sim) (a : list string) : answer :=
  if bool_decide (a = lvs_args) then accept (report (s_volumes s)) s
  else if bool_decide (a = counts_args) then accept (count_table (s_volumes s)) s
  else match a with
  | [_; _; _; operand] =>
      match split_operand operand with
      | Some (vg, name) =>
          match find_in s vg name with
          | Some v => accept (padded (attributes v)) s
          | None => refuse s "failed to find logical volume"
          end
      | None => refuse s "usage"
      end
  | _ => refuse s "usage"
  end.

Definition vgs (s : lvm_sim) (a : list string) : answer :=
  match a with
  | [vg; _; _; column] =>
      match group_pvs s vg with
      | None => refuse s "volume group not found"
      | Some pvs =>
          if column =s "vg_name" then accept (padded vg) s
          else if column =s "pv_count" then accept (padded (format_uint pvs)) s
          else refuse s "unrecognised field"
      end
  | _ => refuse s "usage"
  end.

Definition tool (s : lvm_sim) (command : string) (a : list string) : answer :=
  if command =s "lvs" then lvs s a
  else if command =s "vgs" then vgs s a
  else if (command =s "vgscan") || (command =s "vgchange") then accept "" s
  else if command =s "lvcreate" then lvcreate s a
  else if command =s "lvremove" then lvremove s a
  else if command =s "lvextend" then lvextend s a
  else refuse s "command not found".

(** ** States *)

Record wf (s : lvm_sim) : Prop := {
  wf_volumes : forallb well_formed (s_volumes s) = true;
  wf_count : countable_host (s_volumes s);
  wf_groups vg pvs : group_pvs s vg = Some pvs ->
    word vg = true /\ vg <> "" /\ (0 < pvs <= max_int64)%Z }.

Lemma wf_in s v : wf s -> v ∈ s_volumes s -> well_formed v = true.
Proof.
  intros Hw Hv. pose proof (wf_volumes _ Hw) as H. rewrite forallb_forall in H.
  by apply H, list_elem_of_In.
Qed.

(** Well-formedness depends on the volumes only through what they are. *)
Lemma wf_with s l :
  wf s -> forallb well_formed l = true -> countable_host l -> wf (with_volumes s l).
Proof. intros [_ _ Hg] Hl Hc. by split. Qed.

(** *** Operands *)

Lemma size_of_uint64 o : is_uint64 (size_of o).
Proof.
  unfold size_of. destruct (parse_uint _) as [n|] eqn:E; [by eapply parse_uint_bounds|].
  split; [done|by vm_compute].
Qed.

Lemma substring_app s t : String.substring 0 (String.length s) (s +:+ t) = s.
Proof. induction s as [|a s IH]; cbn; [by destruct t|]. by rewrite IH. Qed.

Lemma size_of_format n : is_uint64 n -> size_of (format_int n +:+ "b") = n.
Proof.
  intros Hn. unfold size_of. rewrite string_length_app. cbn [String.length].
  replace (String.length (format_int n) + 1 - 1) with (String.length (format_int n)) by lia.
  rewrite substring_app, format_int_nonneg by (destruct Hn; lia). by rewrite parse_format_uint.
Qed.

Lemma split_nonempty c s : split c s <> [].
Proof. destruct s as [|a s]; cbn; [done|]. destruct (Ascii.eqb a c); [done|]. by destruct (split c s). Qed.

Lemma split_one c s t : split c s = [t] -> s = t /\ has_byte c s = false.
Proof.
  revert t. induction s as [|a s IH]; intros t; cbn; [by intros [= <-]|].
  destruct (Ascii.eqb a c); [intros [= _ E]; by apply split_nonempty in E|].
  destruct (split c s) as [|h l] eqn:E; [by apply split_nonempty in E|].
  intros [= <- ->]. by destruct (IH h eq_refl) as [-> ->].
Qed.

Lemma split_two c s l r : split c s = [l; r] ->
  s = l +:+ String c r /\ has_byte c l = false /\ has_byte c r = false.
Proof.
  revert l. induction s as [|a s IH]; intros l; cbn; [done|].
  destruct (Ascii.eqb_spec a c) as [->|Hne].
  - intros [= <- E]. by apply split_one in E as [-> ->].
  - destruct (split c s) as [|h t] eqn:E; [by apply split_nonempty in E|].
    intros [= <- ->]. destruct (IH h eq_refl) as (-> & Hh & Hr). cbn.
    by destruct (Ascii.eqb_spec a c).
Qed.

Lemma trim_dev o : o = trim_prefix o "/dev/" \/ o = "/dev/" +:+ trim_prefix o "/dev/".
Proof.
  unfold trim_prefix. destruct (strip_prefix "/dev/" o) as [t|] eqn:E; [|by left].
  right. by apply strip_prefix_spec in E.
Qed.

Lemma trim_operand o vg name :
  o = vg +:+ "/" +:+ name \/ o = "/dev/" +:+ vg +:+ "/" +:+ name ->
  vg <> "" -> has_byte "/" vg = false -> trim_prefix o "/dev/" = vg +:+ String "/" name.
Proof.
  intros [-> | ->] Hne Hs; unfold trim_prefix; [|done]. destruct vg as [|a vg]; [done|].
  cbn in Hs. apply orb_false_iff in Hs as [Ha _].
  cbn [String.append strip_prefix]. by rewrite Ascii.eqb_sym, Ha.
Qed.

(** The operand forms of the driver. *)
Lemma split_operand_some o vg name : split_operand o = Some (vg, name) ->
  has_byte "/" vg = false /\ has_byte "/" name = false /\
  (o = vg +:+ "/" +:+ name \/ o = "/dev/" +:+ vg +:+ "/" +:+ name).
Proof.
  unfold split_operand. pose proof (trim_dev o) as Ho. revert Ho. generalize (trim_prefix o "/dev/").
  intros t Ho H. destruct (split "/" t) as [|a [|b [|]]] eqn:Hs; simplify_eq.
  apply split_two in Hs as (-> & Ha & Hb). done.
Qed.

(** An operand names one volume of one group. *)
Lemma split_operand_unique o vg name vg' name' :
  split_operand o = Some (vg', name') ->
  o = vg +:+ "/" +:+ name \/ o = "/dev/" +:+ vg +:+ "/" +:+ name ->
  vg <> "" -> has_byte "/" vg = false -> vg' = vg /\ name' = name.
Proof.
  intros Hs Ho Hne Hvg. unfold split_operand in Hs. rewrite (trim_operand _ _ _ Ho Hne Hvg) in Hs.
  rewrite split_app in Hs by done. destruct (split "/" name) as [|a [|b l]] eqn:E; simplify_eq.
  by apply split_one in E as [-> _].
Qed.

Lemma split_operand_plain o vg name :
  o = vg +:+ "/" +:+ name \/ o = "/dev/" +:+ vg +:+ "/" +:+ name ->
  vg <> "" -> has_byte "/" vg = false -> has_byte "/" name = false ->
  split_operand o = Some (vg, name).
Proof.
  intros Ho Hne Hvg Hn. unfold split_operand. rewrite (trim_operand _ _ _ Ho Hne Hvg).
  by rewrite split_app, split_no_sep.
Qed.

(** *** Command lines *)

Lemma parse_form_some a f : parse_form a = Some f -> f ∈ candidates a /\ form_args f = a.
Proof.
  intros [Hin Hf]%List.find_some. apply bool_decide_eq_true in Hf. by rewrite list_elem_of_In.
Qed.

Lemma snapshot_at_some inactive name size operand f : f ∈ snapshot_at inactive name size operand ->
  exists vg src, f = FSnapshot inactive name vg src (size_of <$> size) /\ has_byte "/" vg = false.
Proof.
  unfold snapshot_at. destruct (split_operand operand) as [[vg src]|] eqn:E; [|by rewrite elem_of_nil].
  apply split_operand_some in E as (Hvg & _ & _). rewrite list_elem_of_singleton. intros ->. eauto.
Qed.

(** The sizes and groups of a command line that is understood. *)
Definition form_ok (f : lvcreate_form) : Prop :=
  match f with
  | FStriped _ _ size _ _ | FThin _ _ size _ _ => is_uint64 size
  | FPool _ _ => True
  | FSnapshot _ _ vg _ size => has_byte "/" vg = false /\ forall n, size = Some n -> is_uint64 n
  end.

Lemma candidate_ok a f : f ∈ candidates a -> form_ok f.
Proof.
  unfold candidates. rewrite !elem_of_app, !elem_of_cons, elem_of_nil.
  intros [[->|[->|[->|[]]]]|[H|[H|[H|H]]]]; cbn; try apply size_of_uint64; [done|..];
    apply snapshot_at_some in H as (vg & src & -> & Hs); split; try done;
    intros n [= <-]; apply size_of_uint64.
Qed.

(** Forms that are written alike are alike. *)
Lemma form_args_inj f g : form_ok f -> form_ok g -> form_args f = form_args g -> f = g.
Proof.
  destruct f as [n v z st tg|n v z p tg|n v|i n v sr z], g as [n' v' z' st' tg'|n' v' z' p' tg'|n' v'|i' n' v' sr' z'];
    cbn [form_ok form_args]; intros Hf Hg E; try discriminate E;
    try (by destruct i; try destruct z); try (by destruct i'; try destruct z').
  - injection E as -> E -> -> ->. apply format_size_inj in E; [by subst|done..].
  - injection E as -> E -> -> ->. apply format_size_inj in E; [by subst|done..].
  - by injection E as -> ->.
  - destruct Hf as [Hf Hz], Hg as [Hg Hz']. destruct i, i', z as [z|], z' as [z'|]; simplify_eq/=;
      match goal with E : _ +:+ String "/" _ = _ |- _ => apply app_sep_inj in E as [-> ->]; [|done..] end;
      try match goal with E : format_int _ +:+ "b" = _ |- _ =>
        apply format_size_inj in E; [subst|by auto..] end; done.
Qed.

(** The source of a snapshot can be written as an operand. *)
Definition form_driver (f : lvcreate_form) : Prop :=
  form_ok f /\
  match f with FSnapshot _ _ vg src _ => vg <> "" /\ has_byte "/" src = false | _ => True end.

Lemma snapshot_at_driver inactive name vg src size :
  form_driver (FSnapshot inactive name vg src size) ->
  FSnapshot inactive name vg src size ∈
    snapshot_at inactive name ((fun n => format_int n +:+ "b") <$> size) (vg +:+ "/" +:+ src).
Proof.
  intros [[Hvg Hz] [Hne Hs]]. unfold snapshot_at.
  rewrite (split_operand_plain _ vg src) by auto. rewrite list_elem_of_singleton. f_equal.
  destruct size as [z|]; cbn; [|done]. by rewrite size_of_format by auto.
Qed.

(** A command line of the driver is understood as it was meant. *)
Lemma parse_form_driver f : form_driver f -> parse_form (form_args f) = Some f.
Proof.
  intros Hd. assert (f ∈ candidates (form_args f)) as Hin.
  { destruct f as [n v z st tg|n v z p tg|n v|i n v sr z]; unfold candidates.
    1,2: cbn [form_args nth]; rewrite size_of_format by apply Hd; set_solver.
    - set_solver.
    - apply snapshot_at_driver in Hd. destruct i, z as [z|]; cbn [form_args app nth]; set_solver. }
  unfold parse_form. destruct (List.find _ _) as [g|] eqn:E.
  - apply parse_form_some in E as [Hg Hag]. f_equal. apply form_args_inj; [by eapply candidate_ok|apply Hd|done].
  - apply List.find_none with (x := f) in E; [|by apply list_elem_of_In].
    by rewrite bool_decide_eq_false in E.
Qed.

(** *** What the tools do *)

Lemma accept_inv out s out' s' : accept out s = ((out', None), s') -> out' = out /\ s' = s.
Proof. by intros [= <- <-]. Qed.

Lemma add_volume_ok s v out s' : add_volume s v = ((out, None), s') ->
  takes s v = true /\ s' = with_volumes s (v :: s_volumes s).
Proof. unfold add_volume. destruct (takes s v); [|done]. by intros [_ ->]%accept_inv. Qed.

Lemma takes_free s v : takes s v = true ->
  well_formed v = true /\ find_volume (lv_VGName v) (lv_Name v) (s_volumes s) = None /\
  (Z.of_nat (S (length (s_volumes s))) <= max_int64)%Z.
Proof. unfold takes. intros H. by go_bool. Qed.

Lemma add_sized_ok s name vg size ty out s' : add_sized s name vg size ty = ((out, None), s') ->
  let v := new_volume name vg (round_up size) ty "" in
  (round_up size <= max_uint64)%Z /\ takes s v = true /\ s' = with_volumes s (v :: s_volumes s).
Proof.
  unfold add_sized. destruct (Z.leb_spec (round_up size) max_uint64); [|done].
  by intros [Ht ->]%add_volume_ok.
Qed.

Lemma round_up_bounds n : (0 <= n)%Z -> (n <= round_up n)%Z.
Proof.
  intros Hn. unfold round_up, extent.
  pose proof (Z.div_mod (n + 4194304 - 1) 4194304 ltac:(lia)).
  pose proof (Z.mod_pos_bound (n + 4194304 - 1) 4194304 ltac:(lia)). lia.
Qed.

(** A successful creation adds the volume its command line describes. *)
Lemma lvcreate_ok s a out s' : lvcreate s a = ((out, None), s') ->
  exists v, lvcreate_makes (s_volumes s) a v /\ takes s v = true /\
    s' = with_volumes s (v :: s_volumes s).
Proof.
  unfold lvcreate. destruct (parse_form a) as [f|] eqn:Hf; [|done].
  apply parse_form_some in Hf as [Hok%candidate_ok <-].
  destruct f as [n vg z st tg|n vg z p tg|n vg|i n vg src z]; cbn [form_ok form_args] in *.
  - destruct (group_pvs s vg) as [pvs|]; [|done]. destruct (_ =s _); [|done].
    intros (Hm & Ht & ->)%add_sized_ok. pose proof (round_up_bounds z ltac:(destruct Hok; lia)).
    eexists. split_and!; [|exact Ht|done].
    apply makes_striped; unfold is_uint64 in *; [lia..|]. unfold striped_type. destruct (_ =? _)%Z; auto.
  - destruct (is_thin_pool s vg p); [|done].
    intros (Hm & Ht & ->)%add_sized_ok. pose proof (round_up_bounds z ltac:(destruct Hok; lia)).
    eexists. split_and!; [|exact Ht|done]. apply makes_thin; unfold is_uint64 in *; lia.
  - intros [Ht ->]%add_volume_ok. eexists. split_and!; [|exact Ht|done].
    apply makes_pool. split; vm_compute; discriminate.
  - unfold find_in. destruct (find_volume vg src (s_volumes s)) as [o|] eqn:Ho; [|done].
    destruct z as [z|]; [|destruct (lv_SegType o =s ThinVolType); [|done]];
      intros [Ht ->]%add_volume_ok; (eexists; split_and!; [|exact Ht|done]).
    + apply (makes_snapshot _ i n vg src (Some z)); [apply Hok|done|done].
    + apply (makes_snapshot _ i n vg src None); [apply Hok|done|done].
Qed.

Lemma goes_spec l vg name v :
  goes l vg name v = true <-> is_volume vg name v = true \/ depends_on l vg name v.
Proof.
  unfold goes, depends_on. rewrite orb_true_iff, andb_true_iff, orb_true_iff, andb_true_iff, !eqb_true.
  assert (match find_volume vg name l with Some p => lv_SegType p =s ThinPoolType | None => false end = true <->
          exists p, find_volume vg name l = Some p /\ lv_SegType p = ThinPoolType) as ->; [|tauto].
  destruct (find_volume vg name l) as [p|]; [rewrite eqb_true|]; naive_solver.
Qed.

Lemma elem_without l vg name v : v ∈ without l vg name <-> v ∈ l /\ goes l vg name v = false.
Proof. unfold without. by rewrite !list_elem_of_In, List.filter_In, negb_true_iff. Qed.

Lemma without_spec l vg name :
  find_volume vg name (without l vg name) = None /\
  (forall v, v ∈ without l vg name -> v ∈ l) /\
  (forall v, v ∈ l -> is_volume vg name v = false -> ~ depends_on l vg name v -> v ∈ without l vg name).
Proof.
  split_and!.
  - apply find_volume_none_iff. intros v [_ Hg]%elem_without. unfold goes in Hg. by go_bool.
  - by intros v [Hv _]%elem_without.
  - intros v Hv Hn Hd. apply elem_without. split; [done|]. destruct (goes l vg name v) eqn:Hg; [|done].
    apply goes_spec in Hg as [Hg|Hg]; [congruence|done].
Qed.

Lemma lvremove_ok s operand out s' : lvremove s ["-q"; "-y"; operand] = ((out, None), s') ->
  exists vg name, split_operand operand = Some (vg, name) /\ is_Some (find_in s vg name) /\
    s' = with_volumes s (without (s_volumes s) vg name).
Proof.
  unfold lvremove. destruct (split_operand operand) as [[vg name]|] eqn:Ho; [|done].
  case_bool_decide as Hd; [|done]. intros [_ ->]%accept_inv. exists vg, name. by destruct Hd.
Qed.

Lemma update_volume_some vg name f l l' : update_volume vg name f l = Some l' ->
  exists v w rest, l ≡ₚ v :: rest /\ l' ≡ₚ w :: rest /\ f v = Some w /\
    lv_VGName v = vg /\ lv_Name v = name /\ v ∈ l.
Proof.
  revert l'. induction l as [|u l IH]; intros l'; [done|]. cbn [update_volume].
  destruct (is_volume vg name u) eqn:Hu.
  - destruct (f u) as [w|] eqn:Hf; [|done]. intros [= <-]. exists u, w, l.
    unfold is_volume in Hu. go_bool. split_and!; try done. by left.
  - destruct (update_volume vg name f l) as [k|]; [|done]. intros [= <-].
    destruct (IH k eq_refl) as (v & w & rest & H1 & H2 & Hf & Hg & Hn & Hin).
    exists v, w, (u :: rest). rewrite H1, H2 in *.
    split_and!; first [done|apply Permutation_swap|set_solver].
Qed.

Lemma grow_ok size v w : (0 <= size)%Z -> grow size v = Some w ->
  w = resize v (round_up size) /\ is_uint64 (round_up size).
Proof.
  intros Hs. unfold grow. destruct (parse_uint _) as [n|]; [|done].
  destruct (_ && _) eqn:Hb; [|done]. go_bool. intros [= <-]. split; [done|].
  pose proof (round_up_bounds size Hs). split; lia.
Qed.

Lemma lvextend_ok s a out s' : lvextend s a = ((out, None), s') ->
  exists vg name size v w rest, a = buildLVExtendArgs vg name size /\ is_uint64 size /\
    has_byte "/" vg = false /\ has_byte "/" name = false /\
    s' = with_volumes s (s_volumes s') /\
    s_volumes s ≡ₚ v :: rest /\ s_volumes s' ≡ₚ w :: rest /\ w = resize v (round_up size) /\
    is_uint64 (round_up size) /\ lv_VGName v = vg /\ lv_Name v = name /\ v ∈ s_volumes s.
Proof.
  unfold lvextend. destruct a as [|a1 [|sz [|a3 [|operand [|]]]]]; try done.
  destruct (split_operand operand) as [[vg name]|] eqn:Ho; [|done].
  apply split_operand_some in Ho as (Hvg & Hn & _). case_bool_decide as Hd; [|done].
  destruct (update_volume _ _ _ _) as [l|] eqn:Hu; [|done]. intros [_ ->]%accept_inv.
  pose proof (size_of_uint64 sz) as Hsz.
  apply update_volume_some in Hu as (v & w & rest & H1 & H2 & [-> Hr]%grow_ok & Hvn & Hvv & Hin);
    [|destruct Hsz; lia].
  exists vg, name, (size_of sz), v, (resize v (round_up (size_of sz))), rest. done.
Qed.

(** ** The simulated host satisfies the laws *)

Definition sim_exec (h : sig wf) (_ : Z) (c : string) (a : list string) (x : string * option ext_error)
    (h' : sig wf) : Prop := tool (`h) c a = (x, `h').

(** An operand with one slash is divided in one way. *)
Lemma one_sep_inj c a b a' b' :
  has_byte c a = false -> has_byte c b = false ->
  a +:+ String c b = a' +:+ String c b' -> a' = a /\ b' = b.
Proof.
  intros Ha Hb E. destruct (has_byte c a') eqn:Ha'; [|apply app_sep_inj in E as [-> ->]; done]. exfalso.
  revert a Ha E. induction a' as [|x a' IH]; intros a Ha E; [done|]. cbn in Ha'.
  destruct a as [|y a]; cbn in Ha, E; simplify_eq.
  - rewrite <- not_true_iff_false in Hb. apply Hb. clear. induction a' as [|z a' IH]; cbn; [by rewrite Ascii.eqb_refl|].
    by rewrite IH, orb_true_r.
  - apply orb_false_iff in Ha as [Hx Ha]. rewrite Hx in Ha'. by apply (IH Ha' a).
Qed.

#[export, refine] Instance sim_host : LvmHost (sig wf) :=
  { volumes := fun h => s_volumes (`h); exec := sim_exec }.
Proof.
  - intros h t c a x h' Hx Hc. unfold sim_exec, tool in Hx. unfold keeping in Hc.
    rewrite !elem_of_cons, elem_of_nil in Hc.
    destruct Hc as [->|[->|[->|[->|[->|[->|[->|[->|[]]]]]]]]]; cbn [String.eqb] in Hx; cbn in Hx.
    1: unfold lvs in Hx. 2: unfold vgs in Hx.
    all: repeat case_match; injection Hx as _ <-; done.
  - intros h t vg name size out h' Hx Hs.
    change (lvextend (`h) (buildLVExtendArgs vg name size) = ((out, None), `h')) in Hx.
    apply lvextend_ok in Hx as (vg' & name' & size' & v & w & rest & Ha & Hs' & Hvg & Hn & _ & H1 & H2 & -> & Hr & Hv & Hvn & _).
    injection Ha as E1 E2. apply format_size_inj in E1 as ->; [|done..].
    apply (eq_sym (y := _)), one_sep_inj in E2 as [-> ->]; [|done..].
    exists v, (resize v (round_up size')), (round_up size'), rest. cbn [resize lv_Size].
    split_and!; try done; [by apply parse_format_uint|]. apply round_up_bounds. by destruct Hs.
  - intros h t out h' Hx. change (lvs (`h) lvs_args = ((out, None), `h')) in Hx.
    unfold lvs in Hx. rewrite bool_decide_true in Hx by done. apply accept_inv in Hx as [-> _].
    apply parse_report_report. pose proof (wf_volumes _ (proj2_sig h)) as Hw.
    rewrite forallb_forall in *. intros v Hv. by apply well_formed_spec, Hw.
  - intros h t vg out h' m pool n Hx Hm Hp _. change (lvs (`h) counts_args = ((out, None), `h')) in Hx.
    unfold lvs in Hx. rewrite bool_decide_false, bool_decide_true in Hx by done. apply accept_inv in Hx as [-> _].
    rewrite read_count_table in Hm by apply (proj2_sig h). injection Hm as <-.
    by apply pool_counts_exact in Hp as [-> _].
  - intros h t a out h' Hx. apply lvcreate_ok in Hx as (v & Hm & Ht & Hv).
    exists v. rewrite Hv. split_and!; [done|by apply takes_free|done].
  - intros h t vg name operand out h' Hx Ho Hne Hvg.
    apply lvremove_ok in Hx as (vg' & name' & Hs & _ & Hv). rewrite Hv.
    destruct (split_operand_unique _ _ _ _ _ Hs Ho Hne Hvg) as [-> ->]. apply without_spec.
Defined.

(** *** Well-formed states stay well-formed *)

Lemma forallb_perm {A} (f : A -> bool) l k : l ≡ₚ k -> forallb f l = forallb f k.
Proof.
  induction 1; cbn; [done|congruence| |congruence]. rewrite !andb_assoc. f_equal. apply andb_comm.
Qed.

Lemma well_formed_resize v n : well_formed v = true -> is_uint64 n -> well_formed (resize v n) = true.
Proof.
  intros (Hr & Hn & Hg & Ht)%well_formed_spec Hu.
  apply reportable_size in Hr as (H1 & H2 & _ & H4 & H5 & _).
  apply eqb_false in Hn, Hg, Ht. unfold well_formed, reportable.
  cbn [resize lv_Name lv_VGName lv_Size lv_SegType lv_Origin].
  by rewrite H1, H2, H4, H5, Hn, Hg, Ht, parse_format_uint, eqb_same.
Qed.

Lemma tool_wf s c a x s' : wf s -> tool s c a = (x, s') -> wf s'.
Proof.
  intros Hw Hx. pose proof Hw as [Hv Hc Hg].
  destruct x as [out [e|]].
  { assert (s' = s) as ->; [|done].
    unfold tool, lvs, vgs, lvcreate, lvremove, lvextend, add_sized, add_volume, accept, refuse in Hx.
    repeat case_match; simplify_eq; done. }
  unfold tool in Hx. repeat (destruct (_ =s _) in Hx; cbn [orb] in Hx).
  - unfold lvs, accept, refuse in Hx. repeat case_match; simplify_eq; done.
  - unfold vgs, accept, refuse in Hx. repeat case_match; simplify_eq; done.
  - by apply accept_inv in Hx as [_ ->].
  - by apply accept_inv in Hx as [_ ->].
  - apply lvcreate_ok in Hx as (v & _ & (Hwf & _ & Hn)%takes_free & ->). apply wf_with; [done| |].
    + cbn. by rewrite Hwf.
    + done.
  - unfold lvremove, accept, refuse in Hx. repeat case_match; simplify_eq. apply wf_with; [done| |].
    + rewrite forallb_forall in *. intros v Hin. apply Hv.
      by apply list_elem_of_In, elem_without, proj1, list_elem_of_In in Hin.
    + unfold countable_host in *. cbn.
      match goal with |- (Z.of_nat (length (without ?l ?g ?n)) <= _)%Z =>
        pose proof (List.filter_length_le (fun v => negb (goes l g n v)) l) as Hle;
        change (length (without l g n) <= length l) in Hle; lia end.
  - apply lvextend_ok in Hx as (vg & name & size & v & w & rest & _ & _ & _ & _ & -> & H1 & H2 & -> & Hr & _ & _ & _).
    apply wf_with; [done| |].
    + rewrite (forallb_perm _ _ _ H2). rewrite (forallb_perm _ _ _ H1) in Hv. cbn [forallb] in *.
      apply andb_true_iff in Hv as [Hv ->]. by rewrite well_formed_resize.
    + unfold countable_host in *. rewrite H2. rewrite H1 in Hc. done.
  - done.
Qed.

(** *** Running programs on it *)

Definition sim_step (e : eff) (s : lvm_sim) : option (resp e * lvm_sim) :=
  match e as e return option (resp e * lvm_sim) with
  | Exec _ c a => Some (tool s c a)
  | _ => None
  end.

(** What is proved over [LvmHost] holds of runs on the computed host. *)
Lemma run_sim {R} policy (m : prog R) (Q : R -> sig wf -> Prop) (s : sig wf) :
  wp (lvm_env policy) m Q s ->
  exists r s', run sim_step m (`s) = Some (r, `s') /\ Q r s'.
Proof.
  revert s. induction m as [r|e k IH]; intros s; cbn [wp run]; [by exists r, s|].
  intros [Ha Hk]. destruct e; try done. cbn [sim_step].
  destruct (tool (`s) command args) as [x s1] eqn:Hx.
  pose proof (tool_wf _ _ _ _ _ (proj2_sig s) Hx) as Hw.
  destruct (IH x (exist wf s1 Hw)) as (r & s2 & Hrun & HQ); [by apply Hk|]. by exists r, s2.
Qed.
