(* ===== verification/LvmSpec.v ===== *)
(** * What the volume operations of lvm.go achieve on a host

    Theorems over [LvmHost]: the operations establish what their callers rely on,
    a retry changes nothing, and the only volumes ever removed are the requested
    one and the leftover of an interrupted thin-pool creation. *)
From S2P Require Import Prelude GoStrings Errors Objects Effects Config Validation Json Lvm LvmHost.

(** A volume that is at least [size] bytes and of a segment type for the LVM type [ty]. *)
Definition fits (ty segType : string) : Prop :=
  (ty = DmThinType /\ segType = ThinVolType) \/
  (ty = StripedType /\ (segType = StripedType \/ segType = LinearType)).
Definition suits (v : logicalVolume) (size : Z) (ty : string) : Prop :=
  exists n, parse_uint (lv_Size v) = Ok n /\ (size <= n)%Z /\ fits ty (lv_SegType v).

Lemma type_matches_ok ty segType : type_matches ty segType = true <-> fits ty segType.
Proof.
  unfold type_matches, fits. rewrite !orb_true_iff, !andb_true_iff, orb_true_iff, !eqb_true. tauto.
Qed.

Lemma validateExistingVolume_ok v size ty : validateExistingVolume v size ty = Ok tt <-> suits v size ty.
Proof.
  unfold validateExistingVolume, parseLogicalVolumeSize, suits.
  destruct (parse_uint (lv_Size v)) as [n|e]; cbn [map_err rbind]; [|naive_solver].
  setoid_rewrite <- type_matches_ok. destruct (Z.ltb_spec n size), (type_matches ty (lv_SegType v)); cbn.
  all: split; [try discriminate; eauto with lia|intros (m & [= <-] & Hm & Ht); (done || lia)].
Qed.

Section spec.
Context `{LvmHost H} (T : timeouts).

Definition pool_name (vg : string) : string := vg +:+ "-thinpool".

(** What creating [vg/name] may run: queries; an [lvcreate] of the volume or of the
    thin pool while the name is free; an [lvremove] of a linear volume under the
    pool's name. *)
Definition create_policy (vg name : string) (h : H) (c : string) (a : list string) : Prop :=
  is_query c \/
  (c = "lvcreate" /\
     ((a = thinPoolCreateArgs vg (pool_name vg) /\ find_volume vg (pool_name vg) (volumes h) = None) \/
      (take 4 a = ["-v"; "--yes"; "-n"; name] /\ find_volume vg name (volumes h) = None))) \/
  (c = "lvremove" /\ a = ["-q"; "-y"; vg +:+ "/" +:+ pool_name vg] /\
     exists v, find_volume vg (pool_name vg) (volumes h) = Some v /\ lv_SegType v = LinearType).

Lemma create_policy_reads vg name : reads (create_policy vg name).
Proof. intros h c a Hq. by left. Qed.
Lemma read_only_reads : reads (H := H) read_only.
Proof. by intros h c a Hq. Qed.
Hint Resolve create_policy_reads read_only_reads : core.

Lemma wp_validateThinPool policy vg pool h : reads policy ->
  wp (lvm_env policy) (validateThinPool T vg pool) (fun _ h' => volumes h' = volumes h) h.
Proof.
  intros Hp. apply wp_query; [done|by left|]. intros [out [e|]] h' Hv; cbn; [done|].
  repeat case_match; done.
Qed.

Lemma wp_pvCount policy vg h : reads policy ->
  wp (lvm_env policy) (pvCount T vg) (fun _ h' => volumes h' = volumes h) h.
Proof. intros Hp. apply wp_query; [done|by right|]. by intros [out [e|]] h' Hv. Qed.

Lemma wp_rollback vg name h :
  wp (lvm_env (create_policy vg name)) (rollbackThinPoolCreate T vg (pool_name vg))
    (fun _ _ => True) h.
Proof.
  eapply wp_bind_mono; [by apply wp_get|]. intros [[pool|]|e] h' [Hv Hr]; cbn; [|done..].
  destruct (lv_SegType pool =s ThinPoolType); cbn; [done|].
  destruct (lv_SegType pool =s LinearType) eqn:Hlin; cbn; [|done].
  split; [|by intros [out [e|]] h'' _]. right; right. go_bool.
  split_and!; [done..|]. exists pool. by rewrite Hv.
Qed.

Lemma wp_createThinPool vg name h :
  find_volume vg (pool_name vg) (volumes h) = None ->
  wp (lvm_env (create_policy vg name)) (createThinPool T vg (pool_name vg))
    (fun r h' => r = None -> exists v, lv_VGName v = vg /\ lv_Name v = pool_name vg /\
                                       volumes h' ≡ₚ v :: volumes h) h.
Proof.
  intros Hfree. unfold createThinPool. cbn. split; [right; left; auto|].
  intros [out [e|]] h' Hx; cbn.
  - apply wp_bind. unfold handleThinPoolCreateError. destruct (is_cmd_timeout _); cbn; [|done].
    apply wp_bind. eapply wp_mono; [|apply wp_rollback]. by intros [?|] ? _.
  - intros _. destruct (lvcreate_adds _ _ _ _ _ Hx) as (v & Hm & _ & Hp).
    exists v. by inversion Hm; subst.
Qed.

Lemma wp_prepareThinPool vg name ty h :
  name <> pool_name vg -> find_volume vg name (volumes h) = None ->
  wp (lvm_env (create_policy vg name)) (prepareThinPool T vg ty)
    (fun r h' => match r with Ok _ => find_volume vg name (volumes h') = None | Err _ => True end) h.
Proof.
  intros Hne Hfree. unfold prepareThinPool. destruct (ty =s DmThinType); cbn [negb]; [|done].
  eapply wp_bind_mono; [by apply wp_get|]. intros [[pool|]|e] h' [Hv Hr]; cbn [wp]; [| |done].
  - unfold checkThinPool. destruct (lv_SegType pool =s ThinPoolType); [|done].
    eapply wp_try; [by apply wp_validateThinPool| |done]. intros h'' Hv'. cbn. congruence.
  - eapply wp_try; [apply wp_createThinPool; unfold pool_name; congruence| |done].
    intros h'' Hc. destruct (Hc eq_refl) as (v & Hvg & Hn & Hp). cbn.
    eapply find_volume_none_add; [exact Hp| |congruence].
    unfold is_volume. rewrite Hn. apply andb_false_iff. right. by apply eqb_false.
Qed.

(** The volume that a successful [lvcreate] of [CreateLVS] makes is compatible. *)
Lemma created_compatible l vg name size pvs ty pool v :
  is_uint64 size -> supported_type ty = true ->
  lvcreate_makes l (["-v"; "--yes"; "-n"; name; "-W"; "y"]
    ++ create_type_args ty vg pool size pvs ++ ["--addtag"; "harvester-csi-lvm"])%list v ->
  lv_VGName v = vg /\ lv_Name v = name /\ validateExistingVolume v size ty = Ok tt.
Proof.
  intros Hs Hty Hm. unfold create_type_args in Hm.
  destruct (ty =s StripedType) eqn:Hst; [|destruct (ty =s DmThinType) eqn:Hdm].
  3:{ unfold supported_type in Hty. by rewrite Hst, Hdm in Hty. }
  all: inversion Hm; subst; try done.
  all: match goal with E : format_int _ +:+ "b" = format_int _ +:+ "b" |- _ =>
         apply format_size_inj in E; [subst|unfold is_uint64 in *; lia..] end.
  all: split_and!; [done..|]; unfold validateExistingVolume, parseLogicalVolumeSize;
    cbn [lv_Size]; rewrite parse_format_uint by done; cbn [map_err rbind].
  all: destruct (Z.ltb_spec n size); [lia|]; cbn [guard rbind]; unfold type_matches.
  - rewrite Hst. cbn [lv_SegType].
    match goal with E : _ \/ _ |- _ => destruct E; subst end; by destruct (ty =s DmThinType).
  - by rewrite Hdm.
Qed.

(** *** CreateLVS *)

(** The volume a caller of [CreateLVS] asked for is there. *)
Definition provisioned (vg name : string) (size : Z) (ty : string) (h : H) : Prop :=
  exists v, find_volume vg name (volumes h) = Some v /\ suits v size ty.

Lemma wp_CreateLVS vg name size ty h :
  is_uint64 size -> name <> pool_name vg ->
  wp (lvm_env (create_policy vg name)) (CreateLVS T vg name size ty)
    (fun r h' => snd r = None -> provisioned vg name size ty h') h.
Proof.
  intros Hs Hne. unfold CreateLVS. destruct (size =? 0)%Z; [done|].
  destruct (negb (ty =s StripedType) && negb (ty =s DmThinType)) eqn:Hty; [done|].
  assert (supported_type ty = true) as Hsup
    by (revert Hty; unfold supported_type; destruct (ty =s StripedType), (ty =s DmThinType); done).
  eapply wp_bind_mono; [by apply wp_get|]. intros [[v|]|e] h1 [Hv Hr]; cbn [wp]; [| |done].
  { destruct (validateExistingVolume v size ty) as [[]|] eqn:Hval; cbn; [|done].
    apply validateExistingVolume_ok in Hval. intros _. exists v. by rewrite Hv. }
  eapply wp_bind_mono; [apply wp_prepareThinPool; [done|congruence]|].
  intros [pool|e] h2 Hfree; cbn [wp]; [|done].
  eapply wp_bind_mono; [by apply wp_pvCount|]. intros [pvs|e] h3 Hv3; cbn [wp]; [|done].
  cbn -[create_type_args]. split; [right; left; rewrite Hv3; auto|].
  intros [out [e|]] h4 Hx; cbn; [done|]. intros _.
  destruct (lvcreate_adds _ _ _ _ _ Hx) as (v & Hm & Hf & Hp).
  destruct (created_compatible _ _ _ _ pvs _ pool _ Hs Hsup Hm) as (<- & <- & Hval).
  exists v. split; [by eapply find_volume_fresh|by apply validateExistingVolume_ok].
Qed.

Lemma wp_CreateLVS_again vg name size ty h :
  (0 < size)%Z -> supported_type ty = true -> provisioned vg name size ty h ->
  wp (lvm_env read_only) (CreateLVS T vg name size ty)
    (fun r h' => volumes h' = volumes h /\ (snd r = None -> fst r = name)) h.
Proof.
  intros Hpos Hty (v & Hf & Hval%validateExistingVolume_ok). unfold CreateLVS.
  destruct (Z.eqb_spec size 0); [lia|].
  replace (negb (ty =s StripedType) && negb (ty =s DmThinType)) with false
    by (revert Hty; unfold supported_type; destruct (ty =s StripedType), (ty =s DmThinType); done).
  eapply wp_bind_mono; [by apply wp_get|]. intros [o|e] h1 [Hv Hr]; cbn; [|done].
  subst o. rewrite Hf. cbn. by rewrite Hval.
Qed.

(** *** Removal *)

(** Nothing but [vg/name] and what depends on it has gone. *)
Definition removed (vg name : string) (h h' : H) : Prop :=
  find_volume vg name (volumes h') = None /\
  (forall v, v ∈ volumes h' -> v ∈ volumes h) /\
  (forall v, v ∈ volumes h -> is_volume vg name v = false ->
     ~ depends_on (volumes h) vg name v -> v ∈ volumes h').

Lemma removed_absent vg name h h' :
  find_volume vg name (volumes h) = None -> volumes h' = volumes h -> removed vg name h h'.
Proof. intros Hf Hv. unfold removed. rewrite Hv. auto. Qed.

Definition remove_policy (vg name operand : string) (h : H) (c : string) (a : list string) : Prop :=
  is_query c \/
  (c = "lvremove" /\ a = ["-q"; "-y"; operand] /\ is_Some (find_volume vg name (volumes h))).

(** What [RemoveLVSInVG] and [DeleteSnapshot] share: look the volume up, remove it. *)
Lemma wp_remove policy vg name operand (absent : string) (fail : error -> error) h :
  reads policy ->
  (forall h1, volumes h1 = volumes h -> is_Some (find_volume vg name (volumes h1)) ->
     policy h1 "lvremove" ["-q"; "-y"; operand]) ->
  operand = vg +:+ "/" +:+ name \/ operand = "/dev/" +:+ vg +:+ "/" +:+ name ->
  vg <> "" -> has_byte "/" vg = false ->
  wp (lvm_env policy)
    (let* r := getLogicalVolume T vg name in
     match r with
     | Err e => Ret ("", Some (fail e))
     | Ok None => Ret (absent, None)
     | Ok (Some _) =>
         let* (out, err) := Execute (newCommandExecutor T) "lvremove" ["-q"; "-y"; operand] in
         Ret (out, Ext <$> err)
     end)
    (fun r h' => snd r = None -> removed vg name h h') h.
Proof.
  intros Hrd Hp Ho Hne Hs. eapply wp_bind_mono; [by apply wp_get|].
  intros [[v|]|e] h1 [Hv Hr]; cbn [wp]; [| |done].
  - cbn. split; [apply Hp; [done|]; rewrite Hv, <- Hr; eauto|].
    intros [out [e|]] h2 Hx; cbn; [done|]. intros _. unfold removed. rewrite <- Hv.
    by eapply lvremove_removes.
  - intros _. by apply removed_absent.
Qed.

Lemma remove_policy_reads vg name operand : reads (remove_policy vg name operand).
Proof. intros h c a Hq. by left. Qed.
Hint Resolve remove_policy_reads : core.

Lemma wp_RemoveLVSInVG vg name h :
  vg <> "" -> has_byte "/" vg = false ->
  wp (lvm_env (remove_policy vg name (vg +:+ "/" +:+ name))) (RemoveLVSInVG T vg name)
    (fun r h' => snd r = None -> removed vg name h h') h.
Proof. intros Hne Hs. apply wp_remove; auto. intros h1 _ Hf. by right. Qed.

(** *** The thin pool of a group *)

(** The pool may be removed while the group has no thin volume. *)
Definition pool_policy (vg : string) (h : H) (c : string) (a : list string) : Prop :=
  is_query c \/
  (c = "lvremove" /\ a = ["-q"; "-y"; vg +:+ "/" +:+ pool_name vg] /\
   count (thin_of vg) (volumes h) = 0).

Lemma pool_policy_reads vg : reads (pool_policy vg).
Proof. intros h c a Hq. by left. Qed.
Hint Resolve pool_policy_reads : core.

Lemma wp_RemoveThinPool vg h :
  vg <> "" -> has_byte "/" vg = false -> only_pool (volumes h) vg (pool_name vg) ->
  wp (lvm_env (pool_policy vg)) (RemoveThinPool T vg)
    (fun r h' => r = None -> volumes h' = volumes h \/
       (removed vg (pool_name vg) h h' /\ count (thin_of vg) (volumes h) = 0)) h.
Proof.
  intros Hne Hs Hpool. unfold RemoveThinPool, getThinPoolAndCounts. cbn. split; [by left; left|].
  intros [out [e|]] h1 Hx; cbn; [done|].
  assert (volumes h1 = volumes h) as Hv by (eapply query_reads; [exact Hx|by left]).
  destruct (thin_pool_counts vg _ ∅) as [m|e] eqn:Hm; cbn [wp]; [|done].
  fold (pool_name vg). destruct (m !! pool_name vg) as [n|] eqn:Hn; [|by left].
  destruct (Z.ltb_spec 0 n) as [|Hle]; [by left|].
  assert (count (thin_of vg) (volumes h) = 0) as Hnone.
  { pose proof (lvs_counts _ _ _ _ _ _ _ _ Hx Hm Hn Hpool). lia. }
  eapply wp_bind_mono.
  - apply wp_remove; [by apply pool_policy_reads| |by left|done..].
    intros h2 Hv2 _. right. by rewrite Hv2, Hv.
  - intros [out2 [e|]] h2 Hr; cbn; [done|]. intros _. right. split; [|done].
    unfold removed. rewrite <- Hv. by apply Hr.
Qed.

(** *** Snapshots *)

Definition snapshot_of (vg name src : string) (h : H) : Prop :=
  exists v, find_volume vg name (volumes h) = Some v /\ lv_Origin v = src.

Definition snapshot_policy (vg name src : string) (h : H) (c : string) (a : list string) : Prop :=
  is_query c \/
  (c = "lvcreate" /\ take 2 a = ["-s"; "-y"] /\
   is_Some (find_volume vg src (volumes h)) /\ find_volume vg name (volumes h) = None).

Definition backend_name (forClone : bool) (snapshotName : string) : string :=
  if forClone then snapshotName else "lvm-" +:+ snapshotName.

(** The operands [CreateSnapshot] gives to [lvcreate]; [None]: no size. *)
Definition snapshot_args (forClone : bool) (name : string) (size : option Z) (operand : string) :
    list string :=
  ((["-s"; "-y"] ++ (if forClone then [] else ["-a"; "n"]) ++ ["-n"; name])
    ++ match size with Some z => ["-L"; format_int z +:+ "b"] | None => [] end ++ [operand])%list.

Lemma snapshot_made l forClone name size vg src v :
  has_byte "/" vg = false ->
  lvcreate_makes l (snapshot_args forClone name size (vg +:+ "/" +:+ src)) v ->
  lv_VGName v = vg /\ lv_Name v = name /\ lv_Origin v = src /\
  exists s, find_volume vg src l = Some s /\ lv_Size v = lv_Size s /\
            (size = None -> lv_SegType v = ThinVolType).
Proof.
  intros Hs Hm. unfold snapshot_args in Hm.
  remember (_ ++ _)%list as args eqn:Ha. destruct Hm as [| | |inactive n vg' src' z ty s Hs' Hf Hz];
    destruct forClone, size; try discriminate Ha.
  all: destruct inactive, z; simplify_eq/=.
  all: match goal with E : _ +:+ String "/" _ = _ |- _ => apply app_sep_inj in E as [-> ->]; [|done..] end.
  all: split_and!; eauto; exists s; split_and!; auto; done.
Qed.

(** What a [CreateSnapshot] without an error has done: the snapshot is there, nothing
    has gone, and a new snapshot of type dm-thin has the size of its source. *)
Definition snapshot_created (vg name src lvType : string) (h h' : H) : Prop :=
  snapshot_of vg name src h' /\
  (forall v, v ∈ volumes h -> v ∈ volumes h') /\
  (find_volume vg name (volumes h) = None -> lvType = DmThinType ->
     exists v s, find_volume vg name (volumes h') = Some v /\
                 find_volume vg src (volumes h) = Some s /\ lv_Size v = lv_Size s).

Lemma wp_CreateSnapshot snapshotName src vg size lvType forClone h :
  has_byte "/" vg = false ->
  let name := backend_name forClone snapshotName in
  wp (lvm_env (snapshot_policy vg name src)) (CreateSnapshot T snapshotName src vg size lvType forClone)
    (fun r h' => snd r = None -> snapshot_created vg name src lvType h h') h.
Proof.
  intros Hs name. assert (reads (snapshot_policy vg name src)) as Hrd by (intros ????; by left).
  unfold CreateSnapshot. destruct (_ || _); [done|]. destruct (size =? 0)%Z; [done|].
  eapply wp_bind_mono; [by apply wp_get|]. intros [[s|]|e] h1 [Hv Hr]; cbn [wp]; [|done..].
  fold (backend_name forClone snapshotName). fold name.
  eapply wp_bind_mono; [by apply wp_get|]. intros [[v|]|e] h2 [Hv2 Hr2]; cbn [wp]; [| |done].
  { destruct (lv_Origin v =s src) eqn:Ho; cbn; [|done]. go_bool. intros _.
    rewrite Hv in Hr2. split_and!; [exists v; rewrite Hv2, Hv; auto|congruence|congruence]. }
  assert (forall sz, (lvType = DmThinType -> sz = None) ->
    wp (lvm_env (snapshot_policy vg name src))
      (let* (out, err) := Execute (newCommandExecutor T) "lvcreate"
          (snapshot_args forClone name sz (vg +:+ "/" +:+ src)) in Ret (out, Ext <$> err))
      (fun r h' => snd r = None -> snapshot_created vg name src lvType h h') h2) as Hrun.
  { intros sz Hsz. cbn -[snapshot_args]. split.
    { right. rewrite Hv2, <- Hr2, Hv, <- Hr. split_and!; eauto. }
    intros [out [e|]] h3 Hx; cbn -[snapshot_args]; [done|]. intros _.
    destruct (lvcreate_adds _ _ _ _ _ Hx) as (v & Hm & Hf & Hp).
    destruct (snapshot_made _ _ _ _ _ _ _ Hs Hm) as (<- & Hn & <- & s' & Hf' & Hsize & _).
    unfold snapshot_created. rewrite <- Hn in *.
    pose proof (find_volume_fresh _ _ _ Hf Hp) as Hfind.
    split_and!; [by exists v| |].
    - intros w Hw. rewrite Hp, Hv2, Hv. by right.
    - intros _ _. exists v, s'. split_and!; congruence. }
  unfold snapshot_args in Hrun.
  destruct (lvType =s StripedType) eqn:Hst; [|destruct (lvType =s DmThinType); [|done]].
  - rewrite <- app_assoc. apply (Hrun (Some size)). intros ->. done.
  - apply (Hrun None). done.
Qed.

Lemma wp_DeleteSnapshot snapshotName vg h :
  vg <> "" -> has_byte "/" vg = false ->
  let name := backend_name false snapshotName in
  wp (lvm_env (remove_policy vg name ("/dev/" +:+ vg +:+ "/" +:+ name)))
    (DeleteSnapshot T snapshotName vg) (fun r h' => snd r = None -> removed vg name h h') h.
Proof.
  intros Hne Hs name. unfold DeleteSnapshot. destruct (snapshotName =s ""); [done|].
  apply wp_remove; auto. intros h1 _ Hf. by right.
Qed.

End spec.

Lemma provisioned_supported `{LvmHost H} vg name size ty (h : H) :
  provisioned vg name size ty h -> supported_type ty = true.
Proof. intros (v & _ & n & _ & _ & Hf). by destruct Hf as [[-> _]|[-> _]]. Qed.



(** When [RemoveLVSInVG] answers without an error the volume is gone and every volume
    that does not depend on it is still there; it runs [lvremove] only on that
    volume and only when it exists, and if the volume was already absent it runs
    nothing but queries and, if [lvs] works, succeeds. *)
Theorem RemoveLVSInVG_removes `{LvmHost H} T vg name (h : H) :
  validateVGName vg = Ok tt ->
  wp (lvm_env (remove_policy vg name (vg +:+ "/" +:+ name))) (RemoveLVSInVG T vg name)
    (fun r h' => snd r = None -> removed vg name h h') h /\
  (find_volume vg name (volumes h) = None ->
   wp (lvm_env read_only) (RemoveLVSInVG T vg name)
     (fun r h' => volumes h' = volumes h /\ (snd r = None -> fst r = absent_message name)) h).
Proof.
  intros Hvg%validateVGName_ok. split; [apply wp_RemoveLVSInVG; [by apply vg_nonempty|auto with go]|].
  intros Hf. eapply wp_bind_mono; [apply wp_get, read_only_reads|].
  intros [o|e] h1 [Hv Hr]; cbn; [|done]. subst o. by rewrite Hf.
Qed.

Lemma RemoveLVSInVG_removes_witness :
  validateVGName "vg" = Ok tt /\
  wp (lvm_env (remove_policy "vg" "vol" "vg/vol")) (RemoveLVSInVG initial_timeouts "vg" "vol")
    (fun r h' => snd r = None -> removed "vg" "vol" [zero_volume] h') [zero_volume].
Proof.
  split; [reflexivity|].
  apply (proj1 (RemoveLVSInVG_removes (H := list logicalVolume) initial_timeouts "vg" "vol"
                  [zero_volume] eq_refl)).
Defined.

(** C25: a snapshot that [CreateSnapshot] reports exists under the name ["lvm-<name>"] with
    the requested source as its origin and no volume has gone; when [DeleteSnapshot]
    then succeeds for the same name, it is gone and every volume of before that is
    neither it nor depends on it is still there.  [lvcreate] runs only if the source
    exists and the name is free, [lvremove] only on the snapshot. *)
Theorem snapshot_lifecycle `{LvmHost H} T snapshotName src vg size lvType (h : H) :
  validateVGName vg = Ok tt ->
  let name := backend_name false snapshotName in
  let deletes := remove_policy vg name ("/dev/" +:+ vg +:+ "/" +:+ name) in
  wp (lvm_env (snapshot_policy vg name src)) (CreateSnapshot T snapshotName src vg size lvType false)
    (fun r h' => snd r = None ->
       snapshot_of vg name src h' /\ (forall v, v ∈ volumes h -> v ∈ volumes h') /\
       wp (lvm_env deletes) (DeleteSnapshot T snapshotName vg)
         (fun r' h'' => snd r' = None ->
            find_volume vg name (volumes h'') = None /\
            forall v, v ∈ volumes h -> is_volume vg name v = false ->
              ~ depends_on (volumes h') vg name v -> v ∈ volumes h'') h') h.
Proof.
  intros Hvg%validateVGName_ok name deletes. assert (has_byte "/" vg = false) by auto with go.
  eapply wp_mono; [|by apply wp_CreateSnapshot]. intros r h' Hc Hr.
  destruct (Hc Hr) as (Hs & Hk & _). split_and!; [done..|].
  eapply wp_mono; [|apply wp_DeleteSnapshot; [by apply vg_nonempty|done]]. intros r' h'' Hd Hr'.
  destruct (Hd Hr') as (Hf & _ & Hkeep). auto.
Qed.

Lemma snapshot_lifecycle_witness :
  validateVGName "vg" = Ok tt /\
  wp (lvm_env (snapshot_policy "vg" "lvm-s" "vol"))
    (CreateSnapshot initial_timeouts "s" "vol" "vg" 1048576 StripedType false)
    (fun r h' => snd r = None -> snapshot_of "vg" "lvm-s" "vol" h') [zero_volume].
Proof.
  split; [reflexivity|].
  eapply wp_mono; [|apply (snapshot_lifecycle (H := list logicalVolume) initial_timeouts "s" "vol" "vg"
                             1048576 StripedType [zero_volume] eq_refl)].
  intros r h' Hc Hr. exact (proj1 (Hc Hr)).
Defined.


