(* ===== verification/Mount.v ===== *)
(** * Filesystems, mounts and expansion: the node's half of lvm.go

    Probing and formatting a device, mounting it, raw block bind mounts, unmounting
    with escalation, and growing a volume and its filesystem. *)
From S2P Require Import Prelude GoStrings Errors Objects Effects Config Json Lvm.

Definition blkidExitNotFound : Z := 2.
Definition blkidExitOther : Z := 4.
Definition blkidExitAmbiguous : Z := 8.
Definition unmountTimeout : Z := (30 * second)%Z.

(** A signature of [wipefsReport]: its type. *)
Definition decode_signature (ty : string) (key : string) (j : json) : option string :=
  if same_field key "type" then decode_string ty j else Some ty.

(** [wipefsReport]: [None] for a nil pointer to the slice. *)
Definition decode_wipefs : json -> option (option (list string)) :=
  let signatures (old : option (list string)) (j : json) :=
    match j with
    | JNull => Some None
    | _ => option_map Some (decode_slice "" (decode_struct decode_signature) (default [] old) j)
    end in
  decode_struct (fun old key j => if same_field key "signatures" then signatures old j else Some old) None.

(** [Some None]: parsed without a signatures array. *)
Definition parse_wipefs (out : string) : option (option (list string)) := parse out ≫= decode_wipefs.

Definition defaultFilesystemType (fsType : string) : string := if fsType =s "" then "ext4" else fsType.

Definition commandExitCode (err : ext_error) : option Z := ext_exit_code err.

Section mount.
Variable executor : executor.

Definition getFilesystemTypeFromWipefs (lvPath : string) : prog (result error string) :=
  let* (out, err) := Execute executor "wipefs" ["--no-act"; "--json"; "--output"; "TYPE"; lvPath] in
  match err with
  | Some e => Ret (Err (Wrapf "unable to confirm filesystem signatures for %q with wipefs: %w" [AStr lvPath] (Ext e)))
  | None =>
      match parse_wipefs out with
      | None => Ret (Err (Wrapf "unable to parse wipefs output for %q: %w" [AStr lvPath] json_error))
      | Some None => Ret (Err (Errorf "wipefs output for %q does not contain a signatures array" [AStr lvPath]))
      | Some (Some []) => Ret (Ok "")
      | Some (Some [ty]) =>
          let fsType := trim_space ty in
          if fsType =s "" then Ret (Err (Errorf "wipefs reported a signature without a type for %q" [AStr lvPath]))
          else Ret (Ok fsType)
      | Some (Some l) => Ret (Err (Errorf "ambiguous filesystem signatures detected on %q by wipefs: found %d signatures"
                                     [AStr lvPath; AInt (Z.of_nat (length l))]))
      end
  end.

Definition getFilesystemType (lvPath : string) : prog (result error string) :=
  let* (out, err) := Execute executor "blkid" ["-p"; "-s"; "TYPE"; "-o"; "value"; lvPath] in
  match err with
  | None =>
      let fsType := trim_space out in
      if fsType =s "" then Ret (Err (Errorf "blkid succeeded but returned no filesystem type for %q" [AStr lvPath]))
      else Ret (Ok fsType)
  | Some e =>
      match commandExitCode e with
      | None => Ret (Err (Wrapf "unable to determine filesystem type for %q with blkid: %w" [AStr lvPath] (Ext e)))
      | Some exitCode =>
          if (exitCode =? blkidExitNotFound)%Z then getFilesystemTypeFromWipefs lvPath
          else if (exitCode =? blkidExitAmbiguous)%Z then
            Ret (Err (Wrapf "ambiguous filesystem signatures detected on %q by blkid: %w" [AStr lvPath] (Ext e)))
          else if (exitCode =? blkidExitOther)%Z then
            Ret (Err (Wrapf "blkid failed to inspect %q: %w" [AStr lvPath] (Ext e)))
          else Ret (Err (Wrapf "blkid returned unexpected status %d for %q: %w" [AInt exitCode; AStr lvPath] (Ext e)))
      end
  end.

Definition ensureFilesystem (lvPath fsType : string) : prog (string * option error) :=
  let* r := getFilesystemType lvPath in
  match r with
  | Err e => Ret ("", Some e)
  | Ok existingFSType =>
      if negb (existingFSType =s "") && negb (existingFSType =s fsType) then
        Ret ("", Some (Errorf "target fsType is %q but %q found" [AStr fsType; AStr existingFSType]))
      else if negb (existingFSType =s "") then Ret ("", None)
      else
        let* (out, err) := Execute executor ("mkfs." +:+ fsType) [lvPath] in
        match err with
        | Some e => Ret (out, Some (Wrapf "unable to format lv:%q err:%w" [AStr lvPath] (Ext e)))
        | None => Ret (out, None)
        end
  end.

Definition validateExistingMount (mountPath : string) (readOnly : bool) : prog (option error) :=
  let* (out, err) := Execute executor "findmnt"
      ["--noheadings"; "--output"; "OPTIONS"; "--mountpoint"; mountPath] in
  match err with
  | Some e => Ret (Some (Wrapf "unable to verify mount: %w output:%s" [AStr out] (Ext e)))
  | None =>
      if negb readOnly then Ret None
      else if existsb (fun option => option =s "ro") (split "," (trim_space out)) then Ret None
      else Ret (Some (Errorf "readonly was requested but existing mount options are %q" [AStr (trim_space out)]))
  end.

(** The text searched for a message of mount or umount. *)
Definition command_message (out : string) (e : ext_error) : string :=
  to_lower (out +:+ " " +:+ ext_msg e).

Definition performFilesystemMount (mountArgs : list string) (lvPath mountPath : string)
    (readOnly : bool) : prog (string * option error) :=
  let* (out, err) := Execute executor "mount" mountArgs in
  match err with
  | None => Ret (out, None)
  | Some e =>
      if negb (contains (command_message out e) "already mounted") then
        Ret (out, Some (Wrapf "unable to mount %q to %q err:%w output:%s"
                          [AStr lvPath; AStr mountPath; AStr out] (Ext e)))
      else
        let* r := validateExistingMount mountPath readOnly in
        match r with
        | Some e => Ret (out, Some (Wrapf "existing mount at %q is incompatible: %w" [AStr mountPath] e))
        | None => Ret (out, None)
        end
  end.

(** The loop of [normalizeMountOptions]: the kept options and [hasReadOnly]. *)
Fixpoint keep_options (values : list string) (readOnly : bool) : list string * bool :=
  match values with
  | [] => ([], false)
  | option :: rest =>
      let option := trim_space option in
      let (options, hasReadOnly) := keep_options rest readOnly in
      if (option =s "") || (readOnly && (option =s "rw")) then (options, hasReadOnly)
      else (option :: options, (option =s "ro") || hasReadOnly)
  end.

Definition normalizeMountOptions (values : list string) (readOnly : bool) : list string :=
  let (options, hasReadOnly) := keep_options (split "," (join "," values)) readOnly in
  if negb readOnly || hasReadOnly then options else (options ++ ["ro"])%list.

Definition buildFilesystemMountArgs (lvPath mountPath fsType : string) (mountOptions : list string)
    (readOnly : bool) : list string :=
  let options := normalizeMountOptions mountOptions readOnly in
  (["--make-shared"; "-t"; fsType]
   ++ match options with [] => [] | _ => ["-o"; join "," options] end
   ++ [lvPath; mountPath])%list.

Definition mountFilesystem (lvPath mountPath fsType : string) (mountOptions : list string)
    (readOnly : bool) : prog (string * option error) :=
  let* err := call (MkdirAll mountPath) in
  match err with
  | Some e => Ret ("", Some (Wrapf "unable to create mount directory for lv:%q err:%w" [AStr lvPath] (Ext e)))
  | None =>
      let mountArgs := buildFilesystemMountArgs lvPath mountPath fsType mountOptions readOnly in
      let* (out, err) := performFilesystemMount mountArgs lvPath mountPath readOnly in
      match err with
      | Some e => Ret (out, Some e)
      | None =>
          if readOnly then Ret ("", None)
          else
            let* err := call (Chmod mountPath) in
            match err with
            | Some e => Ret ("", Some (Wrapf "unable to change permissions of volume mount %q err:%w"
                                         [AStr mountPath] (Ext e)))
            | None => Ret ("", None)
            end
      end
  end.

Definition performBindMount (source target : string) : prog (string * option error) :=
  let* (out, err) := Execute executor "mount" ["--make-shared"; "--bind"; source; target] in
  match err with
  | None => Ret (out, None)
  | Some e =>
      if contains (command_message out e) "already mounted" then Ret (out, None)
      else Ret (out, Some (Wrapf "unable to mount %q to %q err:%w output:%s"
                             [AStr source; AStr target; AStr out] (Ext e)))
  end.
End mount.

(** ** Unmounting *)

(** [newUnmountExecutor] with [SetTimeout(unmountTimeout)] *)
Definition unmountExecutor : executor := {| ex_timeout := unmountTimeout; ex_timed := true |}.

Definition isUnmountComplete (output : string) (err : option ext_error) : bool :=
  match err with
  | None => true
  | Some e => contains (command_message output e) "not mounted"
              || contains (command_message output e) "no mount point specified"
  end.

(** [errors.Is(err, cmd.ErrCmdTimeout)] *)
Definition timed_out (err : option ext_error) : bool :=
  match err with Some e => is_cmd_timeout (Ext e) | None => false end.

(** [fmt.Errorf] with the error of a failed command. *)
Definition command_failed (format target out : string) (err : option ext_error) : option error :=
  (fun e => Wrapf format [AStr target; AStr out] (Ext e)) <$> err.

Definition lazyUnmount (executor : executor) (targetPath : string) : prog (option error) :=
  let* (out, err) := Execute executor "umount" ["--force"; "--lazy"; targetPath] in
  if isUnmountComplete out err then Ret None
  else Ret (command_failed "unable to force lazy unmount %q: %w output:%s" targetPath out err).

Definition forceUnmount (executor : executor) (targetPath : string) : prog (option error) :=
  let* (out, err) := Execute executor "umount" ["--force"; targetPath] in
  if isUnmountComplete out err then Ret None
  else if negb (timed_out err) then
    Ret (command_failed "unable to force unmount %q: %w output:%s" targetPath out err)
  else lazyUnmount executor targetPath.

Definition unmountTarget (targetPath : string) : prog (option error) :=
  let* (out, err) := Execute unmountExecutor "umount" [targetPath] in
  if isUnmountComplete out err then Ret None else forceUnmount unmountExecutor targetPath.

(** ** Bind mounts *)

Definition validateExistingBindMountTarget (lvName mountPath : string) : prog (option error) :=
  let* info := call (Lstat mountPath) in
  match info with
  | Err e => Ret (Some (Wrapf "unable to inspect mount target for lv:%q err:%w" [AStr lvName] (Ext e)))
  | Ok info =>
      if fi_is_dir info || fi_is_symlink info then
        Ret (Some (Errorf "mount target for lv:%q must be a file" [AStr lvName]))
      else Ret None
  end.

Definition prepareBindMountTarget (lvName mountPath : string) : prog (option error) :=
  let* err := call (CreateExclusive mountPath) in
  match err with
  | Some e =>
      if ext_os_exist e then validateExistingBindMountTarget lvName mountPath
      else Ret (Some (Wrapf "unable to create mount target for lv:%q err:%w" [AStr lvName] (Ext e)))
  | None =>
      let* err := call (CloseFile mountPath) in
      match err with
      | Some e => Ret (Some (Wrapf "unable to close mount target for lv:%q err:%w" [AStr lvName] (Ext e)))
      | None =>
          let* err := call (Chmod mountPath) in
          match err with
          | Some e => Ret (Some (Wrapf "unable to change permissions of volume mount %q err:%w"
                                   [AStr mountPath] (Ext e)))
          | None => Ret None
          end
      end
  end.

Definition remountBindReadOnly (executor : executor) (target : string) : prog (string * option error) :=
  let* (out, err) := Execute executor "mount" ["-o"; "remount,bind,ro"; target] in
  match err with
  | None => Ret (out, None)
  | Some e =>
      let* _ := unmountTarget target in
      Ret (out, Some (Wrapf "unable to remount %q read-only: %w output:%s" [AStr target; AStr out] (Ext e)))
  end.

Definition bindMountLV (T : timeouts) (lvname mountPath vgName : string) (readOnly : bool) :
    prog (string * option error) :=
  let executor := newCommandExecutor T in
  let lvPath := "/dev/" +:+ vgName +:+ "/" +:+ lvname in
  try (prepareBindMountTarget lvname mountPath) (fun e => ("", Some e))
    (let* (out, err) := performBindMount executor lvPath mountPath in
     match err with
     | Some e => Ret (out, Some e)
     | None =>
         if readOnly then
           let* (out, err) := remountBindReadOnly executor mountPath in
           match err with Some e => Ret (out, Some e) | None => Ret ("", None) end
         else Ret ("", None)
     end).

Definition mountLV (T : timeouts) (lvname mountPath vgName fsType : string)
    (mountOptions : list string) (readOnly : bool) : prog (string * option error) :=
  let executor := newCommandExecutor T in
  let lvPath := "/dev/" +:+ vgName +:+ "/" +:+ lvname in
  let fsType := defaultFilesystemType fsType in
  let* (formatOutput, err) := ensureFilesystem executor lvPath fsType in
  match err with
  | Some e => Ret (formatOutput, Some e)
  | None => mountFilesystem executor lvPath mountPath fsType mountOptions readOnly
  end.

(** ** Expansion *)

Definition ensureLogicalVolumeSize (executor : executor) (volume : logicalVolume) (size : Z) :
    prog (string * option error) :=
  match parseLogicalVolumeSize volume with
  | Err e => Ret ("", Some e)
  | Ok lvSize =>
      if (size <=? lvSize)%Z then Ret ("", None)
      else
        let args := buildLVExtendArgs (lv_VGName volume) (lv_Name volume) size in
        let* (output, err) := Execute executor "lvextend" args in
        match err with
        | Some e => Ret (output, Some (Wrapf "unable to extend logical volume %q/%q: %w"
                                         [AStr (lv_VGName volume); AStr (lv_Name volume)] (Ext e)))
        | None => Ret (output, None)
        end
  end.

Definition resizeFilesystem (executor : executor) (volume : logicalVolume) (volumePath : string) :
    prog (string * option error) :=
  let devicePath := "/dev/" +:+ lv_VGName volume +:+ "/" +:+ lv_Name volume in
  let* r := getFilesystemType executor devicePath in
  match r with
  | Err e => Ret ("", Some (Wrapf "unable to detect filesystem on %q: %w" [AStr devicePath] e))
  | Ok fsType =>
      let run (command : string) (args : list string) :=
        let* (output, err) := Execute executor command args in
        match err with
        | Some e => Ret (output, Some (Wrapf "unable to resize %q filesystem on %q: %w"
                                         [AStr fsType; AStr devicePath] (Ext e)))
        | None => Ret (output, None)
        end in
      if (fsType =s "ext2") || (fsType =s "ext3") || (fsType =s "ext4") then run "resize2fs" [devicePath]
      else if fsType =s "xfs" then run "xfs_growfs" ["-d"; volumePath]
      else Ret ("", Some (Errorf "filesystem type %q on %q does not support expansion"
                            [AStr fsType; AStr devicePath]))
  end.

Definition extendLVS (T : timeouts) (name : string) (size : Z) (isBlock : bool) (volumePath : string) :
    prog (string * option error) :=
  let* r := getLogicalVolumeByName T name in
  match r with
  | Err e => Ret ("", Some (Wrapf "unable to get logical volume %q: %w" [AStr name] e))
  | Ok volume =>
      let executor := newCommandExecutor T in
      let* (lvOutput, err) := ensureLogicalVolumeSize executor volume size in
      match err with
      | Some e => Ret (lvOutput, Some e)
      | None =>
          if isBlock then Ret (lvOutput, None)
          else
            let* (fsOutput, err) := resizeFilesystem executor volume volumePath in
            Ret (combineCommandOutput [lvOutput; fsOutput], err)
      end
  end.
#[global] Arguments getFilesystemTypeFromWipefs : simpl never.
#[global] Arguments getFilesystemType : simpl never.
#[global] Arguments ensureFilesystem : simpl never.
#[global] Arguments validateExistingMount : simpl never.
#[global] Arguments performFilesystemMount : simpl never.
#[global] Arguments normalizeMountOptions : simpl never.
#[global] Arguments mountFilesystem : simpl never.
#[global] Arguments performBindMount : simpl never.
#[global] Arguments lazyUnmount : simpl never.
#[global] Arguments forceUnmount : simpl never.
#[global] Arguments unmountTarget : simpl never.
#[global] Arguments prepareBindMountTarget : simpl never.
#[global] Arguments remountBindReadOnly : simpl never.
#[global] Arguments bindMountLV : simpl never.
#[global] Arguments mountLV : simpl never.
#[global] Arguments ensureLogicalVolumeSize : simpl never.
#[global] Arguments resizeFilesystem : simpl never.
#[global] Arguments extendLVS : simpl never.
#[global] Arguments parse_wipefs : simpl never.
#[global] Arguments isUnmountComplete : simpl never.
