(* ===== verification/MountSpec.v ===== *)
(** * What the node's filesystem operations promise

    The commands of an operation are observed as a log, newest first; a command may
    answer anything.  A policy over the log says when a command may run, so a [wp]
    states a guarantee that holds whatever the tools report. *)
From S2P Require Import Prelude GoStrings Errors Objects Effects Config Validation Json Lvm LvmHost Mount.

Record entry := { en_command : string; en_args : list string; en_answer : string * option ext_error }.
Abbreviation log := (list entry).

Definition log_env (policy : log -> Z -> string -> list string -> Prop) : env log := {|
  allowed := fun l e =>
    match e with
    | Exec t c a => policy l t c a
    | MkdirAll _ | Chmod _ | CreateExclusive _ | CloseFile _ | Lstat _ => True
    | _ => False
    end;
  step := fun l e =>
    match e as e return resp e -> log -> Prop with
    | Exec _ c a => fun x l' => l' = {| en_command := c; en_args := a; en_answer := x |} :: l
    | _ => fun _ l' => l' = l
    end |}.

Section log.
Variable policy : log -> Z -> string -> list string -> Prop.

Lemma wp_exec {R} t c a (k : string * option ext_error -> prog R) Q l :
  policy l t c a ->
  (forall x, wp (log_env policy) (k x) Q ({| en_command := c; en_args := a; en_answer := x |} :: l)) ->
  wp (log_env policy) (Vis (Exec t c a) k) Q l.
Proof. intros Hp Hk. split; [done|]. by intros x l' ->. Qed.
End log.

(** ** Formatting *)

Definition blkid_args (dev : string) : list string := ["-p"; "-s"; "TYPE"; "-o"; "value"; dev].
Definition wipefs_args (dev : string) : list string := ["--no-act"; "--json"; "--output"; "TYPE"; dev].

(** The last two commands found the device blank: blkid exited with 2, then wipefs
    succeeded with an empty array of signatures. *)
Definition probed_blank (dev : string) (l : log) : Prop :=
  exists out out' e rest,
    l = {| en_command := "wipefs"; en_args := wipefs_args dev; en_answer := (out', None) |}
        :: {| en_command := "blkid"; en_args := blkid_args dev; en_answer := (out, Some e) |} :: rest /\
    ext_exit_code e = Some blkidExitNotFound /\ parse_wipefs out' = Some (Some []).

(** mkfs runs only on a device just found blank. *)
Definition format_policy (dev : string) (l : log) (_ : Z) (c : string) (a : list string) : Prop :=
  c = "blkid" \/ c = "wipefs" \/ c = "mount" \/ c = "findmnt" \/
  ((exists ty, c = "mkfs." +:+ ty) /\ a = [dev] /\ probed_blank dev l).

Section format.
Variable executor : executor.
Variable dev : string.
Let E := log_env (format_policy dev).

Lemma wp_wipefs l :
  wp E (getFilesystemTypeFromWipefs executor dev) (fun r l' => exists x,
    l' = {| en_command := "wipefs"; en_args := wipefs_args dev; en_answer := x |} :: l /\
    (r = Ok "" -> snd x = None /\ parse_wipefs (fst x) = Some (Some []))) l.
Proof.
  apply wp_exec; [unfold format_policy; auto|]. intros [out [e|]]; cbn [bind]; [by eexists|].
  destruct (parse_wipefs out) as [[[|ty [|]]|]|] eqn:Hp; try (by eexists).
  destruct (String.eqb_spec (trim_space ty) ""); [by eexists|]. eexists. split; [done|]. by intros [=].
Qed.

Lemma wp_fstype l :
  wp E (getFilesystemType executor dev) (fun r l' => r = Ok "" -> probed_blank dev l') l.
Proof.
  apply wp_exec; [unfold format_policy; auto|]. intros [out [e|]]; cbn [bind].
  - unfold commandExitCode. destruct (ext_exit_code e) as [n|] eqn:Hn; [|done].
    destruct (Z.eqb_spec n blkidExitNotFound) as [->|]; [|repeat case_match; done].
    eapply wp_mono; [|apply wp_wipefs]. intros r l' ([out' err'] & -> & Hx) Hr.
    destruct (Hx Hr) as [Herr Hp]. cbn in Herr, Hp. subst err'. exists out, out', e, l. auto.
  - destruct (String.eqb_spec (trim_space out) ""); [done|]. by intros [=].
Qed.

Lemma wp_ensureFilesystem fsType l :
  wp E (ensureFilesystem executor dev fsType) (fun _ _ => True) l.
Proof.
  eapply wp_bind_mono; [apply wp_fstype|]. intros [ty|e] l' Hb; [|done].
  destruct (String.eqb_spec ty "") as [->|]; cbn [negb andb].
  - apply wp_exec; [|by intros [out [e|]]]. unfold format_policy. right; right; right; right. eauto.
  - by destruct (negb _).
Qed.
End format.

(** The last mount is the requested one: it succeeded, or the target was mounted already
    and, for a read-only request, with the option [ro]. *)
Definition mounted (args : list string) (mountPath : string) (readOnly : bool) (l : log) : Prop :=
  (exists out rest,
     l = {| en_command := "mount"; en_args := args; en_answer := (out, None) |} :: rest) \/
  (exists out out' e rest,
     l = {| en_command := "findmnt";
            en_args := ["--noheadings"; "--output"; "OPTIONS"; "--mountpoint"; mountPath];
            en_answer := (out', None) |}
         :: {| en_command := "mount"; en_args := args; en_answer := (out, Some e) |} :: rest /\
     contains (command_message out e) "already mounted" = true /\
     (readOnly = true -> "ro" ∈ split "," (trim_space out'))).

Lemma wp_mountFilesystem executor dev mountPath fsType options readOnly l :
  wp (log_env (format_policy dev)) (mountFilesystem executor dev mountPath fsType options readOnly)
    (fun r l' => snd r = None ->
       mounted (buildFilesystemMountArgs dev mountPath fsType options readOnly) mountPath readOnly l') l.
Proof.
  unfold mountFilesystem. cbn [call bind]. split; [done|]. intros [e|] l1 ->; [done|].
  set (args := buildFilesystemMountArgs _ _ _ _ _).
  eapply wp_bind_mono with (P := fun r l' => snd r = None -> mounted args mountPath readOnly l').
  - apply wp_exec; [unfold format_policy; auto|]. intros [out [e|]]; cbn [bind].
    2:{ intros _. left. eauto. }
    destruct (contains _ _) eqn:Hc; cbn [negb]; [|done]. apply wp_bind.
    apply wp_exec; [unfold format_policy; auto|]. intros [out' [e'|]]; cbn [bind]; [done|].
    destruct readOnly; cbn [negb].
    + destruct (existsb _ _) eqn:Hro; [|done]. intros _. right. exists out, out', e, l.
      split_and!; [done..|]. intros _. apply existsb_exists in Hro as (o & Hin & ->%eqb_true).
      by apply list_elem_of_In.
    + intros _. right. exists out, out', e, l. by split_and!.
  - intros [out [e|]] l' Hm; [done|]. destruct readOnly; [done|]. cbn [call bind]. split; [done|].
    by intros [e|] l'' ->.
Qed.

Lemma wp_mountLV T lvname mountPath vgName fsType options readOnly l :
  let dev := "/dev/" +:+ vgName +:+ "/" +:+ lvname in
  wp (log_env (format_policy dev)) (mountLV T lvname mountPath vgName fsType options readOnly)
    (fun r l' => snd r = None ->
       mounted (buildFilesystemMountArgs dev mountPath (defaultFilesystemType fsType) options readOnly)
         mountPath readOnly l') l.
Proof.
  intros dev. eapply wp_bind_mono; [apply wp_ensureFilesystem|].
  intros [out [e|]] l' _; [done|]. apply wp_mountFilesystem.
Qed.

(** C8: [mountLV] runs [mkfs] only on the volume's own device and only when, immediately
    before, blkid found nothing on it (exit status 2) and wipefs reported an empty array
    of signatures; and it answers without an error only when the requested mount
    succeeded or the target was mounted already, read-only if that was asked for. *)
Theorem mountLV_safe T lvname mountPath vgName fsType options readOnly l :
  let dev := "/dev/" +:+ vgName +:+ "/" +:+ lvname in
  wp (log_env (format_policy dev)) (mountLV T lvname mountPath vgName fsType options readOnly)
    (fun r l' => snd r = None ->
       mounted (buildFilesystemMountArgs dev mountPath (defaultFilesystemType fsType) options readOnly)
         mountPath readOnly l') l.
Proof. apply wp_mountLV. Qed.

(** ** Mount options *)

Lemma split_not_nil c s : split c s <> [].
Proof. destruct s as [|a s]; cbn; [done|]. destruct (Ascii.eqb a c); [done|]. by destruct (split c s). Qed.

Lemma elem_keep values ro options has o :
  keep_options values ro = (options, has) ->
  (o ∈ options <-> exists v, v ∈ values /\ trim_space v = o /\ o <> "" /\ ~ (ro = true /\ o = "rw")) /\
  (has = true <-> "ro" ∈ options).
Proof.
  revert options has. induction values as [|v values IH]; intros options has; cbn [keep_options].
  { intros [= <- <-]. split; [set_solver|]. split; [done|]. by intros ?%elem_of_nil. }
  destruct (keep_options values ro) as [os h] eqn:Hk. specialize (IH os h eq_refl) as [IH Hh].
  destruct (String.eqb_spec (trim_space v) "") as [He|He]; cbn [orb].
  { intros [= <- <-]. rewrite IH. split; [|done]. setoid_rewrite elem_of_cons.
    split; [naive_solver|]. intros (w & [->|Hw] & Ht & Hne & Hrw); [congruence|eauto]. }
  destruct (ro && (trim_space v =s "rw")) eqn:Hrw.
  - intros [= <- <-]. rewrite IH. split; [|done]. setoid_rewrite elem_of_cons. go_bool.
    split; [naive_solver|]. intros (w & [->|Hw] & Ht & Hne & Hn); [|eauto]. destruct Hn. split; congruence.
  - intros [= <- <-]. split.
    + setoid_rewrite elem_of_cons. rewrite IH. split.
      * intros [->|(w & Hw & Hrest)]; [|eauto]. exists v. split_and!; auto.
        intros [-> Ho]. by rewrite Ho in Hrw.
      * intros (w & [->|Hw] & <- & Hrest); [auto|]. right. eauto.
    + rewrite orb_true_iff, elem_of_cons, eqb_true, Hh. split; intros [H|H]; auto.
Qed.

(** C32: the options of a mount are the trimmed, non-empty pieces of the requested flags
    split at commas; for a read-only mount [rw] is dropped and [ro] is always among
    them; nothing else is added. *)
Theorem normalizeMountOptions_spec values readOnly o :
  o ∈ normalizeMountOptions values readOnly <->
  (readOnly = true /\ o = "ro") \/
  (o <> "" /\ ~ (readOnly = true /\ o = "rw") /\
   exists piece, piece ∈ split "," (join "," values) /\ trim_space piece = o).
Proof.
  unfold normalizeMountOptions.
  destruct (keep_options (split "," (join "," values)) readOnly) as [options has] eqn:Hk.
  destruct (elem_keep _ _ _ _ o Hk) as [Ho _]. destruct (elem_keep _ _ _ _ "ro" Hk) as [Hro Hhas].
  destruct readOnly; cbn [negb orb]; [destruct has|].
  - rewrite Ho. split; [naive_solver|]. intros [[_ ->]|H]; [|naive_solver].
    apply Ho. by apply Hhas.
  - rewrite elem_of_app, list_elem_of_singleton, Ho. naive_solver.
  - rewrite Ho. naive_solver.
Qed.

(** ** Unmounting *)

Definition umounted (args : list string) (x : string * option ext_error) : entry :=
  {| en_command := "umount"; en_args := args; en_answer := x |}.

(** The escalation: plain; forced after a failure; lazy after the forced one timed out. *)
Definition unmount_policy (target : string) (l0 l : log) (t : Z) (c : string) (a : list string) : Prop :=
  t = unmountTimeout /\ c = "umount" /\
  ((a = [target] /\ l = l0) \/
   (a = ["--force"; target] /\ exists x, l = umounted [target] x :: l0 /\
      isUnmountComplete (fst x) (snd x) = false) \/
   (a = ["--force"; "--lazy"; target] /\ exists x y,
      l = umounted ["--force"; target] y :: umounted [target] x :: l0 /\
      isUnmountComplete (fst y) (snd y) = false /\ timed_out (snd y) = true)).

Lemma incomplete_failed format target out err :
  isUnmountComplete out err = false -> command_failed format target out err <> None.
Proof. by destruct err. Qed.

Lemma wp_unmountTarget target l0 :
  wp (log_env (unmount_policy target l0)) (unmountTarget target)
    (fun r l => exists a x rest, l = umounted a x :: rest /\ last a = Some target /\
       (r = None <-> isUnmountComplete (fst x) (snd x) = true)) l0.
Proof.
  unfold unmountTarget. apply wp_exec; [by split_and!; auto|].
  intros [out err]; cbn [bind]. destruct (isUnmountComplete out err) eqn:Hc.
  { by eexists _, _, _. }
  unfold forceUnmount. apply wp_exec.
  { split_and!; [done..|]. right; left. split; [done|]. by eexists. }
  intros [out2 err2]; cbn [bind]. destruct (isUnmountComplete out2 err2) eqn:Hc2.
  { by eexists _, _, _. }
  destruct (timed_out err2) eqn:Ht; cbn [negb].
  2:{ eexists _, _, _. split_and!; [done..|]. cbn [fst snd]. rewrite Hc2. split; [|done].
      intros H. by apply incomplete_failed in H. }
  unfold lazyUnmount. apply wp_exec.
  { split_and!; [done..|]. right; right. split; [done|]. by eexists _, _. }
  intros [out3 err3]; cbn [bind]. destruct (isUnmountComplete out3 err3) eqn:Hc3.
  { by eexists _, _, _. }
  eexists _, _, _. split_and!; [done..|]. cbn [fst snd]. rewrite Hc3. split; [|done].
  intros H. by apply incomplete_failed in H.
Qed.

(** C31: unmounting a target runs at most a plain, a forced and a forced lazy [umount], each
    with the 30 second timeout; the forced one only after the plain one left the target
    mounted, the lazy one only after the forced one timed out; and it succeeds exactly
    when the last of them did or reported that nothing is mounted. *)
Theorem unmountTarget_escalates target :
  wp (log_env (unmount_policy target [])) (unmountTarget target)
    (fun r l => exists a x rest, l = umounted a x :: rest /\ last a = Some target /\
       (r = None <-> isUnmountComplete (fst x) (snd x) = true)) [].
Proof. apply wp_unmountTarget. Qed.

(** ** Read-only bind mounts *)

Definition remount_args (target : string) : list string := ["-o"; "remount,bind,ro"; target].

Definition bind_policy (l : log) (_ : Z) (c : string) (_ : list string) : Prop :=
  c = "mount" \/ c = "umount".

Lemma wp_unmount_any target l0 :
  wp (log_env bind_policy) (unmountTarget target)
    (fun _ l => exists x rest, l = (rest ++ umounted [target] x :: l0)%list) l0.
Proof.
  unfold unmountTarget. apply wp_exec; [by right|]. intros x1; cbn [bind].
  destruct x1 as [out err]. destruct (isUnmountComplete out err); [by exists (out, err), []|].
  unfold forceUnmount. apply wp_exec; [by right|]. intros [out2 err2]; cbn [bind].
  destruct (isUnmountComplete out2 err2); [by exists (out, err), [umounted ["--force"; target] (out2, err2)]|].
  destruct (negb _); [by exists (out, err), [umounted ["--force"; target] (out2, err2)]|].
  unfold lazyUnmount. apply wp_exec; [by right|]. intros [out3 err3]; cbn [bind].
  destruct (isUnmountComplete out3 err3);
    by exists (out, err), [umounted ["--force"; "--lazy"; target] (out3, err3);
                           umounted ["--force"; target] (out2, err2)].
Qed.

(** A failed remount of [target] is followed by an unmount of it. *)
Definition no_writable_left (target : string) (l : log) : Prop :=
  forall out e, {| en_command := "mount"; en_args := remount_args target; en_answer := (out, Some e) |} ∈ l ->
    exists x, umounted [target] x ∈ l.

(** The last command remounted [target] read-only. *)
Definition remounted (target : string) (l : log) : Prop :=
  exists out rest,
    l = {| en_command := "mount"; en_args := remount_args target; en_answer := (out, None) |} :: rest.

(** The last command bound [dev] to [target], or found it mounted already. *)
Definition bind_args (dev target : string) : list string := ["--make-shared"; "--bind"; dev; target].
Definition bound (dev target : string) (l : log) : Prop :=
  exists out err rest,
    l = {| en_command := "mount"; en_args := bind_args dev target; en_answer := (out, err) |} :: rest /\
    (forall e, err = Some e -> contains (command_message out e) "already mounted" = true).

Lemma wp_prepareBindMountTarget lvname mountPath l0 :
  wp (log_env bind_policy) (prepareBindMountTarget lvname mountPath) (fun _ l => l = l0) l0.
Proof.
  unfold prepareBindMountTarget. cbn [call bind]. split; [done|]. intros [e|] l ->; cbn [bind].
  - destruct (ext_os_exist e); [|done]. unfold validateExistingBindMountTarget. cbn [call bind].
    split; [done|]. intros [info|e'] l ->; cbn [bind]; [by destruct (_ || _)|done].
  - split; [done|]. intros [e|] l ->; cbn [bind]; [done|]. split; [done|].
    by intros [e|] l ->.
Qed.

Lemma no_writable_bind dev target x :
  no_writable_left target [{| en_command := "mount"; en_args := bind_args dev target; en_answer := x |}].
Proof. intros out e Hin. apply list_elem_of_singleton in Hin. discriminate Hin. Qed.

Lemma wp_remount executor dev target x :
  wp (log_env bind_policy) (remountBindReadOnly executor target)
    (fun r l => (snd r = None -> remounted target l) /\ no_writable_left target l)
    [{| en_command := "mount"; en_args := bind_args dev target; en_answer := x |}].
Proof.
  unfold remountBindReadOnly. apply wp_exec; [by left|]. intros [out [e|]]; cbn [bind].
  - eapply wp_bind_mono; [apply wp_unmount_any|].
    intros r l (y & rest & ->). cbn. split; [done|]. intros out'' e'' _. exists y. set_solver.
  - cbn. split; [intros _; by eexists _, _|]. intros out'' e'' [Hin|Hin]%elem_of_cons; [done|].
    by apply (no_writable_bind dev target x) in Hin as [y Hy]; exists y; right.
Qed.

Lemma wp_bindMountLV T lvname mountPath vgName readOnly :
  let dev := "/dev/" +:+ vgName +:+ "/" +:+ lvname in
  wp (log_env bind_policy) (bindMountLV T lvname mountPath vgName readOnly)
    (fun r l => (snd r = None -> if readOnly then remounted mountPath l else bound dev mountPath l) /\
                no_writable_left mountPath l) [].
Proof.
  intros dev. eapply wp_try; [apply wp_prepareBindMountTarget| |].
  2:{ intros e l ->. split; [done|]. by intros out x ?%elem_of_nil. }
  intros l ->. fold dev. apply wp_bind_in.
  eapply wp_mono with (Q := fun r l => no_writable_left mountPath l /\
    (snd r = None -> bound dev mountPath l /\ exists x,
       l = [{| en_command := "mount"; en_args := bind_args dev mountPath; en_answer := x |}])).
  - intros [out [e|]] l [Hn Hb]; [by split|]. destruct (Hb eq_refl) as [Hbound [x ->]].
    destruct readOnly; [|by split].
    eapply wp_bind_mono; [apply wp_remount|]. by intros [out' [e|]] l [Hr Hn'].
  - unfold performBindMount. apply wp_exec; [by left|]. intros [out [e|]]; cbn [bind].
    + destruct (contains _ _) eqn:Hc; (split; [apply no_writable_bind|]); [|done].
      intros _. split; [|by eexists]. eexists _, _, _. split; [done|]. by intros e' [= <-].
    + split; [apply no_writable_bind|]. intros _. split; [|by eexists]. by eexists _, _, _.
Qed.

(** A read-only block publish answers without an error only if the last command was
    the remount of the target with option [ro] and it succeeded; and when that remount
    fails, the target, then mounted writable, is unmounted again. *)
Theorem bindMountLV_read_only T lvname mountPath vgName :
  wp (log_env bind_policy) (bindMountLV T lvname mountPath vgName true)
    (fun r l => (snd r = None -> remounted mountPath l) /\ no_writable_left mountPath l) [].
Proof. apply (wp_bindMountLV T lvname mountPath vgName true). Qed.

(** ** Expansion *)

(** The one volume of this name has at least [size] bytes. *)
Definition big_enough (l : list logicalVolume) (name : string) (size : Z) : Prop :=
  exists v n, v ∈ l /\ lv_Name v = name /\ parse_uint (lv_Size v) = Ok n /\ (size <= n)%Z.

Section extend.
Context `{LvmHost H} (T : timeouts).

(** What an expansion may run: queries; one [lvextend] of the only volume of that name if
    it is smaller; then, for a filesystem, the probing and resizing commands. *)
Definition extend_policy (name : string) (size : Z) (isBlock : bool) (h : H) (c : string)
    (a : list string) : Prop :=
  is_query c \/
  (c = "lvextend" /\ exists v n, v ∈ volumes h /\ lv_Name v = name /\
     (forall w, w ∈ volumes h -> lv_Name w = name -> w = v) /\
     parse_uint (lv_Size v) = Ok n /\ (n < size)%Z /\
     a = buildLVExtendArgs (lv_VGName v) name size) \/
  (isBlock = false /\ keeping c /\ big_enough (volumes h) name size).

Lemma find_by_name_ok name l found v : find_by_name name l found = Ok v ->
  match found with
  | Some m => v = m /\ forall w, w ∈ l -> lv_Name w <> name
  | None => v ∈ l /\ lv_Name v = name /\ forall w, w ∈ l -> lv_Name w = name -> w = v
  end.
Proof.
  revert found. induction l as [|x l IH]; intros found; cbn [find_by_name].
  - destruct found; [|done]. intros [= <-]. split; [done|]. by intros w ?%elem_of_nil.
  - intros Hf. assert (forall w, w ∈ x :: l -> w = x \/ w ∈ l) as Hcons by by intros w ?%elem_of_cons.
    destruct (String.eqb_spec (lv_Name x) name) as [Hx|Hx]; cbn [negb] in Hf.
    + destruct found as [m|]; [done|]. apply IH in Hf as [-> Hn]. split_and!; [by left|done|].
      intros w [->|Hw]%Hcons Hname; [done|]. by apply Hn in Hw.
    + apply IH in Hf. destruct found as [m|].
      * destruct Hf as [-> Hn]. split; [done|]. intros w [->|Hw]%Hcons; auto.
      * destruct Hf as (Hin & Hname & Hu). split_and!; [by right|done|].
        intros w [->|Hw]%Hcons Hw'; [done|auto].
Qed.

Lemma quiet_fstype executor dev : all_effects quiet (getFilesystemType executor dev).
Proof.
  unfold getFilesystemType, getFilesystemTypeFromWipefs. split; [cbn; set_solver|].
  intros [out [e|]]; cbn [bind]; [|by destruct (_ =s _)].
  destruct (commandExitCode e) as [n|]; [|done]. destruct (n =? blkidExitNotFound)%Z; [|repeat case_match; done].
  split; [cbn; set_solver|]. intros [out' [e'|]]; cbn [bind]; [done|]. by repeat case_match.
Qed.

Lemma quiet_resize executor volume path : all_effects quiet (resizeFilesystem executor volume path).
Proof.
  unfold resizeFilesystem. apply all_effects_bind; [apply quiet_fstype|]. intros [ty|e]; [|done].
  destruct (_ || _); [|destruct (ty =s "xfs"); [|done]];
    (split; [cbn; set_solver|]; by intros [out [e|]]).
Qed.

Lemma wp_ensureSize volume size isBlock h :
  is_uint64 size -> volume ∈ volumes h ->
  (forall w, w ∈ volumes h -> lv_Name w = lv_Name volume -> w = volume) ->
  wp (lvm_env (extend_policy (lv_Name volume) size isBlock))
    (ensureLogicalVolumeSize (newCommandExecutor T) volume size)
    (fun r h' => snd r = None -> big_enough (volumes h') (lv_Name volume) size) h.
Proof.
  intros Hs Hin Hu. unfold ensureLogicalVolumeSize, parseLogicalVolumeSize.
  destruct (parse_uint (lv_Size volume)) as [n|e] eqn:Hn; [|done]. cbn [map_err].
  destruct (Z.leb_spec size n); [intros _; by exists volume, n|]. cbn [Execute call bind]. split.
  - right; left. split; [done|]. by exists volume, n.
  - intros [out [e|]] h' Hx; cbn [bind wp]; [done|]. intros _.
    destruct (lvextend_grows _ _ _ _ _ _ _ Hx Hs) as (v & w & m & rest & _ & Hp & (_ & Hw & _) & _ & Hv & Hm & Hle).
    exists w, m. split_and!; [rewrite Hp; by left|congruence|done|done].
Qed.

Lemma wp_extendLVS name size isBlock path h :
  is_uint64 size ->
  wp (lvm_env (extend_policy name size isBlock)) (extendLVS T name size isBlock path)
    (fun r h' => snd r = None -> big_enough (volumes h') name size) h.
Proof.
  intros Hs. unfold extendLVS. eapply wp_bind_mono with
    (P := fun r h' => volumes h' = volumes h /\
            forall v, r = Ok v -> v ∈ volumes h /\ lv_Name v = name /\
              forall w, w ∈ volumes h -> lv_Name w = name -> w = v).
  { eapply wp_try_ok; [apply wp_list; intros ????; by left|..].
    - intros l h' [Hv ->]. split; [done|]. intros v Hf. by apply find_by_name_ok in Hf.
    - intros e h' [Hv _]. done. }
  intros [v|e] h1 [Hv Hfound]; [|done]. destruct (Hfound v eq_refl) as (Hin & <- & Hu).
  rewrite <- Hv in Hin, Hu. eapply wp_bind_mono; [by apply wp_ensureSize|].
  intros [out [e|]] h2 Hb; [done|]. specialize (Hb eq_refl). destruct isBlock; [by intros _|].
  eapply wp_bind_mono; [apply wp_quiet; [apply quiet_resize|]|].
  - intros h' c a Hk Hv'. right; right. by rewrite Hv'.
  - intros [out' err] h3 Hv3 _. by rewrite Hv3.
Qed.
End extend.

(** C18: an expansion that succeeds leaves exactly the volume it was asked for with at
    least the requested size; [lvextend] runs at most on the only volume of that name in
    any volume group, with the requested size and only when the volume is smaller (it
    never shrinks one), and the filesystem is resized, never for a block volume, only
    when the volume is large enough. *)
Theorem extendLVS_grows `{LvmHost H} T name size isBlock path (h : H) :
  is_uint64 size ->
  wp (lvm_env (extend_policy name size isBlock)) (extendLVS T name size isBlock path)
    (fun r h' => snd r = None -> big_enough (volumes h') name size) h.
Proof. apply wp_extendLVS. Qed.

Lemma extendLVS_grows_witness :
  is_uint64 2097152 /\
  wp (lvm_env (extend_policy "vol" 2097152 false)) (extendLVS initial_timeouts "vol" 2097152 false "/mnt")
    (fun r h' => snd r = None -> big_enough (volumes h') "vol" 2097152) [zero_volume].
Proof.
  assert (is_uint64 2097152) as Hs by (split; vm_compute; discriminate).
  split; [exact Hs|].
  exact (extendLVS_grows (H := list logicalVolume) initial_timeouts "vol" 2097152 false "/mnt" [zero_volume] Hs).
Defined.
