(* ===== verification/Node.v ===== *)
(** * The node service: nodeserver.go

    The handlers of the CSI node service over Mount.v, and the guarantees of
    publishing, unpublishing and the usage numbers. *)
From S2P Require Import Prelude GoStrings Errors Objects Effects Config Validation Json Lvm LvmHost Mount MountSpec.

Record nodeServer := { ns_nodeID : string; ns_maxVolumesPerNode : Z; ns_devicesPattern : string }.

Definition newNodeServer (T : timeouts) (nodeID : string) (maxVolumesPerNode : Z) :
    prog (result error nodeServer) :=
  try (VgActivate T) (fun e => Err (Wrapf "unable to initialize LVM volume groups: %w" [] e))
    (Ret (Ok {| ns_nodeID := nodeID; ns_maxVolumesPerNode := maxVolumesPerNode; ns_devicesPattern := "" |})).

Section node.
Variable T : timeouts.

Definition publishBlockVolume (req : node_publish_request) (vgName : string) : prog (option error) :=
  let* (output, err) := bindMountLV T (np_volume req) (np_target req) vgName (np_read_only req) in
  match err with
  | Some e => Ret (Some (Wrapf "unable to bind mount lv: %w output:%s" [AStr output] e))
  | None => Ret None
  end.

(** The type and flags of a mount capability, empty for a nil one. *)
Definition mount_of (req : node_publish_request) : string * list string :=
  match np_capability req with
  | Some {| vc_access := AccessMount fsType flags |} => (fsType, flags)
  | _ => ("", [])
  end.

Definition publishFilesystemVolume (req : node_publish_request) (vgName : string) : prog (option error) :=
  let (fsType, flags) := mount_of req in
  let* (output, err) := mountLV T (np_volume req) (np_target req) vgName fsType flags (np_read_only req) in
  match err with
  | Some e => Ret (Some (Wrapf "unable to mount lv: %w output:%s" [AStr output] e))
  | None => Ret None
  end.

Definition NodePublishVolume (req : node_publish_request) : prog (result error unit) :=
  let? vgName := map_err (status_error InvalidArgument) (validateNodePublishRequest req) in
  let block := match np_capability req with Some c => has_block c | None => false end in
  let* err := if block then publishBlockVolume req vgName else publishFilesystemVolume req vgName in
  match err with Some e => Ret (Err e) | None => Ret (Ok tt) end.

Definition NodeUnpublishVolume (req : node_unpublish_request) : prog (result error unit) :=
  let? (volID, targetPath) := map_err (status_error InvalidArgument) (validateNodeUnpublishRequest req) in
  try (unmountTarget targetPath)
    (fun e => Err (Status Internal "failed to unmount volume %q: %v" [AStr volID; AErr e]))
    (let* err := call (Remove targetPath) in
     match err with
     | Some e =>
         if negb (ext_os_not_exist e) then
           Ret (Err (Status Internal "failed to remove target path %q: %v" [AStr targetPath; AErr (Ext e)]))
         else Ret (Ok tt)
     | None => Ret (Ok tt)
     end).

Definition isBlockVolumePath (volumePath : string) : prog (result error bool) :=
  let* info := call (Stat volumePath) in
  match info with
  | Err e => Ret (Err (Wrapf "could not get file information about block volume: %w" [] (Ext e)))
  | Ok info => Ret (Ok (negb (fi_is_dir info)))
  end.

(** The answer is the capacity. *)
Definition NodeExpandVolume (req : node_expand_request) : prog (result error Z) :=
  let? (volID, volPath, capacity) := map_err (status_error InvalidArgument) (validateNodeExpandRequest req) in
  let* r := isBlockVolumePath volPath in
  match r with
  | Err e => Ret (Err (status_error InvalidArgument e))
  | Ok isBlock =>
      let* (output, err) := extendLVS T volID (to_uint64 capacity) isBlock volPath in
      match err with
      | Some e => Ret (Err (Status Internal "unable to expand volume %q: %v output: %s"
                              [AStr volID; AErr e; AStr output]))
      | None => Ret (Ok capacity)
      end
  end.
End node.

(** ** Staging: checks only *)

Record node_stage_request := {
  st_volume : string; st_staging : string; st_capability : option volume_capability }.

Definition NodeStageVolume (req : node_stage_request) : result error unit :=
  reject (st_volume req =s "") with Status InvalidArgument "Volume ID missing in request" [];
  reject (st_staging req =s "") with Status InvalidArgument "Target path missing in request" [];
  match st_capability req with
  | None => Err (Status InvalidArgument "Volume Capability missing in request" [])
  | Some _ => Ok tt
  end.

Definition NodeUnstageVolume (volumeId stagingTargetPath : string) : result error unit :=
  reject (volumeId =s "") with Status InvalidArgument "Volume ID missing in request" [];
  reject (stagingTargetPath =s "") with Status InvalidArgument "Target path missing in request" [];
  Ok tt.

(** ** Information *)

Record node_info := { ni_id : string; ni_max_volumes : Z; ni_topology : gmap string string }.

Definition NodeGetInfo (ns : nodeServer) : node_info := {|
  ni_id := ns_nodeID ns; ni_max_volumes := ns_maxVolumesPerNode ns;
  ni_topology := {[topologyKeyNode := ns_nodeID ns]} |}.

(** [NodeServiceCapability_RPC_Type] *)
Definition RPC_STAGE_UNSTAGE_VOLUME : Z := 1.
Definition RPC_GET_VOLUME_STATS : Z := 2.
Definition RPC_EXPAND_VOLUME : Z := 3.
Definition NodeGetCapabilities : list Z :=
  [RPC_STAGE_UNSTAGE_VOLUME; RPC_EXPAND_VOLUME; RPC_GET_VOLUME_STATS].

Inductive usage_unit := BYTES | INODES.
Record volume_usage := { vu_available : Z; vu_total : Z; vu_used : Z; vu_unit : usage_unit }.

(** The conversions to [int64] and the products keep the low 64 bits. *)
Definition usage_of (fs : statfs) : list volume_usage :=
  let diskFree := to_int64 (to_int64 (fs_bfree fs) * to_int64 (fs_bsize fs)) in
  let diskTotal := to_int64 (to_int64 (fs_blocks fs) * to_int64 (fs_bsize fs)) in
  let inodesFree := to_int64 (fs_ffree fs) in
  let inodesTotal := to_int64 (fs_files fs) in
  [{| vu_available := diskFree; vu_total := diskTotal; vu_used := to_int64 (diskTotal - diskFree);
      vu_unit := BYTES |};
   {| vu_available := inodesFree; vu_total := inodesTotal; vu_used := to_int64 (inodesTotal - inodesFree);
      vu_unit := INODES |}].

Definition NodeGetVolumeStats (volumePath : string) : prog (result error (list volume_usage)) :=
  let* r := call (Statfs volumePath) in
  match r with Err e => Ret (Err (Ext e)) | Ok fs => Ret (Ok (usage_of fs)) end.

(** ** Guarantees *)

(** What statfs(2) reports of a filesystem whose size fits an [int64]. *)
Record plausible (fs : statfs) : Prop := {
  pl_free : (0 <= fs_bfree fs <= fs_blocks fs)%Z;
  pl_size : (0 < fs_bsize fs < two63)%Z;
  pl_total : (fs_blocks fs * fs_bsize fs < two63)%Z;
  pl_inodes : (0 <= fs_ffree fs <= fs_files fs)%Z;
  pl_files : (fs_files fs < two63)%Z }.

(** C37: for a filesystem whose size in bytes fits an [int64], the usage numbers are exact:
    no conversion or product wraps, the total is blocks times block size, and available
    and used add up to the total without either being negative. *)
Theorem NodeGetVolumeStats_exact fs : plausible fs ->
  usage_of fs =
    [{| vu_available := fs_bfree fs * fs_bsize fs; vu_total := fs_blocks fs * fs_bsize fs;
        vu_used := (fs_blocks fs - fs_bfree fs) * fs_bsize fs; vu_unit := BYTES |};
     {| vu_available := fs_ffree fs; vu_total := fs_files fs; vu_used := fs_files fs - fs_ffree fs;
        vu_unit := INODES |}]%Z /\
  Forall (fun u => 0 <= vu_available u /\ 0 <= vu_used u /\
                   vu_available u + vu_used u = vu_total u)%Z (usage_of fs).
Proof.
  intros [[Hf0 Hf] [Hs0 Hs] Ht [Hi0 Hi] Hfiles].
  assert (0 <= fs_bfree fs * fs_bsize fs <= fs_blocks fs * fs_bsize fs)%Z by nia.
  assert (fs_blocks fs <= fs_blocks fs * fs_bsize fs)%Z by nia.
  assert (forall z, (0 <= z < two63)%Z -> to_int64 z = z) as Hid
    by (intros z Hz; apply to_int64_id; unfold is_int64, min_int64, max_int64, two63 in *; lia).
  assert (usage_of fs =
    [{| vu_available := fs_bfree fs * fs_bsize fs; vu_total := fs_blocks fs * fs_bsize fs;
        vu_used := (fs_blocks fs - fs_bfree fs) * fs_bsize fs; vu_unit := BYTES |};
     {| vu_available := fs_ffree fs; vu_total := fs_files fs; vu_used := fs_files fs - fs_ffree fs;
        vu_unit := INODES |}]%Z) as Hu.
  { unfold usage_of. rewrite !(Hid (fs_bfree fs)), !(Hid (fs_bsize fs)), !(Hid (fs_blocks fs)),
      !(Hid (fs_ffree fs)), !(Hid (fs_files fs)) by lia.
    rewrite !(Hid (fs_bfree fs * fs_bsize fs)%Z), !(Hid (fs_blocks fs * fs_bsize fs)%Z) by lia.
    rewrite !Hid by lia. do 2 f_equal. f_equal. lia. }
  rewrite Hu. split; [done|]. repeat constructor; cbn; lia.
Qed.

Lemma NodeGetVolumeStats_exact_witness :
  plausible {| fs_bsize := 4096; fs_blocks := 1000; fs_bfree := 400; fs_files := 100; fs_ffree := 90 |} /\
  Forall (fun u => 0 <= vu_used u)%Z
    (usage_of {| fs_bsize := 4096; fs_blocks := 1000; fs_bfree := 400; fs_files := 100; fs_ffree := 90 |}).
Proof.
  assert (plausible {| fs_bsize := 4096; fs_blocks := 1000; fs_bfree := 400; fs_files := 100; fs_ffree := 90 |})
    as H by (constructor; cbn; unfold two63; lia).
  split; [exact H|]. eapply Forall_impl; [exact (proj2 (NodeGetVolumeStats_exact _ H))|].
  intros u Hu. exact (proj1 (proj2 Hu)).
Defined.

(** A publish request that is right. *)
Record good_publish (req : node_publish_request) (vgName : string) : Prop := {
  gp_capability : exists c block, np_capability req = Some c /\ good_capability block (Some c) /\
    has_block c = block /\ (is_reader_only c = true -> np_read_only req = true);
  gp_volume : np_volume req <> "";
  gp_target : is_abs (np_target req) = true;
  gp_vg : mget (np_context req) "vgName" = vgName /\ vg_name vgName }.

Lemma validateNodePublish_ok req vgName :
  validateNodePublishRequest req = Ok vgName -> good_publish req vgName.
Proof.
  unfold validateNodePublishRequest. destruct (np_capability req) as [c|] eqn:Hc; [|done].
  intros H. go_ok.
  match goal with H : validateNodePublishCapability _ _ = Ok _ |- _ =>
    unfold validateNodePublishCapability in H; go_ok end.
  repeat match goal with u : unit |- _ => destruct u end.
  match goal with H : validateVGName _ = Ok tt |- _ => apply validateVGName_ok in H end.
  match goal with H : validateVolumeCapabilities _ = Ok tt |- _ =>
    unfold validateVolumeCapabilities in H; apply check_capabilities_ok in H as [Hall _] end.
  apply Forall_singleton in Hall as [block Hgood].
  constructor; [|done..].
  exists c, block. destruct Hgood as (Hb & Hm & Hmode). split; [done|]. split; [done|]. split; [done|].
  intros Hro. destruct (np_read_only req); [done|].
  match goal with H : is_reader_only c && _ = false |- _ => by rewrite Hro in H end.
Qed.

(** The commands of a publish: for a block volume only mounts and unmounts. *)
Definition publish_policy (req : node_publish_request) (dev : string) :
    log -> Z -> string -> list string -> Prop :=
  match np_capability req with
  | Some c => if has_block c then bind_policy else format_policy dev
  | None => fun _ _ _ _ => False
  end.

(** What a publish of [dev] that answers without an error has left. *)
Definition published (req : node_publish_request) (dev : string) (l : log) : Prop :=
  exists c, np_capability req = Some c /\
    match vc_access c with
    | AccessNone => False
    | AccessBlock => if np_read_only req then remounted (np_target req) l else bound dev (np_target req) l
    | AccessMount fsType flags =>
        mounted (buildFilesystemMountArgs dev (np_target req) (defaultFilesystemType fsType) flags
                   (np_read_only req)) (np_target req) (np_read_only req) l
    end.

Lemma good_capability_access b c : good_capability b (Some c) ->
  (b = true /\ vc_access c = AccessBlock) \/
  (b = false /\ exists fsType flags, vc_access c = AccessMount fsType flags).
Proof.
  destruct c as [[| |fsType flags] mode]; intros (Hb & Hm & _); cbn in *; subst; [done|by left|].
  right. eauto.
Qed.


(** The log of an unpublish: the target is removed only when it is unmounted. *)
Definition removal (path : string) (err : option ext_error) : entry :=
  {| en_command := "(remove)"; en_args := [path]; en_answer := ("", err) |}.

Definition unmounted (target : string) (l : log) : Prop :=
  exists a x rest, l = umounted a x :: rest /\ last a = Some target /\
    isUnmountComplete (fst x) (snd x) = true.

Definition unpublish_env (target : string) : env log := {|
  allowed := fun l e =>
    match e with
    | Exec t c a => unmount_policy target [] l t c a
    | Remove p => p = target /\ unmounted target l
    | _ => False
    end;
  step := fun l e =>
    match e as e return resp e -> log -> Prop with
    | Exec _ c a => fun x l' => l' = {| en_command := c; en_args := a; en_answer := x |} :: l
    | Remove p => fun err l' => l' = removal p err :: l
    | _ => fun _ l' => l' = l
    end |}.

Definition is_exec (e : eff) : Prop := match e with Exec _ _ _ => True | _ => False end.

Lemma unmountTarget_runs target : all_effects is_exec (unmountTarget target).
Proof.
  unfold unmountTarget, forceUnmount, lazyUnmount. cbn. split; [done|]. intros [out err]. cbn.
  repeat (case_match; cbn; try done; try (split; [done|]; intros [? ?]; cbn)).
Qed.

(** C22: [NodeUnpublishVolume] answers without an error only when an [umount] of the target
    succeeded or found nothing mounted and the target was then removed or was absent;
    it removes nothing else, and nothing that may still be mounted; the unmount
    escalates as [unmountTarget] does. *)
Theorem NodeUnpublishVolume_sound req :
  wp (unpublish_env (nu_target req)) (NodeUnpublishVolume req)
    (fun r l => r = Ok tt ->
       exists err rest, l = removal (nu_target req) err :: rest /\ unmounted (nu_target req) rest /\
         (forall e, err = Some e -> ext_os_not_exist e = true)) [].
Proof.
  unfold NodeUnpublishVolume.
  destruct (validateNodeUnpublishRequest req) as [[id target]|e] eqn:Hv; cbn [map_err check_ok]; [|done].
  assert (target = nu_target req) as ->
    by (unfold validateNodeUnpublishRequest in Hv; by go_ok).
  eapply wp_try.
  - eapply wp_env_mono_effects; [apply unmountTarget_runs| | |apply wp_unmountTarget].
    + intros l e He. by destruct e.
    + intros l e x l' He. by destruct e.
  - intros l (a & x & rest & -> & Hlast & Hc). cbn [call bind]. split.
    { split; [done|]. exists a, x, rest. split_and!; [done..|]. by apply Hc. }
    intros err l' ->. assert (unmounted (nu_target req) (umounted a x :: rest)) as Hu
      by (exists a, x, rest; split_and!; [done..|]; by apply Hc).
    destruct err as [e|]; cbn [bind].
    + destruct (ext_os_not_exist e) eqn:He; cbn [negb]; [|done].
      intros _. exists (Some e). eexists. split_and!; [done..|]. by intros e' [= <-].
    + intros _. exists None. eexists. by split_and!.
  - done.
Qed.
