(* ===== verification/Paths.v ===== *)
(** * path/filepath on Unix

    [Clean], [Join] of two elements and [Base], which the driver applies to host
    paths and to the command of a container. *)
From S2P Require Import Prelude GoStrings.

(** One element of a path against the elements kept so far, innermost first. *)
Definition clean_element (rooted : bool) (kept : list string) (element : string) : list string :=
  if (element =s "") || (element =s ".") then kept
  else if element =s ".." then
    match kept with
    | top :: rest => if top =s ".." then element :: kept else rest
    | [] => if rooted then [] else [element]
    end
  else element :: kept.

(** [filepath.Clean] *)
Definition clean (path : string) : string :=
  let rooted := has_prefix path "/" in
  let kept := List.rev (foldl (clean_element rooted) [] (split "/" path)) in
  let body := join "/" kept in
  if rooted then "/" +:+ body else if body =s "" then "." else body.

(** [filepath.Join(a, b)] *)
Definition path_join (a b : string) : string :=
  if a =s "" then (if b =s "" then "" else clean b) else clean (a +:+ "/" +:+ b).

(** [filepath.Base]: the last element of the path without its trailing slashes. *)
Fixpoint last_element (elements : list string) (last : string) : string :=
  match elements with
  | [] => last
  | e :: rest => last_element rest (if e =s "" then last else e)
  end.

Definition base (path : string) : string :=
  if path =s "" then "."
  else let b := last_element (split "/" path) "" in if b =s "" then "/" else b.

Example clean_examples :
  (clean <$> [""; "/"; "a//b/"; "/../a"; "a/../.."; "../x/../y"; "/var//lib/./x/..";
              "//"; "./a"])%list
  = ["."; "/"; "a/b"; "/a"; ".."; "../y"; "/var/lib"; "/"; "a"].
Proof. reflexivity. Qed.
Example base_examples :
  (base <$> [""; "/"; "///"; "/usr/bin/csi"; "csi"; "a/b/"])%list
  = ["."; "/"; "/"; "csi"; "csi"; "b"].
Proof. reflexivity. Qed.
