(* ===== verification/HelperPod.v ===== *)
(** * Helper pods: helper_pod.go

    Every volume or snapshot operation runs in a privileged pod on the node that
    has the volume group.  The action records of lvm.go become a pod ([newHelperPod]);
    [ensureHelper] admits it under the process-wide mutex, or reuses, retires or
    force-deletes a pod of the same name; [waitForHelper] polls it to a terminal
    phase; [runHelper] composes them. *)
From S2P Require Import Prelude GoStrings Errors Objects Effects Config Paths.

(** ** Actions *)

Record srcInfo := { srcLVName : string; srcVGName : string; srcType : string }.

Record volumeAction := {
  va_action : string; va_name : string; va_nodeName : string; va_size : Z; va_lvmType : string;
  va_provisionerImage : string; va_pullPolicy : string; va_namespace : string;
  va_vgName : string; va_hostWritePath : string; va_srcInfo : option srcInfo;
  va_helperConfig : HelperConfig }.

Record snapshotAction := {
  sa_action : string; sa_srcVolName : string; sa_nodeName : string; sa_snapshotName : string;
  sa_snapSize : Z; sa_provisionerImage : string; sa_pullPolicy : string; sa_namespace : string;
  sa_vgName : string; sa_lvType : string; sa_hostWritePath : string;
  sa_helperConfig : HelperConfig }.

Record helperParams := {
  hp_name : string; hp_resource : string; hp_action : string; hp_nodeName : string;
  hp_vgName : string; hp_lvmType : string; hp_hostWritePath : string;
  hp_provisionerImage : string; hp_pullPolicy : string; hp_config : HelperConfig }.

Definition snapshotParams (sa : snapshotAction) : helperParams := {|
  hp_name := sa_snapshotName sa; hp_resource := "snapshot"; hp_action := sa_action sa;
  hp_nodeName := sa_nodeName sa; hp_vgName := sa_vgName sa; hp_lvmType := "";
  hp_hostWritePath := sa_hostWritePath sa; hp_provisionerImage := sa_provisionerImage sa;
  hp_pullPolicy := sa_pullPolicy sa; hp_config := sa_helperConfig sa |}.

Definition volumeParams (va : volumeAction) : helperParams := {|
  hp_name := va_name va; hp_resource := "volume"; hp_action := va_action va;
  hp_nodeName := va_nodeName va; hp_vgName := va_vgName va; hp_lvmType := va_lvmType va;
  hp_hostWritePath := va_hostWritePath va; hp_provisionerImage := va_provisionerImage va;
  hp_pullPolicy := va_pullPolicy va; hp_config := va_helperConfig va |}.

Definition snapshotHelperArgs (action : snapshotAction) : result error (list string) :=
  reject (sa_snapshotName action =s "") || (sa_nodeName action =s "")
    with Errorf "invalid empty name or path or node" [];
  reject (sa_action action =s actionTypeCreate) && (sa_srcVolName action =s "")
    with Errorf "createlv without srcVolName" [];
  if sa_action action =s actionTypeCreate then
    Ok ["createsnap"; "--snapname"; sa_snapshotName action; "--lvname"; sa_srcVolName action;
        "--vgname"; sa_vgName action; "--lvsize"; format_int (sa_snapSize action);
        "--lvmtype"; sa_lvType action]
  else if sa_action action =s actionTypeDelete then
    Ok ["deletesnap"; "--snapname"; sa_snapshotName action; "--vgname"; sa_vgName action]
  else Err (Errorf "invalid action %q" [AStr (sa_action action)]).

Definition volumeHelperArgs (action : volumeAction) : result error (list string) :=
  reject (va_name action =s "") || (va_nodeName action =s "")
    with Errorf "invalid empty name or path or node" [];
  reject (va_action action =s actionTypeCreate) && (va_lvmType action =s "")
    with Errorf "createlv without lvm type" [];
  if va_action action =s actionTypeCreate then
    Ok ["createlv"; "--lvsize"; format_int (va_size action); "--lvmtype"; va_lvmType action;
        "--vgname"; va_vgName action; "--lvname"; va_name action]
  else if va_action action =s actionTypeDelete then
    match va_srcInfo action with
    | None => Err (Errorf "deletelv without source volume information" [])
    | Some src =>
        Ok ["deletelv"; "--srcvgname"; srcVGName src; "--srctype"; srcType src;
            "--lvname"; va_name action]
    end
  else if va_action action =s actionTypeClone then
    match va_srcInfo action with
    | None => Err (Errorf "clonelv without source volume information" [])
    | Some src =>
        Ok ["clonelv"; "--srclvname"; srcLVName src; "--srcvgname"; srcVGName src;
            "--srctype"; srcType src; "--lvsize"; format_int (va_size action);
            "--vgname"; va_vgName action; "--lvmtype"; va_lvmType action;
            "--lvname"; va_name action]
    end
  else Err (Errorf "invalid action %q" [AStr (va_action action)]).

(** ** The pod *)

Definition helperPodLabel := "lvm.driver.harvesterhci.io/helper".
Definition helperResourceLabel := "lvm.driver.harvesterhci.io/resource".
Definition helperOperationLabel := "lvm.driver.harvesterhci.io/operation".
Definition helperVGAnnotation := "lvm.driver.harvesterhci.io/volume-group".

Definition helperOperation (params : helperParams) : string :=
  (if hp_resource params =s "snapshot" then "snap" else "lvm") +:+ "-" +:+ hp_action params.

Definition helperPodTimeout (params : helperParams) : Z :=
  if (hp_action params =s actionTypeCreate) && (hp_lvmType params =s DmThinType)
  then ThinPoolPodTimeout (hp_config params) else PodTimeout (hp_config params).

(** Go's [/] and [%] truncate towards zero. *)
Definition durationSeconds (duration : Z) : Z :=
  let seconds := Z.quot duration second in
  if negb (Z.rem duration second =? 0)%Z then (seconds + 1)%Z else seconds.

Definition Bidirectional := "Bidirectional".

Definition helperMounts : list volume_mount :=
  let mount (name path : string) (propagation : option string) (ro : bool) :=
    {| vm_name := name; vm_path := path; vm_propagation := propagation; vm_read_only := ro |} in
  [mount "devices" "/dev" (Some Bidirectional) false;
   mount "modules" "/lib/modules" None false;
   mount "lvmbackup" "/etc/lvm/backup" (Some Bidirectional) false;
   mount "lvmcache" "/etc/lvm/cache" (Some Bidirectional) false;
   mount "lvmlock" "/run/lock/lvm" (Some Bidirectional) false;
   mount "host-lvm-conf" "/etc/lvm/lvm.conf" None true;
   mount "host-run-udev" "/run/udev" None true].

Definition hostVolume (name path : string) (pathType : option string) : volume :=
  {| vol_name := name; vol_host_path := Some {| hp_path := path; hp_type := pathType |} |}.

Definition helperVolumes (hostWritePath : string) : list volume :=
  let directory := Some "Directory" in
  let createDirectory := Some "DirectoryOrCreate" in
  [hostVolume "devices" "/dev" createDirectory;
   hostVolume "modules" "/lib/modules" createDirectory;
   hostVolume "lvmbackup" (path_join hostWritePath "backup") createDirectory;
   hostVolume "lvmcache" (path_join hostWritePath "cache") createDirectory;
   hostVolume "lvmlock" (path_join hostWritePath "lock") createDirectory;
   hostVolume "host-lvm-conf" "/etc/lvm/lvm.conf" None;
   hostVolume "host-run-udev" "/run/udev" directory].

Definition newHelperContainer (params : helperParams) (operation : string) (args : list string) :
    container := {|
  c_name := "csi-lvmplugin-" +:+ operation;
  c_image := hp_provisionerImage params;
  c_command := ["csi-lvmplugin-provisioner"];
  c_args := (["--command-timeout=" +:+ duration_string (CommandTimeout (hp_config params));
              "--thin-pool-create-timeout=" +:+
                duration_string (ThinPoolCreateTimeout (hp_config params))] ++ args)%list;
  c_mounts := helperMounts;
  c_termination_path := "/termination.log";
  c_termination_policy := "FallbackToLogsOnError";
  c_pull_policy := hp_pullPolicy params;
  c_privileged := Some true |}.

Definition helperSpec (params : helperParams) (operation : string) (args : list string) :
    pod_spec := {|
  ps_automount_token := Some false;
  ps_restart_policy := "Never";
  ps_node_name := hp_nodeName params;
  ps_active_deadline := Some (durationSeconds (helperPodTimeout params));
  ps_grace_period := Some 10%Z;
  ps_tolerations := [{| tol_key := ""; tol_operator := "Exists"; tol_value := ""; tol_effect := "" |}];
  ps_containers := [newHelperContainer params operation args];
  ps_volumes := helperVolumes (hp_hostWritePath params) |}.

(** [helperMetadata] fills the object's metadata. *)
(** What of [metav1.ObjectMeta] a helper pod sets. *)
Record object_meta := {
  om_name : string; om_labels : gmap string string; om_annotations : gmap string string }.

Definition helperMetadata (params : helperParams) (operation : string) : object_meta := {|
  om_name := operation +:+ "-" +:+ hp_name params;
  om_labels := {[helperPodLabel := "true"; helperResourceLabel := hp_resource params;
                 helperOperationLabel := hp_action params]};
  om_annotations := {[helperVGAnnotation := hp_vgName params]} |}.

Definition newHelperPod (params : helperParams) (args : list string) : pod :=
  let operation := helperOperation params in
  let meta := helperMetadata params operation in {|
  pod_name := om_name meta;
  pod_labels := om_labels meta;
  pod_annotations := om_annotations meta;
  pod_deletion := None;
  pod_spec_of := helperSpec params operation args;
  pod_status_of := no_status |}.

(** ** Semantic.DeepDerivative

    deepValueDerive of k8s.io/apimachinery on the types of a pod's spec: an unset
    string, pointer or slice of the desired value is ignored, a slice may be longer
    in the existing value, anything else is compared. *)
Class Derivative (A : Type) := derives : A -> A -> bool.

#[export] Instance derive_string : Derivative string := fun s t => (s =s "") || (s =s t).
#[export] Instance derive_Z : Derivative Z := Z.eqb.
#[export] Instance derive_bool : Derivative bool := Bool.eqb.
#[export] Instance derive_option `{Derivative A} : Derivative (option A) := fun x y =>
  match x, y with None, _ => true | Some _, None => false | Some a, Some b => derives a b end.
#[export] Instance derive_list `{Derivative A} : Derivative (list A) :=
  fix derive_list (l k : list A) : bool :=
    match l, k with
    | [], _ => true
    | _ :: _, [] => false
    | a :: l, b :: k => derives a b && derive_list l k
    end.
#[export] Instance derive_mount : Derivative volume_mount := fun a b =>
  derives (vm_name a) (vm_name b) && derives (vm_path a) (vm_path b) &&
  derives (vm_propagation a) (vm_propagation b) && derives (vm_read_only a) (vm_read_only b).
#[export] Instance derive_host_path : Derivative host_path := fun a b =>
  derives (hp_path a) (hp_path b) && derives (hp_type a) (hp_type b).
#[export] Instance derive_volume : Derivative volume := fun a b =>
  derives (vol_name a) (vol_name b) && derives (vol_host_path a) (vol_host_path b).
#[export] Instance derive_toleration : Derivative toleration := fun a b =>
  derives (tol_key a) (tol_key b) && derives (tol_operator a) (tol_operator b) &&
  derives (tol_value a) (tol_value b) && derives (tol_effect a) (tol_effect b).
#[export] Instance derive_container : Derivative container := fun a b =>
  derives (c_name a) (c_name b) && derives (c_image a) (c_image b) &&
  derives (c_command a) (c_command b) && derives (c_args a) (c_args b) &&
  derives (c_mounts a) (c_mounts b) &&
  derives (c_termination_path a) (c_termination_path b) &&
  derives (c_termination_policy a) (c_termination_policy b) &&
  derives (c_pull_policy a) (c_pull_policy b) && derives (c_privileged a) (c_privileged b).
#[export] Instance derive_spec : Derivative pod_spec := fun a b =>
  derives (ps_automount_token a) (ps_automount_token b) &&
  derives (ps_restart_policy a) (ps_restart_policy b) &&
  derives (ps_node_name a) (ps_node_name b) &&
  derives (ps_active_deadline a) (ps_active_deadline b) &&
  derives (ps_grace_period a) (ps_grace_period b) &&
  derives (ps_tolerations a) (ps_tolerations b) &&
  derives (ps_containers a) (ps_containers b) && derives (ps_volumes a) (ps_volumes b).

(** ** Volume groups and activity of helper pods *)

Definition PodSucceeded := "Succeeded".
Definition PodFailed := "Failed".

Definition podTerminal (p : pod) : bool :=
  (st_phase (pod_status_of p) =s PodSucceeded) || (st_phase (pod_status_of p) =s PodFailed).

Definition runs_provisioner (c : container) : bool :=
  match c_command c with [] => false | cmd :: _ => base cmd =s "csi-lvmplugin-provisioner" end.

Definition isHelper (p : pod) : bool :=
  (mget (pod_labels p) helperPodLabel =s "true") || existsb runs_provisioner (ps_containers (pod_spec_of p)).

Definition activeHelper (p : pod) : bool := isHelper p && negb (podTerminal p).

(** The inner loop over the two prefixes. *)
Definition add_prefixed (arg : string) (groups : gset string) : gset string :=
  foldl (fun groups prefix =>
    let value := trim_prefix arg prefix in
    if negb (value =s arg) && negb (value =s "") then {[value]} ∪ groups else groups)
    groups ["--vgname="; "--srcvgname="].

Fixpoint addVGArgs (groups : gset string) (args : list string) : gset string :=
  match args with
  | [] => groups
  | arg :: rest =>
      if (arg =s "--vgname") || (arg =s "--srcvgname") then
        addVGArgs (match rest with
                   | value :: _ => if value =s "" then groups else {[value]} ∪ groups
                   | [] => groups
                   end) rest
      else addVGArgs (add_prefixed arg groups) rest
  end.

(** The map [groups] of [helperVGs]. *)
Definition helper_groups (p : pod) : gset string :=
  let vgName := mget (pod_annotations p) helperVGAnnotation in
  foldl (fun groups c => addVGArgs groups (c_args c)) (if vgName =s "" then ∅ else {[vgName]})
    (ps_containers (pod_spec_of p)).

Definition helperVGs (p : pod) : list string := merge_sort String.le (elements (helper_groups p)).

Definition helperUsesVG (p : pod) (vgName : string) : bool :=
  existsb (fun podVG => podVG =s vgName) (helperVGs p).

(** The condition of [countActiveHelpers] on one pod. *)
Definition counts_against (desired : pod) (vgName : string) (p : pod) : bool :=
  negb ((pod_name p =s pod_name desired) ||
        negb (ps_node_name (pod_spec_of p) =s ps_node_name (pod_spec_of desired)))
  && (activeHelper p && helperUsesVG p vgName).

Definition countActiveHelpers (pods : list pod) (desired : pod) (vgName : string) : nat :=
  count (counts_against desired vgName) pods.

Definition valueOrUnknown (value : string) : string := if value =s "" then "unknown" else value.

(** ** Admission *)

Section helpers.
(** The namespace of the pod client. *)
Variable ns : string.

(** The loop of [admitHelper] over the volume groups. *)
Fixpoint check_groups (listed : list pod) (desired : pod) (maxActive : Z) (groups : list string) :
    option error :=
  match groups with
  | [] => None
  | vgName :: rest =>
      let active := Z.of_nat (countActiveHelpers listed desired vgName) in
      if (active <? maxActive)%Z then check_groups listed desired maxActive rest
      else Some (Status Aborted "node %q volume group %q has %d active helpers; limit is %d"
             [AStr (ps_node_name (pod_spec_of desired)); AStr vgName; AInt active; AInt maxActive])
  end.

Definition admitHelper (desired : pod) (maxActive : Z) : prog (option error) :=
  if (maxActive <=? 0)%Z then
    Ret (Some (Status Internal "maximum active helper limit is not configured" []))
  else
    let* r := call (PodList ns) in
    match r with
    | Err e => Ret (Some (Status Unavailable "failed to list LVM helpers: %v" [AErr (Ext e)]))
    | Ok listed =>
        match helperVGs desired with
        | [] => Ret (Some (Status Internal "helper pod %q has no volume group" [AStr (pod_name desired)]))
        | groups => Ret (check_groups listed desired maxActive groups)
        end
    end.

Definition forceDeleteHelper (podName : string) : prog (option error) :=
  let* err := call (PodDelete RequestCtx ns podName (Some 0%Z)) in
  match err with
  | Some e =>
      if negb (is_not_found (Ext e)) then
        Ret (Some (Status Unavailable "failed to force-delete helper pod %q: %v"
                     [AStr podName; AErr (Ext e)]))
      else Ret (Some (Status Unavailable "force-deleted helper pod %q; retry" [AStr podName]))
  | None => Ret (Some (Status Unavailable "force-deleted helper pod %q; retry" [AStr podName]))
  end.

Definition retireHelper (p : pod) : prog (option error) :=
  if negb (podTerminal p) then
    Ret (Some (Status Unavailable "helper pod %q belongs to another request and is still %q"
           [AStr (pod_name p); AStr (valueOrUnknown (st_phase (pod_status_of p)))]))
  else
    let* err := call (PodDelete RequestCtx ns (pod_name p) None) in
    match err with
    | Some e =>
        if negb (is_not_found (Ext e)) then
          Ret (Some (Status Unavailable "failed to delete stale helper pod %q: %v"
                       [AStr (pod_name p); AErr (Ext e)]))
        else Ret (Some (Status Unavailable "removed stale helper pod %q; retry" [AStr (pod_name p)]))
    | None => Ret (Some (Status Unavailable "removed stale helper pod %q; retry" [AStr (pod_name p)]))
    end.

Definition useExistingHelper (desired : pod) (existing : option pod) : prog (option error) :=
  match existing with
  | None => Ret (Some (Status Unavailable "Kubernetes API returned an empty helper pod %q"
                         [AStr (pod_name desired)]))
  | Some existing =>
      match pod_deletion existing with
      | Some _ => forceDeleteHelper (pod_name existing)
      | None =>
          if derives (pod_spec_of desired) (pod_spec_of existing) then Ret None
          else retireHelper existing
      end
  end.

Definition reuseHelper (desired : pod) : prog (option error) :=
  let* r := call (PodGet ns (pod_name desired)) in
  match r with
  | Err e => Ret (Some (Status Unavailable "failed to get helper pod %q: %v"
                          [AStr (pod_name desired); AErr (Ext e)]))
  | Ok existing => useExistingHelper desired existing
  end.

(** The body of [ensureHelper], run with the mutex held. *)
Definition ensure_locked (desired : pod) (maxActive : Z) : prog (option error) :=
  let* r := call (PodGet ns (pod_name desired)) in
  match r with
  | Ok existing => useExistingHelper desired existing
  | Err e =>
      if negb (is_not_found (Ext e)) then
        Ret (Some (Status Unavailable "failed to check for helper pod %q: %v"
                     [AStr (pod_name desired); AErr (Ext e)]))
      else
        try (admitHelper desired maxActive) Some
          (let* err := call (PodCreate ns desired) in
           match err with
           | None => Ret None
           | Some e =>
               if negb (is_already_exists (Ext e)) then Ret (Some (Ext e))
               else reuseHelper desired
           end)
  end.

Definition ensureHelper (desired : pod) (maxActive : Z) : prog (option error) :=
  let* _ := call AdmissionLock in
  let* r := ensure_locked desired maxActive in
  let* _ := call AdmissionUnlock in
  Ret r.

(** ** Waiting *)

(** The first 1024 runes of the message with its white space collapsed. *)
Definition compactErrorMessage (message : string) : string :=
  let message := join " " (fields message) in
  let rs := runes message in
  if (length rs <=? 1024)%nat then message else join "" (take 1024 rs) +:+ "...".

Definition container_detail (status : container_status) : list string :=
  match cs_terminated status with
  | None => []
  | Some terminated =>
      let detail := "container " +:+ cs_name status +:+ " exited with code "
        +:+ format_int (t_exit_code terminated) +:+ " reason=" +:+ valueOrUnknown (t_reason terminated) in
      let message := compactErrorMessage (t_message terminated) in
      [if message =s "" then detail else detail +:+ " message=" +:+ message]
  end.

Definition helperFailure (p : pod) (resource action : string) : error :=
  let status := pod_status_of p in
  let pod_detail :=
    if (st_reason status =s "") && (st_message status =s "") then []
    else ["pod reason=" +:+ valueOrUnknown (st_reason status) +:+ " message=" +:+
          valueOrUnknown (compactErrorMessage (st_message status))] in
  let details := (pod_detail ++ List.flat_map container_detail (st_containers status))%list in
  let message := resource +:+ " " +:+ action +:+ " helper pod " +:+ pod_name p +:+ " failed" in
  Status Internal "%s"
    [AStr (match details with [] => message | _ => message +:+ ": " +:+ join "; " details end)].

(** The pair is (terminal, error). *)
Definition helperResult (r : result ext_error (option pod)) (podName resource action : string) :
    prog (bool * option error) :=
  match r with
  | Err readErr =>
      let* ctxErr := call CtxErr in
      match ctxErr with
      | Some _ => let* ctxErr := call CtxErr in Ret (false, from_context_error <$> ctxErr)
      | None =>
          if is_not_found (Ext readErr) then
            Ret (false, Some (Status Unavailable "%s %s helper pod %q disappeared; retry"
                                [AStr resource; AStr action; AStr podName]))
          else Ret (false, None)
      end
  | Ok None => Ret (false, Some (Status Internal "Kubernetes API returned an empty helper pod" []))
  | Ok (Some p) =>
      let phase := st_phase (pod_status_of p) in
      if phase =s PodFailed then Ret (true, Some (helperFailure p resource action))
      else if phase =s PodSucceeded then Ret (true, None)
      else Ret (false, None)
  end.

Definition waitForRetry : prog (option error) :=
  let* e := call WaitRetry in Ret (from_context_error <$> e).

(** [fuel] bounds the number of polls. *)
Fixpoint waitForHelper (fuel : nat) (podName resource action : string) : prog (bool * option error) :=
  match fuel with
  | O => diverge
  | S fuel =>
      let* r := call (PodGet ns podName) in
      let* (terminal, resultErr) := helperResult r podName resource action in
      match terminal, resultErr with
      | false, None =>
          try waitForRetry (fun e => (false, Some e)) (waitForHelper fuel podName resource action)
      | _, _ => Ret (terminal, resultErr)
      end
  end.

(** Runs under a context of its own; an error is only logged. *)
Definition deleteHelper (podName : string) : prog unit :=
  let* _ := call (PodDelete DetachedCtx ns podName None) in Ret tt.

Definition runHelper (fuel : nat) (p : pod) (params : helperParams) : prog (option error) :=
  try (ensureHelper p (MaxActive (hp_config params))) Some
    (let* (terminal, err) := waitForHelper fuel (pod_name p) (hp_resource params) (hp_action params) in
     if negb terminal then Ret err
     else let* _ := deleteHelper (pod_name p) in Ret err).
End helpers.

Definition createSnapshotHelper (fuel : nat) (action : snapshotAction) : prog (option error) :=
  match snapshotHelperArgs action with
  | Err e => Ret (Some e)
  | Ok args =>
      let params := snapshotParams action in
      try (runHelper (sa_namespace action) fuel (newHelperPod params args) params) Some (Ret None)
  end.

Definition createVolumeHelper (fuel : nat) (action : volumeAction) : prog (option error) :=
  match volumeHelperArgs action with
  | Err e => Ret (Some e)
  | Ok args =>
      let params := volumeParams action in
      try (runHelper (va_namespace action) fuel (newHelperPod params args) params) Some (Ret None)
  end.

#[global] Arguments helperVGs : simpl never.
#[global] Arguments helperFailure : simpl never.
#[global] Arguments compactErrorMessage : simpl never.
#[global] Arguments newHelperPod : simpl never.
#[global] Arguments ensure_locked : simpl never.
#[global] Arguments ensureHelper : simpl never.
#[global] Arguments useExistingHelper : simpl never.
#[global] Arguments retireHelper : simpl never.
#[global] Arguments forceDeleteHelper : simpl never.
#[global] Arguments reuseHelper : simpl never.
#[global] Arguments admitHelper : simpl never.
#[global] Arguments runHelper : simpl never.
#[global] Arguments check_groups : simpl never.
#[global] Arguments createVolumeHelper : simpl never.
#[global] Arguments createSnapshotHelper : simpl never.
#[global] Arguments volumeHelperArgs : simpl never.
#[global] Arguments snapshotHelperArgs : simpl never.
