(* ===== verification/HelperSpec.v ===== *)
(** * What a helper pod promises

    Names, deadlines, volume groups and reuse of helper pods; and [runHelper]
    against any API server: when it may create and delete pods, that it ends, and
    what its success means. *)
From S2P Require Import Prelude GoStrings Errors Objects Effects Config Validation Paths HelperPod.

(** ** Names *)

Definition known_resource (r : string) : Prop := r = "volume" \/ r = "snapshot".
Definition known_action (a : string) : Prop :=
  a = actionTypeCreate \/ a = actionTypeDelete \/ a = actionTypeClone.

(** The name of a helper pod determines the resource kind, the action and the name of
    the volume or snapshot, so two operations share a pod only if they are the same
    operation on the same object. *)
Theorem helper_pod_name_inj params params' args args' :
  known_resource (hp_resource params) -> known_resource (hp_resource params') ->
  known_action (hp_action params) -> known_action (hp_action params') ->
  pod_name (newHelperPod params args) = pod_name (newHelperPod params' args') ->
  hp_resource params = hp_resource params' /\ hp_action params = hp_action params' /\
  hp_name params = hp_name params'.
Proof.
  unfold newHelperPod, helperOperation, known_resource, known_action. cbn.
  intros [-> | ->] [-> | ->] [-> | [-> | ->]] [-> | [-> | ->]] E; cbn in E; simplify_eq; auto.
Qed.

(** ** Deadlines *)

Lemma durationSeconds_bounds d : (0 <= d)%Z ->
  (d <= durationSeconds d * second < d + second)%Z.
Proof.
  intros Hd. unfold durationSeconds, second. pose proof (Z.quot_rem' d 1000000000) as E.
  pose proof (Z.rem_bound_pos d 1000000000 Hd ltac:(lia)).
  destruct (Z.eqb_spec (Z.rem d 1000000000) 0); cbn; lia.
Qed.

(** The active deadline of a pod, in nanoseconds. *)
Definition deadline_ns (p : pod) : Z := (default 0 (ps_active_deadline (pod_spec_of p)) * second)%Z.


Definition clone_params : helperParams := {|
  hp_name := "clone"; hp_resource := "volume"; hp_action := actionTypeClone; hp_nodeName := "node";
  hp_vgName := "vg"; hp_lvmType := DmThinType; hp_hostWritePath := "/tmp";
  hp_provisionerImage := "image"; hp_pullPolicy := "Always"; hp_config := DefaultHelperConfig |}.


(** The pod that clones into a dm-thin volume gets the ordinary deadline although
    [CreateLVS] in it may create the thin pool: with the default configuration the pod
    is killed at 210 seconds while the creation may take 900. *)
Theorem clone_deadline_below_thin_pool :
  exists params args, hp_action params = actionTypeClone /\ hp_lvmType params = DmThinType /\
    hp_config params = DefaultHelperConfig /\
    deadline_ns (newHelperPod params args) = (210 * second)%Z /\
    (deadline_ns (newHelperPod params args) < ThinPoolCreateTimeout (hp_config params))%Z.
Proof. exists clone_params, []. split_and!; reflexivity. Qed.

(** ** Volume groups *)

(** [v] is the value of a volume group flag in [args]. *)
Fixpoint flag_value (v : string) (args : list string) : Prop :=
  match args with
  | [] => False
  | arg :: rest =>
      (if (arg =s "--vgname") || (arg =s "--srcvgname") then
         match rest with value :: _ => value = v | [] => False end
       else arg = "--vgname=" +:+ v \/ arg = "--srcvgname=" +:+ v) \/ flag_value v rest
  end.

Lemma trim_prefix_ne arg prefix v : prefix <> "" ->
  (trim_prefix arg prefix = v /\ v <> arg <-> arg = prefix +:+ v).
Proof.
  intros Hp. unfold trim_prefix. destruct (strip_prefix prefix arg) as [r|] eqn:E; cbn.
  - apply strip_prefix_spec in E as ->. split; [by intros [-> _]|].
    intros E%string_app_inj_l. subst r. split; [done|]. intros E. by apply (string_app_ne prefix v).
  - split; [naive_solver|]. intros ->. by rewrite strip_prefix_app in E.
Qed.

Lemma elem_add_prefixed v arg groups : v <> "" ->
  v ∈ add_prefixed arg groups <->
  v ∈ groups \/ arg = "--vgname=" +:+ v \/ arg = "--srcvgname=" +:+ v.
Proof.
  intros Hv. unfold add_prefixed. cbn [foldl].
  rewrite <- !(trim_prefix_ne arg _ v) by done.
  assert (forall p (X : gset string), v ∈ (if negb (trim_prefix arg p =s arg) && negb (trim_prefix arg p =s "")
                           then {[trim_prefix arg p]} ∪ X else X) <->
                      v ∈ X \/ (trim_prefix arg p = v /\ v <> arg)) as Hstep.
  { intros p X. destruct (String.eqb_spec (trim_prefix arg p) arg), (String.eqb_spec (trim_prefix arg p) "");
      cbn [negb andb]; set_solver. }
  rewrite !Hstep. tauto.
Qed.

Lemma elem_addVGArgs v args groups : v <> "" ->
  v ∈ addVGArgs groups args <-> v ∈ groups \/ flag_value v args.
Proof.
  intros Hv. revert groups. induction args as [|arg args IH]; intros groups; cbn [addVGArgs flag_value]; [tauto|].
  destruct (_ || _).
  - rewrite IH. destruct args as [|value args]; [tauto|].
    destruct (String.eqb_spec value ""); set_solver.
  - rewrite IH, elem_add_prefixed by done. tauto.
Qed.

Lemma empty_addVGArgs args groups : "" ∉ groups -> "" ∉ addVGArgs groups args.
Proof.
  revert groups. induction args as [|arg args IH]; intros groups Hg; cbn [addVGArgs]; [done|].
  destruct (_ || _); apply IH.
  - destruct args as [|value args]; [done|]. destruct (String.eqb_spec value ""); set_solver.
  - unfold add_prefixed. cbn [foldl]. destruct (String.eqb_spec (trim_prefix arg "--vgname=") ""),
      (String.eqb_spec (trim_prefix arg "--srcvgname=") ""); cbn [negb andb];
      rewrite ?andb_false_r; repeat case_match; set_solver.
Qed.

(** The groups a pod uses: the annotation and the flags of its containers. *)
Lemma elem_helper_groups v p :
  v ∈ helper_groups p <->
  v <> "" /\ (mget (pod_annotations p) helperVGAnnotation = v \/
              exists c, c ∈ ps_containers (pod_spec_of p) /\ flag_value v (c_args c)).
Proof.
  unfold helper_groups.
  set (X := if mget (pod_annotations p) helperVGAnnotation =s "" then (∅ : gset string)
            else {[mget (pod_annotations p) helperVGAnnotation]}).
  assert (HX : forall v, v ∈ X <-> v <> "" /\ mget (pod_annotations p) helperVGAnnotation = v).
  { intros w. unfold X. destruct (String.eqb_spec (mget (pod_annotations p) helperVGAnnotation) ""); set_solver. }
  enough (forall l (Y : gset string), "" ∉ Y ->
    (v ∈ foldl (fun groups c => addVGArgs groups (c_args c)) Y l <->
     v ∈ Y \/ (v <> "" /\ exists c, c ∈ l /\ flag_value v (c_args c)))) as He.
  { rewrite He, HX; [tauto|]. by rewrite HX; intros []. }
  intros l. induction l as [|c l IH]; intros Y HY; cbn [foldl]; [set_solver|].
  rewrite IH by by apply empty_addVGArgs. destruct (decide (v = "")) as [->|Hv].
  - split; [intros [?%empty_addVGArgs|[]]; done|intros [|[]]; done].
  - rewrite elem_addVGArgs by done. setoid_rewrite elem_of_cons. naive_solver.
Qed.

Lemma elem_helperVGs v p : v ∈ helperVGs p <-> v ∈ helper_groups p.
Proof. unfold helperVGs. rewrite merge_sort_Permutation, elem_of_elements. done. Qed.

Lemma helperUsesVG_spec p v : helperUsesVG p v = true <-> v ∈ helper_groups p.
Proof.
  unfold helperUsesVG. rewrite existsb_exists, <- elem_helperVGs. setoid_rewrite <- list_elem_of_In.
  setoid_rewrite eqb_true. naive_solver.
Qed.

(** A command-line value that is no flag. *)
Definition plain (s : string) : Prop := has_prefix s "--" = false.

Lemma not_plain s : ~ plain ("--" +:+ s).
Proof. unfold plain. by rewrite has_prefix_app. Qed.

Lemma flag_value_skip v arg rest :
  arg <> "--vgname" -> arg <> "--srcvgname" ->
  (forall w, arg <> "--vgname=" +:+ w /\ arg <> "--srcvgname=" +:+ w) ->
  flag_value v (arg :: rest) <-> flag_value v rest.
Proof.
  intros H1%eqb_false H2%eqb_false H3. cbn [flag_value]. rewrite H1, H2. cbn [orb].
  destruct (H3 v). tauto.
Qed.

Lemma flag_value_plain v arg rest :
  plain arg -> flag_value v (arg :: rest) <-> flag_value v rest.
Proof.
  intros Hp. apply flag_value_skip; [..|intros w; split]; intros ->; by apply not_plain in Hp.
Qed.

Lemma flag_value_flag v arg value rest :
  arg = "--vgname" \/ arg = "--srcvgname" -> plain value ->
  flag_value v (arg :: value :: rest) <-> value = v \/ flag_value v rest.
Proof.
  intros Ha Hp. cbn [flag_value]. change (flag_value v (arg :: ?x)) with (flag_value v (arg :: x)).
  fold (flag_value v (value :: rest)). rewrite (flag_value_plain v value rest Hp).
  by destruct Ha as [-> | ->].
Qed.

Lemma digits_no_hyphen fuel n s : (0 <= n)%Z -> digits fuel n <> String "-" s.
Proof. intros Hn E. apply digits_head in E as [d Hd]; [|done]. by vm_compute in Hd. Qed.

Lemma plain_format_int n : is_int64 n -> plain (format_int n).
Proof.
  intros Hn. unfold plain, has_prefix, format_int, format_uint.
  assert (forall fuel m t, (0 <= m)%Z -> strip_prefix (String "-" t) (digits fuel m) = None) as Hd.
  { intros fuel m t Hm. destruct (digits fuel m) as [|a s] eqn:E; [done|]. cbn [strip_prefix].
    destruct (Ascii.eqb_spec "-" a) as [<-|]; [|done]. by apply digits_no_hyphen in E. }
  destruct (Z.ltb_spec n 0).
  - change (strip_prefix "--" ("-" +:+ ?x)) with (strip_prefix "-" x). by rewrite Hd by lia.
  - by rewrite Hd by lia.
Qed.

Lemma plain_vg s : vg_name s -> plain s.
Proof.
  intros Hs. unfold plain, has_prefix. pose proof (vg_no_hyphen _ Hs) as H.
  destruct s as [|a s]; [done|]. cbn [strip_prefix].
  by destruct (Ascii.eqb_spec "-" a) as [<-|].
Qed.

Ltac flags :=
  repeat first
    [ rewrite flag_value_plain by (done || assumption || (by apply plain_vg) || (by apply plain_format_int))
    | rewrite flag_value_flag by (auto || (by apply plain_vg))
    | rewrite flag_value_skip by (discriminate || (intros w; split; discriminate)) ].

(** The groups of a pod the driver makes. *)
Lemma elem_new_pod v params args :
  v ∈ helperVGs (newHelperPod params args) <->
  v <> "" /\ (hp_vgName params = v \/ flag_value v args).
Proof.
  rewrite elem_helperVGs, elem_helper_groups. unfold newHelperPod. cbn [pod_annotations pod_spec_of om_annotations helperMetadata].
  unfold mget. rewrite lookup_singleton_eq. cbn [default helperSpec ps_containers].
  setoid_rewrite list_elem_of_singleton. apply and_iff_compat_l, or_iff_compat_l.
  transitivity (flag_value v (c_args (newHelperContainer params (helperOperation params) args)));
    [naive_solver|].
  cbn [newHelperContainer c_args app]. by flags.
Qed.

(** The names of a volume action are no command-line flags and its volume groups are
    valid: what Kubernetes names and the checked parameters give. *)
Record flagless (va : volumeAction) : Prop := {
  fl_name : plain (va_name va); fl_size : is_int64 (va_size va); fl_type : plain (va_lvmType va);
  fl_vg : vg_name (va_vgName va);
  fl_src src : va_srcInfo va = Some src ->
    plain (srcLVName src) /\ vg_name (srcVGName src) /\ plain (srcType src) }.

Lemma helperVGs_sorted p : Sorted String.le (helperVGs p) /\ NoDup (helperVGs p).
Proof.
  unfold helperVGs. split; [apply Sorted_merge_sort, _|].
  rewrite merge_sort_Permutation. apply NoDup_elements.
Qed.

(** C29: the volume groups admission counts a volume helper against, in order and without
    duplicates, are exactly its own group and, for a deletion or a clone, the group of
    its source; for a snapshot helper, exactly its group. *)
Theorem helperVGs_of_action :
  (forall va args, volumeHelperArgs va = Ok args -> flagless va ->
     let groups := helperVGs (newHelperPod (volumeParams va) args) in
     Sorted String.le groups /\ NoDup groups /\
     forall v, v ∈ groups <->
       v = va_vgName va \/
       (va_action va <> actionTypeCreate /\ exists src, va_srcInfo va = Some src /\ v = srcVGName src)) /\
  (forall sa args, snapshotHelperArgs sa = Ok args ->
     plain (sa_snapshotName sa) -> plain (sa_srcVolName sa) -> plain (sa_lvType sa) ->
     is_int64 (sa_snapSize sa) -> vg_name (sa_vgName sa) ->
     helperVGs (newHelperPod (snapshotParams sa) args) = [sa_vgName sa]).
Proof.
  split.
  - intros va args Ha Hf groups. split_and!; [apply helperVGs_sorted..|]. intros v.
    unfold groups. rewrite elem_new_pod. cbn [hp_vgName volumeParams].
    pose proof (vg_nonempty _ (fl_vg _ Hf)) as Hvg. destruct Hf as [Hn Hsz Ht Hv Hsrc].
    unfold volumeHelperArgs in Ha. go_ok.
    destruct (String.eqb_spec (va_action va) actionTypeCreate) as [E|E].
    { simplify_eq. flags. cbn [flag_value]. naive_solver. }
    destruct (_ =s actionTypeDelete); [|destruct (_ =s actionTypeClone); [|done]];
      (destruct (va_srcInfo va) as [src|]; [|done]);
      destruct (Hsrc src eq_refl) as (Hl & Hsv & Hst); simplify_eq; flags; cbn [flag_value];
      pose proof (vg_nonempty _ Hsv); naive_solver.
  - intros sa args Ha Hn Hs Ht Hsz Hv.
    assert (forall v, v ∈ helperVGs (newHelperPod (snapshotParams sa) args) <-> v ∈ [sa_vgName sa]) as He.
    { intros v. rewrite elem_new_pod, list_elem_of_singleton. cbn [hp_vgName snapshotParams].
      pose proof (vg_nonempty _ Hv). unfold snapshotHelperArgs in Ha. go_ok.
      destruct (_ =s actionTypeCreate); [|destruct (_ =s actionTypeDelete); [|done]];
        simplify_eq; flags; cbn [flag_value]; naive_solver. }
    apply Permutation_singleton_r, NoDup_Permutation; [apply helperVGs_sorted|apply NoDup_singleton|done].
Qed.

(** ** Reuse of an existing pod *)

Lemma derive_list_full (l k : list string) :
  Forall (fun s => s <> "") l -> length l = length k -> derives l k = true -> l = k.
Proof.
  intros Hl. revert k. induction Hl as [|s l Hs Hl IH]; intros [|t k]; [done..|].
  cbn. intros [= Hk] [H1 H2]%andb_true_iff. f_equal; [|by apply IH].
  apply orb_true_iff in H1 as [H1|H1]; by go_bool.
Qed.

(** What two actions with the same arguments share. *)
Definition same_request (va va' : volumeAction) : Prop :=
  va_name va = va_name va' /\ va_nodeName va = va_nodeName va' /\
  (va_action va <> actionTypeDelete ->
     va_size va = va_size va' /\ va_lvmType va = va_lvmType va' /\ va_vgName va = va_vgName va') /\
  (va_action va = actionTypeClone ->
     exists src src', va_srcInfo va = Some src /\ va_srcInfo va' = Some src' /\ src = src') /\
  (va_action va = actionTypeDelete ->
     exists src src', va_srcInfo va = Some src /\ va_srcInfo va' = Some src' /\
       srcVGName src = srcVGName src' /\ srcType src = srcType src').

Lemma format_int_inj m n : is_int64 m -> is_int64 n -> format_int m = format_int n -> m = n.
Proof. intros Hm%parse_format_int Hn%parse_format_int E. congruence. Qed.

Lemma volume_args_action va args : volumeHelperArgs va = Ok args ->
  known_action (va_action va) /\ va_nodeName va <> "".
Proof.
  unfold volumeHelperArgs, known_action. intros Ha. go_ok. split; [|done].
  destruct (String.eqb_spec (va_action va) actionTypeCreate); [auto|].
  destruct (String.eqb_spec (va_action va) actionTypeDelete); [auto|].
  destruct (String.eqb_spec (va_action va) actionTypeClone); [auto|done].
Qed.

(** The arguments of an action determine it. *)
Lemma volumeHelperArgs_inj va va' args :
  is_int64 (va_size va) -> is_int64 (va_size va') -> va_nodeName va = va_nodeName va' ->
  va_action va = va_action va' ->
  volumeHelperArgs va = Ok args -> volumeHelperArgs va' = Ok args -> same_request va va'.
Proof.
  intros Hs Hs' Hn Ha H H'. unfold volumeHelperArgs in *. rewrite <- Ha in H'. go_ok.
  destruct (String.eqb_spec (va_action va) actionTypeCreate) as [E|E];
    [|destruct (String.eqb_spec (va_action va) actionTypeDelete) as [E'|E'];
      [|destruct (String.eqb_spec (va_action va) actionTypeClone) as [E''|E'']; [|done]]].
  2-3: destruct (va_srcInfo va) as [[l g t]|] eqn:Hi; [|done];
       destruct (va_srcInfo va') as [[l' g' t']|] eqn:Hi'; [|done].
  all: cbn in *; simplify_eq; unfold same_request; rewrite ?E, ?E', ?E'', ?Hi, ?Hi'.
  all: split_and!; try done; intros; try (exfalso; congruence).
  all: try (split_and!; [by apply format_int_inj| |]; congruence).
  all: eauto 10.
Qed.

Lemma volume_args_length va va' args args' : va_action va = va_action va' ->
  volumeHelperArgs va = Ok args -> volumeHelperArgs va' = Ok args' -> length args = length args'.
Proof.
  intros Ha H H'. unfold volumeHelperArgs in *. rewrite <- Ha in H'. go_ok.
  repeat case_match; by simplify_eq.
Qed.

Lemma derives_args params params' args args' :
  derives (pod_spec_of (newHelperPod params args)) (pod_spec_of (newHelperPod params' args')) = true ->
  derives (c_args (newHelperContainer params (helperOperation params) args))
          (c_args (newHelperContainer params' (helperOperation params') args')) = true /\
  derives (hp_nodeName params) (hp_nodeName params') = true.
Proof.
  unfold newHelperPod. cbn [pod_spec_of].
  unfold derives at 1, derive_spec. intros H. go_bool. cbn [ps_containers helperSpec ps_node_name] in *.
  split; [|done].
  match goal with H : derives [newHelperContainer _ _ _] _ = true |- _ =>
    unfold derives at 1 in H; cbn [derive_list] in H; unfold derives at 1, derive_container in H end.
  by go_bool.
Qed.


(** ** A request against an API server

    What one request observes: the helper pod it read last, whether its context is
    done, how often its poll timer can still fire before the context is done, and
    whether it holds the admission mutex.  The API server may answer anything; a pod
    it returns has the name that was asked for. *)
Record request := {
  seen : option pod; expired : option ctx_error; polls_left : nat; locked : bool }.

(** When a pod may be deleted: forcefully if it is already being deleted, otherwise if
    it has ended. *)
Definition deletable (p : pod) (grace : option Z) : Prop :=
  match grace with Some _ => pod_deletion p <> None | None => podTerminal p = true end.

Definition request_allowed (desired : pod) (s : request) (e : eff) : Prop :=
  match e with
  | PodGet _ n => n = pod_name desired
  | PodList _ => locked s = true
  | PodCreate _ p => p = desired /\ locked s = true
  | PodDelete _ _ n grace => n = pod_name desired /\
      exists p, seen s = Some p /\ pod_name p = n /\ deletable p grace
  | CtxErr | WaitRetry => locked s = false
  | AdmissionLock => locked s = false
  | AdmissionUnlock => locked s = true
  | _ => False
  end.

Definition request_step (s : request) (e : eff) : resp e -> request -> Prop :=
  match e as e return resp e -> request -> Prop with
  | PodGet _ n => fun r s' =>
      (forall p, r = Ok (Some p) -> pod_name p = n) /\
      s' = {| seen := match r with Ok o => o | Err _ => None end; expired := expired s;
              polls_left := polls_left s; locked := locked s |}
  | CtxErr => fun r s' =>
      (forall e, expired s = Some e -> r = Some e) /\
      s' = {| seen := seen s; expired := r; polls_left := polls_left s; locked := locked s |}
  | WaitRetry => fun r s' =>
      match r with
      | Some e => s' = {| seen := seen s; expired := Some e; polls_left := polls_left s;
                          locked := locked s |}
      | None => polls_left s = S (polls_left s') /\ seen s' = seen s /\ locked s' = locked s
      end
  | AdmissionLock => fun _ s' =>
      s' = {| seen := seen s; expired := expired s; polls_left := polls_left s; locked := true |}
  | AdmissionUnlock => fun _ s' =>
      s' = {| seen := seen s; expired := expired s; polls_left := polls_left s; locked := false |}
  | _ => fun _ s' => s' = s
  end.

Definition request_env (desired : pod) : env request :=
  {| allowed := request_allowed desired; step := request_step |}.

Section run_helper.
Variable ns : string.
Variable desired : pod.
Let E := request_env desired.

(** What the body of [ensureHelper] keeps. *)
Definition still_locked (left : nat) (_ : option error) (s : request) : Prop :=
  locked s = true /\ polls_left s = left.

Lemma wp_useExisting o left s :
  seen s = o -> (forall p, o = Some p -> pod_name p = pod_name desired) ->
  still_locked left None s ->
  wp E (useExistingHelper ns desired o) (still_locked left) s.
Proof.
  intros Hs Hn [Hl <-]. unfold useExistingHelper. destruct o as [p|]; [|by split].
  specialize (Hn p eq_refl).
  assert (forall grace, deletable p grace -> request_allowed desired s (PodDelete RequestCtx ns (pod_name p) grace))
    as Hdel by (intros grace Hg; split; [done|by exists p]).
  destruct (pod_deletion p) eqn:Hd; [|destruct (derives _ _)].
  - split; [apply Hdel; cbn; congruence|]. intros [e|] s' ->; cbn; [destruct (ext_not_found e)|]; by split.
  - by split.
  - unfold retireHelper. destruct (podTerminal p) eqn:Ht; [|by split].
    split; [by apply Hdel|]. intros [e|] s' ->; cbn; [destruct (ext_not_found e)|]; by split.
Qed.

Lemma wp_ensureHelper maxActive s : locked s = false ->
  wp E (ensureHelper ns desired maxActive)
    (fun _ s' => locked s' = false /\ polls_left s' = polls_left s) s.
Proof.
  intros Hl. unfold ensureHelper. cbn. split; [done|]. intros _ s0 ->.
  eapply wp_bind_mono with (P := still_locked (polls_left s)).
  2:{ intros r s1 [Hl1 Hp1]. cbn. split; [done|]. by intros _ s2 ->. }
  unfold ensure_locked. cbn. split; [done|]. intros [o|e] s1 [Hn ->]; cbn.
  { apply wp_useExisting; [done| |done]. intros p ->. by apply Hn. }
  destruct (negb _); cbn; [by split|]. apply wp_bind.
  unfold admitHelper. destruct (maxActive <=? 0)%Z; cbn; [by split|]. split; [done|].
  intros [l|e'] s2 ->; cbn; [|by split]. destruct (helperVGs desired) as [|g gs] eqn:Hg; cbn -[check_groups]; [by split|].
  destruct (check_groups _ _ _ _) as [e'|]; cbn; [by split|]. split; [done|].
  intros [e'|] s3 ->; cbn; [|by split]. destruct (negb _); cbn; [by split|].
  unfold reuseHelper. cbn. split; [done|].
  intros [o|e''] s4 [Hn' ->]; cbn; [|by split].
  apply wp_useExisting; [done| |done]. intros p ->. by apply Hn'.
Qed.

(** The pod [desired] was seen to have succeeded. *)
Definition seen_terminal (phase : string) (s : request) : Prop :=
  exists p, seen s = Some p /\ pod_name p = pod_name desired /\ st_phase (pod_status_of p) = phase.

Definition waited (r : bool * option error) (s : request) : Prop :=
  locked s = false /\
  match r with
  | (true, None) => seen_terminal PodSucceeded s
  | (true, Some e) => seen_terminal PodFailed s /\ status_code e = Internal
  | (false, Some _) => True
  | (false, None) => False
  end.

Lemma wp_waitForHelper resource action fuel s :
  locked s = false -> (polls_left s < fuel)%nat ->
  wp E (waitForHelper ns fuel (pod_name desired) resource action) waited s.
Proof.
  revert s. induction fuel as [|fuel IH]; intros s Hl Hf; [lia|]. cbn. split; [done|].
  intros r s1 [Hn ->].
  assert (forall s, locked s = false -> (polls_left s < S fuel)%nat ->
    wp E (try waitForRetry (fun e => (false, Some e))
            (waitForHelper ns fuel (pod_name desired) resource action)) waited s) as Hretry.
  { clear -IH. intros s Hl Hf. cbn. split; [done|]. intros [e|] s' Hs; cbn.
    - by subst s'.
    - destruct Hs as (Hp & _ & Hl'). apply IH; [congruence|lia]. }
  destruct r as [[p|]|e]; cbn; [| done|].
  - specialize (Hn p eq_refl). destruct (_ =s PodFailed) eqn:Hfail; [|destruct (_ =s PodSucceeded) eqn:Hok].
    + go_bool. split; [done|]. split; [by exists p|done].
    + go_bool. split; [done|]. by exists p.
    + by apply Hretry.
  - split; [done|]. intros [ce|] s2 [Hx ->]; cbn.
    + split; [done|]. intros [ce'|] s3 [Hx' ->]; cbn; [done|]. by specialize (Hx' ce eq_refl).
    + destruct (ext_not_found e); [done|]. apply Hretry; [done|cbn; lia].
Qed.
Lemma wp_runHelper fuel params s :
  locked s = false -> (polls_left s < fuel)%nat ->
  wp E (runHelper ns fuel desired params)
    (fun r s' => locked s' = false /\ (r = None -> seen_terminal PodSucceeded s')) s.
Proof.
  intros Hl Hf. unfold runHelper.
  eapply wp_try; [by apply wp_ensureHelper|..].
  2:{ by intros e s' [Hl' _]; split. }
  intros s1 [Hl1 Hp1]. eapply wp_bind_mono; [apply wp_waitForHelper; [done|lia]|].
  intros [terminal err] s2 [Hl2 Hw]. destruct terminal; cbn; [|by destruct err].
  assert (exists p, seen s2 = Some p /\ pod_name p = pod_name desired /\ podTerminal p = true) as (p & Hs & Hn & Ht).
  { unfold podTerminal. destruct err; [destruct Hw as [Hw _]|]; destruct Hw as (p & Hs & Hn & Hp);
      exists p; (split_and!; [done..|by rewrite Hp]). }
  split; [split; [done|by exists p]|]. intros _ s3 ->. cbn. split; [done|]. by intros ->.
Qed.

End run_helper.

(** C5: a request that runs a helper pod ends within its polls whatever the API server
    answers; it answers without an error only after it has read the pod of its own name
    in phase [Succeeded]; it creates that pod only under the admission mutex, which it
    never holds while waiting and has given back at the end; and it deletes no pod but
    one of that name that it has just read to have ended, or, with grace period zero, to
    be under deletion. *)
Theorem runHelper_sound ns fuel desired params s :
  locked s = false -> (polls_left s < fuel)%nat ->
  wp (request_env desired) (runHelper ns fuel desired params)
    (fun r s' => locked s' = false /\ (r = None -> seen_terminal desired PodSucceeded s')) s.
Proof. apply wp_runHelper. Qed.

Definition create_action : volumeAction := {|
  va_action := actionTypeCreate; va_name := "pvc-1"; va_nodeName := "node"; va_size := 1048576;
  va_lvmType := StripedType; va_provisionerImage := "image"; va_pullPolicy := "Always";
  va_namespace := "ns"; va_vgName := "vg"; va_hostWritePath := "/tmp"; va_srcInfo := None;
  va_helperConfig := DefaultHelperConfig |}.
Definition create_args : list string :=
  ["createlv"; "--lvsize"; "1048576"; "--lvmtype"; "striped"; "--vgname"; "vg"; "--lvname"; "pvc-1"].
Definition create_pod : pod := newHelperPod (volumeParams create_action) create_args.
Definition new_request (polls : nat) : request :=
  {| seen := None; expired := None; polls_left := polls; locked := false |}.

Lemma runHelper_sound_witness :
  wp (request_env create_pod) (runHelper "ns" 11 create_pod (volumeParams create_action))
    (fun r s' => locked s' = false /\ (r = None -> seen_terminal create_pod PodSucceeded s'))
    (new_request 10).
Proof. apply runHelper_sound; [reflexivity|cbn; lia]. Defined.

Lemma helper_pod_name_inj_witness :
  hp_resource (volumeParams create_action) = hp_resource (volumeParams create_action) /\
  hp_name (volumeParams create_action) = hp_name (volumeParams create_action).
Proof.
  destruct (helper_pod_name_inj (volumeParams create_action) (volumeParams create_action) create_args []
              (or_introl eq_refl) (or_introl eq_refl) (or_introl eq_refl) (or_introl eq_refl) eq_refl)
    as (H1 & _ & H3). split; [exact H1|exact H3].
Defined.

