(* ===== verification/Admission.v ===== *)
(** * The admission limit under concurrency

    The controller runs one [runHelper] per request, each in its own goroutine.
    They share the pods of the namespace and the process-wide mutex
    [helperAdmissionMu].  [cluster_step] interleaves their effects one at a time with
    each other and with the cluster itself, which may only advance or remove pods;
    the theorem is an invariant of every reachable state: no node ever has more than
    the configured number of active helpers on one volume group. *)
From S2P Require Import Prelude GoStrings Errors Objects Effects Config Validation Paths HelperPod HelperSpec.

Abbreviation pods := (gmap string pod).

(** ** Counting *)

(** [p] is an active helper on [node] that uses [vg]. *)
Definition occupies (node vg : string) (p : pod) : bool :=
  (ps_node_name (pod_spec_of p) =s node) && (activeHelper p && helperUsesVG p vg).

Definition occupants (s : pods) (node vg : string) : nat :=
  size (filter (fun kv : string * pod => occupies node vg (snd kv) = true) s).

Definition within (limit : Z) (s : pods) : Prop :=
  forall node vg, (Z.of_nat (occupants s node vg) <= limit)%Z.

(** Pods are stored under their name. *)
Definition named (s : pods) : Prop := forall n p, s !! n = Some p -> pod_name p = n.

(** Every active helper of [s'] is one of [s], on the same node and groups. *)
Definition shrinks (s s' : pods) : Prop :=
  forall n p' node vg, s' !! n = Some p' -> occupies node vg p' = true ->
    exists p, s !! n = Some p /\ occupies node vg p = true.

#[export] Instance shrinks_preorder : PreOrder shrinks.
Proof.
  split.
  - intros s n p node vg Hp Ho. by exists p.
  - intros s1 s2 s3 H12 H23 n p node vg Hp Ho.
    destruct (H23 _ _ _ _ Hp Ho) as (p2 & Hp2 & Ho2). by eapply H12.
Qed.

Lemma occupants_le (s s0 : pods) node vg (f : pod -> bool) :
  (forall n p, s !! n = Some p -> occupies node vg p = true ->
     exists p0, s0 !! n = Some p0 /\ f p0 = true) ->
  (occupants s node vg <= size (filter (fun kv : string * pod => f (snd kv) = true) s0))%nat.
Proof.
  intros Hs. unfold occupants. apply (dom_subseteq_size (D := gset string)). intros n.
  rewrite !elem_of_dom. intros [p Hp]. apply map_lookup_filter_Some in Hp as [Hp Ho].
  destruct (Hs _ _ Hp Ho) as (p0 & Hp0 & Hf). exists p0. by apply map_lookup_filter_Some.
Qed.

Lemma shrinks_within limit s s' : shrinks s s' -> within limit s -> within limit s'.
Proof.
  intros Hs Hw node vg. specialize (Hw node vg).
  pose proof (occupants_le s' s node vg (occupies node vg)) as Hle.
  enough (occupants s' node vg <= occupants s node vg)%nat by lia.
  apply Hle. intros n p Hp Ho. by eapply Hs.
Qed.

Lemma size_filter_count (s : pods) (f : pod -> bool) :
  size (filter (fun kv : string * pod => f (snd kv) = true) s) = count f (map_to_list s).*2.
Proof.
  induction s as [|n p s Hn IH] using map_ind.
  - by rewrite map_filter_empty, map_size_empty, map_to_list_empty.
  - rewrite (count_perm f _ (p :: (map_to_list s).*2)).
    2:{ by rewrite map_to_list_insert. }
    rewrite count_cons, <- IH, map_filter_insert. cbn. destruct (f p) eqn:Hf; case_decide; [|done..|].
    + rewrite map_size_insert_None; [done|]. apply map_lookup_filter_None. by left.
    + by rewrite delete_id.
Qed.

Lemma occupants_insert (s : pods) n p node vg : s !! n = None ->
  occupants (<[n:=p]> s) node vg =
  ((if occupies node vg p then 1 else 0) + occupants s node vg)%nat.
Proof.
  intros Hn. unfold occupants. rewrite map_filter_insert. cbn.
  destruct (occupies node vg p) eqn:Ho; case_decide; [|done..|].
  - rewrite map_size_insert_None; [done|]. apply map_lookup_filter_None. by left.
  - by rewrite delete_id.
Qed.

(** What [admitHelper] has established of a listing. *)
Definition admitted (limit : Z) (listed : list pod) (p : pod) : Prop :=
  forall vg, vg ∈ helperVGs p -> (Z.of_nat (countActiveHelpers listed p vg) < limit)%Z.

Lemma check_groups_admitted listed p limit groups :
  check_groups listed p limit groups = None ->
  forall vg, vg ∈ groups -> (Z.of_nat (countActiveHelpers listed p vg) < limit)%Z.
Proof.
  induction groups as [|g gs IH]; [by intros _ vg ?%elem_of_nil|].
  unfold check_groups. fold check_groups.
  destruct (Z.ltb_spec (Z.of_nat (countActiveHelpers listed p g)) limit); [|done].
  intros Hc vg [->|Hvg]%elem_of_cons; auto.
Qed.

(** The heart of the matter: a pod admitted against a listing may be created later. *)
Lemma create_within limit (s s0 : pods) listed p :
  within limit s -> s !! pod_name p = None -> named s0 ->
  listed ≡ₚ (map_to_list s0).*2 -> shrinks s0 s -> admitted limit listed p ->
  within limit (<[pod_name p := p]> s).
Proof.
  intros Hw Hfree Hnamed Hl Hsh Hadm node vg. rewrite occupants_insert by done.
  destruct (occupies node vg p) eqn:Ho; [|apply Hw].
  unfold occupies in Ho. go_bool. subst node.
  match goal with H : helperUsesVG p vg = true |- _ =>
    rewrite helperUsesVG_spec, <- elem_helperVGs in H; specialize (Hadm vg H) end.
  unfold countActiveHelpers in Hadm. rewrite (count_perm _ _ _ Hl), <- size_filter_count in Hadm.
  enough (occupants s (ps_node_name (pod_spec_of p)) vg <=
    size (filter (fun kv : string * pod => counts_against p vg (snd kv) = true) s0))%nat by lia.
  apply occupants_le. intros n q Hq Hoq. destruct (Hsh _ _ _ _ Hq Hoq) as (q0 & Hq0 & Ho0).
  exists q0. split; [done|]. unfold occupies in Ho0. unfold counts_against. go_bool.
  assert (pod_name q0 <> pod_name p) as Hne%eqb_false by (rewrite (Hnamed _ _ Hq0); congruence).
  match goal with H : ps_node_name _ = ps_node_name _ |- _ => rewrite Hne, H, eqb_same end.
  cbn. by apply andb_true_iff.
Qed.

(** ** The pods of the namespace *)

Definition set_status (p : pod) (status : pod_status) (deletion : option Z) : pod := {|
  pod_name := pod_name p; pod_labels := pod_labels p; pod_annotations := pod_annotations p;
  pod_deletion := deletion; pod_spec_of := pod_spec_of p; pod_status_of := status |}.

(** The answers of the API server to a client that is not interrupted.  A request that
    fails may or may not have been carried out; a deletion may remove the pod or only
    mark it. *)
Definition api_answers (s : pods) (e : eff) : resp e -> pods -> Prop :=
  match e as e return resp e -> pods -> Prop with
  | PodGet _ n => fun r s' => s' = s /\
      match r with
      | Ok o => o = s !! n /\ is_Some o
      | Err e => ext_not_found e = true -> s !! n = None
      end
  | PodList _ => fun r s' => s' = s /\
      match r with Ok listed => listed ≡ₚ (map_to_list s).*2 | Err _ => True end
  | PodCreate _ p => fun r s' =>
      (s !! pod_name p = None /\ s' = <[pod_name p := p]> s) \/ (is_Some r /\ s' = s)
  | PodDelete _ _ n _ => fun _ s' =>
      s' = s \/ s' = delete n s \/
      exists p t, s !! n = Some p /\ s' = <[n := set_status p (pod_status_of p) (Some t)]> s
  | CtxErr | WaitRetry => fun _ s' => s' = s
  | _ => fun _ _ => False
  end.

(** What the rest of the cluster does to pods: their status moves on, a terminal phase
    being final; they disappear; pods that are no helpers come. *)
Inductive pods_evolve (s : pods) : pods -> Prop :=
| evolve_status n p status deletion :
    s !! n = Some p ->
    (podTerminal p = true -> podTerminal (set_status p status deletion) = true) ->
    pods_evolve s (<[n := set_status p status deletion]> s)
| evolve_gone n : pods_evolve s (delete n s)
| evolve_other p :
    s !! pod_name p = None -> isHelper p = false -> pods_evolve s (<[pod_name p := p]> s).

Lemma occupies_status node vg p status deletion :
  (podTerminal p = true -> podTerminal (set_status p status deletion) = true) ->
  occupies node vg (set_status p status deletion) = true -> occupies node vg p = true.
Proof.
  intros Ht Ho. unfold occupies, activeHelper in *. go_bool.
  change (helperUsesVG (set_status p status deletion)) with (helperUsesVG p) in *.
  change (isHelper (set_status p status deletion)) with (isHelper p) in *.
  cbn [set_status pod_spec_of] in *. destruct (podTerminal p); [by rewrite Ht in *|].
  by repeat (apply andb_true_iff; split); try apply eqb_true.
Qed.

Lemma shrinks_status (s : pods) n p status deletion :
  s !! n = Some p -> (podTerminal p = true -> podTerminal (set_status p status deletion) = true) ->
  shrinks s (<[n := set_status p status deletion]> s).
Proof.
  intros Hp Ht m q node vg Hq Ho. apply lookup_insert_Some in Hq as [[<- <-]|[Hne Hq]]; [|by exists q].
  exists p. split; [done|]. by eapply occupies_status.
Qed.

Lemma shrinks_delete (s : pods) n : shrinks s (delete n s).
Proof. intros m q node vg [_ Hq]%lookup_delete_Some Ho. by exists q. Qed.
#[export] Hint Resolve shrinks_delete shrinks_status : go.

Lemma evolve_shrinks s s' : pods_evolve s s' -> shrinks s s'.
Proof.
  intros []; [by apply shrinks_status|apply shrinks_delete|].
  intros m q node vg Hq Ho. apply lookup_insert_Some in Hq as [[<- <-]|[Hne Hq]]; [|by exists q].
  unfold occupies, activeHelper in Ho. go_bool. congruence.
Qed.

Lemma named_insert (s : pods) n p : named s -> pod_name p = n -> named (<[n := p]> s).
Proof. intros Hs Hn m q [[<- <-]|[_ Hq]]%lookup_insert_Some; [done|by apply Hs]. Qed.
Lemma named_delete (s : pods) n : named s -> named (delete n s).
Proof. intros Hs m q [_ Hq]%lookup_delete_Some. by apply Hs. Qed.
#[export] Hint Resolve named_insert named_delete : go.

Lemma evolve_named s s' : pods_evolve s s' -> named s -> named s'.
Proof.
  intros [n p status deletion Hp Ht|n|p Hp Hh] Hs; [apply named_insert; [done|by apply (Hs n p)]|auto with go..].
Qed.

Lemma answers_named s e x s' : api_answers s e x s' -> named s -> named s'.
Proof.
  destruct e; cbn; try done; try (by intros ->); try (by intros [-> _]).
  - intros [[_ ->]|[_ ->]] Hs; auto with go.
  - intros [->|[->|(p & t & Hp & ->)]] Hs; [done|auto with go|].
    apply named_insert; [done|by apply (Hs _ p)].
Qed.

(** Every effect but a creation shrinks. *)
Lemma answers_shrinks s e x s' : api_answers s e x s' ->
  match e with PodCreate _ _ => True | _ => shrinks s s' end.
Proof.
  destruct e; cbn; try done; try (by intros ->); try (by intros [-> _]).
  intros [->|[->|(p & t & Hp & ->)]]; [done|apply shrinks_delete|by apply shrinks_status].
Qed.

(** ** Threads *)

(** What a thread knows: whether it holds the mutex and what it has listed since. *)
Record view := { owns : bool; listing : option (list pod) }.

Definition view_allowed (limit : Z) (v : view) (e : eff) : Prop :=
  match e with
  | PodGet _ _ | PodList _ | PodDelete _ _ _ _ | CtxErr | WaitRetry | Diverge => True
  | PodCreate _ p => owns v = true /\ exists l, listing v = Some l /\ admitted limit l p
  | AdmissionLock => owns v = false
  | AdmissionUnlock => owns v = true
  | _ => False
  end.

(** The view after an effect. *)
Definition view_after (v : view) (e : eff) : resp e -> view :=
  match e as e return resp e -> view with
  | PodList _ => fun r =>
      {| owns := owns v; listing := match r with Ok l => Some l | Err _ => None end |}
  | PodCreate _ _ => fun _ => {| owns := owns v; listing := None |}
  | AdmissionLock => fun _ => {| owns := true; listing := None |}
  | AdmissionUnlock => fun _ => {| owns := false; listing := None |}
  | _ => fun _ => v
  end.

Definition view_env (limit : Z) : env view :=
  {| allowed := view_allowed limit; step := fun v e x v' => v' = view_after v e x |}.

(** A thread that keeps to the protocol and ends without the mutex. *)
Definition follows (limit : Z) (m : prog (option error)) (v : view) : Prop :=
  wp (view_env limit) m (fun _ v' => owns v' = false) v.

Section protocol.
Variable limit : Z.
Let E := view_env limit.

Lemma wp_view_Vis {R} e (k : resp e -> prog R) Q v :
  view_allowed limit v e -> (forall x, wp E (k x) Q (view_after v e x)) -> wp E (Vis e k) Q v.
Proof. intros Ha Hk. split; [done|]. intros x v' ->. apply Hk. Qed.

(** Programs that list and create nothing and leave the mutex alone. *)
Definition passive (e : eff) : Prop :=
  match e with PodGet _ _ | PodDelete _ _ _ _ | CtxErr | WaitRetry | Diverge => True | _ => False end.

Lemma wp_passive {R} (m : prog R) v : all_effects passive m -> wp E m (fun _ v' => v' = v) v.
Proof.
  induction m as [r|e k IH]; [done|]. intros [He Hk].
  apply wp_view_Vis; [by destruct e|]. intros x.
  replace (view_after v e x) with v by by destruct e. by apply IH.
Qed.

Lemma passive_useExisting ns desired o : all_effects passive (useExistingHelper ns desired o).
Proof.
  unfold useExistingHelper, forceDeleteHelper, retireHelper.
  destruct o as [p|]; [|done]. destruct (pod_deletion p); [|destruct (derives _ _); [done|];
    destruct (negb _); [done|]]; cbn; (split; [done|]); intros [e|]; by try destruct (ext_not_found e).
Qed.

Lemma passive_waitForHelper ns fuel n resource action :
  all_effects passive (waitForHelper ns fuel n resource action).
Proof.
  induction fuel as [|fuel IH]; cbn; [by split|]. split; [done|]. intros r.
  apply all_effects_bind.
  - destruct r as [[p|]|e]; cbn; [by repeat case_match|done|].
    split; [done|]. intros [ce|]; cbn; [by split|]. by destruct (ext_not_found e).
  - intros [[] [e|]]; cbn; try done. split; [done|]. by intros [ce|].
Qed.

(** After [admitHelper] the listing admits the pod. *)
Lemma wp_admitHelper ns desired v : owns v = true ->
  wp E (admitHelper ns desired limit)
    (fun r v' => owns v' = true /\
       (r = None -> exists l, listing v' = Some l /\ admitted limit l desired)) v.
Proof.
  intros Ho. unfold admitHelper. destruct (limit <=? 0)%Z; [done|]. cbn [call bind].
  apply wp_view_Vis; [done|]. intros [l|e]; cbn; [|done].
  destruct (helperVGs desired) as [|g gs] eqn:Hg; [done|]. cbn. split; [done|].
  intros Hc. exists l. split; [done|]. intros vg. rewrite Hg. by apply check_groups_admitted.
Qed.

Lemma wp_ensure_locked ns desired v : owns v = true ->
  wp E (ensure_locked ns desired limit) (fun _ v' => owns v' = true) v.
Proof.
  intros Ho. unfold ensure_locked. cbn [call bind]. apply wp_view_Vis; [done|].
  assert (forall o v, owns v = true ->
    wp E (useExistingHelper ns desired o) (fun _ v' => owns v' = true) v) as Huse.
  { intros o w Hw. eapply wp_mono; [|apply wp_passive, passive_useExisting]. by intros ? ? ->. }
  intros [o|e]; [by apply Huse|]. destruct (negb _); [done|]. cbn [view_after].
  eapply wp_try; [by apply wp_admitHelper| |by intros ? ? []].
  intros v1 [Ho1 Ha]. destruct (Ha eq_refl) as (l & Hl & Hadm). cbn [call bind].
  apply wp_view_Vis; [split; eauto|]. intros [e'|]; [|done].
  destruct (negb _); [done|]. unfold reuseHelper. cbn [call bind].
  apply wp_view_Vis; [done|]. intros [o|e'']; [by apply Huse|done].
Qed.

Lemma follows_runHelper ns fuel desired params v :
  MaxActive (hp_config params) = limit -> owns v = false ->
  follows limit (runHelper ns fuel desired params) v.
Proof.
  intros Hm Ho. unfold runHelper. rewrite Hm. eapply wp_try with (P := fun _ v' => owns v' = false).
  - unfold ensureHelper. cbn [call bind]. apply wp_view_Vis; [done|]. intros []. cbn [view_after].
    eapply wp_bind_mono; [by apply wp_ensure_locked|]. intros r v' Ho'.
    apply wp_view_Vis; [done|]. by intros [].
  - intros v' Ho'. eapply wp_bind_mono; [apply wp_passive, passive_waitForHelper|].
    intros [terminal err] ? ->. destruct terminal; [|done]. by apply wp_view_Vis.
  - done.
Qed.
End protocol.

(** The program of one request. *)
Inductive request_program (limit : Z) : prog (option error) -> Prop :=
| volume_request fuel action :
    MaxActive (va_helperConfig action) = limit -> request_program limit (createVolumeHelper fuel action)
| snapshot_request fuel action :
    MaxActive (sa_helperConfig action) = limit -> request_program limit (createSnapshotHelper fuel action).

Lemma follows_request limit m : request_program limit m -> follows limit m {| owns := false; listing := None |}.
Proof.
  unfold follows. intros [fuel action Hm|fuel action Hm]; [unfold createVolumeHelper|unfold createSnapshotHelper];
    (case_match; [|done]); (eapply wp_try; [by apply follows_runHelper|done|done]).
Qed.

(** ** The cluster *)

Record cluster := { api : pods; owner : option nat; threads : gmap nat (prog (option error)) }.

Definition is_lock (e : eff) : bool :=
  match e with AdmissionLock | AdmissionUnlock => true | _ => false end.

Inductive cluster_step (limit : Z) (c : cluster) : cluster -> Prop :=
| step_request i m :
    threads c !! i = None -> request_program limit m ->
    cluster_step limit c {| api := api c; owner := owner c; threads := <[i := m]> (threads c) |}
| step_effect i e k x s :
    threads c !! i = Some (Vis e k) -> is_lock e = false -> api_answers (api c) e x s ->
    cluster_step limit c {| api := s; owner := owner c; threads := <[i := k x]> (threads c) |}
| step_lock i k :
    threads c !! i = Some (Vis AdmissionLock k) -> owner c = None ->
    cluster_step limit c {| api := api c; owner := Some i; threads := <[i := k tt]> (threads c) |}
| step_unlock i k :
    threads c !! i = Some (Vis AdmissionUnlock k) ->
    cluster_step limit c {| api := api c; owner := None; threads := <[i := k tt]> (threads c) |}
| step_cluster s :
    pods_evolve (api c) s ->
    cluster_step limit c {| api := s; owner := owner c; threads := threads c |}.

(** *** The invariant *)

(** The holder's listing is still an upper bound. *)
Definition listing_bounds (v : view) (s : pods) : Prop :=
  forall l, listing v = Some l -> exists s0, named s0 /\ l ≡ₚ (map_to_list s0).*2 /\ shrinks s0 s.

Record invariant (limit : Z) (views : nat -> view) (c : cluster) : Prop := {
  inv_named : named (api c);
  inv_within : within limit (api c);
  inv_follows i m : threads c !! i = Some m -> follows limit m (views i);
  inv_owner i m : threads c !! i = Some m -> (owns (views i) = true <-> owner c = Some i);
  inv_bounds i : owner c = Some i -> listing_bounds (views i) (api c);
  inv_thread i : owner c = Some i -> is_Some (threads c !! i) }.

Definition upd (views : nat -> view) (i : nat) (v : view) : nat -> view :=
  fun j => if decide (j = i) then v else views j.
Lemma upd_same views i v : upd views i v i = v.
Proof. unfold upd. by rewrite decide_True. Qed.
Lemma upd_other views i v j : j <> i -> upd views i v j = views j.
Proof. intros. unfold upd. by rewrite decide_False. Qed.

Section invariant.
Variable limit : Z.

Lemma bounds_shrink v s s' : shrinks s s' -> listing_bounds v s -> listing_bounds v s'.
Proof.
  intros Hs Hb l Hl. destruct (Hb l Hl) as (s0 & Hn & Hp & Hs0). exists s0.
  split_and!; [done..|]. by transitivity s.
Qed.

(** A thread's next effect is one it may take, and it goes on following the protocol. *)
Lemma follows_next e k v x :
  follows limit (Vis e k) v -> view_allowed limit v e /\ follows limit (k x) (view_after v e x).
Proof. intros [Ha Hk]. split; [done|]. by apply Hk. Qed.

(** The thread map after thread [i] has moved: what holds of [i] and of the others. *)
Lemma moved (P : nat -> prog (option error) -> Prop) (t : gmap nat (prog (option error))) i m :
  P i m -> (forall j m', j <> i -> t !! j = Some m' -> P j m') ->
  forall j m', <[i := m]> t !! j = Some m' -> P j m'.
Proof. intros Hi Ho j m' [[<- <-]|[Hne Hj]]%lookup_insert_Some; auto. Qed.

Lemma effect_within views c i e k x s :
  invariant limit views c -> threads c !! i = Some (Vis e k) ->
  api_answers (api c) e x s -> within limit s.
Proof.
  intros I Hi Hx. destruct (follows_next e k _ x (inv_follows _ _ _ I _ _ Hi)) as [Ha _].
  pose proof (answers_shrinks _ _ _ _ Hx) as Hs.
  destruct e; try (by eapply shrinks_within, inv_within); try done.
  destruct Ha as (Ho & l & Hl & Hadm). apply (inv_owner _ _ _ I _ _ Hi) in Ho.
  destruct (inv_bounds _ _ _ I _ Ho l Hl) as (s0 & Hn0 & Hp0 & Hs0).
  destruct Hx as [[Hfree ->]|[_ ->]]; [|apply (inv_within _ _ _ I)].
  by eapply create_within; [apply (inv_within _ _ _ I)|..].
Qed.

Lemma effect_bounds views c i e k x s j :
  invariant limit views c -> threads c !! i = Some (Vis e k) -> is_lock e = false ->
  api_answers (api c) e x s -> owner c = Some j ->
  listing_bounds (upd views i (view_after (views i) e x) j) s.
Proof.
  intros I Hi He Hx Hj. destruct (follows_next e k _ x (inv_follows _ _ _ I _ _ Hi)) as [Ha _].
  pose proof (answers_shrinks _ _ _ _ Hx) as Hs. pose proof (inv_bounds _ _ _ I _ Hj) as Hb.
  destruct (decide (j = i)) as [->|Hne]; [rewrite upd_same|rewrite upd_other by done].
  - destruct e; try done; try (by eapply bounds_shrink).
    destruct x as [l|]; [|done]. destruct Hx as [-> Hp]. intros l' [= <-].
    exists (api c). split_and!; [apply (inv_named _ _ _ I)|done|done].
  - destruct e; try (by eapply bounds_shrink); try done.
    destruct Ha as [Ho _]. apply (inv_owner _ _ _ I _ _ Hi) in Ho. congruence.
Qed.

Lemma invariant_step views c c' :
  invariant limit views c -> cluster_step limit c c' -> exists views', invariant limit views' c'.
Proof.
  intros I Hstep. pose proof I as [Hn Hw Hf Ho Hb Ht].
  destruct Hstep as [i m Hi Hm|i e k x s Hi He Hx|i k Hi Hfree|i k Hi|s Hs].
  - exists (upd views i {| owns := false; listing := None |}).
    assert (forall j, owner c = Some j -> j <> i) as Hne by (intros j [? ?]%Ht ->; congruence).
    split; cbn; [done|done|apply moved|apply moved| |].
    + rewrite upd_same. by apply follows_request.
    + intros j m' Hj. rewrite upd_other by done. apply Hf.
    + rewrite upd_same. cbn. split; [done|]. by intros ?%Hne.
    + intros j m' Hj. rewrite upd_other by done. apply Ho.
    + intros j Hj. rewrite upd_other by auto. by apply Hb.
    + intros j Hj. rewrite lookup_insert_ne by (intros ->; by eapply Hne). by apply Ht.
  - exists (upd views i (view_after (views i) e x)).
    destruct (follows_next e k _ x (Hf _ _ Hi)) as [Ha Hnext].
    split; cbn; [by eapply answers_named|by eapply effect_within|apply moved|apply moved| |].
    + by rewrite upd_same.
    + intros j m' Hj. rewrite upd_other by done. apply Hf.
    + rewrite upd_same. replace (owns (view_after (views i) e x)) with (owns (views i))
        by by destruct e. by eapply Ho.
    + intros j m' Hj. rewrite upd_other by done. apply Ho.
    + intros j Hj. by eapply effect_bounds.
    + intros j Hj. apply lookup_insert_is_Some'. right. by apply Ht.
  - exists (upd views i {| owns := true; listing := None |}).
    split; cbn; [done|done|apply moved|apply moved| |].
    + rewrite upd_same. by apply (follows_next AdmissionLock k _ tt (Hf _ _ Hi)).
    + intros j m' Hj. rewrite upd_other by done. apply Hf.
    + by rewrite upd_same.
    + intros j m' Hj Hm. rewrite upd_other by done. rewrite (Ho _ _ Hm), Hfree.
      split; [done|congruence].
    + intros j [= <-]. by rewrite upd_same.
    + intros j [= <-]. apply lookup_insert_is_Some'. by left.
  - exists (upd views i {| owns := false; listing := None |}).
    destruct (follows_next AdmissionUnlock k _ tt (Hf _ _ Hi)) as [Ha Hnext].
    pose proof (proj1 (Ho _ _ Hi) Ha) as Howner.
    split; cbn; [done|done|apply moved|apply moved|done|done].
    + by rewrite upd_same.
    + intros j m' Hj. rewrite upd_other by done. apply Hf.
    + by rewrite upd_same.
    + intros j m' Hj Hm. rewrite upd_other by done. rewrite (Ho _ _ Hm), Howner.
      split; [congruence|done].
  - exists views. apply evolve_shrinks in Hs as Hsh.
    split; cbn; [by eapply evolve_named|by eapply shrinks_within|done|done| |done].
    intros j Hj. by eapply bounds_shrink; [|apply Hb].
Qed.
End invariant.

(** C6: however the requests of one controller interleave, with each other and with a
    cluster that advances, removes and adds pods, and whatever API requests fail (a
    failed creation may have been carried out), no node ever has more than [MaxActive]
    active helper pods that use the same volume group. *)
Theorem admission_limit limit c c' :
  named (api c) -> within limit (api c) -> owner c = None -> threads c = ∅ ->
  rtc (cluster_step limit) c c' ->
  forall node vg, (Z.of_nat (occupants (api c') node vg) <= limit)%Z.
Proof.
  intros Hn Hw Ho Ht Hrtc.
  assert (exists views, invariant limit views c) as Hinv.
  { exists (fun _ => {| owns := false; listing := None |}).
    split; try done; rewrite ?Ht, ?Ho; try done; by intros ? ?; rewrite lookup_empty. }
  clear -Hinv Hrtc. induction Hrtc as [c|c c1 c2 Hs _ IH].
  - destruct Hinv as [views I]. apply (inv_within _ _ _ I).
  - apply IH. destruct Hinv as [views I]. by eapply invariant_step.
Qed.

Definition idle : cluster := {| api := ∅; owner := None; threads := ∅ |}.

Lemma admission_limit_witness :
  (exists m, threads {| api := ∅; owner := None; threads := {[0%nat := m]} |} !! 0%nat = Some m) /\
  (Z.of_nat (occupants ∅ "node" "vg") <= 3)%Z.
Proof.
  split; [exists (Ret None); reflexivity|].
  apply (admission_limit 3 idle
    {| api := ∅; owner := None;
       threads := <[0%nat := createVolumeHelper 11 create_action]> (∅ : gmap nat (prog (option error))) |}).
  - intros n p Hp. discriminate Hp.
  - intros node vg. vm_compute. discriminate.
  - reflexivity.
  - reflexivity.
  - apply rtc_once. apply (step_request 3 idle 0%nat); [reflexivity|by constructor].
Defined.
