(* ===== verification/Progress.v ===== *)
(** * Every helper request gets an answer

    The admission mutex is shared by all requests of a controller.  A request that holds
    it makes a bounded number of calls of the API server before it gives it back; so in
    every infinite run of the cluster of Admission.v in which the scheduler and the API
    server are fair, the mutex is free again and again, and every request ends, or is
    still polling when its fuel is used up. *)
From S2P Require Import Prelude GoStrings Errors Objects Effects Config Validation HelperPod HelperSpec Admission.

(** ** How long the mutex is held *)

Definition is_unlock (e : eff) : bool := match e with AdmissionUnlock => true | _ => false end.
(** The calls of a request that holds the mutex. *)
Definition api_call (e : eff) : bool :=
  match e with PodGet _ _ | PodList _ | PodCreate _ _ | PodDelete _ _ _ _ => true | _ => false end.

(** Gives the mutex back after at most [n] calls, whatever they answer. *)
Fixpoint releases {R} (n : nat) (m : prog R) {struct m} : Prop :=
  match m with
  | Ret _ => False
  | Vis e k => is_unlock e = true \/
      (api_call e = true /\ match n with O => False | S n => forall x, releases n (k x) end)
  end.

(** ... from every point where it takes it. *)
Fixpoint locks_briefly {R} (n : nat) (m : prog R) : Prop :=
  match m with
  | Ret _ => True
  | Vis e k => (e = AdmissionLock -> forall x, releases n (k x)) /\ forall x, locks_briefly n (k x)
  end.

(** Lookup, listing, creation, a second lookup and a deletion. *)
Definition lock_calls : nat := 5.

(** Makes at most [n] calls of the API server and nothing else. *)
Fixpoint brief {R} (n : nat) (m : prog R) {struct m} : Prop :=
  match m with
  | Ret _ => True
  | Vis e k => api_call e = true /\ match n with O => False | S n => forall x, brief n (k x) end
  end.

Lemma brief_le {R} n n' (m : prog R) : n <= n' -> brief n m -> brief n' m.
Proof.
  revert n n'. induction m as [r|e k IH]; intros n n' Hn; [done|]. intros [Ha Hk]. split; [done|].
  destruct n as [|n]; [done|]. destruct n' as [|n']; [lia|]. intros x. apply (IH x n); [lia|auto].
Qed.

Lemma brief_call {R} n e (k : resp e -> prog R) :
  api_call e = true -> (forall x, brief n (k x)) -> brief (S n) (Vis e k).
Proof. by split. Qed.

Lemma releases_le {R} n n' (m : prog R) : n <= n' -> releases n m -> releases n' m.
Proof.
  revert n n'. induction m as [r|e k IH]; intros n n' Hn; [done|]. intros [Hu|[Ha Hk]]; [by left|right].
  split; [done|]. destruct n as [|n]; [done|]. destruct n' as [|n']; [lia|]. intros x. apply (IH x n); [lia|auto].
Qed.

Lemma releases_bind {R R'} n j (m : prog R) (f : R -> prog R') :
  brief n m -> (forall r, releases j (f r)) -> releases (n + j) (bind m f).
Proof.
  revert n. induction m as [r|e k IH]; intros n Hm Hf; cbn [bind].
  - apply (releases_le j); [lia|done].
  - destruct Hm as [Ha Hk]. destruct n as [|n]; [done|]. right. split; [done|]. intros x. by apply IH.
Qed.

Lemma releases_left {R R'} n (m : prog R) (f : R -> prog R') : releases n m -> releases n (bind m f).
Proof.
  revert n. induction m as [r|e k IH]; intros n; [done|]. intros [Hu|[Ha Hk]]; [by left|right].
  split; [done|]. destruct n as [|n]; [done|]. intros x. apply IH, Hk.
Qed.

Lemma locks_bind {R R'} n (m : prog R) (f : R -> prog R') :
  locks_briefly n m -> (forall r, locks_briefly n (f r)) -> locks_briefly n (bind m f).
Proof.
  intros Hm Hf. induction m as [r|e k IH]; cbn; [done|]. destruct Hm as [He Hk].
  split; [intros E x; by apply releases_left, He|]. intros x. by apply IH.
Qed.

Lemma locks_none {R} n (m : prog R) : all_effects (fun e => e <> AdmissionLock) m -> locks_briefly n m.
Proof. induction m as [r|e k IH]; [done|]. intros [He Hk]. split; [done|]. intros x. by apply IH. Qed.

Lemma passive_no_lock {R} (m : prog R) :
  all_effects passive m -> all_effects (fun e => e <> AdmissionLock) m.
Proof.
  induction m as [r|e k IH]; [done|]. intros [He Hk]. split; [by intros ->|]. intros x. by apply IH.
Qed.

(** *** The requests *)

Lemma brief_useExisting ns desired o : brief 1 (useExistingHelper ns desired o).
Proof.
  unfold useExistingHelper, forceDeleteHelper, retireHelper. destruct o as [p|]; [|done].
  destruct (pod_deletion p); [|destruct (derives _ _); [done|]; destruct (negb _); [done|]];
    (apply brief_call; [done|]); intros [e|]; cbn; by try destruct (negb _).
Qed.

Lemma brief_bind {R R'} n j (m : prog R) (f : R -> prog R') :
  brief n m -> (forall r, brief j (f r)) -> brief (n + j) (bind m f).
Proof.
  revert n. induction m as [r|e k IH]; intros n Hm Hf; cbn [bind].
  - apply (brief_le j); [lia|done].
  - destruct Hm as [Ha Hk]. destruct n as [|n]; [done|]. split; [done|]. intros x. by apply IH.
Qed.

Lemma brief_admit ns desired limit : brief 1 (admitHelper ns desired limit).
Proof.
  unfold admitHelper. destruct (limit <=? 0)%Z; [done|]. apply brief_call; [done|].
  intros [l|e]; [|done]. by destruct (helperVGs desired).
Qed.

Lemma brief_locked ns desired limit : brief lock_calls (ensure_locked ns desired limit).
Proof.
  unfold ensure_locked. apply (brief_call 4); [done|]. intros [o|e].
  - apply (brief_le 1); [lia|apply brief_useExisting].
  - cbn [bind]. destruct (negb _); [done|]. apply (brief_bind 1 3); [apply brief_admit|]. intros [e'|]; [done|].
    apply (brief_call 2); [done|]. intros [e'|]; [|done]. cbn [bind]. destruct (negb _); [done|].
    apply (brief_call 1); [done|]. intros [o|e'']; [apply brief_useExisting|done].
Qed.

Lemma brief_no_lock {R} n (m : prog R) : brief n m -> all_effects (fun e => e <> AdmissionLock) m.
Proof.
  revert n. induction m as [r|e k IH]; intros n; [done|]. intros [Ha Hk]. split; [by intros ->|].
  destruct n as [|n]; [done|]. intros x. by eapply IH.
Qed.

Lemma locks_ensureHelper ns desired limit : locks_briefly lock_calls (ensureHelper ns desired limit).
Proof.
  unfold ensureHelper. split.
  - intros _ x. refine (releases_bind lock_calls 0 (ensure_locked ns desired limit) _ (brief_locked _ _ _) _).
    intros r. by left.
  - intros x. refine (locks_bind _ (ensure_locked ns desired limit) _ _ _); [exact (locks_none _ _ (brief_no_lock _ _ (brief_locked ns desired limit)))|]. by split.
Qed.

Lemma locks_runHelper ns fuel desired params : locks_briefly lock_calls (runHelper ns fuel desired params).
Proof.
  unfold runHelper, try. apply locks_bind; [apply locks_ensureHelper|]. intros [e|]; [done|].
  apply locks_bind; [apply locks_none, passive_no_lock, passive_waitForHelper|].
  intros [[] err]; [|done]. by split.
Qed.

Lemma locks_request limit m : request_program limit m -> locks_briefly lock_calls m.
Proof.
  intros [fuel action _|fuel action _]; [unfold createVolumeHelper|unfold createSnapshotHelper];
    (case_match; [|done]); unfold try; (apply locks_bind; [apply locks_runHelper|]; by intros [e|]).
Qed.

(** ** Runs *)

(** Request [i] moves: an effect is answered, the mutex is taken or given back. *)
Inductive thread_step (c : cluster) (i : nat) : cluster -> Prop :=
| thread_effect e k x s :
    threads c !! i = Some (Vis e k) -> is_lock e = false -> api_answers (api c) e x s ->
    thread_step c i {| api := s; owner := owner c; threads := <[i := k x]> (threads c) |}
| thread_lock k :
    threads c !! i = Some (Vis AdmissionLock k) -> owner c = None ->
    thread_step c i {| api := api c; owner := Some i; threads := <[i := k tt]> (threads c) |}
| thread_unlock k :
    threads c !! i = Some (Vis AdmissionUnlock k) ->
    thread_step c i {| api := api c; owner := None; threads := <[i := k tt]> (threads c) |}.

(** An infinite run; nothing may happen for a while. *)
Definition infinite_run (limit : Z) (c : nat -> cluster) : Prop :=
  forall t, cluster_step limit (c t) (c (S t)) \/ c (S t) = c t.

(** The API server, the poll timer and the scheduler answer every effect some time; a request
    that waits for the mutex gets it some time if it is free again and again (the
    starvation mode of sync.Mutex). *)
Record fair (c : nat -> cluster) : Prop := {
  fair_effect t i e k :
    threads (c t) !! i = Some (Vis e k) -> e <> AdmissionLock -> e <> Diverge ->
    exists t', t <= t' /\ thread_step (c t') i (c (S t'));
  fair_lock t i k :
    threads (c t) !! i = Some (Vis AdmissionLock k) ->
    (forall t1, exists t2, t1 <= t2 /\ owner (c t2) = None) ->
    exists t', t <= t' /\ thread_step (c t') i (c (S t')) }.

(** A step of the cluster is one of a request that is there, or leaves it alone. *)
Lemma step_other limit c c' i m :
  cluster_step limit c c' -> threads c !! i = Some m -> thread_step c i c' \/ threads c' !! i = Some m.
Proof.
  intros Hs Hi. destruct Hs as [j m' Hj Hm|j e k x s Hj He Hx|j k Hj Hfree|j k Hj|s Hs]; cbn.
  5: by right.
  1: right; rewrite lookup_insert_ne by congruence; done.
  all: destruct (decide (j = i)) as [->|Hne]; [left; by econstructor|right].
  all: by rewrite lookup_insert_ne.
Qed.

(** Only its holder gives the mutex back. *)
Lemma step_owner limit views c c' i :
  invariant limit views c -> cluster_step limit c c' -> owner c = Some i ->
  thread_step c i c' \/ owner c' = Some i.
Proof.
  intros I Hs Ho. destruct Hs as [j m' Hj Hm|j e k x s Hj He Hx|j k Hj Hfree|j k Hj|s Hs]; cbn; try (by right).
  - congruence.
  - left. destruct (follows_next limit AdmissionUnlock k _ tt (inv_follows _ _ _ I _ _ Hj)) as [Ha _].
    apply (inv_owner _ _ _ I _ _ Hj) in Ha. replace i with j by congruence. by constructor.
Qed.

(** ** What holds at every moment *)

(** Requests hold the mutex briefly, and its holder is on the way to give it back. *)
Record live (c : cluster) : Prop := {
  live_threads i m : threads c !! i = Some m -> locks_briefly lock_calls m;
  live_owner i : owner c = Some i -> exists m, threads c !! i = Some m /\ releases lock_calls m }.

Lemma live_step limit views c c' :
  invariant limit views c -> live c -> cluster_step limit c c' -> live c'.
Proof.
  intros I [Hl Ho] Hs.
  destruct Hs as [i m Hi Hm|i e k x s Hi He Hx|i k Hi Hfree|i k Hi|s Hs]; (split; cbn; [|intros j Hj]).
  - apply moved; [by eapply locks_request|eauto].
  - assert (i <> j) as Hne by (intros ->; destruct (Ho _ Hj) as (? & ? & _); congruence).
    rewrite lookup_insert_ne by done. by apply Ho.
  - apply moved; [apply (Hl _ _ Hi)|eauto].
  - destruct (decide (i = j)) as [->|Hne]; [|rewrite lookup_insert_ne by done; by apply Ho].
    rewrite lookup_insert_eq. destruct (Ho _ Hj) as (m & Hm & Hr). rewrite Hi in Hm. injection Hm as <-.
    eexists. split; [done|]. destruct Hr as [Hu|[Ha Hr]]; [by destruct e|].
    apply (releases_le (lock_calls - 1)); [lia|]. apply Hr.
  - apply moved; [apply (Hl _ _ Hi)|eauto].
  - injection Hj as <-. rewrite lookup_insert_eq. eexists. split; [done|]. by apply (Hl _ _ Hi).
  - apply moved; [apply (Hl _ _ Hi)|eauto].
  - done.
  - apply Hl.
  - by apply Ho.
Qed.

(** The programs a request can go on with. *)
Definition continues (m' m : prog (option error)) : Prop :=
  match m with Ret _ => False | Vis _ k => exists x, m' = k x end.
Definition next_effect (m : prog (option error)) : option eff :=
  match m with Ret _ => None | Vis e _ => Some e end.

Lemma continues_wf : well_founded continues.
Proof. intros m. induction m as [r|e k IH]; constructor; [done|]. intros m' [x ->]. apply IH. Qed.

Lemma thread_step_next c i c' m :
  thread_step c i c' -> threads c !! i = Some m ->
  exists m', continues m' m /\ threads c' !! i = Some m' /\
    match next_effect m with
    | Some AdmissionUnlock => owner c' = None
    | Some AdmissionLock => owner c' = Some i
    | _ => owner c' = owner c
    end.
Proof.
  intros Hs Hi. destruct Hs as [e k x s Hk He Hx|k Hk Hfree|k Hk]; cbn;
    rewrite Hk in Hi; injection Hi as <-; rewrite lookup_insert_eq; eexists; (split; [by eexists|]);
    (split; [done|]); [by destruct e|done|done].
Qed.

Section progress.
Context (limit : Z) (c : nat -> cluster).
Hypothesis Hnamed : named (api (c 0)).
Hypothesis Hwithin : within limit (api (c 0)).
Hypothesis Hunowned : owner (c 0) = None.
Hypothesis Hempty : threads (c 0) = ∅.
Hypothesis Hrun : infinite_run limit c.
Hypothesis Hfair : fair c.

Lemma always t : live (c t) /\ exists views, invariant limit views (c t).
Proof.
  induction t as [|t [Hl [views I]]].
  - split; [split|exists (fun _ => {| owns := false; listing := None |}); split]; try done;
      rewrite ?Hempty, ?Hunowned; try done; by intros ? ?; rewrite lookup_empty.
  - destruct (Hrun t) as [Hs|Hs]; [|rewrite Hs; eauto].
    split; [by eapply live_step|by eapply invariant_step].
Qed.

(** Until a request moves, its program stays, and the mutex if it has it. *)
Lemma next_move i m t t' :
  threads (c t) !! i = Some m -> t <= t' -> thread_step (c t') i (c (S t')) ->
  exists t1, t <= t1 /\ threads (c t1) !! i = Some m /\ thread_step (c t1) i (c (S t1)) /\
    (owner (c t) = Some i -> owner (c t1) = Some i).
Proof.
  intros Hi Hle. replace t' with (t + (t' - t)) by lia. generalize (t' - t). clear t' Hle. intros d.
  revert t Hi. induction d as [|d IH]; intros t Hi Hd; [rewrite Nat.add_0_r in Hd; eauto|].
  destruct (always t) as [_ [views I]].
  assert (thread_step (c t) i (c (S t)) \/
    (threads (c (S t)) !! i = Some m /\ (owner (c t) = Some i -> owner (c (S t)) = Some i))) as [Hs|[Hi' Ho]].
  { destruct (Hrun t) as [Hs|Hs]; [|by rewrite Hs; auto].
    destruct (step_other _ _ _ _ _ Hs Hi) as [|Hi']; [by left|].
    destruct (decide (owner (c t) = Some i)) as [Ho|]; [|by right].
    destruct (step_owner _ _ _ _ _ I Hs Ho); [by left|by right]. }
  - exists t. eauto.
  - destruct (IH (S t) Hi') as (t1 & Hle & Ht1 & Hs1 & Ho1); [by rewrite Nat.add_succ_l, <- Nat.add_succ_r|].
    exists t1. split_and!; [lia|done|done|auto].
Qed.

Lemma released n t i m :
  owner (c t) = Some i -> threads (c t) !! i = Some m -> releases n m ->
  exists t', t <= t' /\ owner (c t') = None.
Proof.
  revert t m. induction n as [n IH] using lt_wf_ind. intros t m Ho Hi Hr.
  assert (exists t', t <= t' /\ thread_step (c t') i (c (S t'))) as (t' & Hle & Hs).
  { destruct m as [r|e k]; [done|]. eapply (fair_effect _ Hfair); [done|..];
      intros ->; by destruct Hr as [?|[? _]]. }
  destruct (next_move _ _ _ _ Hi Hle Hs) as (t1 & Hle1 & Hi1 & Hs1 & Ho1). specialize (Ho1 Ho).
  destruct (thread_step_next _ _ _ _ Hs1 Hi1) as (m' & Hm' & Hi' & Hown).
  destruct m as [r|e k]; [done|]. destruct Hm' as [x ->]. cbn [next_effect] in Hown.
  destruct Hr as [Hu|[Ha Hr]].
  - exists (S t1). split; [lia|]. by destruct e.
  - destruct n as [|n]; [done|].
    assert (owner (c (S t1)) = Some i) as Ho' by (destruct e; done || congruence).
    destruct (IH n ltac:(lia) _ _ Ho' Hi' (Hr x)) as (t2 & Hle2 & H2). exists t2. split; [lia|done].
Qed.

Lemma mutex_free t : exists t', t <= t' /\ owner (c t') = None.
Proof.
  destruct (owner (c t)) as [i|] eqn:Ho; [|by exists t].
  destruct (always t) as [Hl _]. destruct (live_owner _ Hl _ Ho) as (m & Hi & Hr). by eapply released.
Qed.

(** The request has its answer, or is still polling and out of fuel. *)
Definition settled (m : prog (option error)) : Prop :=
  match m with Ret _ => True | Vis e _ => e = Diverge end.

Lemma settles t i m : threads (c t) !! i = Some m ->
  exists t' m', t <= t' /\ threads (c t') !! i = Some m' /\ settled m'.
Proof.
  revert t. induction m as [m IH] using (well_founded_ind continues_wf). intros t Hi.
  assert (settled m \/ exists t', t <= t' /\ thread_step (c t') i (c (S t'))) as [Hset|(t' & Hle & Hs)].
  { destruct m as [r|e k]; [by left|].
    assert (e = Diverge \/ e = AdmissionLock \/ (e <> Diverge /\ e <> AdmissionLock)) as [->|[->|[Hd Hl]]]
      by (destruct e; auto); [by left|right|right].
    - eapply (fair_lock _ Hfair); [done|]. intros t1. apply mutex_free.
    - by eapply (fair_effect _ Hfair). }
  - by exists t, m.
  - destruct (next_move _ _ _ _ Hi Hle Hs) as (t1 & Hle1 & Hi1 & Hs1 & _).
    destruct (thread_step_next _ _ _ _ Hs1 Hi1) as (m' & Hm' & Hi' & _).
    destruct (IH m' Hm' _ Hi') as (t2 & m2 & Hle2 & H2 & Hset). exists t2, m2. split_and!; [lia|done..].
Qed.
End progress.

(** C16: liveness of the controller's requests.  In every infinite run of the cluster, from
    a state without requests, in which the scheduler, the mutex and the API server are
    fair: the admission mutex is free again and again, so no request blocks the others
    for ever; and every request that was started ends with an answer, or has polled its
    helper pod as often as its fuel allows, whatever the API server answers. *)
Theorem requests_progress limit c :
  named (api (c 0)) -> within limit (api (c 0)) -> owner (c 0) = None -> threads (c 0) = ∅ ->
  infinite_run limit c -> fair c ->
  (forall t, exists t', t <= t' /\ owner (c t') = None) /\
  (forall t i m, threads (c t) !! i = Some m ->
     exists t' m', t <= t' /\ threads (c t') !! i = Some m' /\ settled m').
Proof. intros Hn Hw Ho Ht Hr Hf. split; [by eapply mutex_free|by eapply settles]. Qed.

(** *** A fair run: one request of a controller that admits no helper *)

Definition refused_action : volumeAction := {|
  va_action := actionTypeCreate; va_name := "pvc-1"; va_nodeName := "node"; va_size := 1048576;
  va_lvmType := StripedType; va_provisionerImage := "image"; va_pullPolicy := "Always";
  va_namespace := "ns"; va_vgName := "vg"; va_hostWritePath := "/tmp"; va_srcInfo := None;
  va_helperConfig := {|
    CommandTimeout := CommandTimeout DefaultHelperConfig; PodTimeout := PodTimeout DefaultHelperConfig;
    ThinPoolCreateTimeout := ThinPoolCreateTimeout DefaultHelperConfig;
    ThinPoolPodTimeout := ThinPoolPodTimeout DefaultHelperConfig; MaxActive := 0 |} |}.

(** The answers it gets: the pod is not found, the mutex is free. *)
Definition reply (e : eff) : option (resp e) :=
  match e as e return option (resp e) with
  | PodGet _ _ => Some (Err (mkExt "not found" true false false None None false false))
  | AdmissionLock | AdmissionUnlock => Some tt
  | _ => None
  end.
Definition advance (m : prog (option error)) : prog (option error) :=
  match m with
  | Ret r => Ret r
  | Vis e k => match reply e with Some x => k x | None => Vis e k end
  end.

Definition with_request (o : option nat) (m : prog (option error)) : cluster :=
  {| api := ∅; owner := o; threads := <[0 := m]> ∅ |}.
Definition request_at (n : nat) : prog (option error) :=
  Nat.iter n advance (createVolumeHelper 11 refused_action).
Definition refused_run (t : nat) : cluster :=
  match t with
  | 0 => idle
  | 1 => with_request None (request_at 0)
  | 2 => with_request (Some 0) (request_at 1)
  | 3 => with_request (Some 0) (request_at 2)
  | _ => with_request None (request_at 3)
  end.

Lemma with_request_move c o m o' m' :
  c = with_request o m -> with_request o' m' = {| api := api c; owner := o'; threads := <[0 := m']> (threads c) |}.
Proof. intros ->. unfold with_request. cbn. by rewrite insert_insert_eq. Qed.

(** The request goes on with the reply. *)
Lemma reply_move o m e k x :
  m = Vis e k -> reply e = Some x ->
  match e with
  | AdmissionLock => o = None
  | AdmissionUnlock => True
  | _ => is_lock e = false /\ api_answers ∅ e x ∅
  end ->
  thread_step (with_request o m) 0
    (with_request (match e with AdmissionLock => Some 0 | AdmissionUnlock => None | _ => o end) (advance m)).
Proof.
  intros -> Hx He. unfold advance. rewrite Hx.
  assert (forall o', with_request o' (k x) =
    {| api := ∅; owner := o'; threads := <[0 := k x]> (threads (with_request o (Vis e k))) |}) as Hw
    by (intros o'; exact (with_request_move _ o (Vis e k) o' (k x) eq_refl)).
  rewrite Hw.
  assert (is_lock e = false -> api_answers ∅ e x ∅ -> thread_step (with_request o (Vis e k)) 0
    {| api := ∅; owner := o; threads := <[0 := k x]> (threads (with_request o (Vis e k))) |}) as Hplain
    by (intros H1 H2; exact (thread_effect (with_request o (Vis e k)) 0 e k x ∅ (lookup_insert_eq _ _ _) H1 H2)).
  destruct e; try (destruct He; by apply Hplain).
  - destruct x. subst o. exact (thread_lock (with_request None (Vis AdmissionLock k)) 0 k (lookup_insert_eq _ _ _) eq_refl).
  - destruct x. exact (thread_unlock (with_request o (Vis AdmissionUnlock k)) 0 k (lookup_insert_eq _ _ _)).
Qed.

Lemma refused_moves t : 1 <= t <= 3 -> thread_step (refused_run t) 0 (refused_run (S t)).
Proof.
  intros Ht. assert (t = 1 \/ t = 2 \/ t = 3) as [->|[->| ->]] by lia; cbn [refused_run].
  - by eapply (reply_move None (request_at 0) AdmissionLock).
  - eapply (reply_move (Some 0) (request_at 1) (PodGet "ns" "lvm-create-pvc-1")); [reflexivity..|]. by split.
  - by eapply (reply_move (Some 0) (request_at 2) AdmissionUnlock).
Qed.

Lemma step_of_thread limit c i c' : thread_step c i c' -> cluster_step limit c c'.
Proof. intros []; by econstructor. Qed.

Lemma refused_infinite : infinite_run 0 refused_run.
Proof.
  intros t. destruct t as [|[|[|[|t]]]]; [|left; apply (step_of_thread _ _ 0), refused_moves; lia..|by right].
  left. apply (step_request 0 idle 0); [done|]. by constructor.
Qed.

Lemma refused_pending t i e k : threads (refused_run t) !! i = Some (Vis e k) -> i = 0 /\ 1 <= t <= 3.
Proof.
  intros Hi. destruct (decide (i = 0)) as [->|Hne].
  - split; [done|]. destruct t as [|[|[|[|t]]]]; [done|lia..|].
    cbn [refused_run with_request threads] in Hi. rewrite lookup_insert_eq in Hi. vm_compute in Hi. discriminate Hi.
  - destruct t as [|[|[|[|t]]]]; cbn [refused_run with_request threads idle] in Hi;
      by rewrite ?lookup_insert_ne, lookup_empty in Hi.
Qed.

Lemma refused_fair : fair refused_run.
Proof.
  split; intros t i; [intros e k Hi _ _|intros k Hi _]; apply refused_pending in Hi as [-> Ht];
    exists t; (split; [done|by apply refused_moves]).
Qed.

Lemma requests_progress_witness :
  infinite_run 0 refused_run /\ exists t', 2 <= t' /\ owner (refused_run t') = None.
Proof.
  split; [exact refused_infinite|].
  refine (proj1 (requests_progress 0 refused_run _ _ eq_refl eq_refl refused_infinite refused_fair) 2).
  - intros n p Hp. discriminate Hp.
  - intros node vg. vm_compute. discriminate.
Defined.
