(* ===== verification/Sha256.v ===== *)
(** * crypto/sha256 and the hexadecimal rendering of its sums

    [Sum256] of FIPS 180-4 on a byte string, words as 32-bit values of [Z]; the
    controller names the record of a snapshot by the digest of its handle. *)
From S2P Require Import Prelude GoStrings.

Definition two32 : Z := Eval cbv in (2 ^ 32)%Z.
Definition add32 (a b : Z) : Z := ((a + b) mod two32)%Z.
Definition rotr (n x : Z) : Z :=
  Z.lor (Z.shiftr x n) (Z.shiftl x (32 - n) mod two32)%Z.
Definition not32 (x : Z) : Z := Z.lxor x (two32 - 1).

(** The primes below [n], and the largest [z] of at most [bits] bits whose cube is at
    most [x]. *)
Definition divides (d n : nat) : bool := Nat.eqb (Nat.modulo n d) 0.
Definition is_prime (n : nat) : bool := forallb (fun d => negb (divides d n)) (seq 2 (n - 2)).
Definition primes (n : nat) : list Z := Z.of_nat <$> List.filter is_prime (seq 2 (n - 2)).
Fixpoint cube_root (bits : nat) (acc x : Z) : Z :=
  match bits with
  | O => acc
  | S k => let z := (acc + 2 ^ Z.of_nat k)%Z in
           cube_root k (if (z * z * z <=? x)%Z then z else acc) x
  end.

(** The first 32 bits of the fractional parts of the square roots of the first 8 primes
    and of the cube roots of the first 64. *)
Definition sha_init : list Z :=
  Eval vm_compute in (fun p => (Z.sqrt (p * 2 ^ 64) mod two32)%Z) <$> take 8 (primes 312).
Definition sha_k : list Z :=
  Eval vm_compute in (fun p => (cube_root 35 0 (p * 2 ^ 96) mod two32)%Z) <$> primes 312.

Fixpoint byte_values (s : string) : list Z :=
  match s with EmptyString => [] | String a s => Z.of_nat (Ascii.nat_of_ascii a) :: byte_values s end.

(** [n] big-endian bytes of [z]. *)
Fixpoint be_bytes (n : nat) (z : Z) : list Z :=
  match n with O => [] | S k => (be_bytes k (z / 256) ++ [(z mod 256)%Z])%list end.

(** The message with a one bit, zeros up to 56 modulo 64 bytes, and its length in bits. *)
Definition pad (m : list Z) : list Z :=
  let len := length m in
  let zeros := Z.to_nat ((55 - Z.of_nat len) mod 64) in
  (m ++ [128%Z] ++ repeat 0%Z zeros ++ be_bytes 8 (8 * Z.of_nat len))%list.

Fixpoint words (l : list Z) : list Z :=
  match l with
  | a :: b :: c :: d :: rest => (((a * 256 + b) * 256 + c) * 256 + d)%Z :: words rest
  | _ => []
  end.

(** Blocks of sixteen words. *)
Fixpoint blocks (fuel : nat) (l : list Z) : list (list Z) :=
  match fuel, l with S fuel, _ :: _ => take 16 l :: blocks fuel (drop 16 l) | _, _ => [] end.

(** The message schedule, newest word first. *)
Fixpoint schedule (n : nat) (w : list Z) : list Z :=
  match n with
  | O => w
  | S n =>
      let at_ i := nth i w 0%Z in
      let s0 := let x := at_ 14 in Z.lxor (Z.lxor (rotr 7 x) (rotr 18 x)) (Z.shiftr x 3) in
      let s1 := let x := at_ 1 in Z.lxor (Z.lxor (rotr 17 x) (rotr 19 x)) (Z.shiftr x 10) in
      schedule n (add32 (add32 (at_ 15) s0) (add32 (at_ 6) s1) :: w)
  end.

Definition round (h : list Z) (kw : Z * Z) : list Z :=
  match h with
  | [a; b; c; d; e; f; g; hh] =>
      let s1 := Z.lxor (Z.lxor (rotr 6 e) (rotr 11 e)) (rotr 25 e) in
      let ch := Z.lxor (Z.land e f) (Z.land (not32 e) g) in
      let t1 := add32 (add32 hh s1) (add32 ch (add32 (fst kw) (snd kw))) in
      let s0 := Z.lxor (Z.lxor (rotr 2 a) (rotr 13 a)) (rotr 22 a) in
      let maj := Z.lxor (Z.lxor (Z.land a b) (Z.land a c)) (Z.land b c) in
      [add32 t1 (add32 s0 maj); a; b; c; add32 d t1; e; f; g]
  | _ => h
  end.

Definition compress (h block : list Z) : list Z :=
  let w := List.rev (schedule 48 (List.rev block)) in
  zip_with add32 h (foldl round h (zip sha_k w)).

(** [sha256.Sum256] as its bytes. *)
Definition sum256 (s : string) : list Z :=
  let w := words (pad (byte_values s)) in
  concat (be_bytes 4 <$> foldl compress sha_init (blocks (length w) w))%list.

Definition hex_digit (n : Z) : ascii :=
  if (n <? 10)%Z then byte_of (48 + Z.to_nat n) else byte_of (87 + Z.to_nat n).

(** [fmt.Sprintf("%x", bytes)] *)
Fixpoint hex (l : list Z) : string :=
  match l with
  | [] => ""
  | b :: l => String (hex_digit (b / 16)) (String (hex_digit (b mod 16)) (hex l))
  end.

#[global] Arguments sum256 : simpl never.

Example sum256_empty :
  hex (sum256 "") = "e3b0c44298fc1c149afbf4c8996fb92427ae41e4649b934ca495991b7852b855".
Proof. vm_compute. reflexivity. Qed.
Example sum256_abc :
  hex (sum256 "abc") = "ba7816bf8f01cfea414140de5dae2223b00361a396177a9cb410ff61f20015ad".
Proof. vm_compute. reflexivity. Qed.
Example sum256_two_blocks :
  hex (sum256 "abcdbcdecdefdefgefghfghighijhijkijkljklmklmnlmnomnopnopq")
  = "248d6a61d20638b8e5c026930c3e6039a33ce45964ff2167f6ecedd419db06c1".
Proof. vm_compute. reflexivity. Qed.
