(* ===== verification/Controller.v ===== *)
(** * The controller service: controllerserver.go

    Each handler checks its request, finds the node and volume group of the objects
    it names in the Kubernetes API, and runs a helper pod there.  The location of a
    snapshot is kept in an immutable ConfigMap of its own, so that it survives the
    VolumeSnapshotContent. *)
From S2P Require Import Prelude GoStrings Errors Objects Effects Config Validation HelperPod Sha256.

(** The three clients of a server are its [eff]ects; the other fields: *)
Record controllerServer := {
  caps : list Z; cs_nodeID : string; cs_hostWritePath : string; cs_provisionerImage : string;
  cs_pullPolicy : string; cs_namespace : string; cs_helperConfig : HelperConfig }.

Definition snapshotNodeAnnotation := "lvm.driver.harvesterhci.io/nodeName".
Definition snapshotVGAnnotation := "lvm.driver.harvesterhci.io/vgName".
Definition snapshotLocationConfigMapPrefix := "csi-lvm-snapshot-location-".
Definition snapshotLocationLabel := "lvm.driver.harvesterhci.io/snapshot-location".
Definition snapshotLocationHandleKey := "snapshotHandle".
Definition snapshotLocationNodeKey := "nodeName".
Definition snapshotLocationVGKey := "vgName".

(** ** Capabilities *)

(** [ControllerServiceCapability_RPC_Type] *)
Definition RPC_UNKNOWN : Z := 0.
Definition RPC_CREATE_DELETE_VOLUME : Z := 1.
Definition RPC_CREATE_DELETE_SNAPSHOT : Z := 5.
Definition RPC_CLONE_VOLUME : Z := 7.

Definition getControllerServiceCapabilities (cl : list Z) : list Z := cl.

(** [clients]: the error of making the Kubernetes clients, if any. *)
Definition newControllerServer (clients : option ext_error)
    (nodeID hostWritePath namespace provisionerImage pullPolicy : string)
    (helperConfig : HelperConfig) : result error controllerServer :=
  match clients with
  | Some e => Err (Ext e)
  | None => Ok {|
      caps := getControllerServiceCapabilities
                [RPC_CREATE_DELETE_VOLUME; RPC_CREATE_DELETE_SNAPSHOT; RPC_CLONE_VOLUME];
      cs_nodeID := nodeID; cs_hostWritePath := hostWritePath;
      cs_provisionerImage := provisionerImage; cs_pullPolicy := pullPolicy;
      cs_namespace := namespace; cs_helperConfig := helperConfig |}
  end.

(** ** Snapshot locations *)

Record snapshotLocation := { loc_handle : string; loc_nodeName : string; loc_vgName : string }.

#[export] Instance snapshotLocation_eq_dec : EqDecision snapshotLocation.
Proof. solve_decision. Defined.

Definition snapshotLocationConfigMapName (snapshotID : string) : string :=
  snapshotLocationConfigMapPrefix +:+ hex (sum256 snapshotID).

(** [snapshotLocation.validate] *)
Definition validate_location (location : snapshotLocation) : result error unit :=
  reject (loc_handle location =s "") || (loc_nodeName location =s "") || (loc_vgName location =s "")
    with Errorf "snapshot handle, node name, and volume group are required" [];
  let! _ := validateVGName (loc_vgName location) in
  Ok tt.

(** [snapshotLocation.configMap] *)
Definition location_configMap (location : snapshotLocation) (ns : string) : config_map := {|
  cm_name := snapshotLocationConfigMapName (loc_handle location);
  cm_namespace := ns;
  cm_labels := {[snapshotLocationLabel := "true"]};
  cm_immutable := Some true;
  cm_data := {[snapshotLocationHandleKey := loc_handle location;
               snapshotLocationNodeKey := loc_nodeName location;
               snapshotLocationVGKey := loc_vgName location]} |}.

Definition snapshotLocationFromConfigMap (configMap : option config_map) (snapshotID : string) :
    result error snapshotLocation :=
  match configMap with
  | None => Err (Errorf "snapshot location ConfigMap is nil" [])
  | Some configMap =>
      reject negb (mget (cm_labels configMap) snapshotLocationLabel =s "true")
        with Errorf "ConfigMap %q is not a snapshot location record" [AStr (cm_name configMap)];
      let recorded := {|
        loc_handle := mget (cm_data configMap) snapshotLocationHandleKey;
        loc_nodeName := mget (cm_data configMap) snapshotLocationNodeKey;
        loc_vgName := mget (cm_data configMap) snapshotLocationVGKey |} in
      reject negb (loc_handle recorded =s snapshotID)
        with Errorf "ConfigMap %q records snapshot handle %q, expected %q"
               [AStr (cm_name configMap); AStr (loc_handle recorded); AStr snapshotID];
      let! _ := map_err (Wrapf "ConfigMap %q has an invalid snapshot location: %w"
                           [AStr (cm_name configMap)]) (validate_location recorded) in
      Ok recorded
  end.

(** The answer of [ValidateVolumeCapabilities]: confirmed, or not with the reason. *)
Inductive capabilities_response :=
| Confirmed (context : gmap string string) (capabilities : list (option volume_capability))
    (parameters : gmap string string)
| NotConfirmed (message : error).

Section controller.
Variable cs : controllerServer.
(** The number of times a helper pod may be polled. *)
Variable fuel : nat.
Let namespace := cs_namespace cs.

Definition recordSnapshotLocation (snapshotID nodeName vgName : string) : prog (option error) :=
  let configMapName := snapshotLocationConfigMapName snapshotID in
  let desired := {| loc_handle := snapshotID; loc_nodeName := nodeName; loc_vgName := vgName |} in
  match validate_location desired with
  | Err e => Ret (Some (Status FailedPrecondition "invalid location for snapshot %q (ConfigMap %q): %v"
                          [AStr snapshotID; AStr configMapName; AErr e]))
  | Ok _ =>
      let* err := call (ConfigMapCreate namespace (location_configMap desired namespace)) in
      match err with
      | None => Ret None
      | Some e =>
          if negb (is_already_exists (Ext e)) then
            Ret (Some (Status Unavailable "failed to create location ConfigMap %q for snapshot %q: %v"
                         [AStr configMapName; AStr snapshotID; AErr (Ext e)]))
          else
            let* r := call (ConfigMapGet namespace configMapName) in
            match r with
            | Err e => Ret (Some (Status Unavailable "failed to get location ConfigMap %q for snapshot %q: %v"
                                    [AStr configMapName; AStr snapshotID; AErr (Ext e)]))
            | Ok existing =>
                match snapshotLocationFromConfigMap existing snapshotID with
                | Err e => Ret (Some (Status FailedPrecondition "invalid location ConfigMap %q for snapshot %q: %v"
                                        [AStr configMapName; AStr snapshotID; AErr e]))
                | Ok actual =>
                    if negb (bool_decide (actual = desired)) then
                      Ret (Some (Status AlreadyExists
                        "snapshot %q location ConfigMap %q already records %q/%q, requested %q/%q"
                        [AStr snapshotID; AStr configMapName; AStr (loc_nodeName actual);
                         AStr (loc_vgName actual); AStr (loc_nodeName desired);
                         AStr (loc_vgName desired)]))
                    else Ret None
                end
            end
      end
  end.

(** [None] for [found] being false; otherwise node and volume group. *)
Definition lookupSnapshotLocation (snapshotID : string) :
    prog (result error (option (string * string))) :=
  let name := snapshotLocationConfigMapName snapshotID in
  let* r := call (ConfigMapGet namespace name) in
  match r with
  | Err e => if is_not_found (Ext e) then Ret (Ok None) else Ret (Err (Ext e))
  | Ok location =>
      match snapshotLocationFromConfigMap location snapshotID with
      | Err e => Ret (Err e)
      | Ok recorded => Ret (Ok (Some (loc_nodeName recorded, loc_vgName recorded)))
      end
  end.

Definition forgetSnapshotLocation (snapshotID : string) : prog (option error) :=
  let* err := call (ConfigMapDelete namespace (snapshotLocationConfigMapName snapshotID)) in
  match err with
  | Some e => if is_not_found (Ext e) then Ret None else Ret (Some (Ext e))
  | None => Ret None
  end.

Definition recordedLocation (snapshotID : string) : prog (result error (option snapshotLocation)) :=
  let* r := lookupSnapshotLocation snapshotID in
  match r with
  | Err e => Ret (Err (Status Unavailable "failed to look up recorded location for snapshot %q: %v"
                         [AStr snapshotID; AErr e]))
  | Ok None => Ret (Ok None)
  | Ok (Some (nodeName, vgName)) =>
      Ret (Ok (Some {| loc_handle := snapshotID; loc_nodeName := nodeName; loc_vgName := vgName |}))
  end.

Definition pvLocation (snapshotID volumeID : string) : prog (result error snapshotLocation) :=
  let* r := call (PersistentVolumeGet volumeID) in
  match r with
  | Err e =>
      if is_not_found (Ext e) then Ret (Err (Ext e))
      else Ret (Err (Status Unavailable "failed to get source volume %q: %v"
                       [AStr volumeID; AErr (Ext e)]))
  | Ok volume =>
      let? (nodeName, vgName, _) := metadataFromPV volume in
      Ret (Ok {| loc_handle := snapshotID; loc_nodeName := nodeName; loc_vgName := vgName |})
  end.

(** [None]: neither the source volume nor a record exists. *)
Definition dynamicSnapshotLocation (snapshotID volumeID : string) :
    prog (result error (option snapshotLocation)) :=
  let* r := pvLocation snapshotID volumeID in
  match r with
  | Ok location => Ret (Ok (Some location))
  | Err pvErr =>
      if bool_decide (status_code pvErr = Unavailable) then Ret (Err pvErr)
      else
        let* r := recordedLocation snapshotID in
        match r with
        | Err e => Ret (Err e)
        | Ok (Some location) => Ret (Ok (Some location))
        | Ok None =>
            if is_not_found pvErr then Ret (Ok None)
            else Ret (Err (Status FailedPrecondition "%v; snapshot %q has no recorded location"
                             [AErr pvErr; AStr snapshotID]))
        end
  end.

Definition resolvePreExistingSnapshotLocation (snapshotID : string) (content : snapshot_content) :
    prog (result error snapshotLocation) :=
  let nodeName := mget (sc_annotations content) snapshotNodeAnnotation in
  let vgName := mget (sc_annotations content) snapshotVGAnnotation in
  if negb (Bool.eqb (nodeName =s "") (vgName =s "")) then
    Ret (Err (Status FailedPrecondition
      "pre-existing snapshot %q has incomplete location annotations; both %q and %q are required"
      [AStr snapshotID; AStr snapshotNodeAnnotation; AStr snapshotVGAnnotation]))
  else if negb (nodeName =s "") then
    match validateVGName vgName with
    | Err e => Ret (Err (Status FailedPrecondition
                 "pre-existing snapshot %q has an invalid volume group: %v" [AStr snapshotID; AErr e]))
    | Ok _ => Ret (Ok {| loc_handle := snapshotID; loc_nodeName := nodeName; loc_vgName := vgName |})
    end
  else
    let* r := lookupSnapshotLocation snapshotID in
    match r with
    | Err e => Ret (Err (Status Unavailable "failed to look up location for snapshot %q: %v"
                           [AStr snapshotID; AErr e]))
    | Ok None => Ret (Err (Status FailedPrecondition
        "pre-existing snapshot %q has no recorded location; add annotations %q and %q"
        [AStr snapshotID; AStr snapshotNodeAnnotation; AStr snapshotVGAnnotation]))
    | Ok (Some (nodeName, vgName)) =>
        Ret (Ok {| loc_handle := snapshotID; loc_nodeName := nodeName; loc_vgName := vgName |})
    end.

(** ** Actions *)

Definition newCreateVolumeAction (name node lvmType vgName : string) (size : Z) : volumeAction := {|
  va_action := actionTypeCreate; va_name := name; va_nodeName := node; va_size := size;
  va_lvmType := lvmType; va_provisionerImage := cs_provisionerImage cs;
  va_pullPolicy := cs_pullPolicy cs; va_namespace := namespace; va_vgName := vgName;
  va_hostWritePath := cs_hostWritePath cs; va_srcInfo := None;
  va_helperConfig := cs_helperConfig cs |}.

Definition newDeleteVolumeAction (volumeID nodeName vgName lvmType : string) : volumeAction := {|
  va_action := actionTypeDelete; va_name := volumeID; va_nodeName := nodeName; va_size := 0;
  va_lvmType := ""; va_provisionerImage := cs_provisionerImage cs;
  va_pullPolicy := cs_pullPolicy cs; va_namespace := namespace; va_vgName := vgName;
  va_hostWritePath := cs_hostWritePath cs;
  va_srcInfo := Some {| srcLVName := volumeID; srcVGName := vgName; srcType := lvmType |};
  va_helperConfig := cs_helperConfig cs |}.

Definition newCloneVolumeAction (source : option srcInfo)
    (srcNode dstName dstNode dstLVType dstVGName : string) (srcSize dstSize : Z) :
    result error volumeAction :=
  match source with
  | None => Err (Status FailedPrecondition "clone source is nil" [])
  | Some source =>
      reject (dstSize <? srcSize)%Z
        with Status InvalidArgument
          "source/snapshot volume size(%v) is larger than destination volume size(%v)"
          [AInt srcSize; AInt dstSize];
      reject negb (srcNode =s dstNode)
        with Status InvalidArgument
          "source node %q and destination node %q are different (not supported)"
          [AStr srcNode; AStr dstNode];
      Ok {|
        va_action := actionTypeClone; va_name := dstName; va_nodeName := dstNode;
        va_size := dstSize; va_lvmType := dstLVType;
        va_provisionerImage := cs_provisionerImage cs; va_pullPolicy := cs_pullPolicy cs;
        va_namespace := namespace; va_vgName := dstVGName;
        va_hostWritePath := cs_hostWritePath cs; va_srcInfo := Some source;
        va_helperConfig := cs_helperConfig cs |}
  end.

Definition generateVolumeActionForClone (srcVol : option persistent_volume)
    (srcLVName dstName dstNode dstLVType dstVGName : string) (srcSize dstSize : Z) :
    result error volumeAction :=
  match metadataFromPV srcVol with
  | Err e => Err (status_error FailedPrecondition e)
  | Ok (srcNode, srcVGName, srcLVMType) =>
      newCloneVolumeAction
        (Some {| srcLVName := srcLVName; srcVGName := srcVGName; srcType := srcLVMType |})
        srcNode dstName dstNode dstLVType dstVGName srcSize dstSize
  end.

Definition newCreateSnapshotAction (snapshotName volumeID nodeName vgName lvmType : string)
    (size : Z) : snapshotAction := {|
  sa_action := actionTypeCreate; sa_srcVolName := volumeID; sa_nodeName := nodeName;
  sa_snapshotName := snapshotName; sa_snapSize := size;
  sa_provisionerImage := cs_provisionerImage cs; sa_pullPolicy := cs_pullPolicy cs;
  sa_namespace := namespace; sa_vgName := vgName; sa_lvType := lvmType;
  sa_hostWritePath := cs_hostWritePath cs; sa_helperConfig := cs_helperConfig cs |}.

Definition newDeleteSnapshotAction (snapshotID nodeName vgName : string) : snapshotAction := {|
  sa_action := actionTypeDelete; sa_srcVolName := ""; sa_nodeName := nodeName;
  sa_snapshotName := snapshotID; sa_snapSize := 0;
  sa_provisionerImage := cs_provisionerImage cs; sa_pullPolicy := cs_pullPolicy cs;
  sa_namespace := namespace; sa_vgName := vgName; sa_lvType := "";
  sa_hostWritePath := cs_hostWritePath cs; sa_helperConfig := cs_helperConfig cs |}.

(** ** Creating volumes *)

Definition names_snapshot (snapshotID : string) (content : snapshot_content) : bool :=
  match sc_status content ≫= ss_handle with Some h => h =s snapshotID | None => false end ||
  match sc_snapshot_handle content with Some h => h =s snapshotID | None => false end.

(** [None] for a nil content. *)
Definition getSnapshotContent (snapshotID : string) :
    prog (result error (option snapshot_content)) :=
  let* r := call SnapshotContentList in
  match r with
  | Err e => Ret (Err (Status Unavailable "failed to list snapshot contents: %v" [AErr (Ext e)]))
  | Ok contents => Ret (Ok (List.find (names_snapshot snapshotID) contents))
  end.

(** [if err := createVolumeHelper(ctx, va); err != nil { return err }; return nil] *)
Definition run_volume_action (action : result error volumeAction) : prog (option error) :=
  match action with
  | Err e => Ret (Some e)
  | Ok action => try (createVolumeHelper fuel action) Some (Ret None)
  end.

Definition preProvisionedSnapshotCloneAction (snapContent : option snapshot_content)
    (dstName dstNode dstLVType dstVGName : string) (dstSize : Z) :
    prog (result error volumeAction) :=
  match preProvisionedSnapshotMetadata snapContent, snapContent with
  | Err e, _ => Ret (Err (status_error FailedPrecondition e))
  | Ok (snapshotID, restoreSize), Some content =>
      let*! location := resolvePreExistingSnapshotLocation snapshotID content in
      let restoreSize := if (restoreSize =? 0)%Z then dstSize else restoreSize in
      let source := {| srcLVName := "lvm-" +:+ snapshotID; srcVGName := loc_vgName location;
                       srcType := dstLVType |} in
      Ret (newCloneVolumeAction (Some source) (loc_nodeName location)
             dstName dstNode dstLVType dstVGName restoreSize dstSize)
  | Ok _, None => Ret (Err (status_error FailedPrecondition (Errorf "snapshot content is nil" [])))
  end.

Definition cloneFromPreProvisionedSnapshot (snapContent : option snapshot_content)
    (dstName dstNode dstLVType dstVGName : string) (dstSize : Z) : prog (option error) :=
  let* action := preProvisionedSnapshotCloneAction snapContent dstName dstNode dstLVType dstVGName dstSize in
  run_volume_action action.

(** [persistentVolumes.Get] of a source volume, its errors as gRPC statuses. *)
Definition get_source_volume (volumeID : string) :
    prog (result error (option persistent_volume)) :=
  let* r := call (PersistentVolumeGet volumeID) in
  match r with
  | Err e =>
      if is_not_found (Ext e) then Ret (Err (Status NotFound "source volume %q not found" [AStr volumeID]))
      else Ret (Err (Status Unavailable "failed to get source volume %q: %v" [AStr volumeID; AErr (Ext e)]))
  | Ok volume => Ret (Ok volume)
  end.

Definition cloneFromDynamicSnapshot (snapContent : option snapshot_content)
    (dstName dstNode dstLVType dstVGName : string) (dstSize : Z) : prog (option error) :=
  match metadataFromSnapshotContent snapContent with
  | Err e => Ret (Some (status_error FailedPrecondition e))
  | Ok (sourceVolumeID, snapshotID, restoreSize) =>
      let* r := get_source_volume sourceVolumeID in
      match r with
      | Err e => Ret (Some e)
      | Ok srcVol =>
          let snapshotLVName := "lvm-" +:+ snapshotID in
          run_volume_action (generateVolumeActionForClone srcVol snapshotLVName dstName dstNode
                               dstLVType dstVGName restoreSize dstSize)
      end
  end.

Definition cloneFromSnapshot (snapContent : option snapshot_content)
    (dstName dstNode dstLVType dstVGName : string) (dstSize : Z) : prog (option error) :=
  match snapContent with
  | None => Ret (Some (Status FailedPrecondition "snapshot content is nil" []))
  | Some content =>
      match sc_volume_handle content with
      | None => cloneFromPreProvisionedSnapshot snapContent dstName dstNode dstLVType dstVGName dstSize
      | Some _ => cloneFromDynamicSnapshot snapContent dstName dstNode dstLVType dstVGName dstSize
      end
  end.

Definition cloneFromSnapshotSource (snapshotID dstName dstNode dstLVMType dstVGName : string)
    (dstSize : Z) : prog (option error) :=
  if snapshotID =s "" then Ret (Some (Status InvalidArgument "source snapshot ID is empty" []))
  else
    let* r := getSnapshotContent snapshotID in
    match r with
    | Err e => Ret (Some e)
    | Ok None => Ret (Some (Status NotFound "source snapshot %q not found" [AStr snapshotID]))
    | Ok (Some content) =>
        cloneFromSnapshot (Some content) dstName dstNode dstLVMType dstVGName dstSize
    end.

Definition cloneFromVolume (srcVol : option persistent_volume)
    (dstName dstNode dstLVType dstVGName : string) (dstSize : Z) : prog (option error) :=
  match requiredBytesFromPersistentVolume srcVol with
  | Err e => Ret (Some (status_error FailedPrecondition e))
  | Ok srcSize =>
      let srcLVName := match srcVol with Some v => pv_name v | None => "" end in
      run_volume_action (generateVolumeActionForClone srcVol srcLVName dstName dstNode dstLVType
                           dstVGName srcSize dstSize)
  end.

Definition cloneFromVolumeSource (volumeID dstName dstNode dstLVMType dstVGName : string)
    (dstSize : Z) : prog (option error) :=
  if volumeID =s "" then Ret (Some (Status InvalidArgument "source volume ID is empty" []))
  else
    let* r := get_source_volume volumeID in
    match r with
    | Err e => Ret (Some e)
    | Ok volume => cloneFromVolume volume dstName dstNode dstLVMType dstVGName dstSize
    end.

Definition cloneFromContentSource (source : option content_source)
    (dstName dstNode dstLVMType dstVGName : string) (dstSize : Z) : prog (option error) :=
  match source with
  | None => Ret (Some (Status InvalidArgument "volume content source is nil" []))
  | Some (SourceSnapshot id) => cloneFromSnapshotSource id dstName dstNode dstLVMType dstVGName dstSize
  | Some (SourceVolume id) => cloneFromVolumeSource id dstName dstNode dstLVMType dstVGName dstSize
  | Some SourceNone => Ret (Some (Status InvalidArgument "%v not a proper volume source" []))
  end.

Definition provisionVolume (req : create_volume_request) (node lvmType vgName : string)
    (requiredBytes : Z) : prog (option error) :=
  match cv_source req with
  | Some source =>
      cloneFromContentSource (Some source) (cv_name req) node lvmType vgName requiredBytes
  | None =>
      let action := newCreateVolumeAction (cv_name req) node lvmType vgName requiredBytes in
      try (createVolumeHelper fuel action) Some (Ret None)
  end.

Definition validateControllerServiceRequest (c : Z) : result error unit :=
  if (c =? RPC_UNKNOWN)%Z then Ok tt
  else if existsb (fun cap => (c =? cap)%Z) (caps cs) then Ok tt
  else Err (Status InvalidArgument "unsupported capability %s" [AInt c]).

(** The checks of [CreateVolume]: (type, group, size, node, topology). *)
Definition create_volume_checks (req : create_volume_request) :
    result error (string * string * Z * string * list (gmap string string)) :=
  let! _ := validateControllerServiceRequest RPC_CREATE_DELETE_VOLUME in
  reject (cv_name req =s "") with Status InvalidArgument "Name missing in request" [];
  let! _ := map_err (status_error InvalidArgument) (validateVolumeCapabilities (cv_capabilities req)) in
  let! (lvmType, vgName) := map_err (status_error InvalidArgument) (parseLVMParameters (cv_parameters req)) in
  let! requiredBytes := map_err (status_error InvalidArgument) (validateCapacityRange (cv_capacity req)) in
  let! (node, topology) :=
    map_err (status_error InvalidArgument) (topologyFromAccessibility (cv_accessibility req)) in
  Ok (lvmType, vgName, requiredBytes, node, topology).

Definition CreateVolume (req : create_volume_request) : prog (result error csi_volume) :=
  let? (lvmType, vgName, requiredBytes, node, topology) := create_volume_checks req in
  let volumeContext := buildVolumeContext (cv_parameters req) requiredBytes in
  let* err := provisionVolume req node lvmType vgName requiredBytes in
  match err with
  | Some e => Ret (Err e)
  | None => Ret (Ok {| v_id := cv_name req; v_capacity := requiredBytes;
                       v_context := volumeContext; v_source := cv_source req;
                       v_topology := topology |})
  end.

(** ** Deleting volumes *)

Definition persistentVolumeForDeletion (volumeID : string) :
    prog (result error (option persistent_volume)) :=
  let* r := call (PersistentVolumeGet volumeID) in
  match r with
  | Err e =>
      if is_not_found (Ext e) then Ret (Ok None)
      else Ret (Err (Status Unavailable "failed to get volume %q: %v" [AStr volumeID; AErr (Ext e)]))
  | Ok volume => Ret (Ok volume)
  end.

Definition nodeAvailableForDeletion (nodeName volumeID : string) : prog (result error bool) :=
  let* err := call (NodeGet nodeName) in
  match err with
  | Some e =>
      if is_not_found (Ext e) then Ret (Ok false)
      else Ret (Err (Status Unavailable "failed to get node %q: %v" [AStr nodeName; AErr (Ext e)]))
  | None => Ret (Ok true)
  end.

Definition DeleteVolume (req : delete_volume_request) : prog (result error unit) :=
  let? _ := map_err (status_error InvalidArgument) (validateDeleteVolumeRequest req) in
  let? _ := validateControllerServiceRequest RPC_CREATE_DELETE_VOLUME in
  let volID := dv_id req in
  let*! volume := persistentVolumeForDeletion volID in
  match volume with
  | None => Ret (Ok tt)
  | Some volume =>
      let? (nodeName, vgName, lvmType) :=
        map_err (status_error FailedPrecondition) (metadataFromPV (Some volume)) in
      let*! nodeAvailable := nodeAvailableForDeletion nodeName volID in
      if negb nodeAvailable then Ret (Ok tt)
      else
        let va := newDeleteVolumeAction volID nodeName vgName lvmType in
        try (createVolumeHelper fuel va) Err (Ret (Ok tt))
  end.

(** ** Snapshots *)

Definition newCreateSnapshotResponse (snapshotName volumeID : string) (size : Z) : prog csi_snapshot :=
  let* now := call UnixNow in
  Ret {| sn_id := snapshotName; sn_source := volumeID; sn_size := size; sn_created := now;
         sn_ready := true |}.

Definition CreateSnapshot (req : create_snapshot_request) : prog (result error csi_snapshot) :=
  let? (snapshotName, volumeID) :=
    map_err (status_error InvalidArgument) (validateCreateSnapshotRequest req) in
  let*! volume := get_source_volume volumeID in
  let? (nodeName, vgName, lvmType) := map_err (status_error FailedPrecondition) (metadataFromPV volume) in
  let? snapSize := map_err (status_error FailedPrecondition) (requiredBytesFromPersistentVolume volume) in
  try (recordSnapshotLocation snapshotName nodeName vgName) Err
    (let action := newCreateSnapshotAction snapshotName volumeID nodeName vgName lvmType snapSize in
     try (createSnapshotHelper fuel action) Err
       (let* snapshot := newCreateSnapshotResponse snapshotName volumeID snapSize in
        Ret (Ok snapshot))).

Definition deletePreExistingSnapshotAction (snapshotID : string) (content : snapshot_content) :
    prog (result error (option snapshotAction)) :=
  if default "" (sc_snapshot_handle content) =s "" then
    Ret (Err (Status FailedPrecondition "snapshot content %q has no source handle"
                [AStr (sc_name content)]))
  else
    let*! location := resolvePreExistingSnapshotLocation snapshotID content in
    Ret (Ok (Some (newDeleteSnapshotAction snapshotID (loc_nodeName location) (loc_vgName location)))).

Definition deleteDynamicSnapshotAction (snapshotID volumeID : string) :
    prog (result error (option snapshotAction)) :=
  if volumeID =s "" then
    Ret (Err (Status FailedPrecondition "snapshot %q has an empty source volume handle"
                [AStr snapshotID]))
  else
    let*! location := dynamicSnapshotLocation snapshotID volumeID in
    match location with
    | None => Ret (Ok None)
    | Some location =>
        Ret (Ok (Some (newDeleteSnapshotAction snapshotID (loc_nodeName location) (loc_vgName location))))
    end.

(** [Ok None]: there is nothing to delete. *)
Definition deleteSnapshotAction (snapshotID : string) (content : option snapshot_content) :
    prog (result error (option snapshotAction)) :=
  match content with
  | None => Ret (Err (Status FailedPrecondition "snapshot content is nil" []))
  | Some content =>
      match sc_volume_handle content with
      | None => deletePreExistingSnapshotAction snapshotID content
      | Some volumeHandle => deleteDynamicSnapshotAction snapshotID volumeHandle
      end
  end.

Definition DeleteSnapshot (req : delete_snapshot_request) : prog (result error unit) :=
  let snapName := ds_id req in
  if snapName =s "" then Ret (Err (Status InvalidArgument "snapshot ID missing in request" []))
  else
    let*! snapContent := getSnapshotContent snapName in
    match snapContent with
    | None => Ret (Ok tt)
    | Some _ =>
        let*! action := deleteSnapshotAction snapName snapContent in
        match action with
        | None => Ret (Ok tt)
        | Some action =>
            try (createSnapshotHelper fuel action) Err
              (let* _ := forgetSnapshotLocation snapName in Ret (Ok tt))
        end
    end.

(** ** The other calls *)

Definition ControllerGetCapabilities : list Z := caps cs.

Definition ValidateVolumeCapabilities (req : validate_capabilities_request) :
    result error capabilities_response :=
  reject (vq_id req =s "") with Status InvalidArgument "Volume ID cannot be empty" [];
  match vq_capabilities req with
  | [] => Err (Status InvalidArgument "%s" [AStr (vq_id req)])
  | _ =>
      match validateVolumeCapabilities (vq_capabilities req) with
      | Err e => Ok (NotConfirmed e)
      | Ok _ => Ok (Confirmed (vq_context req) (vq_capabilities req) (vq_parameters req))
      end
  end.
End controller.

(** The calls the controller does not implement. *)
Definition unimplemented : result error unit := Err (Status Unimplemented "" []).
Definition ControllerPublishVolume : result error unit := unimplemented.
Definition ControllerUnpublishVolume : result error unit := unimplemented.
Definition GetCapacity : result error unit := unimplemented.
Definition ListVolumes : result error unit := unimplemented.
Definition ListSnapshots : result error unit := unimplemented.
Definition ControllerExpandVolume : result error unit := unimplemented.
Definition ControllerGetVolume : result error unit := unimplemented.
Definition ControllerModifyVolume : result error unit := unimplemented.

#[global] Arguments recordSnapshotLocation : simpl never.
#[global] Arguments lookupSnapshotLocation : simpl never.
#[global] Arguments forgetSnapshotLocation : simpl never.
#[global] Arguments recordedLocation : simpl never.
#[global] Arguments pvLocation : simpl never.
#[global] Arguments dynamicSnapshotLocation : simpl never.
#[global] Arguments resolvePreExistingSnapshotLocation : simpl never.
#[global] Arguments newCloneVolumeAction : simpl never.
#[global] Arguments generateVolumeActionForClone : simpl never.
#[global] Arguments getSnapshotContent : simpl never.
#[global] Arguments run_volume_action : simpl never.
#[global] Arguments get_source_volume : simpl never.
#[global] Arguments preProvisionedSnapshotCloneAction : simpl never.
#[global] Arguments cloneFromSnapshot : simpl never.
#[global] Arguments cloneFromVolume : simpl never.
#[global] Arguments provisionVolume : simpl never.
#[global] Arguments create_volume_checks : simpl never.
#[global] Arguments deleteSnapshotAction : simpl never.
#[global] Arguments snapshotLocationFromConfigMap : simpl never.
#[global] Arguments snapshotLocationConfigMapName : simpl never.
#[global] Arguments validate_location : simpl never.
