(* ===== verification/ControllerSpec.v ===== *)
(** * What the controller's answers mean

    The handlers against a Kubernetes API that has definite objects but may fail any
    request: a positive answer implies that the objects were there and that the right
    helper pod was seen to succeed, and no handler touches any other pod or record.
    The objects a request reads stay as they are while it runs, except for what it
    writes itself. *)
From S2P Require Import Prelude GoStrings Errors Objects Effects Config Validation Paths HelperPod HelperSpec Sha256 Controller.

(** ** The world of a request *)

Record objects := {
  o_pvs : gmap string persistent_volume; o_nodes : gset string;
  o_cms : gmap string config_map; o_contents : list snapshot_content }.

Definition world : Type := objects * request.

Definition with_cms (o : objects) (cms : gmap string config_map) : objects :=
  {| o_pvs := o_pvs o; o_nodes := o_nodes o; o_cms := cms; o_contents := o_contents o |}.

(** A read answers with the object, with [NotFound] only if there is none, or fails. *)
Definition answers_get {A} (m : gmap string A) (n : string) (r : result ext_error (option A)) : Prop :=
  match r with Ok o => o = m !! n /\ is_Some o | Err e => ext_not_found e = true -> m !! n = None end.

Definition world_step (w : world) (e : eff) : resp e -> world -> Prop :=
  let '(o, s) := w in
  match e as e return resp e -> world -> Prop with
  | PersistentVolumeGet n => fun r w' => w' = w /\ answers_get (o_pvs o) n r
  | NodeGet n => fun r w' => w' = w /\
      match r with None => n ∈ o_nodes o | Some e => ext_not_found e = true -> n ∉ o_nodes o end
  | ConfigMapGet _ n => fun r w' => w' = w /\ answers_get (o_cms o) n r
  | ConfigMapCreate _ cm => fun r w' =>
      let created := o_cms o !! cm_name cm = None /\ w' = (with_cms o (<[cm_name cm := cm]> (o_cms o)), s) in
      match r with
      | None => created
      | Some e => (w' = w \/ created) /\ (ext_already_exists e = true -> w' = w)
      end
  | ConfigMapDelete _ n => fun r w' =>
      let deleted := w' = (with_cms o (delete n (o_cms o)), s) in
      match r with
      | None => deleted
      | Some e => (w' = w \/ deleted) /\ (ext_not_found e = true -> o_cms o !! n = None)
      end
  | SnapshotContentList => fun r w' => w' = w /\
      match r with Ok l => l = o_contents o | Err _ => True end
  | UnixNow => fun _ w' => w' = w
  | e => fun r w' => exists s', w' = (o, s') /\ request_step s e r s'
  end.

(** Which helper pods a handler may run and which records it may write. *)
Definition world_allowed (ok : objects -> pod -> Prop) (writes : world -> eff -> Prop)
    (w : world) (e : eff) : Prop :=
  match e with
  | PersistentVolumeGet _ | NodeGet _ | ConfigMapGet _ _ | SnapshotContentList | UnixNow => True
  | ConfigMapCreate _ _ | ConfigMapDelete _ _ => writes w e
  | _ => exists desired, ok (fst w) desired /\ request_allowed desired (snd w) e
  end.

Definition world_env ok writes : env world :=
  {| allowed := world_allowed ok writes; step := world_step |}.

Definition no_writes (w : world) (e : eff) : Prop := False.

(** A handler that runs a permitted helper pod. *)
Lemma wp_helper {R} ok writes desired (m : prog R) Q o s :
  ok o desired -> wp (request_env desired) m Q s ->
  wp (world_env ok writes) m (fun r w => fst w = o /\ Q r (snd w)) (o, s).
Proof.
  intros Hok. revert s. induction m as [r|e k IH]; intros s; [done|]. intros [Ha Hk].
  assert (forall x w', step (world_env ok writes) (o, s) e x w' ->
            exists s', w' = (o, s') /\ request_step s e x s') as Hstep
    by (destruct e; cbn; try done; by destruct Ha).
  split.
  - destruct e; cbn in *; try done; by exists desired.
  - intros x w' (s' & -> & Hs)%Hstep. by apply IH, Hk.
Qed.

(** The pod of a helper was seen to succeed. *)
Definition helper_succeeded (ok : objects -> pod -> Prop) (w : world) : Prop :=
  exists p, ok (fst w) p /\ seen_terminal p PodSucceeded (snd w).

Definition ready (fuel : nat) (w : world) : Prop :=
  locked (snd w) = false /\ (polls_left (snd w) < fuel)%nat.

Definition volume_pod (action : volumeAction) (p : pod) : Prop :=
  exists args, volumeHelperArgs action = Ok args /\ p = newHelperPod (volumeParams action) args.
Definition snapshot_pod (action : snapshotAction) (p : pod) : Prop :=
  exists args, snapshotHelperArgs action = Ok args /\ p = newHelperPod (snapshotParams action) args.

(** What both kinds of helper calls share. *)
Lemma wp_action ok writes fuel ns params (args : result error (list string)) w :
  ready fuel w -> (forall a, args = Ok a -> ok (fst w) (newHelperPod params a)) ->
  wp (world_env ok writes)
    (match args with
     | Err e => Ret (Some e)
     | Ok args => try (runHelper ns fuel (newHelperPod params args) params) Some (Ret None)
     end)
    (fun r w' => fst w' = fst w /\ (r = None -> exists a, args = Ok a /\
       seen_terminal (newHelperPod params a) PodSucceeded (snd w'))) w.
Proof.
  destruct w as [o s]. intros [Hl Hf] Hok. destruct args as [args|e]; [|by split].
  eapply wp_try; [eapply wp_helper; [by apply Hok|by apply wp_runHelper]|..]; cbn.
  - intros [o' s'] [-> [_ Hs]]. split; [done|]. intros _. exists args. auto.
  - intros e [o' s'] [-> _]. by split.
Qed.

Lemma wp_createVolumeHelper ok writes fuel action w :
  ready fuel w -> (forall p, volume_pod action p -> ok (fst w) p) ->
  wp (world_env ok writes) (createVolumeHelper fuel action)
    (fun r w' => fst w' = fst w /\
       (r = None -> exists p, volume_pod action p /\ seen_terminal p PodSucceeded (snd w'))) w.
Proof.
  intros Hr Hok. eapply wp_mono; [|apply wp_action; [done|]].
  - intros r w' [Ho Hs]. split; [done|]. intros Hn. destruct (Hs Hn) as (a & Ha & Hseen).
    eexists. split; [by exists a|done].
  - intros a Ha. apply Hok. by exists a.
Qed.

Lemma wp_createSnapshotHelper ok writes fuel action w :
  ready fuel w -> (forall p, snapshot_pod action p -> ok (fst w) p) ->
  wp (world_env ok writes) (createSnapshotHelper fuel action)
    (fun r w' => fst w' = fst w /\
       (r = None -> exists p, snapshot_pod action p /\ seen_terminal p PodSucceeded (snd w'))) w.
Proof.
  intros Hr Hok. eapply wp_mono; [|apply wp_action; [done|]].
  - intros r w' [Ho Hs]. split; [done|]. intros Hn. destruct (Hs Hn) as (a & Ha & Hseen).
    eexists. split; [by exists a|done].
  - intros a Ha. apply Hok. by exists a.
Qed.

(** ** Clone sources *)

(** The action of a clone whose source passed the checks. *)
Definition clone_va (cs : controllerServer) (src : srcInfo) (name node lvmType vgName : string)
    (size : Z) : volumeAction := {|
  va_action := actionTypeClone; va_name := name; va_nodeName := node; va_size := size;
  va_lvmType := lvmType; va_provisionerImage := cs_provisionerImage cs;
  va_pullPolicy := cs_pullPolicy cs; va_namespace := cs_namespace cs; va_vgName := vgName;
  va_hostWritePath := cs_hostWritePath cs; va_srcInfo := Some src;
  va_helperConfig := cs_helperConfig cs |}.

Lemma newCloneVolumeAction_ok cs source srcNode name node ty vg srcSize size a :
  newCloneVolumeAction cs source srcNode name node ty vg srcSize size = Ok a <->
  exists src, source = Some src /\ (srcSize <= size)%Z /\ srcNode = node /\
              a = clone_va cs src name node ty vg size.
Proof.
  unfold newCloneVolumeAction. destruct source as [src|]; [|naive_solver]. split.
  - intros H. go_ok. by exists src.
  - intros (src' & [= <-] & Hle & <- & ->). rewrite eqb_same.
    by destruct (Z.ltb_spec size srcSize); [lia|].
Qed.

(** Where a pre-existing snapshot is: its annotations, or else its record. *)
Inductive located (o : objects) (id : string) (content : snapshot_content) :
    snapshotLocation -> Prop :=
| located_annotations node vg :
    mget (sc_annotations content) snapshotNodeAnnotation = node -> node <> "" ->
    mget (sc_annotations content) snapshotVGAnnotation = vg -> vg_name vg ->
    located o id content {| loc_handle := id; loc_nodeName := node; loc_vgName := vg |}
| located_record cm loc :
    mget (sc_annotations content) snapshotNodeAnnotation = "" ->
    mget (sc_annotations content) snapshotVGAnnotation = "" ->
    o_cms o !! snapshotLocationConfigMapName id = Some cm ->
    snapshotLocationFromConfigMap (Some cm) id = Ok loc ->
    located o id content loc.

(** The content stands for the snapshot with this handle, by its status or its source. *)
Definition has_handle (id : string) (content : snapshot_content) : Prop :=
  sc_status content ≫= ss_handle = Some id \/ sc_snapshot_handle content = Some id.

Lemma names_snapshot_ok id content : names_snapshot id content = true <-> has_handle id content.
Proof.
  unfold names_snapshot, has_handle. rewrite orb_true_iff.
  destruct (sc_status content ≫= ss_handle), (sc_snapshot_handle content);
    rewrite ?eqb_true; naive_solver.
Qed.

Lemma names_snapshot_no id content : names_snapshot id content = false <-> ~ has_handle id content.
Proof. rewrite <- names_snapshot_ok. by destruct (names_snapshot id content). Qed.

(** What a volume of this type on this node may be cloned from, up to this size. *)
Inductive clone_source (o : objects) (node ty : string) (size : Z) : content_source -> srcInfo -> Prop :=
| source_volume id pv vg srcTy n :
    id <> "" -> o_pvs o !! id = Some pv ->
    metadataFromPV (Some pv) = Ok (node, vg, srcTy) ->
    requiredBytesFromPersistentVolume (Some pv) = Ok n -> (n <= size)%Z ->
    clone_source o node ty size (SourceVolume id)
      {| srcLVName := pv_name pv; srcVGName := vg; srcType := srcTy |}
| source_dynamic id content volume handle n pv vg srcTy :
    id <> "" -> content ∈ o_contents o -> has_handle id content ->
    metadataFromSnapshotContent (Some content) = Ok (volume, handle, n) ->
    o_pvs o !! volume = Some pv -> metadataFromPV (Some pv) = Ok (node, vg, srcTy) ->
    (n <= size)%Z ->
    clone_source o node ty size (SourceSnapshot id)
      {| srcLVName := "lvm-" +:+ handle; srcVGName := vg; srcType := srcTy |}
| source_existing id content handle n loc :
    id <> "" -> content ∈ o_contents o -> has_handle id content ->
    sc_volume_handle content = None ->
    preProvisionedSnapshotMetadata (Some content) = Ok (handle, n) ->
    located o handle content loc -> loc_nodeName loc = node ->
    (n = 0 \/ n <= size)%Z ->  (* 0: the size is unknown *)
    clone_source o node ty size (SourceSnapshot id)
      {| srcLVName := "lvm-" +:+ handle; srcVGName := loc_vgName loc; srcType := ty |}.

(** ** Reads *)

Section reads.
Variable cs : controllerServer.
Variable ok : objects -> pod -> Prop.
Variable writes : world -> eff -> Prop.
Let E := world_env ok writes.

Lemma wp_get_source id w :
  wp E (get_source_volume id) (fun r w' => w' = w /\
    match r with
    | Ok v => exists pv, v = Some pv /\ o_pvs (fst w) !! id = Some pv
    | Err e => status_code e = NotFound -> o_pvs (fst w) !! id = None
    end) w.
Proof.
  destruct w as [o s]. unfold get_source_volume. cbn [call bind]. split; [done|].
  intros [v|e] w' [-> Hr]; cbn.
  - destruct Hr as [-> [pv Hpv]]. rewrite Hpv. split; [done|]. by exists pv.
  - cbn in Hr. destruct (ext_not_found e); cbn; split; auto; done.
Qed.

Lemma wp_lookup id w :
  wp E (lookupSnapshotLocation cs id) (fun r w' => w' = w /\
    match r with
    | Ok (Some (node, vg)) => exists cm loc,
        o_cms (fst w) !! snapshotLocationConfigMapName id = Some cm /\
        snapshotLocationFromConfigMap (Some cm) id = Ok loc /\
        loc_nodeName loc = node /\ loc_vgName loc = vg
    | Ok None => o_cms (fst w) !! snapshotLocationConfigMapName id = None
    | Err _ => True
    end) w.
Proof.
  destruct w as [o s]. unfold lookupSnapshotLocation. cbn [call bind]. split; [done|].
  intros [v|e] w' [-> Hr]; cbn.
  - destruct Hr as [-> [cm Hcm]]. rewrite Hcm.
    destruct (snapshotLocationFromConfigMap (Some cm) id) as [loc|e] eqn:Hl; cbn; [|done].
    split; [done|]. by exists cm, loc.
  - cbn in Hr. destruct (ext_not_found e); cbn; split; auto.
Qed.

Lemma location_handle cm id loc : snapshotLocationFromConfigMap cm id = Ok loc ->
  loc_handle loc = id /\ loc_nodeName loc <> "" /\ vg_name (loc_vgName loc).
Proof.
  unfold snapshotLocationFromConfigMap, validate_location. destruct cm as [cm|]; [|done].
  intros H. go_ok. cbn [loc_handle loc_nodeName loc_vgName] in *.
  match goal with H : validateVGName _ = Ok ?u |- _ => destruct u; apply validateVGName_ok in H end.
  split_and!; auto.
Qed.

Lemma wp_resolve id content w :
  wp E (resolvePreExistingSnapshotLocation cs id content)
    (fun r w' => w' = w /\ forall loc, r = Ok loc -> located (fst w) id content loc) w.
Proof.
  unfold resolvePreExistingSnapshotLocation.
  destruct (String.eqb_spec (mget (sc_annotations content) snapshotNodeAnnotation) "") as [Hn|Hn],
    (String.eqb_spec (mget (sc_annotations content) snapshotVGAnnotation) "") as [Hv|Hv];
    cbn [Bool.eqb negb]; [|by split..|].
  - eapply wp_bind_mono; [apply wp_lookup|]. intros [[[node vg]|]|e] w' [-> Hr]; cbn; [|by split..].
    split; [done|]. intros loc [= <-]. destruct Hr as (cm & loc & Hcm & Hloc & <- & <-).
    destruct (location_handle _ _ _ Hloc) as [<- _]. destruct loc. by eapply located_record.
  - destruct (validateVGName _) as [[]|e] eqn:Hval; [|by split]. apply validateVGName_ok in Hval.
    split; [done|]. intros loc [= <-]. by apply located_annotations.
Qed.

Lemma wp_getContent id w :
  wp E (getSnapshotContent id) (fun r w' => w' = w /\
    match r with
    | Ok (Some content) => content ∈ o_contents (fst w) /\ has_handle id content
    | Ok None => forall content, content ∈ o_contents (fst w) -> ~ has_handle id content
    | Err _ => True
    end) w.
Proof.
  destruct w as [o s]. unfold getSnapshotContent. cbn [call bind]. split; [done|].
  intros [l|e] w' [-> Hl]; cbn; [|done]. cbn in Hl. subst l. split; [done|].
  destruct (List.find _ _) as [c|] eqn:Hf.
  - apply List.find_some in Hf as [Hin Hn]. apply list_elem_of_In in Hin. by apply names_snapshot_ok in Hn.
  - intros c Hc. apply names_snapshot_no. eapply List.find_none in Hf; [exact Hf|]. by apply list_elem_of_In.
Qed.
End reads.

(** ** CreateVolume *)

(** The action that provisions a checked request. *)
Inductive provisions (cs : controllerServer) (o : objects) (req : create_volume_request)
    (ty vg : string) (size : Z) (node : string) : volumeAction -> Prop :=
| provisions_new :
    cv_source req = None ->
    provisions cs o req ty vg size node (newCreateVolumeAction cs (cv_name req) node ty vg size)
| provisions_clone source src :
    cv_source req = Some source -> clone_source o node ty size source src ->
    provisions cs o req ty vg size node (clone_va cs src (cv_name req) node ty vg size).

(** The helper pods [CreateVolume] may run. *)
Definition creates (cs : controllerServer) (req : create_volume_request) (o : objects) (p : pod) : Prop :=
  exists ty vg size node topology action,
    create_volume_checks cs req = Ok (ty, vg, size, node, topology) /\
    provisions cs o req ty vg size node action /\ volume_pod action p.

Section create_volume.
Variable cs : controllerServer.
Variable fuel : nat.
Variable ok : objects -> pod -> Prop.
Variable writes : world -> eff -> Prop.
Let E := world_env ok writes.

(** The outcome of running a helper for one of some actions. *)
Definition ran (good : volumeAction -> Prop) (w : world) (r : option error) (w' : world) : Prop :=
  fst w' = fst w /\ (r = None -> exists action p, good action /\ volume_pod action p /\
                                   seen_terminal p PodSucceeded (snd w')).

Lemma ran_failed good w e : ran good w (Some e) w.
Proof. by split. Qed.
Hint Resolve ran_failed : core.

Definition permits (good : volumeAction -> Prop) (w : world) : Prop :=
  forall action p, good action -> volume_pod action p -> ok (fst w) p.

Lemma wp_run_volume_action good r w :
  ready fuel w -> permits good w -> (forall a, r = Ok a -> good a) ->
  wp E (run_volume_action fuel r) (ran good w) w.
Proof.
  intros Hr Hp Hg. unfold run_volume_action. destruct r as [a|e]; [|done].
  specialize (Hg a eq_refl).
  eapply wp_try; [apply wp_createVolumeHelper; [done|eauto]|..]; cbn.
  - intros w' [Ho Hs]. split; [done|]. intros _. destruct (Hs eq_refl) as (p & Hp' & Hseen).
    by exists a, p.
  - intros e w' [Ho _]. by split.
Qed.

Variables name node ty vg : string.
Variable size : Z.

(** The actions that clone from one source. *)
Definition clones (o : objects) (source : content_source) (a : volumeAction) : Prop :=
  exists src, clone_source o node ty size source src /\ a = clone_va cs src name node ty vg size.

Lemma generate_ok pv lv n a :
  generateVolumeActionForClone cs (Some pv) lv name node ty vg n size = Ok a ->
  exists srcVG srcTy, metadataFromPV (Some pv) = Ok (node, srcVG, srcTy) /\ (n <= size)%Z /\
    a = clone_va cs {| srcLVName := lv; srcVGName := srcVG; srcType := srcTy |} name node ty vg size.
Proof.
  unfold generateVolumeActionForClone.
  destruct (metadataFromPV _) as [[[srcNode srcVG] srcTy]|e]; [|done].
  intros (src & [= <-] & Hle & -> & ->)%newCloneVolumeAction_ok. by exists srcVG, srcTy.
Qed.

Lemma wp_cloneFromSnapshot id content w :
  ready fuel w -> permits (clones (fst w) (SourceSnapshot id)) w -> id <> "" ->
  content ∈ o_contents (fst w) -> has_handle id content ->
  wp E (cloneFromSnapshot cs fuel (Some content) name node ty vg size)
    (ran (clones (fst w) (SourceSnapshot id)) w) w.
Proof.
  intros Hr Hp Hid Hin Hnames. unfold cloneFromSnapshot.
  destruct (sc_volume_handle content) as [vh|] eqn:Hvh.
  - unfold cloneFromDynamicSnapshot.
    destruct (metadataFromSnapshotContent _) as [[[src handle] n]|e] eqn:Hm; [|done].
    eapply wp_bind_mono; [apply wp_get_source|]. intros [v|e] w' [-> Hv]; [|done].
    destruct Hv as (pv & -> & Hpv). apply wp_run_volume_action; [done..|].
    intros a (srcVG & srcTy & Hmeta & Hle & ->)%generate_ok. eexists. split; [|done].
    by eapply source_dynamic.
  - unfold cloneFromPreProvisionedSnapshot. eapply wp_bind_mono with
      (P := fun r w' => w' = w /\ forall a, r = Ok a -> clones (fst w) (SourceSnapshot id) a).
    + unfold preProvisionedSnapshotCloneAction.
      destruct (preProvisionedSnapshotMetadata _) as [[handle n]|e] eqn:Hm; [|by split].
      eapply wp_try_ok; [apply wp_resolve| |by intros ? ? [-> _]].
      intros loc w' [-> Hloc]. specialize (Hloc loc eq_refl). cbn. split; [done|].
      intros a (src & [= <-] & Hle & Hnode & ->)%newCloneVolumeAction_ok. eexists. split; [|done].
      eapply source_existing; try done.
      destruct (Z.eqb_spec n 0); auto.
    + intros r w' [-> Hg]. by apply wp_run_volume_action.
Qed.

Lemma wp_provision req w :
  cv_name req = name -> ready fuel w -> permits (provisions cs (fst w) req ty vg size node) w ->
  wp E (provisionVolume cs fuel req node ty vg size)
    (ran (provisions cs (fst w) req ty vg size node) w) w.
Proof.
  intros Hname Hr Hp. unfold provisionVolume. destruct (cv_source req) as [source|] eqn:Hsrc.
  - rewrite Hname. assert (forall a, clones (fst w) source a -> provisions cs (fst w) req ty vg size node a) as Hc.
    { intros a (src & Hs & ->). rewrite <- Hname. by eapply provisions_clone. }
    assert (permits (clones (fst w) source) w) as Hp' by (intros a p Ha; apply Hp; auto).
    eapply wp_mono with (Q := ran (clones (fst w) source) w).
    { intros r w' [Ho Hs]. split; [done|]. intros Hn.
      destruct (Hs Hn) as (a & p & Ha & Hrest). exists a, p. auto. }
    destruct source as [|id|id]; cbn [cloneFromContentSource]; [done|..].
    + unfold cloneFromSnapshotSource. destruct (String.eqb_spec id ""); [done|].
      eapply wp_bind_mono; [apply wp_getContent|]. intros [[content|]|e] w' [-> Hc']; [|done..].
      destruct Hc'. by apply wp_cloneFromSnapshot.
    + unfold cloneFromVolumeSource. destruct (String.eqb_spec id ""); [done|].
      eapply wp_bind_mono; [apply wp_get_source|]. intros [v|e] w' [-> Hv]; [|done].
      destruct Hv as (pv & -> & Hpv). unfold cloneFromVolume.
      destruct (requiredBytesFromPersistentVolume _) as [bytes|e] eqn:Hbytes; [|done].
      apply wp_run_volume_action; [done..|].
      intros a (srcVG & srcTy & Hmeta & Hle & ->)%generate_ok. eexists. split; [|done].
      by eapply source_volume.
  - apply (wp_run_volume_action _ (Ok _)); [done..|]. intros a [= <-]. by constructor.
Qed.
End create_volume.

(** What [create_volume_checks] establishes. *)
Lemma create_checks_ok cs req ty vg size node topology :
  create_volume_checks cs req = Ok (ty, vg, size, node, topology) ->
  parseLVMParameters (cv_parameters req) = Ok (ty, vg) /\
  validateCapacityRange (cv_capacity req) = Ok size /\
  topologyFromAccessibility (cv_accessibility req) = Ok (node, topology).
Proof.
  unfold create_volume_checks. intros H. go_ok.
  repeat (match goal with x : (_ * _)%type |- _ => destruct x end; cbn beta iota in *; go_ok). auto.
Qed.

(** What a volume answered by [CreateVolume] stands for, given which actions [ran]. *)
Definition volume_created (cs : controllerServer) (o : objects) (req : create_volume_request)
    (v : csi_volume) (ran : volumeAction -> Prop) : Prop :=
  exists ty vg size node topology,
    create_volume_checks cs req = Ok (ty, vg, size, node, topology) /\
    v_id v = cv_name req /\ v_capacity v = size /\ v_source v = cv_source req /\
    metadataFromPV (Some (pv_of_volume v)) = Ok (node, vg, ty) /\
    requiredBytesFromPersistentVolume (Some (pv_of_volume v)) = Ok size /\
    exists action, provisions cs o req ty vg size node action /\ ran action.

(** The pod of the action was seen to succeed. *)
Definition volume_seen (s : request) (action : volumeAction) : Prop :=
  exists p, volume_pod action p /\ seen_terminal p PodSucceeded s.
Definition snapshot_seen (s : request) (action : snapshotAction) : Prop :=
  exists p, snapshot_pod action p /\ seen_terminal p PodSucceeded s.

Lemma wp_CreateVolume cs fuel req w :
  ready fuel w -> (forall c, cv_capacity req = Some c -> is_int64 (required_bytes c)) ->
  wp (world_env (creates cs req) no_writes) (CreateVolume cs fuel req)
    (fun r w' => fst w' = fst w /\
       forall v, r = Ok v -> volume_created cs (fst w) req v (volume_seen (snd w'))) w.
Proof.
  intros Hr Hcap. unfold CreateVolume.
  destruct (create_volume_checks cs req) as [[[[[ty vg] size] node] topology]|e] eqn:Hc; [|by split].
  cbn [check_ok]. eapply wp_bind_mono; [apply (wp_provision cs fuel _ _ (cv_name req)); [done..|]|].
  { intros action p Ha Hp. by exists ty, vg, size, node, topology, action. }
  intros [e|] w' [Ho Hs]; [by split|]. split; [done|]. intros v [= <-].
  destruct (create_checks_ok _ _ _ _ _ _ _ Hc) as (Hpar & Hrange & Htop).
  exists ty, vg, size, node, topology. cbn [v_id v_capacity v_source].
  destruct (capacity_ok _ _ Hrange) as (c & Hcs & <- & _).
  destruct (metadata_roundtrip (cv_name req) _ _ _ (cv_source req) _ _ _ _ _ Hpar Hrange (Hcap _ Hcs) Htop)
    as [Hm Hb].
  destruct (Hs eq_refl) as (action & p & Ha & Hp & Hseen).
  split_and!; [done..|exact Hm|exact Hb|]. exists action. split; [done|by exists p].
Qed.

(** C3: a volume that [CreateVolume] answers with has the requested name, capacity and
    content source, and the persistent volume made of it leads every later operation to
    the node, volume group, LVM type and size that were chosen; and it answers with one
    only after the helper pod that creates or clones that volume there was seen to
    succeed.  A clone's source is on the same node and not known to be larger.  It runs
    no other pod, writes no record and ends within its polls. *)
Theorem CreateVolume_sound cs fuel req w :
  ready fuel w -> (forall c, cv_capacity req = Some c -> is_int64 (required_bytes c)) ->
  wp (world_env (creates cs req) no_writes) (CreateVolume cs fuel req)
    (fun r w' => fst w' = fst w /\
       forall v, r = Ok v -> volume_created cs (fst w) req v (volume_seen (snd w'))) w.
Proof. apply wp_CreateVolume. Qed.

(** A server, a request and a world for the witnesses. *)
Definition a_server : controllerServer := {|
  caps := [RPC_CREATE_DELETE_VOLUME; RPC_CREATE_DELETE_SNAPSHOT; RPC_CLONE_VOLUME];
  cs_nodeID := "controller"; cs_hostWritePath := "/var/lib/lvm"; cs_provisionerImage := "image";
  cs_pullPolicy := "Always"; cs_namespace := "ns"; cs_helperConfig := DefaultHelperConfig |}.
Definition a_request : create_volume_request := {|
  cv_name := "pvc-1"; cv_capacity := Some {| required_bytes := 1048576; limit_bytes := 0 |};
  cv_capabilities := [Some {| vc_access := AccessBlock; vc_mode := Some SINGLE_NODE_WRITER |}];
  cv_parameters := {["type" := StripedType; "vgName" := "vg"]}; cv_source := None;
  cv_accessibility := Some {| requisite := []; preferred := [{[topologyKeyNode := "node"]}] |} |}.
Definition empty_world : world :=
  ({| o_pvs := ∅; o_nodes := ∅; o_cms := ∅; o_contents := [] |}, new_request 10).

Lemma empty_ready : ready 11 empty_world.
Proof. split; [reflexivity|cbn; lia]. Qed.

Lemma CreateVolume_sound_witness :
  create_volume_checks a_server a_request =
    Ok (StripedType, "vg", 1048576%Z, "node", [{[topologyKeyNode := "node"]}]) /\
  wp (world_env (creates a_server a_request) no_writes) (CreateVolume a_server 11 a_request)
    (fun r w' => forall v, r = Ok v -> v_id v = "pvc-1") empty_world.
Proof.
  split; [vm_compute; reflexivity|].
  eapply wp_mono; [|apply (CreateVolume_sound a_server 11 a_request empty_world empty_ready)].
  - intros r w' [_ H] v Hv. destruct (H v Hv) as (ty & vg & size & node & topology & _ & Hid & _). exact Hid.
  - intros c [= <-]. split; vm_compute; discriminate.
Defined.

(** ** DeleteVolume *)

(** The helper pods [DeleteVolume] may run for a volume: the one that deletes it where
    its persistent volume says it is. *)
Definition deletes (cs : controllerServer) (id : string) (o : objects) (p : pod) : Prop :=
  exists pv node vg ty, o_pvs o !! id = Some pv /\ metadataFromPV (Some pv) = Ok (node, vg, ty) /\
    node ∈ o_nodes o /\ volume_pod (newDeleteVolumeAction cs id node vg ty) p.

(** What a positive answer of [DeleteVolume] stands for. *)
Definition volume_deleted (cs : controllerServer) (o : objects) (id : string)
    (ran : volumeAction -> Prop) : Prop :=
  o_pvs o !! id = None \/
  exists pv node vg ty, o_pvs o !! id = Some pv /\ metadataFromPV (Some pv) = Ok (node, vg, ty) /\
    (node ∉ o_nodes o \/ ran (newDeleteVolumeAction cs id node vg ty)).

Lemma wp_DeleteVolume cs fuel req w :
  ready fuel w ->
  wp (world_env (deletes cs (dv_id req)) no_writes) (DeleteVolume cs fuel req)
    (fun r w' => fst w' = fst w /\
       (r = Ok tt -> volume_deleted cs (fst w) (dv_id req) (volume_seen (snd w')))) w.
Proof.
  intros Hr. unfold DeleteVolume.
  destruct (map_err _ (validateDeleteVolumeRequest req)); cbn [check_ok]; [|by split].
  destruct (validateControllerServiceRequest _ _); cbn [check_ok]; [|by split].
  set (id := dv_id req). destruct w as [o s]. cbn [fst] in *.
  unfold persistentVolumeForDeletion, try_ok. cbn [call bind]. split; [done|].
  intros [v|e] w' [-> Hv]; cbn in Hv; cbn [bind is_not_found observe ext_of].
  2:{ destruct (ext_not_found e); cbn; (split; [done|]); [intros _; left; by apply Hv|done]. }
  destruct Hv as [-> [pv Hpv]]. rewrite Hpv.
  destruct (metadataFromPV (Some pv)) as [[[node vg] ty]|e] eqn:Hm; cbn [map_err check_ok]; [|by split].
  unfold nodeAvailableForDeletion. cbn [call bind]. split; [done|].
  intros [e|] w' [-> Hnode]; cbn in Hnode; cbn [bind is_not_found observe ext_of].
  - destruct (ext_not_found e); cbn; [|by split]. split; [done|]. intros _. right.
    exists pv, node, vg, ty. auto.
  - cbn [negb]. eapply wp_try; [apply wp_createVolumeHelper; [done|]|..]; cbn.
    + intros p Hp. by exists pv, node, vg, ty.
    + intros w' [Ho Hs]. split; [done|]. intros _. right. exists pv, node, vg, ty. split_and!; [done..|].
      right. by apply Hs.
    + intros e w' [Ho _]. by split.
Qed.

(** C4: [DeleteVolume] answers without an error only if the persistent volume is absent,
    or the node it is on is absent, or the helper pod that deletes exactly that volume
    from that volume group on that node was seen to succeed; it runs no other pod,
    writes no record and ends within its polls. *)
Theorem DeleteVolume_sound cs fuel req w :
  ready fuel w ->
  wp (world_env (deletes cs (dv_id req)) no_writes) (DeleteVolume cs fuel req)
    (fun r w' => fst w' = fst w /\
       (r = Ok tt -> volume_deleted cs (fst w) (dv_id req) (volume_seen (snd w')))) w.
Proof. apply wp_DeleteVolume. Qed.

Lemma DeleteVolume_sound_witness :
  wp (world_env (deletes a_server "pvc-1") no_writes) (DeleteVolume a_server 11 {| dv_id := "pvc-1" |})
    (fun r w' => fst w' = fst empty_world) empty_world.
Proof.
  eapply wp_mono; [|apply (DeleteVolume_sound a_server 11 {| dv_id := "pvc-1" |} empty_world empty_ready)].
  intros r w' [H _]. exact H.
Defined.

(** ** Records of snapshot locations *)

Lemma location_roundtrip location ns :
  validate_location location = Ok tt ->
  snapshotLocationFromConfigMap (Some (location_configMap location ns)) (loc_handle location) = Ok location.
Proof.
  intros Hv. destruct location as [h n v]. unfold snapshotLocationFromConfigMap.
  set (cm := location_configMap _ ns). cbn [loc_handle].
  assert (mget (cm_labels cm) snapshotLocationLabel = "true") as -> by by vm_compute.
  assert (mget (cm_data cm) snapshotLocationHandleKey = h) as -> by by vm_compute.
  assert (mget (cm_data cm) snapshotLocationNodeKey = n) as -> by by vm_compute.
  assert (mget (cm_data cm) snapshotLocationVGKey = v) as -> by by vm_compute.
  rewrite !eqb_same. cbn [negb guard rbind]. by rewrite Hv.
Qed.

(** The record of a snapshot says it is on [node] in [vg]. *)
Definition recorded (o : objects) (id node vg : string) : Prop :=
  exists cm, o_cms o !! snapshotLocationConfigMapName id = Some cm /\
    snapshotLocationFromConfigMap (Some cm) id =
      Ok {| loc_handle := id; loc_nodeName := node; loc_vgName := vg |}.

(** The worlds differ in config maps only. *)
Definition same_but_cms (w w' : world) : Prop := exists cms, w' = (with_cms (fst w) cms, snd w).

Lemma same_but_cms_refl w : same_but_cms w w.
Proof. destruct w as [[] s]. by eexists. Qed.
#[export] Hint Resolve same_but_cms_refl : go.

Definition record_write (cs : controllerServer) (id node vg : string) (e : eff) : Prop :=
  e = ConfigMapCreate (cs_namespace cs) (location_configMap
        {| loc_handle := id; loc_nodeName := node; loc_vgName := vg |} (cs_namespace cs)).

Lemma wp_record ok writes cs id node vg w :
  (forall e, record_write cs id node vg e -> writes w e) ->
  wp (world_env ok writes) (recordSnapshotLocation cs id node vg)
    (fun r w' => same_but_cms w w' /\
       (r = None -> recorded (fst w') id node vg) /\
       (forall node' vg', recorded (fst w) id node' vg' -> (node', vg') <> (node, vg) ->
          exists e, r = Some e /\ w' = w /\
                    (status_code e = AlreadyExists \/ status_code e = Unavailable \/
                     validate_location {| loc_handle := id; loc_nodeName := node; loc_vgName := vg |} <> Ok tt))) w.
Proof.
  intros Hw. unfold recordSnapshotLocation.
  destruct (validate_location _) as [[]|e] eqn:Hval.
  2:{ split_and!; [auto with go|done|]. intros node' vg' _ _. eexists. split_and!; [done..|].
      right; right. congruence. }
  destruct w as [o s]. cbn [call bind]. split; [by apply Hw|]. intros [e|] w1 H1; cbn in H1.
  - destruct (negb _) eqn:Hae; cbn [is_already_exists observe ext_of] in Hae.
    { destruct H1 as [[->|[Hfree ->]] _].
      - split_and!; [auto with go|done|]. intros node' vg' _ _. eexists. split_and!; [done..|]. auto.
      - split_and!; [by eexists|done|]. intros node' vg' (cm & Hcm & _). cbn in Hcm, Hfree. congruence. }
    apply negb_false_iff in Hae. destruct H1 as [_ H1]. rewrite (H1 Hae). clear H1.
    cbn [call bind]. split; [done|]. intros [v|e'] w2 [-> Hv]; cbn in Hv.
    2:{ split_and!; [auto with go|done|]. intros node' vg' _ _. eexists. split_and!; [done..|]. auto. }
    destruct Hv as [-> [cm Hcm]]. rewrite Hcm.
    destruct (snapshotLocationFromConfigMap (Some cm) id) as [actual|e'] eqn:Hact.
    2:{ split_and!; [auto with go|done|]. intros node' vg' (cm' & Hcm' & Hloc). cbn in Hcm'. congruence. }
    case_bool_decide as Heq; cbn [negb].
    + subst actual. split_and!; [auto with go|by exists cm|].
      intros node' vg' (cm' & Hcm' & Hloc) Hne. cbn in Hcm'. congruence.
    + split_and!; [auto with go|done|]. intros node' vg' _ _. eexists. split_and!; [done..|]. auto.
  - destruct H1 as [Hfree ->]. split_and!; [by eexists| |].
    + intros _. eexists. split; [apply lookup_insert_eq|].
      by apply (location_roundtrip {| loc_handle := id; loc_nodeName := node; loc_vgName := vg |}).
    + intros node' vg' (cm & Hcm & _). cbn in Hcm, Hfree. congruence.
Qed.

(** C19: once [recordSnapshotLocation] has answered without an error, every lookup of that
    snapshot that does not fail finds exactly the recorded node and volume group; a
    record of another location is never overwritten, the call fails instead; and
    nothing but that one record is written. *)
Theorem snapshot_record_roundtrip cs id node vg ok w :
  wp (world_env ok (fun _ => record_write cs id node vg)) (recordSnapshotLocation cs id node vg)
    (fun r w' =>
       (r = None ->
          wp (world_env ok no_writes) (lookupSnapshotLocation cs id)
            (fun r' w'' => w'' = w' /\
               match r' with Ok found => found = Some (node, vg) | Err _ => True end) w') /\
       (forall node' vg', recorded (fst w) id node' vg' -> (node', vg') <> (node, vg) ->
          is_Some r /\ w' = w)) w.
Proof.
  eapply wp_mono; [|by apply wp_record]. intros r w' (_ & Hrec & Hother). split.
  - intros (cm & Hcm & Hloc)%Hrec. eapply wp_mono; [|apply wp_lookup].
    intros [[[node' vg']|]|e] w'' [-> Hl]; split; try done; [|congruence].
    destruct Hl as (cm' & loc & Hcm' & Hloc' & <- & <-).
    rewrite Hcm in Hcm'. injection Hcm' as <-. rewrite Hloc in Hloc'. by injection Hloc' as <-.
  - intros node' vg' Hr Hne. destruct (Hother _ _ Hr Hne) as (e & -> & -> & _). by split; [exists e|].
Qed.

(** ** CreateSnapshot *)

(** Where the source volume of a snapshot request is. *)
Definition source_at (o : objects) (volume node vg ty : string) (size : Z) : Prop :=
  exists pv, o_pvs o !! volume = Some pv /\ metadataFromPV (Some pv) = Ok (node, vg, ty) /\
    requiredBytesFromPersistentVolume (Some pv) = Ok size.

(** The helper pods [CreateSnapshot] may run, the location being on record already. *)
Definition snapshots (cs : controllerServer) (req : create_snapshot_request) (o : objects) (p : pod) : Prop :=
  exists node vg ty size, source_at o (cr_source_volume req) node vg ty size /\
    recorded o (cr_name req) node vg /\
    snapshot_pod (newCreateSnapshotAction cs (cr_name req) (cr_source_volume req) node vg ty size) p.

Definition snapshot_writes (cs : controllerServer) (req : create_snapshot_request) (w : world) (e : eff) : Prop :=
  exists node vg ty size, source_at (fst w) (cr_source_volume req) node vg ty size /\
    record_write cs (cr_name req) node vg e.

Lemma source_at_cms o cms volume node vg ty size :
  source_at (with_cms o cms) volume node vg ty size <-> source_at o volume node vg ty size.
Proof. done. Qed.

(** What a snapshot answered by [CreateSnapshot] stands for; [o] and [o'] are the objects
    before and after. *)
Definition snapshot_taken (cs : controllerServer) (o o' : objects) (req : create_snapshot_request)
    (snap : csi_snapshot) (ran : snapshotAction -> Prop) : Prop :=
  sn_id snap = cr_name req /\ sn_source snap = cr_source_volume req /\ sn_ready snap = true /\
  exists node vg ty size, source_at o (cr_source_volume req) node vg ty size /\
    sn_size snap = size /\ recorded o' (cr_name req) node vg /\
    (forall node' vg', recorded o (cr_name req) node' vg' -> (node', vg') = (node, vg)) /\
    ran (newCreateSnapshotAction cs (cr_name req) (cr_source_volume req) node vg ty size).

Lemma wp_CreateSnapshot_request cs fuel req w :
  ready fuel w ->
  wp (world_env (snapshots cs req) (snapshot_writes cs req)) (CreateSnapshot cs fuel req)
    (fun r w' => forall snap, r = Ok snap ->
       snapshot_taken cs (fst w) (fst w') req snap (snapshot_seen (snd w'))) w.
Proof.
  intros Hr. unfold CreateSnapshot.
  destruct (validateCreateSnapshotRequest req) as [[name volume]|e] eqn:Hreq; cbn [map_err check_ok]; [|done].
  assert (name = cr_name req /\ volume = cr_source_volume req) as [-> ->]
    by (unfold validateCreateSnapshotRequest in Hreq; by go_ok).
  eapply wp_try_ok; [apply wp_get_source|..]; [|by intros e w' [-> _] snap].
  intros v w' [-> (pv & -> & Hpv)].
  destruct (metadataFromPV (Some pv)) as [[[node vg] ty]|e] eqn:Hm; cbn [map_err check_ok]; [|done].
  destruct (requiredBytesFromPersistentVolume _) as [size|e] eqn:Hb; cbn [map_err check_ok]; [|done].
  assert (source_at (fst w) (cr_source_volume req) node vg ty size) as Hat by by exists pv.
  eapply wp_try with (P := fun r w' => same_but_cms w w' /\
    (r = None -> recorded (fst w') (cr_name req) node vg /\
       forall node' vg', recorded (fst w) (cr_name req) node' vg' -> (node', vg') = (node, vg))).
  { eapply wp_mono; [|apply wp_record; intros e He; by exists node, vg, ty, size].
    intros r w' (Hsame & Hrec & Hother). split; [done|]. intros Hn. split; [auto|].
    intros node' vg' Hr'. destruct (decide ((node', vg') = (node, vg))) as [|Hne]; [done|].
    by destruct (Hother _ _ Hr' Hne) as (e & -> & _). }
  2:{ by intros e w' _ snap. }
  intros w1 [[cms ->] Hrec]. destruct (Hrec eq_refl) as [Hrec1 Honly].
  eapply wp_try; [apply wp_createSnapshotHelper|..].
  - exact Hr.
  - intros p Hp. exists node, vg, ty, size. auto.
  - intros w2 [Ho Hs]. destruct (Hs eq_refl) as (p & Hp & Hseen). unfold newCreateSnapshotResponse.
    cbn [call bind]. destruct w2 as [o2 s2]. cbn in Ho. subst o2. split; [done|]. intros now w3 ->.
    cbn [wp bind]. intros snap [= <-]. cbn. split_and!; [done..|].
    exists node, vg, ty, size. split_and!; [done..|]. by exists p.
  - by intros e w2 _ snap.
Qed.

(** C10: [CreateSnapshot] answers with a snapshot of the requested name, source and size
    only after the location of its source volume was recorded under that name and then
    the helper pod that snapshots the source there was seen to succeed; the pod is never
    created before the record, no other pod is run and no other record is written; a
    name recorded at another location is refused. *)
Theorem CreateSnapshot_sound cs fuel req w :
  ready fuel w ->
  wp (world_env (snapshots cs req) (snapshot_writes cs req)) (CreateSnapshot cs fuel req)
    (fun r w' => forall snap, r = Ok snap ->
       snapshot_taken cs (fst w) (fst w') req snap (snapshot_seen (snd w'))) w.
Proof. apply wp_CreateSnapshot_request. Qed.

Definition a_pv : persistent_volume := pv_of_volume {|
  v_id := "pvc-1"; v_capacity := 1048576;
  v_context := buildVolumeContext (cv_parameters a_request) 1048576;
  v_source := None; v_topology := [{[topologyKeyNode := "node"]}] |}.
Definition snapshot_world : world :=
  ({| o_pvs := {["pvc-1" := a_pv]}; o_nodes := {["node"]}; o_cms := ∅; o_contents := [] |},
   new_request 10).
Definition a_snapshot_request : create_snapshot_request :=
  {| cr_source_volume := "pvc-1"; cr_name := "snap-1" |}.

Lemma CreateSnapshot_sound_witness :
  source_at (fst snapshot_world) "pvc-1" "node" "vg" StripedType 1048576 /\
  wp (world_env (snapshots a_server a_snapshot_request) (snapshot_writes a_server a_snapshot_request))
    (CreateSnapshot a_server 11 a_snapshot_request)
    (fun r w' => forall snap, r = Ok snap -> sn_id snap = "snap-1") snapshot_world.
Proof.
  split; [exists a_pv; split_and!; vm_compute; reflexivity|].
  eapply wp_mono; [|apply (CreateSnapshot_sound a_server 11 a_snapshot_request snapshot_world)].
  - intros r w' H snap Hs. exact (proj1 (H snap Hs)).
  - split; [reflexivity|cbn; lia].
Defined.

(** ** DeleteSnapshot *)

(** Where the snapshot of a content is: a pre-existing one by annotations or record; a
    dynamic one where its source volume is, or else where the record says. *)
Inductive snapshot_at (o : objects) (id : string) (content : snapshot_content) : string -> string -> Prop :=
| at_existing loc :
    sc_volume_handle content = None -> default "" (sc_snapshot_handle content) <> "" ->
    located o id content loc ->
    snapshot_at o id content (loc_nodeName loc) (loc_vgName loc)
| at_source volume pv node vg ty :
    sc_volume_handle content = Some volume -> volume <> "" ->
    o_pvs o !! volume = Some pv -> metadataFromPV (Some pv) = Ok (node, vg, ty) ->
    snapshot_at o id content node vg
| at_record volume node vg :
    sc_volume_handle content = Some volume -> volume <> "" ->
    (forall pv m, o_pvs o !! volume = Some pv -> metadataFromPV (Some pv) <> Ok m) ->
    recorded o id node vg ->
    snapshot_at o id content node vg.

(** The helper pods [DeleteSnapshot] may run. *)
Definition deletes_snapshot (cs : controllerServer) (id : string) (o : objects) (p : pod) : Prop :=
  exists content node vg, content ∈ o_contents o /\ has_handle id content /\
    snapshot_at o id content node vg /\
    snapshot_pod (newDeleteSnapshotAction cs id node vg) p.

(** The record goes only after the backend snapshot has. *)
Definition forgets (cs : controllerServer) (id : string) (w : world) (e : eff) : Prop :=
  e = ConfigMapDelete (cs_namespace cs) (snapshotLocationConfigMapName id) /\
  helper_succeeded (deletes_snapshot cs id) w.

(** *** The errors of the metadata checks come from the driver itself *)

(** An error with neither an outside error nor a status in it. *)
Definition own (e : error) : Prop := ext_of e = None /\ status_code e = Unknown.
Definition own_error {A} (r : result error A) : Prop :=
  match r with Ok _ => True | Err e => own e end.

Lemma own_bind {A B} (r : result error A) (k : A -> result error B) :
  own_error r -> (forall a, own_error (k a)) -> own_error (rbind r k).
Proof. destruct r; cbn; auto. Qed.
Lemma own_guard b e : own e -> own_error (guard b e).
Proof. by destruct b. Qed.
Lemma own_map {A} f (r : result error A) :
  (forall e, own e -> own (f e)) -> own_error r -> own_error (map_err f r).
Proof. destruct r; cbn; auto. Qed.
#[local] Hint Resolve own_bind own_guard own_map : core.

Lemma own_vg name : own_error (validateVGName name).
Proof. unfold validateVGName. repeat (apply own_bind; [by apply own_guard|intros _]). done. Qed.

Lemma own_affinity name l nodes : own_error (affinity_nodes name l nodes).
Proof.
  revert nodes. induction l as [|x l IH]; intros nodes; cbn [affinity_nodes]; [done|].
  destruct (negb _); [done|]. apply own_bind; [by apply own_guard|auto].
Qed.

Lemma own_metadata v : own_error (metadataFromPV v).
Proof.
  unfold metadataFromPV. destruct v as [v|]; [|done]. apply own_bind.
  - unfold lvmAttributesFromPV. destruct (pv_csi v); [|done].
    apply own_bind; [by apply own_guard|intros _]. apply own_bind; [apply own_map; [done|apply own_vg]|].
    intros _. apply own_bind; [by apply own_guard|done].
  - intros [vg ty]. apply own_bind; [|done]. unfold nodeFromPVAffinity.
    destruct (pv_affinity v) as [a|]; [|done]. destruct (na_required a); [|done].
    apply own_bind; [apply own_affinity|]. intros nodes. apply own_bind; [by apply own_guard|].
    intros _. by destruct (elements nodes).
Qed.

Section delete_snapshot.
Variable cs : controllerServer.
Variable ok : objects -> pod -> Prop.
Variable writes : world -> eff -> Prop.
Let E := world_env ok writes.

Lemma wp_pvLocation id volume w :
  wp E (pvLocation id volume) (fun r w' => w' = w /\
    match r with
    | Ok loc => loc_handle loc = id /\ exists pv ty, o_pvs (fst w) !! volume = Some pv /\
        metadataFromPV (Some pv) = Ok (loc_nodeName loc, loc_vgName loc, ty)
    | Err e => (is_not_found e = true -> o_pvs (fst w) !! volume = None) /\
        (status_code e <> Unavailable ->
           forall pv m, o_pvs (fst w) !! volume = Some pv -> metadataFromPV (Some pv) <> Ok m)
    end) w.
Proof.
  destruct w as [o s]. unfold pvLocation. cbn [call bind]. split; [done|].
  intros [v|e] w' [-> Hv]; cbn in Hv; cbn [bind].
  - destruct Hv as [-> [pv Hpv]]. rewrite Hpv.
    destruct (metadataFromPV (Some pv)) as [[[node vg] ty]|e] eqn:Hm; cbn; split; try done.
    + split; [done|]. by exists pv, ty.
    + pose proof (own_metadata (Some pv)) as Hown. rewrite Hm in Hown. cbn in Hown.
      split; [unfold is_not_found, observe; by rewrite (proj1 Hown)|]. intros _ pv' m. congruence.
  - destruct (is_not_found (Ext e)) eqn:Hnf; cbn in Hnf |- *; split; try done.
    split; [auto|]. intros _ pv m Hpv. rewrite Hv in Hpv by done. discriminate.
Qed.

Lemma wp_dynamicLocation id volume w :
  wp E (dynamicSnapshotLocation cs id volume) (fun r w' => w' = w /\
    match r with
    | Ok (Some loc) => forall content, sc_volume_handle content = Some volume -> volume <> "" ->
        snapshot_at (fst w) id content (loc_nodeName loc) (loc_vgName loc)
    | Ok None => o_pvs (fst w) !! volume = None /\
        o_cms (fst w) !! snapshotLocationConfigMapName id = None
    | Err _ => True
    end) w.
Proof.
  unfold dynamicSnapshotLocation. eapply wp_bind_mono; [apply wp_pvLocation|].
  intros [loc|pvErr] w' [-> Hpv].
  - destruct Hpv as (_ & pv & ty & Hpv & Hm). split; [done|]. intros content Hc Hne. by eapply at_source.
  - destruct Hpv as [Hnf Hmeta]. case_bool_decide; [by split|].
    unfold recordedLocation. apply wp_bind. eapply wp_bind_mono; [apply wp_lookup|].
    intros [[[node vg]|]|e] w' [-> Hl]; cbn [wp].
    + split; [done|]. intros content Hc Hne. cbn [loc_nodeName loc_vgName].
      destruct Hl as (cm & loc & Hcm & Hloc & <- & <-). eapply at_record; eauto.
      exists cm. split; [done|]. destruct (location_handle _ _ _ Hloc) as [<- _]. by destruct loc.
    + destruct (is_not_found pvErr) eqn:Hn; cbn [wp]; [|done]. auto.
    + done.
Qed.

Lemma wp_deleteAction id content w :
  content ∈ o_contents (fst w) -> has_handle id content ->
  wp E (deleteSnapshotAction cs id (Some content)) (fun r w' => w' = w /\
    match r with
    | Ok (Some action) => exists node vg, snapshot_at (fst w) id content node vg /\
        action = newDeleteSnapshotAction cs id node vg
    | Ok None => exists volume, sc_volume_handle content = Some volume /\
        o_pvs (fst w) !! volume = None /\ o_cms (fst w) !! snapshotLocationConfigMapName id = None
    | Err _ => True
    end) w.
Proof.
  intros Hin Hn. unfold deleteSnapshotAction. destruct (sc_volume_handle content) as [volume|] eqn:Hvh.
  - unfold deleteDynamicSnapshotAction. destruct (String.eqb_spec volume ""); [by split|].
    eapply wp_try_ok; [apply wp_dynamicLocation|..]; [|by intros e w' [-> _]].
    intros [loc|] w' [-> Hl]; cbn [wp]; split; try done; [|by exists volume].
    exists (loc_nodeName loc), (loc_vgName loc). auto.
  - unfold deletePreExistingSnapshotAction.
    destruct (String.eqb_spec (default "" (sc_snapshot_handle content)) ""); [by split|].
    eapply wp_try_ok; [apply wp_resolve|..]; [|by intros e w' [-> _]].
    intros loc w' [-> Hl]. cbn. split; [done|]. exists (loc_nodeName loc), (loc_vgName loc).
    split; [|done]. apply at_existing; auto.
Qed.
End delete_snapshot.

(** What a positive answer of [DeleteSnapshot] stands for. *)
Definition snapshot_deleted (cs : controllerServer) (o : objects) (id : string)
    (ran : snapshotAction -> Prop) : Prop :=
  (forall content, content ∈ o_contents o -> ~ has_handle id content) \/
  (exists content volume, content ∈ o_contents o /\ has_handle id content /\
     sc_volume_handle content = Some volume /\ o_pvs o !! volume = None /\
     o_cms o !! snapshotLocationConfigMapName id = None) \/
  exists content node vg, content ∈ o_contents o /\ has_handle id content /\
    snapshot_at o id content node vg /\ ran (newDeleteSnapshotAction cs id node vg).

Lemma wp_DeleteSnapshot_request cs fuel req w :
  ready fuel w ->
  wp (world_env (deletes_snapshot cs (ds_id req)) (forgets cs (ds_id req))) (DeleteSnapshot cs fuel req)
    (fun r w' => r = Ok tt -> snapshot_deleted cs (fst w) (ds_id req) (snapshot_seen (snd w'))) w.
Proof.
  intros Hr. set (id := ds_id req). set (o := fst w). unfold DeleteSnapshot. fold id. destruct (id =s ""); [done|].
  eapply wp_try_ok; [apply wp_getContent|..]; [|by intros e w' _].
  intros [content|] w' [-> Hc]; [|by left]. destruct Hc as [Hin Hn].
  eapply wp_try_ok; [by apply wp_deleteAction|..]; [|by intros e w' _].
  intros [action|] w' [-> Ha].
  2:{ destruct Ha as (volume & Hvh & Hpv & Hcm). intros _. right; left. by exists content, volume. }
  destruct Ha as (node & vg & Hat & ->).
  assert (forall p, snapshot_pod (newDeleteSnapshotAction cs id node vg) p -> deletes_snapshot cs id o p)
    as Hok by (intros p Hp; by exists content, node, vg).
  eapply wp_try; [by apply wp_createSnapshotHelper|..]; [|by intros e w' _].
  intros w1 [Ho Hs]. destruct (Hs eq_refl) as (p & Hp & Hseen).
  destruct w1 as [o1 s1]. cbn in Ho. subst o1. unfold forgetSnapshotLocation. cbn [call bind].
  split; [split; [done|]; exists p; cbn; auto|].
  assert (forall r w2, world_step (o, s1) (ConfigMapDelete (cs_namespace cs) (snapshotLocationConfigMapName id)) r w2 ->
            snd w2 = s1) as Hkeep.
  { intros [e|] w2; cbn; [|by intros ->]. by intros [[->| ->] _]. }
  intros x w2 Hx%Hkeep. destruct x as [e|]; cbn [bind]; [destruct (is_not_found _)|]; cbn [bind wp];
    intros _; right; right; exists content, node, vg; (split_and!; [done..|]); exists p; by rewrite Hx.
Qed.

(** C11: [DeleteSnapshot] answers without an error only if no snapshot content names the
    snapshot, or its content is dynamic and neither its source volume nor a record
    exists, or the helper pod that deletes exactly that snapshot was seen to succeed
    where its content, source volume or record says it is (the source volume has
    precedence over the record); the record is removed only after that success. *)
Theorem DeleteSnapshot_sound cs fuel req w :
  ready fuel w ->
  wp (world_env (deletes_snapshot cs (ds_id req)) (forgets cs (ds_id req))) (DeleteSnapshot cs fuel req)
    (fun r w' => r = Ok tt -> snapshot_deleted cs (fst w) (ds_id req) (snapshot_seen (snd w'))) w.
Proof. apply wp_DeleteSnapshot_request. Qed.

Definition a_content : snapshot_content := {|
  sc_name := "content"; sc_annotations := ∅; sc_volume_handle := Some "pvc-1";
  sc_snapshot_handle := None;
  sc_status := Some {| ss_handle := Some "snap-1"; ss_restore_size := Some 1048576%Z |} |}.
Definition delete_world : world :=
  ({| o_pvs := {["pvc-1" := a_pv]}; o_nodes := {["node"]}; o_cms := ∅; o_contents := [a_content] |},
   new_request 10).

Lemma DeleteSnapshot_sound_witness :
  has_handle "snap-1" a_content /\
  wp (world_env (deletes_snapshot a_server "snap-1") (forgets a_server "snap-1"))
    (DeleteSnapshot a_server 11 {| ds_id := "snap-1" |})
    (fun r w' => r = Ok tt -> exists content node vg, snapshot_at (fst delete_world) "snap-1" content node vg)
    delete_world.
Proof.
  assert (has_handle "snap-1" a_content) as Hc by (left; reflexivity). split; [exact Hc|].
  eapply wp_mono; [|apply (DeleteSnapshot_sound a_server 11 {| ds_id := "snap-1" |} delete_world)].
  - intros r w' H Hr. destruct (H Hr) as [Hn|[(c & v & Hin & _ & Hv & Hpv & _)|(c & node & vg & _ & _ & Hat & _)]].
    + exfalso. apply (Hn a_content); [by left|exact Hc].
    + apply list_elem_of_singleton in Hin as ->. injection Hv as <-. discriminate Hpv.
    + by exists c, node, vg.
  - split; [reflexivity|cbn; lia].
Defined.
