(* ===== verification/Names.v ===== *)
(** * The names of the objects the controller creates

    Kubernetes accepts an object only under a DNS-1123 subdomain of at most 253
    characters: labels of lower-case letters, digits and hyphens, which begin and end
    with a letter or digit, separated by dots.  [dns_run] is the automaton of that
    regular expression.  The record of a snapshot has such a name whatever the snapshot
    is called, since it is named by a digest; a helper pod has one whenever the volume
    or snapshot it is for has one that leaves room for the operation. *)
From S2P Require Import Prelude GoStrings Errors Objects Effects Config HelperPod HelperSpec Sha256 Controller.

(** ** The automaton *)

Inductive dns_state := LabelStart | AfterAlnum | AfterHyphen.

Definition alnum (a : ascii) : bool :=
  let n := Ascii.nat_of_ascii a in ((48 <=? n) && (n <=? 57) || (97 <=? n) && (n <=? 122))%nat.

Definition dns_next (s : dns_state) (a : ascii) : option dns_state :=
  if alnum a then Some AfterAlnum
  else if Ascii.eqb a "-" then match s with LabelStart => None | _ => Some AfterHyphen end
  else if Ascii.eqb a "." then match s with AfterAlnum => Some LabelStart | _ => None end
  else None.

Fixpoint dns_run (s : dns_state) (name : string) : option dns_state :=
  match name with
  | EmptyString => Some s
  | String a name => dns_next s a ≫= fun s => dns_run s name
  end.

Definition dns_max : nat := 253.

Definition dns_subdomain (name : string) : Prop :=
  dns_run LabelStart name = Some AfterAlnum /\ (String.length name <= dns_max)%nat.

Lemma dns_run_app s a b : dns_run s (a +:+ b) = dns_run s a ≫= fun s => dns_run s b.
Proof.
  revert s. induction a as [|x a IH]; intros s; cbn; [done|]. destruct (dns_next s x); cbn; [apply IH|done].
Qed.

(** A name that may start a subdomain may follow a hyphen. *)
Lemma dns_run_after name s t : dns_run LabelStart name = Some s -> t <> AfterAlnum ->
  name <> "" -> dns_run t name = Some s.
Proof.
  destruct name as [|a name]; [done|]. intros Hs Ht _. revert Hs. cbn. unfold dns_next.
  destruct (alnum a); [done|]. destruct (Ascii.eqb a "-"); [done|]. by destruct (Ascii.eqb a ".").
Qed.

(** ** Digests *)

Definition is_byte (n : Z) : Prop := (0 <= n < 256)%Z.

Lemma hex_digit_alnum n : (0 <= n < 16)%Z -> alnum (hex_digit n) = true.
Proof.
  intros Hn. assert (exists k, k < 16 /\ n = Z.of_nat k) as (k & Hk & ->) by (exists (Z.to_nat n); lia).
  do 16 (destruct k as [|k]; [vm_compute; reflexivity|]). lia.
Qed.

Lemma dns_run_hex l s : Forall is_byte l -> l <> [] -> dns_run s (hex l) = Some AfterAlnum.
Proof.
  intros Hl. revert s. induction Hl as [|b l Hb Hl IH]; intros s Hne; [done|]. cbn. unfold dns_next, is_byte in *.
  rewrite !hex_digit_alnum by (Z.to_euclidean_division_equations; lia). cbn.
  destruct l as [|b' l]; [done|]. by apply IH.
Qed.

Lemma hex_length l : String.length (hex l) = (2 * length l)%nat.
Proof. induction l; cbn; lia. Qed.

Lemma be_bytes_spec n z : length (be_bytes n z) = n /\ Forall is_byte (be_bytes n z).
Proof.
  revert z. induction n as [|n IH]; intros z; cbn; [by split|]. destruct (IH (z / 256)%Z) as [Hl Hf].
  rewrite length_app, Hl. split; [cbn; lia|]. apply Forall_app. split; [done|].
  repeat constructor; apply Z.mod_pos_bound; lia.
Qed.

Lemma round_length h kw : length h = 8 -> length (round h kw) = 8.
Proof. do 9 (destruct h as [|? h]; try done). Qed.

Lemma compress_length h block : length h = 8 -> length (compress h block) = 8.
Proof.
  intros Hh. unfold compress. rewrite length_zip_with.
  assert (forall l h, length h = 8 -> length (foldl round h l) = 8) as Hf.
  { intros l. induction l as [|kw l IH]; intros g Hg; cbn; [done|]. by apply IH, round_length. }
  rewrite Hf by done. lia.
Qed.

Lemma sum256_spec s : length (sum256 s) = 32 /\ Forall is_byte (sum256 s).
Proof.
  unfold sum256.
  assert (forall l h, length h = 8 -> length (foldl compress h l) = 8) as Hf.
  { intros l. induction l as [|b l IH]; intros h Hh; cbn [foldl]; [done|]. by apply IH, compress_length. }
  pose proof (Hf (blocks (length (words (pad (byte_values s)))) (words (pad (byte_values s)))) sha_init eq_refl) as Hw.
  revert Hw. generalize (foldl compress sha_init (blocks (length (words (pad (byte_values s)))) (words (pad (byte_values s))))).
  intros l Hl.
  assert (length (concat (be_bytes 4 <$> l)) = 4 * length l /\ Forall is_byte (concat (be_bytes 4 <$> l))) as [-> Hb].
  { clear Hl. induction l as [|z l [IHl IHf]]; [by split|]. cbn [fmap list_fmap concat].
    destruct (be_bytes_spec 4 z) as [Hz Hzf]. change (fmap (be_bytes 4) l) with (be_bytes 4 <$> l).
    rewrite length_app, Hz, IHl, Forall_app. cbn [length]. split; [lia|done]. }
  split; [lia|done].
Qed.

(** ** The objects *)

Definition name_room : nat := 241.

(** C30: every object the controller creates has a name the API server accepts: the record of
    a snapshot's location for every snapshot identifier, however long and whatever
    characters it has; the helper pod of a volume or snapshot operation for every name
    that is itself a DNS-1123 subdomain of at most 241 characters. *)
Theorem object_names_valid :
  (forall id, dns_subdomain (snapshotLocationConfigMapName id)) /\
  (forall params args, known_resource (hp_resource params) -> known_action (hp_action params) ->
     dns_subdomain (hp_name params) -> (String.length (hp_name params) <= name_room)%nat ->
     dns_subdomain (pod_name (newHelperPod params args))).
Proof.
  split.
  - intros id. unfold snapshotLocationConfigMapName. destruct (sum256_spec id) as [Hl Hb].
    split; rewrite ?dns_run_app, ?string_length_app, ?hex_length, ?Hl; [|cbn; unfold dns_max; lia].
    change (dns_run LabelStart snapshotLocationConfigMapPrefix) with (Some AfterHyphen). cbn.
    apply dns_run_hex; [done|]. by intros E; rewrite E in Hl.
  - intros params args Hr Ha [Hn _] Hlen. unfold newHelperPod. cbn [pod_name om_name helperMetadata].
    assert (exists op, helperOperation params = op /\ dns_run LabelStart (op +:+ "-") = Some AfterHyphen /\
              (String.length op <= 11)%nat) as (op & -> & Hop & Hol).
    { eexists. split; [reflexivity|]. unfold helperOperation.
      destruct Hr as [-> | ->], Ha as [-> | [-> | ->]]; (split; [vm_compute; reflexivity|cbn; lia]). }
    split.
    + rewrite <- string_app_assoc, dns_run_app, Hop. cbn. apply dns_run_after; [done..|]. by intros E; rewrite E in Hn.
    + rewrite !string_length_app. cbn [String.length]. unfold name_room, dns_max in *. lia.
Qed.

Lemma object_names_valid_witness :
  dns_subdomain (hp_name clone_params) /\ dns_subdomain (pod_name (newHelperPod clone_params [])).
Proof.
  assert (dns_subdomain (hp_name clone_params)) as Hn by (split; [vm_compute; reflexivity|cbn; unfold dns_max; lia]).
  split; [exact Hn|]. apply (proj2 object_names_valid); [by left|by right; right|exact Hn|cbn; unfold name_room; lia].
Defined.
