(* ===== verification/Webhook.v ===== *)
(** * The storage class webhook: pkg/webhook/storageclass/validator.go

    [None] is the panic of indexing an empty slice.  What the two controllers list is
    an argument.  [sc_step] is the life of the storage classes behind the webhook; the
    invariant is what the webhook is for: classes on the same node and volume group
    agree on the LVM type. *)
From S2P Require Import Prelude Errors Config.

(** pkg/utils/common.go *)
Definition LVMTopologyNodeKey := "topology.lvm.csi/node".

Record label_requirement := { lr_key : string; lr_values : list string }.
Record storage_class := {
  class_name : string; provisioner : string; parameters : gmap string string;
  allowed_topologies : list (list label_requirement) }.

Definition is_node_key (l : label_requirement) : bool := lr_key l =s LVMTopologyNodeKey.

(** The first matching expression of the nested loops decides. *)
Definition getLVMTopologyNodes (sc : storage_class) : option string :=
  match List.find is_node_key (concat (allowed_topologies sc)) with
  | None => Some ""
  | Some matchLabel => head (lr_values matchLabel)
  end.

(** Whether the topology key was found. *)
Fixpoint check_labels (sc : storage_class) (nodeList : list string)
    (labels : list label_requirement) (found : bool) : result error bool :=
  match labels with
  | [] => Ok found
  | matchLabel :: rest =>
      if is_node_key matchLabel then
        match lr_values matchLabel with
        | [value] =>
            reject negb (bool_decide (value ∈ nodeList))
              with Errorf "storageclass %s with provisioner %s has invalid node name %s"
                     [AStr (class_name sc); AStr (provisioner sc); AStr value];
            check_labels sc nodeList rest true
        | _ => Err (Errorf "storageclass %s with provisioner %s must have one values in MatchLabelExpressions"
                      [AStr (class_name sc); AStr (provisioner sc)])
        end
      else check_labels sc nodeList rest found
  end.

Fixpoint check_topologies (sc : storage_class) (nodeList : list string)
    (topologies : list (list label_requirement)) (found : bool) : result error bool :=
  match topologies with
  | [] => Ok found
  | topology :: rest =>
      reject bool_decide (topology = [])
        with Errorf "storageclass %s with provisioner %s must have MatchLabelExpressions in allowedTopologies"
               [AStr (class_name sc); AStr (provisioner sc)];
      let! found := check_labels sc nodeList topology found in
      check_topologies sc nodeList rest found
  end.

Definition validateTopologyNodes (nodes : result ext_error (list string)) (sc : storage_class) :
    result error unit :=
  if negb (provisioner sc =s LVMCSIDriver) then Ok tt
  else
    match allowed_topologies sc with
    | [] => Err (Errorf "storageclass %s with provisioner %s must have allowedTopologies"
                   [AStr (class_name sc); AStr (provisioner sc)])
    | topologies =>
        match nodes with
        | Err e => Err (Errorf "failed to list nodes: %v, we need node list for validation" [AErr (Ext e)])
        | Ok nodeList =>
            let! foundMatchTopologyKey := check_topologies sc nodeList topologies false in
            reject negb foundMatchTopologyKey
              with Errorf "storageclass %s with provisioner %s must have MatchLabelExpressions with key %s"
                     [AStr (class_name sc); AStr (provisioner sc); AStr LVMTopologyNodeKey];
            Ok tt
        end
    end.

(** The loop over the existing classes. *)
Fixpoint check_conflicts (sc : storage_class) (vgType vgName nodeName : string)
    (classes : list storage_class) : option (result error unit) :=
  match classes with
  | [] => Some (Ok tt)
  | storageClass :: rest =>
      if negb (provisioner storageClass =s LVMCSIDriver) then check_conflicts sc vgType vgName nodeName rest
      else if class_name storageClass =s class_name sc then check_conflicts sc vgType vgName nodeName rest
      else
        match getLVMTopologyNodes storageClass with
        | None => None
        | Some targetNode =>
            if negb (targetNode =s nodeName) then check_conflicts sc vgType vgName nodeName rest
            else if negb (mget (parameters storageClass) "vgName" =s vgName)
            then check_conflicts sc vgType vgName nodeName rest
            else if negb (mget (parameters storageClass) "type" =s vgType) then
              Some (Err (Errorf
                "storageclass %s with vg Type %s is conflict with storageclass %s vgType(%s), vgName(%s)"
                [AStr (class_name sc); AStr vgType; AStr (class_name storageClass);
                 AStr (mget (parameters storageClass) "type");
                 AStr (mget (parameters storageClass) "vgName")]))
            else check_conflicts sc vgType vgName nodeName rest
        end
  end.

Definition validateUniqueVGType (classes : result ext_error (list storage_class)) (sc : storage_class) :
    option (result error unit) :=
  if negb (provisioner sc =s LVMCSIDriver) then Some (Ok tt)
  else
    match getLVMTopologyNodes sc with
    | None => None
    | Some creatingNodeName =>
        let creatingVGType := mget (parameters sc) "type" in
        let creatingVGName := mget (parameters sc) "vgName" in
        if (creatingVGType =s "") || (creatingVGName =s "") || (creatingNodeName =s "") then
          Some (Err (Errorf "storageclass %s with provisioner %s must have type, vgName and topology node"
                       [AStr (class_name sc); AStr (provisioner sc)]))
        else
          match classes with
          | Err e => Some (Err (Ext e))
          | Ok scList => check_conflicts sc creatingVGType creatingVGName creatingNodeName scList
          end
    end.

(** [Validator.Create] *)
Definition Create (nodes : result ext_error (list string))
    (classes : result ext_error (list storage_class)) (newObj : storage_class) :
    option (result error unit) :=
  match validateTopologyNodes nodes newObj with
  | Err e => Some (Err e)
  | Ok _ => validateUniqueVGType classes newObj
  end.

(** [Validator.Update] *)
Definition Update (oldObj newObj : storage_class) : option (result error unit) :=
  match getLVMTopologyNodes oldObj, getLVMTopologyNodes newObj with
  | Some oldNode, Some newNode =>
      if negb (oldNode =s newNode) then
        Some (Err (Errorf "storageclass %s with provisioner %s, topology node can not be changed"
                     [AStr (class_name newObj); AStr (provisioner newObj)]))
      else Some (Ok tt)
  | _, _ => None
  end.

(** ** What a creation is accepted for *)

(** Every topology expression of the class names one existing node. *)
Definition good_topologies (nodes : list string) (sc : storage_class) : Prop :=
  Forall (fun t => t <> []) (allowed_topologies sc) /\
  Forall (fun l => is_node_key l = true -> exists n, lr_values l = [n] /\ n ∈ nodes)
    (concat (allowed_topologies sc)) /\
  Exists (fun l => is_node_key l = true) (concat (allowed_topologies sc)).

(** Two classes are about the same volume group, by the first node of each. *)
Definition same_group (a b : storage_class) : Prop :=
  provisioner a = LVMCSIDriver /\ provisioner b = LVMCSIDriver /\
  getLVMTopologyNodes a = getLVMTopologyNodes b /\
  mget (parameters a) "vgName" = mget (parameters b) "vgName".
Definition same_type (a b : storage_class) : Prop :=
  mget (parameters a) "type" = mget (parameters b) "type".

Lemma check_labels_ok sc nodes l found b :
  check_labels sc nodes l found = Ok b <->
  Forall (fun l => is_node_key l = true -> exists n, lr_values l = [n] /\ n ∈ nodes) l /\
  b = (found || existsb is_node_key l).
Proof.
  revert found. induction l as [|x l IH]; intros found; cbn [check_labels existsb].
  - rewrite orb_false_r. split; [intros [= ->]; auto|]. by intros [_ ->].
  - rewrite Forall_cons. destruct (is_node_key x) eqn:Hx; cbn [orb].
    + destruct (lr_values x) as [|v [|v' vs]] eqn:Hv.
      1,3: split; [done|]; intros [[H _] _]; destruct (H eq_refl) as (n & [=] & _).
      case_bool_decide as Hin; cbn [negb guard rbind].
      * rewrite IH. split; [intros [Hl ->]|intros [[_ Hl] ->]]; rewrite ?orb_true_r; split; auto.
        split; [|done]. intros _. by exists v.
      * split; [done|]. intros [[H _] _]. destruct (H eq_refl) as (n & [= <-] & Hn). done.
    + rewrite IH. naive_solver.
Qed.

Lemma check_topologies_ok sc nodes ts found b :
  check_topologies sc nodes ts found = Ok b <->
  Forall (fun t => t <> []) ts /\
  Forall (fun l => is_node_key l = true -> exists n, lr_values l = [n] /\ n ∈ nodes) (concat ts) /\
  b = (found || existsb is_node_key (concat ts)).
Proof.
  revert found. induction ts as [|t ts IH]; intros found; cbn [check_topologies concat].
  - rewrite orb_false_r. split; [intros [= ->]; auto|]. by intros (_ & _ & ->).
  - rewrite Forall_cons, Forall_app, existsb_app, orb_assoc. case_bool_decide as Ht; cbn [guard rbind].
    { split; [done|]. by intros ([] & _). }
    rewrite rbind_ok. setoid_rewrite check_labels_ok. setoid_rewrite IH. naive_solver.
Qed.

Lemma validateTopologyNodes_ok nodes sc : provisioner sc = LVMCSIDriver ->
  validateTopologyNodes (Ok nodes) sc = Ok tt <-> good_topologies nodes sc.
Proof.
  intros Hp. unfold validateTopologyNodes, good_topologies. rewrite Hp, eqb_same. cbn [negb].
  destruct (allowed_topologies sc) as [|t ts]; cbn [concat].
  { split; [done|]. intros (_ & _ & H). by apply Exists_nil in H. }
  change (t ++ concat ts)%list with (concat (t :: ts)). rewrite rbind_ok.
  setoid_rewrite check_topologies_ok. setoid_rewrite rbind_ok. setoid_rewrite guard_ok. cbn [orb].
  rewrite Exists_exists. split.
  - intros (b & (H1 & H2 & ->) & _ & H3 & _). apply negb_false_iff, existsb_exists in H3 as (l & Hin & Hl).
    split_and!; [done..|]. exists l. by rewrite list_elem_of_In.
  - intros (H1 & H2 & l & Hin & Hl). eexists. split_and!; [done..|]. exists tt. split; [|done].
    apply negb_false_iff, existsb_exists. exists l. by rewrite <- list_elem_of_In.
Qed.

(** A class with good topologies has a node and its lookup does not panic. *)
Lemma good_topologies_node nodes sc : good_topologies nodes sc ->
  exists n, getLVMTopologyNodes sc = Some n /\ n ∈ nodes.
Proof.
  intros (_ & Hall & Hex). unfold getLVMTopologyNodes.
  destruct (List.find is_node_key _) as [l|] eqn:Hf.
  - apply List.find_some in Hf as [Hin Hl]. apply list_elem_of_In in Hin.
    rewrite Forall_forall in Hall. destruct (Hall _ Hin Hl) as (n & -> & Hn). by exists n.
  - apply Exists_exists in Hex as (l & Hin & Hl). apply list_elem_of_In in Hin.
    eapply List.find_none in Hf; [|exact Hin]. congruence.
Qed.

(** The stored classes of the driver name a node; the API server refuses a topology
    expression without values. *)
Definition indexable (c : storage_class) : Prop :=
  provisioner c = LVMCSIDriver -> is_Some (getLVMTopologyNodes c).

Lemma check_conflicts_ok sc ty vg node l : Forall indexable l ->
  exists r, check_conflicts sc ty vg node l = Some r /\
    (r = Ok tt <-> forall c, c ∈ l -> provisioner c = LVMCSIDriver -> class_name c <> class_name sc ->
       getLVMTopologyNodes c = Some node -> mget (parameters c) "vgName" = vg ->
       mget (parameters c) "type" = ty).
Proof.
  induction 1 as [|c l Hc Hl (r & Hr & IH)]; cbn [check_conflicts].
  { exists (Ok tt). split; [done|]. split; [|done]. by intros _ c ?%elem_of_nil. }
  setoid_rewrite elem_of_cons.
  destruct (String.eqb_spec (provisioner c) LVMCSIDriver) as [Hp|Hp]; cbn [negb]; [|exists r; naive_solver].
  destruct (String.eqb_spec (class_name c) (class_name sc)) as [Hn|Hn]; [exists r; naive_solver|].
  destruct (Hc Hp) as [n Hnode]. rewrite Hnode.
  destruct (String.eqb_spec n node) as [->|Hne]; cbn [negb]; [|exists r; naive_solver].
  destruct (String.eqb_spec (mget (parameters c) "vgName") vg) as [Hv|Hv]; cbn [negb]; [|exists r; naive_solver].
  destruct (String.eqb_spec (mget (parameters c) "type") ty) as [Ht|Ht]; cbn [negb]; [exists r; naive_solver|].
  eexists. split; [done|]. split; [done|]. intros H. destruct Ht. apply H; auto.
Qed.

(** What [Create] asks of a class of the driver. *)
Definition acceptable (nodes : list string) (classes : list storage_class) (sc : storage_class) : Prop :=
  good_topologies nodes sc /\
  mget (parameters sc) "type" <> "" /\ mget (parameters sc) "vgName" <> "" /\
  getLVMTopologyNodes sc <> Some "" /\
  forall c, c ∈ classes -> class_name c <> class_name sc -> same_group c sc -> same_type c sc.

Lemma Create_ok nodes classes sc : provisioner sc = LVMCSIDriver -> Forall indexable classes ->
  exists r, Create (Ok nodes) (Ok classes) sc = Some r /\ (r = Ok tt <-> acceptable nodes classes sc).
Proof.
  intros Hp Hi. unfold Create, acceptable. pose proof (validateTopologyNodes_ok nodes sc Hp) as Ht.
  destruct (validateTopologyNodes (Ok nodes) sc) as [[]|e].
  2:{ eexists. split; [done|]. split; [done|]. intros (Hg & _). by apply Ht in Hg. }
  destruct Ht as [Ht _]. specialize (Ht eq_refl).
  destruct (good_topologies_node _ _ Ht) as (node & Hnode & _).
  unfold validateUniqueVGType. rewrite Hp, eqb_same, Hnode. cbn [negb].
  destruct (String.eqb_spec (mget (parameters sc) "type") "") as [|Hty]; cbn [orb];
    [eexists; split; [done|]; naive_solver|].
  destruct (String.eqb_spec (mget (parameters sc) "vgName") "") as [|Hvg]; cbn [orb];
    [eexists; split; [done|]; naive_solver|].
  destruct (String.eqb_spec node "") as [->|Hn]; cbn [orb]; [eexists; split; [done|]; naive_solver|].
  destruct (check_conflicts_ok sc (mget (parameters sc) "type") (mget (parameters sc) "vgName") node
              classes Hi) as (r & Hr & Hok).
  exists r. split; [done|]. rewrite Hok. unfold same_group, same_type. rewrite Hp, Hnode.
  split.
  - intros H. split_and!; [done..|congruence|]. intros c Hc Hne (Hpc & _ & Hnc & Hv). by apply H.
  - intros (_ & _ & _ & _ & H) c Hc Hpc Hne Hnc Hv. by apply H.
Qed.

(** C27: for a class of the driver, [Create] does not panic while the stored classes name
    their nodes, and accepts the class exactly when every one of its topology terms is
    not empty, every node expression in them has exactly one value, which is an existing
    node, at least one such expression exists, type, volume group and node are not
    empty, and no stored class of another name on the same (first) node and volume group
    has another type. *)
Theorem webhook_create_spec nodes classes sc :
  provisioner sc = LVMCSIDriver -> Forall indexable classes ->
  Create (Ok nodes) (Ok classes) sc <> None /\
  (Create (Ok nodes) (Ok classes) sc = Some (Ok tt) <-> acceptable nodes classes sc).
Proof.
  intros Hp Hi. destruct (Create_ok nodes classes sc Hp Hi) as (r & Hr & Hok). rewrite Hr.
  split; [done|]. rewrite <- Hok. split; [by intros [= ->]|by intros ->].
Qed.

(** ** The classes behind the webhook *)

Abbreviation classes := (gmap string storage_class).

(** One admitted request at a time; the API server refuses a change of the provisioner
    or the parameters of a class. *)
Inductive sc_step (s : classes) : classes -> Prop :=
| sc_create nodes listed sc :
    s !! class_name sc = None -> listed ≡ₚ (map_to_list s).*2 ->
    Create (Ok nodes) (Ok listed) sc = Some (Ok tt) ->
    sc_step s (<[class_name sc := sc]> s)
| sc_update old new :
    s !! class_name new = Some old -> provisioner new = provisioner old ->
    parameters new = parameters old -> Update old new = Some (Ok tt) ->
    sc_step s (<[class_name new := new]> s)
| sc_delete n : sc_step s (delete n s).

(** Classes of one volume group agree, and each names its node. *)
Record consistent (s : classes) : Prop := {
  con_named n c : s !! n = Some c -> class_name c = n;
  con_indexable n c : s !! n = Some c -> indexable c;
  con_types n m a b : s !! n = Some a -> s !! m = Some b -> same_group a b -> same_type a b }.

Lemma same_group_sym a b : same_group a b -> same_group b a.
Proof. unfold same_group. naive_solver. Qed.
Lemma same_type_sym a b : same_type a b -> same_type b a.
Proof. unfold same_type. congruence. Qed.

(** A class put under its name keeps a consistent store consistent if it agrees with the
    others. *)
Lemma consistent_insert s sc :
  consistent s -> indexable sc ->
  (forall n c, n <> class_name sc -> s !! n = Some c -> same_group c sc -> same_type c sc) ->
  consistent (<[class_name sc := sc]> s).
Proof.
  intros [Hn Hi Ht] Hsc Hagree. split.
  - intros n c [[<- <-]|[_ Hc]]%lookup_insert_Some; eauto.
  - intros n c [[<- <-]|[_ Hc]]%lookup_insert_Some; eauto.
  - intros n m a b [[<- <-]|[Hna Ha]]%lookup_insert_Some [[<- <-]|[Hmb Hb]]%lookup_insert_Some Hg.
    + done.
    + apply same_type_sym. eapply Hagree; [by apply not_eq_sym|done|by apply same_group_sym].
    + eapply Hagree; [by apply not_eq_sym|done..].
    + by eapply Ht.
Qed.

Lemma consistent_step s s' : consistent s -> sc_step s s' -> consistent s'.
Proof.
  intros Hcon Hstep. pose proof Hcon as [Hn Hi Ht]. destruct Hstep as [nodes l sc Hfree Hl Hc|old new Hold Hp Hpar Hu|n].
  - assert (Forall indexable l) as Hil.
    { rewrite Hl. apply Forall_forall. intros c (x & -> & Hx)%list_elem_of_fmap.
      destruct x as [n c]. apply elem_of_map_to_list in Hx. by eapply Hi. }
    destruct (decide (provisioner sc = LVMCSIDriver)) as [Hp|Hp].
    + destruct (Create_ok nodes l sc Hp Hil) as (r & Hr & Hok). rewrite Hc in Hr. injection Hr as <-.
      destruct (proj1 Hok eq_refl) as (Hg & _ & _ & _ & Hagree).
      apply consistent_insert; [done| |].
      * intros _. destruct (good_topologies_node _ _ Hg) as (node & -> & _). by exists node.
      * intros n c Hne Hcn. apply Hagree; [|by rewrite (Hn _ _ Hcn)].
        rewrite Hl. apply list_elem_of_fmap. exists (n, c). by rewrite elem_of_map_to_list.
    + apply consistent_insert; [done|by intros ?|]. by intros n c _ _ (_ & ? & _).
  - unfold Update in Hu. destruct (getLVMTopologyNodes old) as [a|] eqn:Ha; [|done].
    destruct (getLVMTopologyNodes new) as [b|] eqn:Hb; [|done].
    destruct (String.eqb_spec a b) as [<-|]; [|done].
    apply consistent_insert; [done|by intros _; exists a|].
    intros n c _ Hcn. unfold same_group, same_type. rewrite Hp, Hpar, Hb, <- Ha. by apply (Ht _ _ _ _ Hcn Hold).
  - split; intros *; [intros [_ ?]%lookup_delete_Some..|].
    + by eapply Hn.
    + by eapply Hi.
    + intros [_ ?]%lookup_delete_Some [_ ?]%lookup_delete_Some. by eapply Ht.
Qed.


Definition class_on (name ty vg : string) (nodes : list string) : storage_class := {|
  class_name := name; provisioner := LVMCSIDriver;
  parameters := {["type" := ty; "vgName" := vg]};
  allowed_topologies :=
    ((fun n => [{| lr_key := LVMTopologyNodeKey; lr_values := [n] |}]) <$> nodes)%list |}.

Lemma webhook_create_spec_witness :
  provisioner (class_on "a" StripedType "vg" ["n1"]) = LVMCSIDriver /\
  Create (Ok ["n1"]) (Ok []) (class_on "a" StripedType "vg" ["n1"]) <> None.
Proof.
  split; [reflexivity|].
  apply (webhook_create_spec ["n1"] [] (class_on "a" StripedType "vg" ["n1"])); [reflexivity|constructor].
Defined.


(** The webhook accepts a class whose topology names two nodes, although a volume
    group is on one, and compares only the first of them: a class of another type on the
    second node and the same volume group goes unnoticed. *)
Theorem webhook_second_node_unchecked :
  exists old sc, provisioner old = LVMCSIDriver /\ provisioner sc = LVMCSIDriver /\
    (exists l1 l2, concat (allowed_topologies sc) = [l1; l2] /\
       lr_values l1 = ["n1"] /\ lr_values l2 = ["n2"] /\ is_node_key l1 = true /\ is_node_key l2 = true) /\
    getLVMTopologyNodes old = Some "n2" /\
    mget (parameters old) "vgName" = mget (parameters sc) "vgName" /\ ~ same_type old sc /\
    Create (Ok ["n1"; "n2"]) (Ok [old]) sc = Some (Ok tt).
Proof.
  exists (class_on "old" DmThinType "vg" ["n2"]), (class_on "new" StripedType "vg" ["n1"; "n2"]).
  split_and!; try reflexivity; [|by vm_compute].
  eexists _, _. split_and!; reflexivity.
Qed.
