(* ===== verification/Service.v ===== *)
(** * The driver's process: server.go, identityserver.go, Run of lvm.go, main.go

    The endpoint the gRPC server listens on, the identity service, and how the
    process is put together from its flags. *)
From S2P Require Import Prelude GoStrings Errors Objects Effects Config Json Lvm Node Controller.

(** ** The endpoint *)

(** The first occurrence of a separator. *)
Fixpoint cut (sep s : string) : option (string * string) :=
  match strip_prefix sep s with
  | Some r => Some ("", r)
  | None => match s with
            | EmptyString => None
            | String a s' => match cut sep s' with Some (x, y) => Some (String a x, y) | None => None end
            end
  end.

(** [strings.SplitN(s, sep, 2)] *)
Definition split_two (sep s : string) : list string :=
  match cut sep s with Some (x, y) => [x; y] | None => [s] end.

(** [None]: the index [s\[1\]] is out of range and the process panics. *)
Definition parseEndpoint (ep : string) : option (result error (string * string)) :=
  let invalid := Err (Errorf "invalid endpoint: %v" [AStr ep]) in
  if has_prefix (to_lower ep) "unix://" || has_prefix (to_lower ep) "tcp://" then
    match split_two "://" ep with
    | s0 :: s1 :: _ => Some (if negb (s1 =s "") then Ok (s0, s1) else invalid)
    | _ => None
    end
  else Some invalid.

(** [serve] up to the call of [net.Listen]: the network and address it is given; an
    error ends the process. *)
Definition serve (endpoint : string) : prog (option (result error (string * string))) :=
  match parseEndpoint endpoint with
  | None => Ret None
  | Some (Err e) => Ret (Some (Err e))
  | Some (Ok (proto, addr)) =>
      if proto =s "unix" then
        let addr := "/" +:+ addr in
        let* err := call (Remove addr) in
        match err with
        | Some e => if negb (ext_os_not_exist e) then
                      Ret (Some (Err (Errorf "Failed to remove %s, error: %s" [AStr addr; AErr (Ext e)])))
                    else Ret (Some (Ok (proto, addr)))
        | None => Ret (Some (Ok (proto, addr)))
        end
      else Ret (Some (Ok (proto, addr)))
  end.

(** ** The identity service *)

Record identityServer := { ids_name : string; ids_version : string }.

Definition newIdentityServer (name version : string) : identityServer :=
  {| ids_name := name; ids_version := version |}.

(** The answer is the name and the vendor version. *)
Definition GetPluginInfo (ids : identityServer) : result error (string * string) :=
  reject (ids_name ids =s "") with Status Unavailable "Driver name not configured" [];
  reject (ids_version ids =s "") with Status Unavailable "Driver is missing version" [];
  Ok (ids_name ids, ids_version ids).

Definition Probe : unit := tt.

(** [PluginCapability_Service_Type] *)
Definition CONTROLLER_SERVICE : Z := 1.
Definition VOLUME_ACCESSIBILITY_CONSTRAINTS : Z := 2.
Definition GetPluginCapabilities : list Z := [CONTROLLER_SERVICE; VOLUME_ACCESSIBILITY_CONSTRAINTS].

(** ** The process *)

(** What [Run] gives to [start]. *)
Record services := {
  run_endpoint : string; run_ids : identityServer; run_ns : nodeServer; run_cs : controllerServer }.

(** [Run] up to [start]; [clients]: the error of making the Kubernetes clients, if any. *)
Definition Run (T : timeouts) (clients : option ext_error) (lvm : Lvm) : prog (result error services) :=
  let ids := newIdentityServer (name lvm) (version lvm) in
  let*! ns := newNodeServer T (nodeID lvm) (maxVolumesPerNode lvm) in
  let? cs := newControllerServer clients (nodeID lvm) (hostWritePath lvm) (namespace lvm)
               (provisionerImage lvm) (pullPolicy lvm) (helperConfig lvm) in
  Ret (Ok {| run_endpoint := endpoint lvm; run_ids := ids; run_ns := ns; run_cs := cs |}).

(** The flags of main.go with their defaults. *)
Record flags := {
  f_endpoint : string; f_hostWritePath : string; f_driverName : string; f_nodeID : string;
  f_maxVolumesPerNode : Z; f_namespace : string; f_provisionerImage : string; f_pullPolicy : string;
  f_helperCommandTimeout : Z; f_helperPodTimeout : Z; f_thinPoolCreateTimeout : Z;
  f_thinPoolHelperPodTimeout : Z; f_maxActiveHelpers : Z }.

Definition default_flags : flags := {|
  f_endpoint := "unix://tmp/csi.sock"; f_hostWritePath := "/etc/lvm";
  f_driverName := "harvester-csi-driver-lvm"; f_nodeID := ""; f_maxVolumesPerNode := 0;
  f_namespace := "csi-lvm"; f_provisionerImage := "metalstack/csi-lvmplugin-provisioner";
  f_pullPolicy := "ifnotpresent"; f_helperCommandTimeout := DefaultHelperCommandTimeout;
  f_helperPodTimeout := DefaultHelperPodTimeout;
  f_thinPoolCreateTimeout := DefaultThinPoolCreateTimeout;
  f_thinPoolHelperPodTimeout := DefaultThinPoolPodTimeout;
  f_maxActiveHelpers := DefaultMaxActiveHelpers |}.

(** [helperConfig] of [handle]. *)
Definition flags_config (f : flags) : HelperConfig := {|
  CommandTimeout := f_helperCommandTimeout f; PodTimeout := f_helperPodTimeout f;
  ThinPoolCreateTimeout := f_thinPoolCreateTimeout f;
  ThinPoolPodTimeout := f_thinPoolHelperPodTimeout f; MaxActive := f_maxActiveHelpers f |}.

(** [handle] of main.go: the error printed before [os.Exit(1)], or the running services.
    [version] is the variable that the build sets. *)
Definition handle (T : timeouts) (clients : option ext_error) (vendorVersion version : string) (f : flags) :
    prog (result error services) :=
  let? driver := fst (NewLvmDriver vendorVersion (f_driverName f) (f_nodeID f) (f_endpoint f)
                        (f_hostWritePath f) (f_maxVolumesPerNode f) version (f_namespace f)
                        (f_provisionerImage f) (f_pullPolicy f) [WithHelperConfig (flags_config f)]) in
  Run T clients driver.

(** ** Lower case and the separator *)

Lemma has_prefix_spec s p : has_prefix s p = true <-> exists r, s = p +:+ r.
Proof.
  unfold has_prefix. split.
  - destruct (strip_prefix p s) as [r|] eqn:E; [|done]. apply strip_prefix_spec in E. eauto.
  - intros [r ->]. by rewrite strip_prefix_app.
Qed.

Lemma has_prefix_more s t p : has_prefix s p = true -> has_prefix (s +:+ t) p = true.
Proof.
  rewrite !has_prefix_spec. intros [r ->]. exists (r +:+ t). apply string_app_assoc.
Qed.

(** The three forms of the head of a string. *)
Lemma to_lower_cases a s :
  (exists r, String a s = bytes [196; 176] +:+ r) \/
  (exists r, String a s = bytes [226; 132; 170] +:+ r) \/
  (has_prefix (String a s) (bytes [196; 176]) = false /\
   has_prefix (String a s) (bytes [226; 132; 170]) = false).
Proof.
  destruct (has_prefix (String a s) (bytes [196; 176])) eqn:H1; [left; by apply has_prefix_spec|].
  destruct (has_prefix (String a s) (bytes [226; 132; 170])) eqn:H2; [right; left; by apply has_prefix_spec|].
  auto.
Qed.

Lemma to_lower_byte a s :
  has_prefix (String a s) (bytes [196; 176]) = false ->
  has_prefix (String a s) (bytes [226; 132; 170]) = false ->
  to_lower (String a s) = String (lower_byte a) (to_lower s).
Proof. intros H1 H2. unfold to_lower. cbn [to_lower_from]. by rewrite H1, H2. Qed.

Lemma to_lower_split a s t : to_lower s = a +:+ t ->
  exists s1 s2, s = s1 +:+ s2 /\ to_lower s1 = a /\ to_lower s2 = t.
Proof.
  revert s. induction a as [|b a IH]; intros s; [cbn; intros <-; by exists "", s|].
  destruct s as [|c s]; [done|].
  destruct (to_lower_cases c s) as [[r ->]|[[r ->]|[H1 H2]]].
  - intros [= <- (s1 & s2 & -> & <- & <-)%IH]. by exists (bytes [196; 176] +:+ s1), s2.
  - intros [= <- (s1 & s2 & -> & <- & <-)%IH]. by exists (bytes [226; 132; 170] +:+ s1), s2.
  - rewrite to_lower_byte by done. intros [= <- (s1 & s2 & -> & <- & <-)%IH].
    exists (String c s1), s2. split_and!; [done| |done].
    apply to_lower_byte; apply not_true_is_false; intros Hp;
      apply (has_prefix_more _ s2) in Hp; cbn [String.append] in Hp; congruence.
Qed.

(** A byte that is no letter is the lower case of itself only. *)
Definition separator (b : ascii) : Prop := b = ":"%char \/ b = "/"%char.

Lemma lower_byte_separator a b : separator b -> lower_byte a = b -> a = b.
Proof.
  intros Hb E. destruct a as [[] [] [] [] [] [] [] []]; vm_compute in E; destruct Hb; subst b; try discriminate; done.
Qed.

Lemma to_lower_separator s b t : separator b -> to_lower s = String b t ->
  exists s', s = String b s' /\ to_lower s' = t.
Proof.
  intros Hb. destruct s as [|c s]; [done|].
  destruct (to_lower_cases c s) as [[r ->]|[[r ->]|[H1 H2]]].
  1-2: intros [= <- _]; by destruct Hb.
  rewrite to_lower_byte by done. intros [= E <-]. apply lower_byte_separator in E as ->; eauto.
Qed.

Lemma to_lower_keeps_colon s : has_byte ":" s = true -> has_byte ":" (to_lower s) = true.
Proof.
  remember (String.length s) as n eqn:Hn. revert s Hn.
  induction n as [n IH] using lt_wf_ind. intros [|c s] ->; [done|].
  destruct (to_lower_cases c s) as [[r Hr]|[[r Hr]|[H1 H2]]].
  - rewrite Hr. change (to_lower (bytes [196; 176] +:+ r)) with (String "i" (to_lower r)).
    intros Hb. apply (IH (String.length r)); [|done|exact Hb].
    apply (f_equal String.length) in Hr. rewrite Hr. cbn. lia.
  - rewrite Hr. change (to_lower (bytes [226; 132; 170] +:+ r)) with (String "k" (to_lower r)).
    intros Hb. apply (IH (String.length r)); [|done|exact Hb].
    apply (f_equal String.length) in Hr. rewrite Hr. cbn. lia.
  - rewrite to_lower_byte by done. cbn [has_byte]. intros [Hc|Hs]%orb_true_iff.
    + apply Ascii.eqb_eq in Hc as ->. done.
    + apply orb_true_iff. right. apply (IH (String.length s)); [cbn; lia|done|done].
Qed.

Lemma cut_first p r : has_byte ":" p = false -> cut "://" (p +:+ "://" +:+ r) = Some (p, r).
Proof.
  induction p as [|a p IH]; [done|]. cbn [has_byte]. intros [Ha Hp]%orb_false_iff.
  change (cut "://" (String a p +:+ "://" +:+ r)) with
    (match (if Ascii.eqb ":" a then strip_prefix "//" (p +:+ "://" +:+ r) else None) with
     | Some r => Some ("", r)
     | None => match cut "://" (p +:+ "://" +:+ r) with Some (x, y) => Some (String a x, y) | None => None end
     end).
  rewrite Ascii.eqb_sym, Ha. by rewrite IH.
Qed.

Definition known_network (proto : string) : Prop := to_lower proto = "unix" \/ to_lower proto = "tcp".

Lemma known_no_colon proto : known_network proto -> has_byte ":" proto = false.
Proof.
  intros Hk. apply not_true_is_false. intros Hc%to_lower_keeps_colon. by destruct Hk as [E|E]; rewrite E in Hc.
Qed.

Lemma endpoint_split ep q : has_prefix (to_lower ep) (q +:+ "://") = true ->
  exists proto addr, ep = proto +:+ "://" +:+ addr /\ to_lower proto = q.
Proof.
  intros [r Hr]%has_prefix_spec. rewrite string_app_assoc in Hr.
  apply to_lower_split in Hr as (proto & rest & -> & Hq & Hrest).
  apply to_lower_separator in Hrest as (rest1 & -> & Hrest); [|by left].
  apply to_lower_separator in Hrest as (rest2 & -> & Hrest); [|by right].
  apply to_lower_separator in Hrest as (addr & -> & _); [|by right].
  by exists proto, addr.
Qed.

Lemma to_lower_app proto s : known_network proto ->
  to_lower (proto +:+ "://" +:+ s) = to_lower proto +:+ "://" +:+ to_lower s.
Proof.
  intros Hk. assert (forall p, to_lower (p +:+ "://" +:+ s) = to_lower p +:+ "://" +:+ to_lower s) as Happ; [|apply Happ].
  clear. intros p. remember (String.length p) as n eqn:Hn. revert p Hn.
  induction n as [n IH] using lt_wf_ind. intros [|c p] ->; [done|].
  destruct (to_lower_cases c p) as [[r Hr]|[[r Hr]|[H1 H2]]].
  - rewrite Hr. change (to_lower (bytes [196; 176] +:+ r)) with (String "i" (to_lower r)).
    change (to_lower ((bytes [196; 176] +:+ r) +:+ "://" +:+ s)) with (String "i" (to_lower (r +:+ "://" +:+ s))).
    rewrite (IH (String.length r)); [done| |done].
    apply (f_equal String.length) in Hr. rewrite Hr. cbn. lia.
  - rewrite Hr. change (to_lower (bytes [226; 132; 170] +:+ r)) with (String "k" (to_lower r)).
    change (to_lower ((bytes [226; 132; 170] +:+ r) +:+ "://" +:+ s)) with (String "k" (to_lower (r +:+ "://" +:+ s))).
    rewrite (IH (String.length r)); [done| |done].
    apply (f_equal String.length) in Hr. rewrite Hr. cbn. lia.
  - rewrite to_lower_byte by done. cbn [String.append]. rewrite to_lower_byte.
    + rewrite (IH (String.length p)); [done|cbn; lia|done].
    + revert H1. unfold has_prefix. cbn. destruct (Ascii.eqb _ c); [|done]. destruct p as [|d p]; [done|].
      cbn. destruct (Ascii.eqb _ d); done.
    + revert H2. unfold has_prefix. cbn. destruct (Ascii.eqb _ c); [|done]. destruct p as [|d p]; [done|].
      cbn. destruct (Ascii.eqb _ d); [|done]. destruct p as [|d' p]; [done|]. cbn. destruct (Ascii.eqb _ d'); done.
Qed.

Lemma parseEndpoint_exact ep :
  parseEndpoint ep <> None /\
  (forall proto addr, parseEndpoint ep = Some (Ok (proto, addr)) <->
     ep = proto +:+ "://" +:+ addr /\ known_network proto /\ addr <> "").
Proof.
  assert (forall proto addr, ep = proto +:+ "://" +:+ addr -> known_network proto ->
    has_prefix (to_lower ep) "unix://" || has_prefix (to_lower ep) "tcp://" = true /\
    split_two "://" ep = [proto; addr]) as Hform.
  { intros proto addr -> Hk. rewrite to_lower_app by done. split.
    - by destruct Hk as [-> | ->].
    - unfold split_two. by rewrite cut_first by by apply known_no_colon. }
  unfold parseEndpoint.
  destruct (has_prefix (to_lower ep) "unix://" || has_prefix (to_lower ep) "tcp://") eqn:Hp.
  - assert (exists proto addr, ep = proto +:+ "://" +:+ addr /\ known_network proto) as (proto & addr & Hep & Hk).
    { apply orb_true_iff in Hp as [Hp|Hp].
      - destruct (endpoint_split ep "unix" Hp) as (p & a & ? & ?). exists p, a. split; [done|by left].
      - destruct (endpoint_split ep "tcp" Hp) as (p & a & ? & ?). exists p, a. split; [done|by right]. }
    destruct (Hform _ _ Hep Hk) as [_ ->]. split; [done|]. intros proto' addr'. split.
    + destruct (String.eqb_spec addr ""); [done|]. intros [= <- <-]. done.
    + intros (Hep' & Hk' & Hne). destruct (Hform _ _ Hep' Hk') as [_ Hs].
      destruct (Hform _ _ Hep Hk) as [_ Hs']. rewrite Hs in Hs'. injection Hs' as -> ->.
      by destruct (String.eqb_spec addr "").
  - split; [done|]. intros proto addr. split; [done|]. intros (Hep & Hk & _).
    destruct (Hform _ _ Hep Hk). congruence.
Qed.

(** C38: [parseEndpoint] never panics, and accepts exactly the endpoints
    [<network>://<address>] with an address that is not empty and a network that is, in
    lower case, [unix] or [tcp]; it answers the network in the case it was written. *)
Theorem parseEndpoint_spec ep :
  parseEndpoint ep <> None /\
  (forall proto addr, parseEndpoint ep = Some (Ok (proto, addr)) <->
     ep = proto +:+ "://" +:+ addr /\ known_network proto /\ addr <> "").
Proof. apply parseEndpoint_exact. Qed.

(** The case of the network is ignored by the check only: for the endpoint
    ["UNIX://csi.sock"], [serve] neither removes a stale socket nor makes the path
    absolute, and asks [net.Listen] for the network ["UNIX"]. *)
Theorem serve_upper_case :
  parseEndpoint "UNIX://csi.sock" = Some (Ok ("UNIX", "csi.sock")) /\
  serve "UNIX://csi.sock" = Ret (Some (Ok ("UNIX", "csi.sock"))) /\
  all_results (fun r => r <> Some (Ok ("unix", "csi.sock"))) (serve "unix://csi.sock").
Proof. split_and!; [reflexivity..|]. intros [e|]; cbn; [|done]. by destruct (ext_os_not_exist e). Qed.

(** What [Run] gives to [start]. *)
Lemma Run_services T clients lvm :
  all_results (fun r => match r with
                        | Ok s => cs_helperConfig (run_cs s) = helperConfig lvm /\
                                  run_endpoint s = endpoint lvm /\ clients = None
                        | Err _ => True
                        end) (Run T clients lvm).
Proof.
  unfold Run. eapply all_results_bind with (P := fun _ => True).
  - unfold newNodeServer, VgActivate. eapply all_results_bind with (P := fun _ => True); [|by intros [e|]].
    eapply all_results_bind with (P := fun _ => True); [by intros [? [?|]]|].
    intros [e|] _; cbn; [done|]. by intros [? [?|]].
  - intros [ns|e] _; cbn; [|done]. by destruct clients.
Qed.

(** A driver made of flags has their values, and its configuration is valid. *)
Lemma NewLvmDriver_flags vendorVersion version f d :
  fst (NewLvmDriver vendorVersion (f_driverName f) (f_nodeID f) (f_endpoint f)
         (f_hostWritePath f) (f_maxVolumesPerNode f) version (f_namespace f)
         (f_provisionerImage f) (f_pullPolicy f) [WithHelperConfig (flags_config f)]) = Ok d ->
  valid_config (flags_config f) /\ helperConfig d = flags_config f /\ endpoint d = f_endpoint f /\
  f_nodeID f <> "".
Proof.
  unfold NewLvmDriver. destruct (_ =s _); [done|]. destruct (String.eqb_spec (f_nodeID f) ""); [done|].
  destruct (f_endpoint f =s ""); [done|]. cbn [fst apply_options]. unfold WithHelperConfig.
  destruct (validate (flags_config f)) as [[]|e] eqn:Hc; cbn; [|done]. apply validate_ok in Hc.
  by intros [= <-].
Qed.

Lemma handle_services T clients vendorVersion version f :
  all_results (fun r => match r with
                        | Ok s => valid_config (flags_config f) /\ cs_helperConfig (run_cs s) = flags_config f /\
                                  run_endpoint s = f_endpoint f /\ f_nodeID f <> "" /\ clients = None
                        | Err _ => True
                        end)
    (handle T clients vendorVersion version f).
Proof.
  unfold handle. destruct (fst (NewLvmDriver _ _ _ _ _ _ _ _ _ _ _)) as [d|e] eqn:Hd; cbn [check_ok]; [|done].
  apply NewLvmDriver_flags in Hd as (Hv & Hcfg & Hep & Hn). pose proof (Run_services T clients d) as HR. revert HR.
  generalize (Run T clients d). intros p. induction p as [r|e k IH]; cbn; [|auto].
  destruct r as [s|e]; [|done]. intros (-> & -> & ->). auto.
Qed.

(** When the process starts serving, every helper it will run has a command timeout and
    a limit greater than zero, a pod deadline later than its command timeout, and for
    thin pools one later than the creation timeout: [handle] ends in an error for any
    other flags, before any handler can run. *)
Theorem handle_valid_config T clients vendorVersion version f :
  all_results (fun r => match r with
                        | Ok s => valid_config (cs_helperConfig (run_cs s)) /\ f_nodeID f <> ""
                        | Err _ => True
                        end)
    (handle T clients vendorVersion version f).
Proof.
  pose proof (handle_services T clients vendorVersion version f) as H. revert H.
  generalize (handle T clients vendorVersion version f). intros p. induction p as [r|e k IH]; cbn; [|auto].
  destruct r as [s|e]; [|done]. by intros (Hv & -> & _ & Hn & _).
Qed.
