(* ===== verification/Process.v ===== *)
(** * The three processes: main.go, server.go, cmd/webhook/main.go

    How the driver's process serves or ends, what the gRPC server registers and logs,
    and how the webhook's process is put together.  The results of the libraries'
    calls ([net.Listen], the client factories, the command line, the log levels) are
    arguments; once a process serves, the model ends. *)
From S2P Require Import Prelude GoStrings Errors Objects Effects Config Json Lvm Node Controller Webhook Service.
From S2P Require Import HelperSpec Validation.

(** ** The gRPC server *)

Inductive service := IdentityService | ControllerService | NodeService.
#[export] Instance service_eq_dec : EqDecision service.
Proof. solve_decision. Defined.

(** How a process goes on: it ended, panicked, or serves until it is stopped. *)
Inductive process_end :=
| Exited (code : Z)
| Panicked
| Serving (network address : string) (registered : list service).

(** [klog.Fatalf] and [logrus.Fatalf] *)
Definition klog_fatal : process_end := Exited 255.
Definition logrus_fatal : process_end := Exited 1.

(** The wait group's counter and, once it serves, the services registered. *)
Record nonBlockingGRPCServer := { wg : nat; server : option (list service) }.

Definition newNonBlockingGRPCServer : nonBlockingGRPCServer := {| wg := 0; server := None |}.

(** [start] up to the goroutine. *)
Definition start (s : nonBlockingGRPCServer) : nonBlockingGRPCServer :=
  {| wg := S (wg s); server := server s |}.

(** Whether [wait] returns; nothing ever calls [Done]. *)
Definition wait (s : nonBlockingGRPCServer) : bool := Nat.eqb (wg s) 0.

(** A service is registered unless its server is nil. *)
Definition register {I C N} (ids : option I) (cs : option C) (ns : option N) : list service :=
  (match ids with Some _ => [IdentityService] | None => [] end ++
   match cs with Some _ => [ControllerService] | None => [] end ++
   match ns with Some _ => [NodeService] | None => [] end)%list.

Section driver.
(** The result of [net.Listen]. *)
Variable listen : string -> string -> option ext_error.

(** The goroutine of [start]: [serve] from the parsed endpoint on. *)
Definition serve_grpc {I C N} (endpoint : string) (ids : option I) (cs : option C) (ns : option N) :
    prog process_end :=
  let* target := serve endpoint in
  match target with
  | None => Ret Panicked
  | Some (Err e) => Ret klog_fatal
  | Some (Ok (proto, addr)) =>
      match listen proto addr with
      | Some e => Ret klog_fatal
      | None => Ret (Serving proto addr (register ids cs ns))
      end
  end.

(** [main] of main.go after [flag.Parse]; a missing error of [Run] cannot be seen, since
    [wait] does not return. *)
Definition driver_main (showVersion : bool) (T : timeouts) (clients : option ext_error)
    (vendorVersion version : string) (f : flags) : prog process_end :=
  if showVersion then Ret (Exited 0)
  else
    let* r := handle T clients vendorVersion version f in
    match r with
    | Err e => Ret (Exited 1)
    | Ok s =>
        if wait (start newNonBlockingGRPCServer) then Ret (Exited 0)
        else serve_grpc (run_endpoint s) (Some (run_ids s)) (Some (run_cs s)) (Some (run_ns s))
    end.
End driver.

(** The lines [logGRPC] writes: secrets are stripped from what it prints of a message. *)
Inductive log_line :=
| LogCall (fullMethod : string)
| LogRequest (text : string)
| LogResponse (text : string)
| LogError (e : error).

Definition logGRPC {Req Resp} (strip_request : Req -> string) (strip_response : Resp -> string)
    (fullMethod : string) (handler : Req -> prog (result error Resp)) (req : Req) :
    prog (list log_line * result error Resp) :=
  let lines := [LogCall fullMethod; LogRequest (strip_request req)] in
  let* r := handler req in
  match r with
  | Err e => Ret ((lines ++ [LogError e])%list, Err e)
  | Ok resp => Ret ((lines ++ [LogResponse (strip_response resp)])%list, Ok resp)
  end.

(** ** The webhook's process *)

(** [config.Options] *)
Record Options := {
  Namespace : string; Threadiness : Z; HTTPSListenPort : Z;
  ControllerUsername : string; GarbageCollectionUsername : string }.

Definition webhookName := "harvester-csi-driver-lvm-webhook".

(** What the command line gives of a flag, or else its environment variable. *)
Record given := { given_string : string -> string -> option string; given_int : string -> string -> option Z }.

(** What the library makes of the command line. *)
Inductive command_line := AsksHelp | Unreadable (e : ext_error) | Flags (g : given).

(** The flags with their variables and defaults: the log level and the options. *)
Definition webhook_flags (g : given) : string * Options :=
  (default "info" (given_string g "loglevel" "LOGLEVEL"),
   {| Namespace := default "harvester-system" (given_string g "namespace" "NAMESPACE");
      Threadiness := default 5%Z (given_int g "threadiness" "THREADINESS");
      HTTPSListenPort := default 8443%Z (given_int g "https-port" "WEBHOOK_SERVER_HTTPS_PORT");
      ControllerUsername := default "harvester-csi-driver-lvm-webhook"
        (given_string g "controller-user" "CONTROLLER_USER_NAME");
      GarbageCollectionUsername := default "system:serviceaccount:kube-system:generic-garbage-collector"
        (given_string g "gc-user" "GARBAGE_COLLECTION_USER_NAME") |}).

(** [namespace] is required: its default does not count. *)
Definition required_missing (g : given) : bool :=
  match given_string g "namespace" "NAMESPACE" with None => true | Some _ => false end.

Definition DebugLevel : Z := 5.

Definition setLogLevel (parse_level : string -> result ext_error Z) (level : string) : Z :=
  match parse_level level with Ok ll => ll | Err _ => DebugLevel end.

(** [admission.Resource] *)
Inductive operation := CREATE | UPDATE | DELETE | CONNECT.
#[export] Instance operation_eq_dec : EqDecision operation.
Proof. solve_decision. Defined.

Record resource := {
  res_names : list string; res_scope : string; res_group : string; res_version : string;
  res_operations : list operation }.

(** [Validator.Resource] *)
Definition Resource : resource := {|
  res_names := ["storageclasses"]; res_scope := "Cluster"; res_group := "storage.k8s.io";
  res_version := "v1"; res_operations := [CREATE; UPDATE] |}.

(** What the two controllers of a [Validator] list. *)
Record Validator := {
  nodeCtrl : result ext_error (list string); storageClassCtrl : result ext_error (list storage_class) }.

Definition NewStorageClassValidator (classes : result ext_error (list storage_class))
    (nodes : result ext_error (list string)) : Validator :=
  {| nodeCtrl := nodes; storageClassCtrl := classes |}.

(** What the validator answers to an operation that is sent to it; the ones it does not
    override are allowed ([admission.DefaultValidator]). *)
Definition validates (v : Validator) (op : operation) (oldObj newObj : storage_class) :
    option (result error unit) :=
  match op with
  | CREATE => Create (nodeCtrl v) (storageClassCtrl v) newObj
  | UPDATE => Update oldObj newObj
  | DELETE | CONNECT => Some (Ok tt)
  end.

Inductive webhook_end :=
| WebhookExited (code : Z)
| WebhookServing (level : Z) (options : Options) (validators : list Validator).

Section webhook.
(** The factories' clients, or their errors, and the results of the server's calls. *)
Variable storageFactory : result ext_error (result ext_error (list storage_class)).
Variable coreFactory : result ext_error (result ext_error (list string)).
Variable registerValidators : list Validator -> option ext_error.
Variable startServer : list Validator -> option ext_error.

(** The validators of the server that serves, or the error. *)
Definition runWebhookServer : result error (list Validator) :=
  match storageFactory with
  | Err e => Err (Ext e)
  | Ok storageclassClient =>
      match coreFactory with
      | Err e => Err (Ext e)
      | Ok nodeClient =>
          let validators := [NewStorageClassValidator storageclassClient nodeClient] in
          match registerValidators validators with
          | Some e => Err (Ext e)
          | None =>
              match startServer validators with
              | Some e => Err (Ext e)
              | None => Ok validators
              end
          end
      end
  end.

(** [main] of cmd/webhook *)
Definition webhook_main (clientConfig : option ext_error) (parse_level : string -> result ext_error Z)
    (args : command_line) : webhook_end :=
  match clientConfig with
  | Some e => WebhookExited 1
  | None =>
      match args with
      | AsksHelp => WebhookExited 0
      | Unreadable e => WebhookExited 1
      | Flags g =>
          if required_missing g then WebhookExited 1
          else
            let (logLevel, options) := webhook_flags g in
            let level := setLogLevel parse_level logLevel in
            match runWebhookServer with
            | Err e => WebhookExited 1
            | Ok validators => WebhookServing level options validators
            end
      end
  end.
End webhook.

(** ** What the processes promise *)

Lemma all_results_and {R} (P Q : R -> Prop) (p : prog R) :
  all_results P p -> all_results Q p -> all_results (fun r => P r /\ Q r) p.
Proof. induction p as [r|e k IH]; cbn; auto. Qed.

Lemma all_results_mono {R} (P Q : R -> Prop) (p : prog R) :
  (forall r, P r -> Q r) -> all_results P p -> all_results Q p.
Proof. intros HPQ. induction p as [r|e k IH]; cbn; auto. Qed.

(** The address [serve] listens on for an endpoint. *)
Definition listens_on (endpoint network address : string) : Prop :=
  exists rest, endpoint = network +:+ "://" +:+ rest /\ known_network network /\ rest <> "" /\
    address = if network =s "unix" then "/" +:+ rest else rest.

Lemma serve_grpc_ends {I C N} listen endpoint (ids : option I) (cs : option C) (ns : option N) :
  all_results (fun e => match e with
                        | Panicked => False
                        | Exited code => code = 255%Z
                        | Serving network address reg =>
                            listens_on endpoint network address /\ listen network address = None /\
                            reg = register ids cs ns
                        end) (serve_grpc listen endpoint ids cs ns).
Proof.
  unfold serve_grpc. destruct (parseEndpoint_exact endpoint) as [Hp Hspec].
  eapply all_results_bind with (P := fun r => match r with
    | None => False
    | Some (Err _) => True
    | Some (Ok (network, address)) => listens_on endpoint network address
    end).
  - unfold serve. destruct (parseEndpoint endpoint) as [[[proto addr]|e]|] eqn:He; [|done|done].
    destruct (proj1 (Hspec proto addr) eq_refl) as (Hep & Hk & Hne).
    destruct (String.eqb_spec proto "unix") as [->|Hu].
    + assert (listens_on endpoint "unix" ("/" +:+ addr)) as Hl by by exists addr.
      cbn. intros [e|]; cbn; [|done]. by destruct (ext_os_not_exist e).
    + cbn. exists addr. apply eqb_false in Hu. by rewrite Hu.
  - intros [[[network address]|e]|]; cbn; [|done|done]. intros Hl.
    by destruct (listen network address) eqn:E.
Qed.

(** C24: the driver's process never panics at its start; it exits with 0 only when asked for
    its version, and serves otherwise only with a node id, a valid helper configuration
    (so that every timeout is positive and every pod deadline later than its command's)
    and working Kubernetes clients, all three services registered, on the network and
    address its endpoint names; in every other case it exits with 1 or 255. *)
Theorem driver_process listen (showVersion : bool) T clients vendorVersion version f :
  all_results (fun e => match e with
                        | Panicked => False
                        | Exited code => if showVersion then code = 0%Z else code = 1%Z \/ code = 255%Z
                        | Serving network address registered =>
                            showVersion = false /\ f_nodeID f <> "" /\ valid_config (flags_config f) /\
                            clients = None /\
                            registered = [IdentityService; ControllerService; NodeService] /\
                            listens_on (f_endpoint f) network address /\ listen network address = None
                        end)
    (driver_main listen showVersion T clients vendorVersion version f).
Proof.
  unfold driver_main. destruct showVersion; [done|].
  eapply all_results_bind; [apply handle_services|]. intros [s|e]; cbn [wait start newNonBlockingGRPCServer wg Nat.eqb].
  - intros (Hv & _ & -> & Hn & ->).
    eapply all_results_mono; [|apply (serve_grpc_ends listen (f_endpoint f))].
    intros [code| |network address reg]; [auto|done|]. by intros (Hl & Hlis & ->).
  - intros _. by left.
Qed.

(** The webhook's process serves only the storage class validator over the clients that
    were made, and only for a namespace that was given; otherwise it ends with 1, or
    with 0 when asked for help. *)
Theorem webhook_process storage core reg srv cfg parse args :
  match webhook_main storage core reg srv cfg parse args with
  | WebhookExited code => code = match args, cfg with AsksHelp, None => 0%Z | _, _ => 1%Z end
  | WebhookServing level options validators =>
      exists (g : given) classes nodes, args = Flags g /\ storage = Ok classes /\ core = Ok nodes /\ cfg = None /\
        validators = [NewStorageClassValidator classes nodes] /\
        given_string g "namespace" "NAMESPACE" = Some (Namespace options) /\
        reg validators = None /\ srv validators = None
  end.
Proof.
  unfold webhook_main, runWebhookServer, required_missing, webhook_flags.
  destruct cfg; [by destruct args as [| |]|]. destruct args as [|e|g]; [done|done|].
  destruct (given_string g "namespace" "NAMESPACE") eqn:Hns; [|done].
  destruct storage as [classes|]; [|done]. destruct core as [nodes|]; [|done].
  destruct (reg _) eqn:Hreg; [done|]. destruct (srv _) eqn:Hsrv; [done|]. by exists g, classes, nodes.
Qed.
