(* ===== verification/Provisioner.v ===== *)
(** * The provisioner that helper pods run: cmd/provisioner

    The command line is parsed by github.com/urfave/cli: a [cli_context] is what
    its accessors return, [parses] what the library documents of them for the
    ["--flag value"] operands the driver writes.  [commands] are the sub-commands
    with the flags they declare; each action runs operations of Lvm.v. *)
From S2P Require Import Prelude GoStrings Errors Objects Effects Config Validation Json.
From S2P Require Import Lvm LvmHost LvmSpec HelperPod HelperSpec.

(** ** The command line *)

Definition flagLVName := "lvname".
Definition flagLVSize := "lvsize".
Definition flagVGName := "vgname".
Definition flagLVMType := "lvmtype".
Definition flagSnapName := "snapname".
Definition flagSrcLVName := "srclvname".
Definition flagSrcVGName := "srcvgname".
Definition flagSrcType := "srctype".
Definition flagCommandTimeout := "command-timeout".
Definition flagThinPoolTimeout := "thin-pool-create-timeout".
Definition createSnapshotForClone := true.
Definition snapshotPrefix := "lvm-snapshot-".

(** What [*cli.Context] answers for a flag name: the zero value for one not given. *)
Record cli_context := {
  flag_string : string -> string;
  flag_uint64 : string -> Z;
  flag_int64 : string -> Z;
  flag_duration : string -> Z }.

Inductive flag_kind := StringFlag | Uint64Flag | Int64Flag.
#[export] Instance flag_kind_eq_dec : EqDecision flag_kind.
Proof. solve_decision. Defined.

Record cli_command := {
  cmd_name : string;
  cmd_flags : list (string * flag_kind);
  cmd_action : timeouts -> cli_context -> prog (option error) }.

(** The operands of flags and their values, as the driver writes them. *)
Definition flag_operands (flags : list (string * string)) : list string :=
  concat ((fun f => ["--" +:+ fst f; snd f]) <$> flags).

(** The library's documented reading of ["--name value"]: the string is the value, an
    integer flag is the decimal number. *)
Definition parses (args : list string) (c : cli_context) : Prop :=
  forall cmd flags, args = cmd :: flag_operands flags -> NoDup (fst <$> flags) ->
  forall name value, (name, value) ∈ flags ->
    flag_string c name = value /\
    (forall n, value = format_int n ->
       (is_uint64 n -> flag_uint64 c name = n) /\ (is_int64 n -> flag_int64 c name = n)).

(** ** The actions *)

Definition empty_flag (name : string) : error := Errorf "invalid empty flag %v" [AStr name].

(** [if c.String(flag) == "" { return fmt.Errorf(...) }] and the rest with the value. *)
Definition required (value flag : string) (k : prog (option error)) : prog (option error) :=
  if value =s "" then Ret (Some (empty_flag flag)) else k.
Definition required_size (value : Z) (flag : string) (k : prog (option error)) : prog (option error) :=
  if (value =? 0)%Z then Ret (Some (empty_flag flag)) else k.

Section actions.
Variable T : timeouts.
Variable c : cli_context.

Definition createLV : prog (option error) :=
  let lvName := flag_string c flagLVName in
  required lvName flagLVName
  (let lvSize := flag_uint64 c flagLVSize in
  required_size lvSize flagLVSize
  (let vgName := flag_string c flagVGName in
  required vgName flagVGName
  (let lvmType := flag_string c flagLVMType in
  required lvmType flagLVMType
  (try (EnsureVG T vgName) Some
    (let* (output, err) := CreateLVS T vgName lvName lvSize lvmType in
     match err with
     | Some e => Ret (Some (Wrapf "unable to create lv: %w output:%s" [AStr output] e))
     | None => Ret None
     end))))).

Definition deleteLV : prog (option error) :=
  let lvName := flag_string c flagLVName in
  required lvName flagLVName
  (let vgName := flag_string c flagSrcVGName in
  required vgName flagSrcVGName
  (let vgType := flag_string c flagSrcType in
  required vgType flagSrcType
  (let* (output, err) := RemoveLVSInVG T vgName lvName in
   match err with
   | Some e => Ret (Some (Wrapf "unable to delete lv: %w output:%s" [AStr output] e))
   | None =>
       if vgType =s DmThinType then
         try (RemoveThinPool T vgName)
           (fun e => Some (Wrapf "unable to delete thinpool: %w output:%s" [AStr output] e))
           (Ret None)
       else Ret None
   end))).

Definition createSnap : prog (option error) :=
  let lvName := flag_string c flagLVName in
  required lvName flagLVName
  (let lvSize := flag_int64 c flagLVSize in
  required_size lvSize flagLVSize
  (let vgName := flag_string c flagVGName in
  required vgName flagVGName
  (let snapName := flag_string c flagSnapName in
  required snapName flagSnapName
  (let lvType := flag_string c flagLVMType in
  required lvType flagLVMType
  (try (EnsureVG T vgName) Some
    (let* (output, err) := CreateSnapshot T snapName lvName vgName lvSize lvType
                             (negb createSnapshotForClone) in
     match err with
     | Some e => Ret (Some (Wrapf "unable to create Snapshot: %w output:%s" [AStr output] e))
     | None => Ret None
     end)))))).

Definition deleteSnap : prog (option error) :=
  let vgName := flag_string c flagVGName in
  required vgName flagVGName
  (let snapName := flag_string c flagSnapName in
  required snapName flagSnapName
  (let* (output, err) := DeleteSnapshot T snapName vgName in
   match err with
   | Some e => Ret (Some (Wrapf "unable to delete snapshot: %w output:%s" [AStr output] e))
   | None => Ret None
   end)).

Definition ensureCloneVolumeGroups (srcVGName dstVGName : string) : prog (option error) :=
  try (EnsureVG T srcVGName) (fun e => Some (Wrapf "source volume group is unavailable: %w" [] e))
    (if dstVGName =s srcVGName then Ret None
     else
       try (EnsureVG T dstVGName)
         (fun e => Some (Wrapf "destination volume group is unavailable: %w" [] e))
         (Ret None)).

(** [CloneDevice] of lvm.go: [ioutil.Copy] of the whole source. *)
Definition CloneDevice (src dst : string) : prog (option ext_error) := call (CopyDevice src dst).

Definition device (vg lv : string) : string := "/dev/" +:+ vg +:+ "/" +:+ lv.

(** [f, err := os.OpenFile(...); if err != nil { return err }; defer f.Close()] and the rest. *)
Definition with_device (write : bool) (path : string) (fail : error -> error)
    (k : prog (option error)) : prog (option error) :=
  let* err := call (OpenDevice write path) in
  match err with
  | Some e => Ret (Some (fail (Ext e)))
  | None =>
      let* r := k in
      let* _ := call (CloseFile path) in
      Ret r
  end.

Definition clonelv : prog (option error) :=
  let srcLvName := flag_string c flagSrcLVName in
  required srcLvName flagSrcLVName
  (let srcVgName := flag_string c flagSrcVGName in
  required srcVgName flagSrcVGName
  (let srcType := flag_string c flagSrcType in
  required srcType flagSrcType
  (let dstLV := flag_string c flagLVName in
  required dstLV flagLVName
  (let dstVGName := flag_string c flagVGName in
  required dstVGName flagVGName
  (let dstLVType := flag_string c flagLVMType in
  required dstLVType flagLVMType
  (let dstSize := flag_uint64 c flagLVSize in
  required_size dstSize flagLVSize
  (try (ensureCloneVolumeGroups srcVgName dstVGName) Some
  (if has_prefix srcLvName snapshotPrefix && (srcType =s DmThinType) && (srcType =s dstLVType)
      && (srcVgName =s dstVGName) then
     let* (_, err) := CreateSnapshot T dstLV srcLvName srcVgName (to_int64 dstSize) dstLVType
                        createSnapshotForClone in
     match err with
     | Some e => Ret (Some (Wrapf "unable to create snapshot: %w" [] e))
     | None => Ret None
     end
   else
     let srcDev := device srcVgName srcLvName in
     with_device false srcDev (fun e => Wrapf "unable to open source device: %w" [] e)
       (let* (output, err) := CreateLVS T dstVGName dstLV dstSize dstLVType in
        match err with
        | Some e => Ret (Some (Wrapf "unable to create lv: %w output:%s" [AStr output] e))
        | None =>
            let dstDev := device dstVGName dstLV in
            with_device true dstDev (fun e => Wrapf "unable to open target device: %w" [] e)
              (let* err := CloneDevice srcDev dstDev in
               match err with
               | Some e => Ret (Some (Wrapf "unable to clone device: %w" [] (Ext e)))
               | None =>
                   let* err := call (SyncDevice dstDev) in
                   match err with
                   | Some e => Ret (Some (Wrapf "unable to sync target device: %w" [] (Ext e)))
                   | None => Ret None
                   end
               end)
        end))))))))).
End actions.

(** ** The sub-commands *)

Definition createLVCmd : cli_command := {|
  cmd_name := "createlv";
  cmd_flags := [(flagLVName, StringFlag); (flagLVSize, Uint64Flag); (flagVGName, StringFlag);
                (flagLVMType, StringFlag)];
  cmd_action := createLV |}.

Definition deleteLVCmd : cli_command := {|
  cmd_name := "deletelv";
  cmd_flags := [(flagLVName, StringFlag); (flagSrcVGName, StringFlag); (flagSrcType, StringFlag)];
  cmd_action := deleteLV |}.

Definition createSnapCmd : cli_command := {|
  cmd_name := "createsnap";
  cmd_flags := [(flagSnapName, StringFlag); (flagLVSize, Int64Flag); (flagVGName, StringFlag);
                (flagLVName, StringFlag); (flagLVMType, StringFlag)];
  cmd_action := createSnap |}.

Definition deleteSnapCmd : cli_command := {|
  cmd_name := "deletesnap";
  cmd_flags := [(flagSnapName, StringFlag); (flagVGName, StringFlag)];
  cmd_action := deleteSnap |}.

Definition cloneLVCmd : cli_command := {|
  cmd_name := "clonelv";
  cmd_flags := [(flagSrcLVName, StringFlag); (flagSrcVGName, StringFlag); (flagSrcType, StringFlag);
                (flagLVName, StringFlag); (flagVGName, StringFlag); (flagLVMType, StringFlag);
                (flagLVSize, Uint64Flag)];
  cmd_action := clonelv |}.

(** The commands and the [Before] hook of [main]. *)
Definition commands : list cli_command :=
  [createLVCmd; deleteLVCmd; createSnapCmd; deleteSnapCmd; cloneLVCmd].

Definition Before (c : cli_context) (T : timeouts) : result error timeouts :=
  let! T := SetCommandTimeout (flag_duration c flagCommandTimeout) T in
  SetThinPoolCreateTimeout (flag_duration c flagThinPoolTimeout) T.
