(* ===== verification/ProvisionerSpec.v ===== *)
(** * What the provisioner achieves for the requests the driver sends it

    The arguments that helper_pod.go builds are ones the provisioner's commands
    declare; and a command run with the arguments of an action does to the host
    what the action asks for. *)
From S2P Require Import Prelude GoStrings Errors Objects Effects Config Validation Json Lvm.
From S2P Require Import LvmHost LvmSpec HelperPod HelperSpec Provisioner.

(** ** From an action to the command's flags *)

Definition volume_flags (va : volumeAction) : list (string * string) :=
  let src := default {| srcLVName := ""; srcVGName := ""; srcType := "" |} (va_srcInfo va) in
  if va_action va =s actionTypeCreate then
    [(flagLVSize, format_int (va_size va)); (flagLVMType, va_lvmType va); (flagVGName, va_vgName va);
     (flagLVName, va_name va)]
  else if va_action va =s actionTypeDelete then
    [(flagSrcVGName, srcVGName src); (flagSrcType, srcType src); (flagLVName, va_name va)]
  else
    [(flagSrcLVName, srcLVName src); (flagSrcVGName, srcVGName src); (flagSrcType, srcType src);
     (flagLVSize, format_int (va_size va)); (flagVGName, va_vgName va); (flagLVMType, va_lvmType va);
     (flagLVName, va_name va)].

Definition volume_command (va : volumeAction) : cli_command :=
  if va_action va =s actionTypeCreate then createLVCmd
  else if va_action va =s actionTypeDelete then deleteLVCmd else cloneLVCmd.

Definition snapshot_flags (sa : snapshotAction) : list (string * string) :=
  if sa_action sa =s actionTypeCreate then
    [(flagSnapName, sa_snapshotName sa); (flagLVName, sa_srcVolName sa); (flagVGName, sa_vgName sa);
     (flagLVSize, format_int (sa_snapSize sa)); (flagLVMType, sa_lvType sa)]
  else [(flagSnapName, sa_snapshotName sa); (flagVGName, sa_vgName sa)].

Definition snapshot_command (sa : snapshotAction) : cli_command :=
  if sa_action sa =s actionTypeCreate then createSnapCmd else deleteSnapCmd.

Lemma volume_args va args : volumeHelperArgs va = Ok args ->
  args = cmd_name (volume_command va) :: flag_operands (volume_flags va).
Proof.
  unfold volumeHelperArgs, volume_command, volume_flags. intros Ha. go_ok.
  destruct (_ =s actionTypeCreate); [by simplify_eq|].
  destruct (_ =s actionTypeDelete); [by destruct (va_srcInfo va); simplify_eq|].
  destruct (_ =s actionTypeClone); [by destruct (va_srcInfo va); simplify_eq|done].
Qed.

Lemma snapshot_args_of sa args : snapshotHelperArgs sa = Ok args ->
  args = cmd_name (snapshot_command sa) :: flag_operands (snapshot_flags sa).
Proof.
  unfold snapshotHelperArgs, snapshot_command, snapshot_flags. intros Ha. go_ok.
  destruct (_ =s actionTypeCreate); [by simplify_eq|].
  destruct (_ =s actionTypeDelete); [by simplify_eq|done].
Qed.

Lemma volume_flags_nodup va : NoDup (fst <$> volume_flags va).
Proof.
  unfold volume_flags. destruct (_ =s actionTypeCreate); [|destruct (_ =s actionTypeDelete)];
    apply (bool_decide_unpack _); vm_compute; exact I.
Qed.

Lemma snapshot_flags_nodup sa : NoDup (fst <$> snapshot_flags sa).
Proof. unfold snapshot_flags. case_match; apply (bool_decide_unpack _); vm_compute; exact I. Qed.

(** The integer flags of a command, and the values they are given. *)
Definition is_integer (k : flag_kind) : bool := bool_decide (k <> StringFlag).

Lemma perm_strings (l k : list string) : bool_decide (l ≡ₚ k) = true -> l ≡ₚ k.
Proof. apply bool_decide_eq_true_1. Qed.

(** The flags of an action are those its command declares; an integer one has its size. *)
Definition declared (cmd : cli_command) (flags : list (string * string)) (size : Z) : Prop :=
  cmd ∈ commands /\ NoDup (fst <$> flags) /\ fst <$> flags ≡ₚ fst <$> cmd_flags cmd /\
  forall name value kind, (name, value) ∈ flags -> (name, kind) ∈ cmd_flags cmd ->
    is_integer kind = true -> value = format_int size.

Lemma volume_flags_declared va : declared (volume_command va) (volume_flags va) (va_size va).
Proof.
  split_and!; [|apply volume_flags_nodup|..].
  - unfold volume_command, commands. repeat case_match; set_solver.
  - unfold volume_command, volume_flags. repeat case_match; apply perm_strings; vm_compute; reflexivity.
  - unfold volume_command, volume_flags. intros name value kind.
    repeat case_match; cbn [cmd_flags createLVCmd deleteLVCmd cloneLVCmd];
      rewrite !elem_of_cons, !elem_of_nil; intros Hv Hk Hi; naive_solver.
Qed.

Lemma snapshot_flags_declared sa : declared (snapshot_command sa) (snapshot_flags sa) (sa_snapSize sa).
Proof.
  split_and!; [|apply snapshot_flags_nodup|..].
  - unfold snapshot_command, commands. repeat case_match; set_solver.
  - unfold snapshot_flags, snapshot_command. repeat case_match; apply perm_strings; vm_compute; reflexivity.
  - unfold snapshot_flags, snapshot_command. intros name value kind.
    repeat case_match; cbn [cmd_flags createSnapCmd deleteSnapCmd];
      rewrite !elem_of_cons, !elem_of_nil; intros Hv Hk Hi; naive_solver.
Qed.

(** The contract between the controller and the provisioner's command line: the
    arguments built for any action are those of a sub-command the provisioner has; they
    give every flag it declares, each once, and no other; and what an integer flag is
    given is the decimal number of the action's size. *)
Theorem helper_args_accepted args size :
  (exists va, volumeHelperArgs va = Ok args /\ va_size va = size) \/
  (exists sa, snapshotHelperArgs sa = Ok args /\ sa_snapSize sa = size) ->
  exists cmd flags, cmd ∈ commands /\ args = cmd_name cmd :: flag_operands flags /\
    NoDup (fst <$> flags) /\ fst <$> flags ≡ₚ fst <$> cmd_flags cmd /\
    forall name value kind, (name, value) ∈ flags -> (name, kind) ∈ cmd_flags cmd ->
      is_integer kind = true -> value = format_int size.
Proof.
  intros [(va & Ha & <-)|(sa & Ha & <-)].
  - exists (volume_command va), (volume_flags va).
    destruct (volume_flags_declared va) as (Hc & Hn & Hp & Hi). split_and!; try done. by apply volume_args.
  - exists (snapshot_command sa), (snapshot_flags sa).
    destruct (snapshot_flags_declared sa) as (Hc & Hn & Hp & Hi). split_and!; try done. by apply snapshot_args_of.
Qed.

Lemma helper_args_accepted_witness :
  volumeHelperArgs create_action = Ok create_args /\
  exists cmd flags, cmd ∈ commands /\ create_args = cmd_name cmd :: flag_operands flags.
Proof.
  split; [reflexivity|].
  destruct (helper_args_accepted create_args (va_size create_action)) as (cmd & flags & H1 & H2 & _).
  - left. exists create_action. split; reflexivity.
  - exists cmd, flags. split; [exact H1|exact H2].
Defined.

(** What the command of an action reads of the action's arguments. *)
Lemma parsed_value va args c name value :
  volumeHelperArgs va = Ok args -> parses args c -> (name, value) ∈ volume_flags va ->
  flag_string c name = value.
Proof.
  intros Ha Hp Hv. eapply Hp; [by apply volume_args|apply volume_flags_nodup|done].
Qed.

Lemma parsed_size va args c :
  volumeHelperArgs va = Ok args -> parses args c -> is_uint64 (va_size va) ->
  va_action va <> actionTypeDelete -> flag_uint64 c flagLVSize = va_size va.
Proof.
  intros Ha Hp Hs Hd. eapply Hp; [by apply volume_args|apply volume_flags_nodup| |reflexivity|done].
  unfold volume_flags. destruct (_ =s actionTypeCreate); [by left|].
  destruct (String.eqb_spec (va_action va) actionTypeDelete); [done|]. set_solver.
Qed.

(** ... and of a snapshot action's. *)
Lemma parsed_snapshot sa args c name value :
  snapshotHelperArgs sa = Ok args -> parses args c -> (name, value) ∈ snapshot_flags sa ->
  flag_string c name = value.
Proof. intros Ha Hp Hv. eapply Hp; [by apply snapshot_args_of|apply snapshot_flags_nodup|done]. Qed.

Lemma parsed_snapshot_size sa args c :
  snapshotHelperArgs sa = Ok args -> parses args c -> is_int64 (sa_snapSize sa) ->
  sa_action sa = actionTypeCreate -> flag_int64 c flagLVSize = sa_snapSize sa.
Proof.
  intros Ha Hp Hs Hc. eapply Hp; [by apply snapshot_args_of|apply snapshot_flags_nodup| |reflexivity|done].
  unfold snapshot_flags. rewrite Hc. set_solver.
Qed.

Lemma wp_required {S} (E : env S) value flag k Q s :
  (value <> "" -> wp E k Q s) -> Q (Some (empty_flag flag)) s -> wp E (required value flag k) Q s.
Proof. unfold required. destruct (String.eqb_spec value ""); auto. Qed.

Lemma wp_required_size {S} (E : env S) value flag k Q s :
  (value <> 0%Z -> wp E k Q s) -> Q (Some (empty_flag flag)) s -> wp E (required_size value flag k) Q s.
Proof. unfold required_size. destruct (Z.eqb_spec value 0); auto. Qed.

Lemma EnsureVG_quiet T vg : all_effects quiet (EnsureVG T vg).
Proof.
  assert (forall c, c ∈ ["vgs"; "vgscan"; "vgchange"] -> keeping c) as Hk by (unfold keeping; set_solver).
  assert (all_effects quiet (VgExists T vg)) as Hv.
  { split; [apply Hk; set_solver|]. by intros [out [e|]]. }
  assert (forall c a (k : string * option ext_error -> prog (option error)), c ∈ ["vgs"; "vgscan"; "vgchange"] ->
    (forall x, all_effects quiet (k x)) -> all_effects quiet (Vis (Exec (commandTimeout T) c a) k)) as Hx.
  { intros c a k Hc Hall. split; [by apply Hk|done]. }
  unfold EnsureVG, try. apply all_effects_bind; [|intros [e|]; [done|]].
  - unfold ensureVGDiscovered, try. apply all_effects_bind; [done|]. intros [|]; [done|].
    apply all_effects_bind; [|intros [e|]; [done|]].
    + apply Hx; [set_solver|]. by intros [out [e|]].
    + apply all_effects_bind; [done|]. by intros [|].
  - apply all_effects_bind; [|by intros [e|]]. apply Hx; [set_solver|]. by intros [out [e|]].
Qed.

Section provisioner.
Context `{LvmHost H} (T : timeouts) (c : cli_context).

Lemma wp_EnsureVG policy vg h :
  (forall h' c a, keeping c -> policy h' c a) ->
  wp (lvm_env policy) (EnsureVG T vg) (fun _ h' => volumes h' = volumes h) h.
Proof. intros Hp. apply wp_quiet; [apply EnsureVG_quiet|auto]. Qed.

(** A program right under a policy is right under one that permits more. *)
Lemma wp_policy {R} (P P' : H -> string -> list string -> Prop) (m : prog R) Q h :
  (forall h c a, P h c a -> P' h c a) -> wp (lvm_env P) m Q h -> wp (lvm_env P') m Q h.
Proof. intros HP. apply wp_env_mono; [|done]. intros s e. destruct e; cbn; auto. Qed.

(** What the command [createlv] may run for [vg/name]. *)
Definition createlv_policy (vg name : string) (h : H) (c : string) (a : list string) : Prop :=
  keeping c \/ create_policy vg name h c a.

(** What [deletelv] may run: it removes the volume, and the pool of an empty group. *)
Definition deletelv_policy (vg name : string) (h : H) (c : string) (a : list string) : Prop :=
  remove_policy vg name (vg +:+ "/" +:+ name) h c a \/ pool_policy vg h c a.

Lemma wp_createLV va args h :
  volumeHelperArgs va = Ok args -> parses args c -> va_action va = actionTypeCreate ->
  is_uint64 (va_size va) -> va_name va <> pool_name (va_vgName va) ->
  wp (lvm_env (createlv_policy (va_vgName va) (va_name va))) (createLV T c)
    (fun r h' => r = None -> provisioned (va_vgName va) (va_name va) (va_size va) (va_lvmType va) h') h.
Proof.
  intros Ha Hp Hc Hs Hne. pose proof (fun name value => parsed_value va args c name value Ha Hp) as Hv.
  unfold volume_flags in Hv. rewrite Hc in Hv. cbn [String.eqb] in Hv.
  unfold createLV.
  rewrite (Hv flagLVName (va_name va)), (Hv flagVGName (va_vgName va)), (Hv flagLVMType (va_lvmType va))
    by set_solver.
  rewrite (parsed_size va args) by (done || by rewrite Hc).
  apply wp_required; [intros _|done]. apply wp_required_size; [intros _|done].
  apply wp_required; [intros _|done]. apply wp_required; [intros _|done].
  eapply wp_try; [apply wp_EnsureVG; by left| |done]. intros h1 _.
  eapply wp_bind_mono.
  - eapply (wp_policy (create_policy (va_vgName va) (va_name va))); [by right|]. by apply wp_CreateLVS.
  - intros [out [e|]] h2 Hr; cbn; [done|]. auto.
Qed.

Lemma wp_deleteLV va src args h :
  volumeHelperArgs va = Ok args -> parses args c -> va_action va = actionTypeDelete ->
  va_srcInfo va = Some src -> let vg := srcVGName src in
  has_byte "/" vg = false -> only_pool (volumes h) vg (pool_name vg) ->
  wp (lvm_env (deletelv_policy vg (va_name va))) (deleteLV T c)
    (fun r h' => r = None ->
       find_volume vg (va_name va) (volumes h') = None /\
       (forall v, v ∈ volumes h' -> v ∈ volumes h) /\
       (forall v, v ∈ volumes h -> is_volume vg (va_name va) v = false ->
          ~ depends_on (volumes h) vg (va_name va) v ->
          is_volume vg (pool_name vg) v = false -> lv_Origin v <> pool_name vg -> v ∈ volumes h')) h.
Proof.
  intros Ha Hp Hd Hsrc vg Hslash Hpool.
  pose proof (fun name value => parsed_value va args c name value Ha Hp) as Hv.
  unfold volume_flags in Hv. rewrite Hd, Hsrc in Hv. cbn [default] in Hv.
  change (actionTypeDelete =s actionTypeCreate) with false in Hv.
  change (actionTypeDelete =s actionTypeDelete) with true in Hv.
  unfold deleteLV.
  rewrite (Hv flagLVName (va_name va)), (Hv flagSrcVGName vg), (Hv flagSrcType (srcType src)) by set_solver.
  apply wp_required; [intros _|done]. apply wp_required; [intros Hnevg|done].
  apply wp_required; [intros _|done]. eapply wp_bind_mono.
  { eapply (wp_policy (remove_policy vg (va_name va) (vg +:+ "/" +:+ va_name va))); [by left|].
    by apply wp_RemoveLVSInVG. }
  intros [out [e|]] h1 Hr; cbn [wp]; [done|]. destruct (Hr eq_refl) as (Hgone & Hsub & Hkeep).
  destruct (srcType src =s DmThinType); cbn [wp]; [|intros _; split_and!; auto].
  eapply wp_try.
  { eapply (wp_policy (pool_policy vg)); [by right|]. apply wp_RemoveThinPool; [done..|].
    intros p Hin. auto. }
  - intros h2 Hr2. cbn [wp]. intros _. destruct (Hr2 eq_refl) as [->|[(Hg2 & Hs2 & Hk2) Hnone]];
      [split_and!; auto|].
    split_and!; [|auto|].
    + apply find_volume_none_iff. intros v Hv'. eapply find_volume_none; [exact Hgone|auto].
    + intros v Hin Hne Hdep Hnp Ho. apply Hk2; [auto|done|]. intros [Hvg [Hor|[Hthin _]]]; [done|].
      assert (v ∈ volumes h1) as Hin1 by auto.
      assert (0 < count (thin_of vg) (volumes h1)) as Hpos; [|lia].
      apply count_pos with (x := v); [done|]. unfold thin_of. by rewrite Hvg, Hthin, !eqb_same.
  - done.
Qed.
(** What [createsnap] may run for the snapshot [vg/name] of [src]. *)
Definition createsnap_policy (vg name src : string) (h : H) (c : string) (a : list string) : Prop :=
  keeping c \/ snapshot_policy vg name src h c a.

Lemma wp_createSnap sa args h :
  snapshotHelperArgs sa = Ok args -> parses args c -> sa_action sa = actionTypeCreate ->
  is_int64 (sa_snapSize sa) -> has_byte "/" (sa_vgName sa) = false ->
  let name := backend_name false (sa_snapshotName sa) in
  wp (lvm_env (createsnap_policy (sa_vgName sa) name (sa_srcVolName sa))) (createSnap T c)
    (fun r h' => r = None -> exists h0, volumes h0 = volumes h /\
       snapshot_created (sa_vgName sa) name (sa_srcVolName sa) (sa_lvType sa) h0 h') h.
Proof.
  intros Ha Hp Hc Hs Hslash name.
  pose proof (fun name value => parsed_snapshot sa args c name value Ha Hp) as Hv.
  unfold snapshot_flags in Hv. rewrite Hc in Hv. cbn [String.eqb] in Hv.
  unfold createSnap.
  rewrite (Hv flagLVName (sa_srcVolName sa)), (Hv flagVGName (sa_vgName sa)),
    (Hv flagSnapName (sa_snapshotName sa)), (Hv flagLVMType (sa_lvType sa)) by set_solver.
  apply wp_required; [intros _|done]. apply wp_required_size; [intros _|done].
  do 3 (apply wp_required; [intros _|done]).
  eapply wp_try; [apply wp_EnsureVG; by left| |done]. intros h1 Hv1.
  eapply wp_bind_mono.
  - eapply (wp_policy (snapshot_policy (sa_vgName sa) name (sa_srcVolName sa))); [by right|].
    by apply (wp_CreateSnapshot T _ _ _ _ _ false).
  - intros [out [e|]] h2 Hr; cbn; [done|]. intros _. exists h1. auto.
Qed.

Lemma wp_deleteSnap sa args h :
  snapshotHelperArgs sa = Ok args -> parses args c -> sa_action sa = actionTypeDelete ->
  has_byte "/" (sa_vgName sa) = false ->
  let vg := sa_vgName sa in let name := backend_name false (sa_snapshotName sa) in
  wp (lvm_env (remove_policy vg name ("/dev/" +:+ vg +:+ "/" +:+ name))) (deleteSnap T c)
    (fun r h' => r = None -> removed vg name h h') h.
Proof.
  intros Ha Hp Hd Hslash vg name.
  pose proof (fun name value => parsed_snapshot sa args c name value Ha Hp) as Hv.
  unfold snapshot_flags in Hv. rewrite Hd in Hv.
  change (actionTypeDelete =s actionTypeCreate) with false in Hv.
  unfold deleteSnap. rewrite (Hv flagVGName vg), (Hv flagSnapName (sa_snapshotName sa)) by set_solver.
  apply wp_required; [intros Hne|done]. apply wp_required; [intros _|done].
  eapply wp_bind_mono; [by apply wp_DeleteSnapshot|].
  intros [out [e|]] h1 Hr; cbn; [done|]. auto.
Qed.
End provisioner.

(** ** Guarantees of the commands *)

(** The provisioner run with the arguments of a creation: when [createlv] answers
    without an error, the volume group of the action holds a volume of the action's name
    that is at least as large as asked and of the asked type; it creates only names that
    are free and removes at most a linear leftover under the thin pool's name. *)
Theorem createlv_provisions `{LvmHost H} T c va args (h : H) :
  volumeHelperArgs va = Ok args -> parses args c -> va_action va = actionTypeCreate ->
  is_uint64 (va_size va) -> va_name va <> pool_name (va_vgName va) ->
  wp (lvm_env (createlv_policy (va_vgName va) (va_name va))) (createLV T c)
    (fun r h' => r = None -> provisioned (va_vgName va) (va_name va) (va_size va) (va_lvmType va) h') h.
Proof. intros. by eapply wp_createLV. Qed.


(** A context that has read a list of flags. *)
Definition context_of (flags : list (string * string)) : cli_context :=
  let value name := default "" (snd <$> List.find (fun f => fst f =s name) flags) in
  let number {E} (r : result E Z) := match r with Ok n => n | Err _ => 0%Z end in {|
  flag_string := value;
  flag_uint64 := fun name => number (parse_uint (value name));
  flag_int64 := fun name => number (parse_int (value name));
  flag_duration := fun _ => 0%Z |}.

Lemma find_flag (flags : list (string * string)) name value :
  NoDup (fst <$> flags) -> (name, value) ∈ flags ->
  List.find (fun f => fst f =s name) flags = Some (name, value).
Proof.
  induction flags as [|[n v] flags IH]; cbn; [by rewrite elem_of_nil|].
  intros [Hn Hnd]%NoDup_cons. rewrite elem_of_cons. intros [[= -> ->]|Hin]; [by rewrite eqb_same|].
  destruct (String.eqb_spec n name) as [->|]; [|auto].
  exfalso. apply Hn. rewrite list_elem_of_fmap. by exists (name, value).
Qed.

Lemma flag_operands_inj l k : flag_operands l = flag_operands k -> l = k.
Proof.
  revert k. induction l as [|[n v] l IH]; intros [|[n' v'] k]; cbn; [done..|].
  intros [= <- <- E]. f_equal. by apply IH.
Qed.

Lemma context_of_parses cmd flags : parses (cmd :: flag_operands flags) (context_of flags).
Proof.
  intros cmd' flags' E Hnd name value Hin. injection E as _ E%flag_operands_inj. subst flags'.
  assert (default "" (snd <$> List.find (fun f => fst f =s name) flags) = value) as Hval
    by (by rewrite (find_flag flags name value)).
  split; [exact Hval|]. intros n ->. cbn. rewrite Hval. split; intros Hn.
  - rewrite format_int_nonneg by (destruct Hn; lia). by rewrite parse_format_uint.
  - by rewrite parse_format_int.
Qed.

Lemma createlv_provisions_witness :
  va_name create_action <> pool_name "vg" /\
  wp (lvm_env (createlv_policy "vg" "pvc-1"))
    (createLV initial_timeouts (context_of (volume_flags create_action)))
    (fun r h' => r = None -> provisioned "vg" "pvc-1" 1048576 StripedType h') ([] : list logicalVolume).
Proof.
  assert (va_name create_action <> pool_name "vg") as Hne by (vm_compute; discriminate).
  split; [exact Hne|].
  apply (createlv_provisions (H := list logicalVolume) initial_timeouts
           (context_of (volume_flags create_action)) create_action create_args []);
    [reflexivity|exact (context_of_parses "createlv" (volume_flags create_action))|reflexivity
    |split; vm_compute; discriminate|exact Hne].
Defined.

Definition delete_action : volumeAction := {|
  va_action := actionTypeDelete; va_name := "pvc-1"; va_nodeName := "node"; va_size := 0;
  va_lvmType := ""; va_provisionerImage := "image"; va_pullPolicy := "Always";
  va_namespace := "ns"; va_vgName := "vg"; va_hostWritePath := "/tmp";
  va_srcInfo := Some {| srcLVName := ""; srcVGName := "vg"; srcType := DmThinType |};
  va_helperConfig := DefaultHelperConfig |}.

