(* ===== verification/SimSpec.v ===== *)
(** * The provisioner's commands computed, against a reference

    [run sim_step] executes a command of cmd/provisioner on the computed host of LvmSim.v,
    through every command line, printed report and parser on the way.  The references
    say in a few lines what a command should do to the volumes; the theorems say that
    running the command does just that, and that it succeeds when it can. *)
From S2P Require Import Prelude GoStrings Errors Objects Effects Config Validation Json Lvm.
From S2P Require Import LvmHost LvmSpec LvmReport LvmSim HelperPod HelperSpec Provisioner ProvisionerSpec.

(** ** References *)

(** The host with one more volume, if it can hold it. *)
Definition insert_volume (s : lvm_sim) (v : logicalVolume) : option lvm_sim :=
  if takes s v then Some (with_volumes s (v :: s_volumes s)) else None.

(** ... of a size rounded up to whole extents. *)
Definition insert_sized (s : lvm_sim) (name vg : string) (size : Z) (segType : string) : option lvm_sim :=
  if (round_up size <=? max_uint64)%Z then insert_volume s (new_volume name vg (round_up size) segType "")
  else None.

#[export] Instance suits_dec v size ty : Decision (suits v size ty).
Proof.
  destruct (validateExistingVolume v size ty) as [[]|e] eqn:Hv.
  - left. by apply validateExistingVolume_ok.
  - right. intros Hs%validateExistingVolume_ok. congruence.
Defined.

(** The group's thin pool is there, or is made. *)
Definition ensure_pool (s : lvm_sim) (vg : string) : option lvm_sim :=
  match find_in s vg (pool_name vg) with
  | Some p => if lv_SegType p =s ThinPoolType then Some s else None
  | None => insert_volume s (new_volume (pool_name vg) vg pool_bytes ThinPoolType "")
  end.

(** Creating a volume: it is there already and suits, or it is made. *)
Definition create_ref (s : lvm_sim) (vg name : string) (size : Z) (ty : string) : option lvm_sim :=
  match group_pvs s vg, find_in s vg name with
  | None, _ => None
  | Some _, Some v => if decide (suits v size ty) then Some s else None
  | Some pvs, None =>
      if ty =s DmThinType then
        match ensure_pool s vg with
        | Some s' => insert_sized s' name vg size ThinVolType
        | None => None
        end
      else insert_sized s name vg size (striped_type pvs)
  end.

Definition remove_ref (s : lvm_sim) (vg name : string) : lvm_sim :=
  match find_in s vg name with
  | Some _ => with_volumes s (without (s_volumes s) vg name)
  | None => s
  end.

(** The group has a thin pool of the driver's name and no thin volume. *)
Definition idle_pool (s : lvm_sim) (vg : string) : bool :=
  existsb (fun v => is_pool vg v && (lv_Name v =s pool_name vg)) (s_volumes s) &&
  (count (thin_of vg) (s_volumes s) =? 0)%nat.

(** Deleting a volume: it goes, and with the last thin volume the pool. *)
Definition delete_ref (s : lvm_sim) (vg name : string) (ty : string) : lvm_sim :=
  let s := remove_ref s vg name in
  if (ty =s DmThinType) && idle_pool s vg then remove_ref s vg (pool_name vg) else s.

(** Taking a snapshot: it is there already, of this source, or it is made. *)
Definition snapshot_ref (s : lvm_sim) (vg name src : string) (ty : string) : option lvm_sim :=
  match group_pvs s vg, find_in s vg src, find_in s vg name with
  | None, _, _ | _, None, _ => None
  | _, Some _, Some v => if lv_Origin v =s src then Some s else None
  | _, Some o, None =>
      let snapshot ty := insert_volume s {|
        lv_Name := name; lv_VGName := vg; lv_Size := lv_Size o; lv_SegType := ty; lv_Origin := src |} in
      if ty =s DmThinType then if lv_SegType o =s ThinVolType then snapshot ThinVolType else None
      else snapshot LinearType
  end.

(** ** Running *)

Lemma run_bind {S R R'} (h : forall e, S -> option (resp e * S)) (p : prog R) (f : R -> prog R') s :
  run h (bind p f) s = match run h p s with Some (r, s') => run h (f r) s' | None => None end.
Proof.
  revert s. induction p as [r|e k IH]; intros s; cbn; [done|].
  destruct (h e s) as [[x s']|]; [apply IH|done].
Qed.

Section run.
Variable T : timeouts.

Lemma run_list s : wf s -> run sim_step (listLogicalVolumes T) s = Some (Ok (s_volumes s), s).
Proof.
  intros Hw. unfold listLogicalVolumes. rewrite run_bind. cbn [Execute call run sim_step].
  change (tool s "lvs" lvs_args) with (lvs s lvs_args). unfold lvs.
  rewrite bool_decide_true by done. cbn [accept]. rewrite parse_report_report; [done|].
  pose proof (wf_volumes _ Hw) as Hv. rewrite forallb_forall in *. intros v Hin.
  by apply well_formed_spec, Hv.
Qed.

Lemma run_get s vg name : wf s -> run sim_step (getLogicalVolume T vg name) s = Some (Ok (find_in s vg name), s).
Proof. intros Hw. unfold getLogicalVolume, try_ok. by rewrite run_bind, run_list. Qed.

Lemma run_VgExists s vg : wf s ->
  run sim_step (VgExists T vg) s = Some (bool_decide (is_Some (group_pvs s vg)), s).
Proof.
  intros Hw. unfold VgExists. rewrite run_bind. cbn [Execute call run sim_step].
  change (tool s "vgs" ?a) with (vgs s a). unfold vgs.
  destruct (group_pvs s vg) as [pvs|] eqn:Hg.
  - cbn [String.eqb Ascii.eqb Bool.eqb accept run]. destruct (wf_groups _ Hw _ _ Hg) as (Hword & Hne & _).
    rewrite trim_padded, eqb_same by done. by rewrite bool_decide_true by eauto.
  - cbn [refuse run]. rewrite bool_decide_false; [done|]. by intros [].
Qed.

Lemma run_pvCount s vg pvs : wf s -> group_pvs s vg = Some pvs ->
  run sim_step (pvCount T vg) s = Some (Ok pvs, s).
Proof.
  intros Hw Hg. unfold pvCount. rewrite run_bind. cbn [Execute call run sim_step].
  change (tool s "vgs" ?a) with (vgs s a). unfold vgs. rewrite Hg.
  cbn [String.eqb Ascii.eqb Bool.eqb accept run]. destruct (wf_groups _ Hw _ _ Hg) as (_ & _ & Hp).
  destruct (word_format pvs ltac:(lia)) as [Hword Hne].
  rewrite trim_padded by done. by rewrite atoi_format by lia.
Qed.

(** The group is found, or the command fails. *)
Lemma run_EnsureVG s vg : wf s ->
  exists r, run sim_step (EnsureVG T vg) s = Some (r, s) /\ (r = None <-> is_Some (group_pvs s vg)).
Proof.
  intros Hw. unfold EnsureVG, ensureVGDiscovered, try. rewrite !run_bind, run_VgExists by done.
  case_bool_decide as Hg.
  - cbn [run]. eexists. by split.
  - rewrite run_bind. change (run sim_step (scanVolumeGroups T) s) with (Some (None : option error, s)).
    cbn iota. rewrite run_bind, run_VgExists, bool_decide_false by done. cbn [run].
    eexists. split; [done|]. by split.
Qed.

(** *** Creating *)

Lemma tool_lvcreate s a f : parse_form a = Some f ->
  tool s "lvcreate" a = lvcreate s a /\ parse_form a = Some f.
Proof. done. Qed.

(** What [add_volume] answers, as an optional state. *)
Definition answers (r : answer) (s : lvm_sim) (o : option lvm_sim) : Prop :=
  match o with
  | Some s' => r = accept "" s'
  | None => exists why, r = refuse s why
  end.

Lemma answers_add s v : answers (add_volume s v) s (insert_volume s v).
Proof. unfold add_volume, insert_volume. destruct (takes s v); cbn; eauto. Qed.

Lemma answers_sized s name vg size ty :
  answers (add_sized s name vg size ty) s (insert_sized s name vg size ty).
Proof. unfold add_sized, insert_sized. destruct (_ <=? _)%Z; [apply answers_add|cbn; eauto]. Qed.

Lemma insert_wf s v s' : wf s -> insert_volume s v = Some s' -> wf s'.
Proof.
  unfold insert_volume. intros Hw Hi. destruct (takes s v) eqn:Ht; [|done]. injection Hi as <-.
  apply takes_free in Ht as (Hv & _ & Hc). apply wf_with; [done| |done]. cbn. by rewrite Hv, wf_volumes.
Qed.

Lemma insert_group s v s' vg : insert_volume s v = Some s' -> group_pvs s' vg = group_pvs s vg.
Proof. unfold insert_volume. destruct (takes s v); [|done]. by intros [= <-]. Qed.

Lemma ensure_pool_wf s vg s' : wf s -> ensure_pool s vg = Some s' ->
  wf s' /\ forall g, group_pvs s' g = group_pvs s g.
Proof.
  unfold ensure_pool. intros Hw He. destruct (find_in s vg (pool_name vg)) as [p|].
  - destruct (_ =s _); by simplify_eq.
  - split; [by eapply insert_wf|]. intros g. by eapply insert_group.
Qed.

Lemma ensure_pool_ready s vg s' : ensure_pool s vg = Some s' -> is_thin_pool s' vg (pool_name vg) = true.
Proof.
  unfold ensure_pool, is_thin_pool. destruct (find_in s vg (pool_name vg)) as [p|] eqn:Hp.
  - destruct (_ =s _) eqn:Ht; [|done]. intros [= <-]. by rewrite Hp.
  - unfold insert_volume. destruct (takes _ _); [|done]. intros [= <-].
    unfold find_in, find_volume. cbn [with_volumes s_volumes List.find]. unfold is_volume.
    cbn [new_volume lv_VGName lv_Name lv_SegType]. by rewrite !eqb_same.
Qed.

Lemma run_checkThinPool s vg p : wf s -> find_in s vg (pool_name vg) = Some p ->
  exists r, run sim_step (checkThinPool T p) s = Some (r, s) /\
    (r = None <-> lv_SegType p = ThinPoolType).
Proof.
  intros Hw Hp. unfold checkThinPool. destruct (lv_SegType p =s ThinPoolType) eqn:Ht; cbn [negb]; go_bool.
  2:{ eexists. split; [done|]. by split. }
  pose proof Hp as (Hin & Hvg & Hn)%find_volume_some.
  pose proof (wf_in _ _ Hw Hin) as ((Hw1 & Hw2 & _)%reportable_size & _ & Hne & _)%well_formed_spec.
  exists None. split; [|done]. unfold validateThinPool. rewrite run_bind. cbn [Execute call run sim_step].
  change (tool s "lvs" ?a) with (lvs s a). unfold lvs. rewrite !bool_decide_false by done.
  rewrite (split_operand_plain _ (lv_VGName p) (lv_Name p)); [|by left|done|by eapply all_bytes_no_sep..].
  rewrite Hvg, Hn, Hp. unfold attributes. rewrite Ht. reflexivity.
Qed.

(** [prepareThinPool] does what [ensure_pool] says. *)
Lemma run_prepareThinPool s vg : wf s -> is_Some (group_pvs s vg) ->
  exists r s', run sim_step (prepareThinPool T vg DmThinType) s = Some (r, s') /\
    match ensure_pool s vg with
    | Some s1 => r = Ok (pool_name vg) /\ s' = s1
    | None => is_ok r = false /\ s' = s
    end.
Proof.
  intros Hw Hg. unfold prepareThinPool. change (negb (DmThinType =s DmThinType)) with false. cbn iota.
  fold (pool_name vg). rewrite run_bind, run_get by done. unfold ensure_pool.
  destruct (find_in s vg (pool_name vg)) as [p|] eqn:Hp; unfold try; rewrite run_bind.
  - destruct (run_checkThinPool s vg p Hw Hp) as (r & -> & Hr).
    destruct (String.eqb_spec (lv_SegType p) ThinPoolType) as [Ht|Ht].
    + apply Hr in Ht as ->. by eexists _, _.
    + destruct r as [e|]; [by eexists _, _|]. by destruct (Ht (proj1 Hr eq_refl)).
  - unfold createThinPool. cbn [newCommandExecutor ex_timed negb SetTimeout]. rewrite run_bind.
    cbn [Execute call run sim_step].
    change (tool s "lvcreate" ?a) with (lvcreate s a). unfold lvcreate.
    change (thinPoolCreateArgs vg (pool_name vg)) with (form_args (FPool (pool_name vg) vg)).
    rewrite parse_form_driver by done.
    pose proof (answers_add s (new_volume (pool_name vg) vg pool_bytes ThinPoolType "")) as Ha.
    destruct (insert_volume s _) as [s1|]; cbn [answers] in Ha.
    + rewrite Ha. by eexists _, _.
    + destruct Ha as [why ->]. by eexists _, _.
Qed.

(** Running [CreateLVS] on a group that is there. *)
Lemma run_CreateLVS s vg name size ty :
  wf s -> is_Some (group_pvs s vg) -> is_uint64 size -> (size <> 0)%Z -> supported_type ty = true ->
  exists r s', run sim_step (CreateLVS T vg name size ty) s = Some (r, s') /\
    match create_ref s vg name size ty with
    | Some s1 => snd r = None /\ s' = s1
    | None => snd r <> None /\ (s' = s \/ ensure_pool s vg = Some s')
    end.
Proof.
  intros Hw [pvs Hg] Hs Hz Hty. unfold CreateLVS. destruct (Z.eqb_spec size 0); [done|].
  replace (negb (ty =s StripedType) && negb (ty =s DmThinType)) with false
    by (revert Hty; unfold supported_type; destruct (ty =s StripedType), (ty =s DmThinType); done).
  rewrite run_bind, run_get by done. unfold create_ref. rewrite Hg.
  destruct (find_in s vg name) as [v|] eqn:Hf.
  { destruct (decide (suits v size ty)) as [Hv|Hv].
    - rewrite <- validateExistingVolume_ok in Hv. rewrite Hv. by eexists _, _.
    - destruct (validateExistingVolume v size ty) as [[]|e] eqn:E.
      + by apply validateExistingVolume_ok in E.
      + eexists _, _. split; [done|]. split; [done|by left]. }
  rewrite run_bind. unfold supported_type in Hty. destruct (ty =s DmThinType) eqn:Hdm.
  - apply eqb_true in Hdm as ->.
    destruct (run_prepareThinPool s vg Hw (ex_intro _ _ Hg)) as (r & s1 & Hrun & Hr). rewrite Hrun.
    destruct (ensure_pool s vg) as [s2|] eqn:He; destruct Hr as [Hr ->].
    2:{ destruct r as [p|e]; [done|]. eexists _, _. split; [done|]. split; [done|by left]. }
    rewrite Hr. destruct (ensure_pool_wf _ _ _ Hw He) as [Hw2 Hg2].
    rewrite run_bind, (run_pvCount _ _ pvs) by (done || by rewrite Hg2).
    rewrite run_bind. cbn [Execute call run sim_step].
    change (tool s2 "lvcreate" ?a) with (lvcreate s2 a). unfold lvcreate.
    change (["-v"; "--yes"; "-n"; name; "-W"; "y"] ++ create_type_args DmThinType vg (pool_name vg) size pvs
              ++ ["--addtag"; "harvester-csi-lvm"])%list
      with (form_args (FThin name vg size (pool_name vg) "harvester-csi-lvm")).
    rewrite parse_form_driver by done. rewrite (ensure_pool_ready _ _ _ He).
    pose proof (answers_sized s2 name vg size ThinVolType) as Ha.
    destruct (insert_sized s2 name vg size ThinVolType) as [s3|]; cbn [answers] in Ha.
    + rewrite Ha. by eexists _, _.
    + destruct Ha as [why ->]. eexists _, _. split; [done|]. split; [done|by right].
  - assert (ty = StripedType) as -> by (apply orb_true_iff in Hty as [Ht%eqb_true|Ht]; congruence).
    change (run sim_step (prepareThinPool T vg StripedType) s) with (Some (Ok (E := error) "", s)).
    cbn iota. rewrite run_bind, (run_pvCount _ _ pvs) by done. rewrite run_bind. cbn [Execute call run sim_step].
    change (tool s "lvcreate" ?a) with (lvcreate s a). unfold lvcreate.
    change (["-v"; "--yes"; "-n"; name; "-W"; "y"] ++ create_type_args StripedType vg "" size pvs
              ++ ["--addtag"; "harvester-csi-lvm"])%list
      with (form_args (FStriped name vg size (format_int pvs) "harvester-csi-lvm")).
    rewrite parse_form_driver by done. rewrite Hg, eqb_same.
    pose proof (answers_sized s name vg size (striped_type pvs)) as Ha.
    destruct (insert_sized s name vg size (striped_type pvs)) as [s3|]; cbn [answers] in Ha.
    + rewrite Ha. by eexists _, _.
    + destruct Ha as [why ->]. eexists _, _. split; [done|]. split; [done|by left].
Qed.

(** *** Removing *)

Lemma remove_wf s vg name : wf s -> wf (remove_ref s vg name).
Proof.
  intros Hw. unfold remove_ref. destruct (find_in s vg name) eqn:Hf; [|done].
  pose proof Hw as [Hv Hc _]. apply wf_with; [done| |].
  - rewrite forallb_forall in *. intros v Hin. apply Hv.
    by apply list_elem_of_In, elem_without, proj1, list_elem_of_In in Hin.
  - unfold countable_host in *.
    pose proof (List.filter_length_le (fun v => negb (goes (s_volumes s) vg name v)) (s_volumes s)) as Hle.
    unfold without. lia.
Qed.

(** What [RemoveLVSInVG] and [DeleteSnapshot] share. *)
Lemma run_remove s vg name operand (absent : string) (fail : error -> error) : wf s ->
  operand = vg +:+ "/" +:+ name \/ operand = "/dev/" +:+ vg +:+ "/" +:+ name ->
  exists out, run sim_step
    (let* r := getLogicalVolume T vg name in
     match r with
     | Err e => Ret ("", Some (fail e))
     | Ok None => Ret (absent, None)
     | Ok (Some _) =>
         let* (out, err) := Execute (newCommandExecutor T) "lvremove" ["-q"; "-y"; operand] in
         Ret (out, Ext <$> err)
     end) s = Some ((out, None), remove_ref s vg name).
Proof.
  intros Hw Ho. rewrite run_bind, run_get by done. unfold remove_ref.
  destruct (find_in s vg name) as [v|] eqn:Hf; [|by eexists].
  pose proof Hf as (Hin & <- & <-)%find_volume_some.
  pose proof (wf_in _ _ Hw Hin) as ((Hw1 & Hw2 & _)%reportable_size & _ & Hne & _)%well_formed_spec.
  rewrite run_bind. cbn [Execute call run sim_step].
  change (tool s "lvremove" ?a) with (lvremove s a). unfold lvremove.
  rewrite (split_operand_plain _ (lv_VGName v) (lv_Name v)) by (done || by eapply all_bytes_no_sep).
  rewrite bool_decide_true by by rewrite Hf. by eexists.
Qed.

(** The pool goes when it is there and idle. *)
Lemma run_RemoveThinPool s vg : wf s ->
  run sim_step (RemoveThinPool T vg) s =
    Some (None, if idle_pool s vg then remove_ref s vg (pool_name vg) else s).
Proof.
  intros Hw. unfold RemoveThinPool, getThinPoolAndCounts. rewrite run_bind. rewrite run_bind.
  cbn [Execute call run sim_step]. change (tool s "lvs" ?a) with (lvs s a). unfold lvs.
  rewrite bool_decide_false, bool_decide_true by done. cbn [accept run].
  rewrite read_count_table by apply Hw. fold (pool_name vg).
  destruct (pool_counts vg (s_volumes s) (s_volumes s) ∅ !! pool_name vg) as [n|] eqn:Hn.
  - apply pool_counts_exact in Hn as (-> & v & Hv & Hp & Hname).
    assert (idle_pool s vg = (count (thin_of vg) (s_volumes s) =? 0)%nat) as ->.
    { unfold idle_pool. replace (existsb _ _) with true; [done|]. symmetry. apply existsb_exists.
      exists v. rewrite Hp, Hname, eqb_same. split; [by apply list_elem_of_In|done]. }
    destruct (count (thin_of vg) (s_volumes s)) as [|k]; [|done]. cbn [Nat.eqb].
    change (0 <? Z.of_nat 0)%Z with false. cbn iota. rewrite run_bind.
    destruct (run_remove s vg (pool_name vg) (vg +:+ "/" +:+ pool_name vg) (absent_message (pool_name vg))
      (Wrapf "unable to check logical volume %q/%q: %w" [AStr vg; AStr (pool_name vg)]) Hw (or_introl eq_refl))
      as [out Hr].
    unfold RemoveLVSInVG. by rewrite Hr.
  - assert (idle_pool s vg = false) as ->; [|done]. unfold idle_pool.
    replace (existsb _ _) with false; [done|]. symmetry. apply not_true_iff_false.
    intros (v & Hv & Hb)%existsb_exists. go_bool.
    destruct (pool_counts_pool vg (s_volumes s) (s_volumes s) ∅ v) as [k Hk]; [by apply list_elem_of_In|done|].
    match goal with H : lv_Name v = _ |- _ => rewrite H in Hk end. congruence.
Qed.

(** *** Snapshots *)

Lemma run_lvcreate s a o : answers (lvcreate s a) s o ->
  exists r, run sim_step (let* (out, err) := Execute (newCommandExecutor T) "lvcreate" a in
                          Ret (out, Ext <$> err)) s = Some (r, default s o) /\ (snd r = None <-> is_Some o).
Proof.
  intros Ha. rewrite run_bind. cbn [Execute call run sim_step].
  change (tool s "lvcreate" a) with (lvcreate s a).
  destruct o as [s'|]; cbn [answers] in Ha; [rewrite Ha|destruct Ha as [why ->]];
    eexists; (split; [done|]); split; [by eauto|done|done|by intros []].
Qed.

Lemma run_CreateSnapshot s snapshotName src vg size ty :
  wf s -> is_Some (group_pvs s vg) -> snapshotName <> "" -> src <> "" ->
  is_uint64 size -> (size <> 0)%Z -> supported_type ty = true ->
  let ref := snapshot_ref s vg ("lvm-" +:+ snapshotName) src ty in
  exists r, run sim_step (CreateSnapshot T snapshotName src vg size ty false) s =
      Some (r, default s ref) /\ (snd r = None <-> is_Some ref).
Proof.
  intros Hw [pvs Hg] Hn%eqb_false Hsrc%eqb_false Hs Hz Hty ref. unfold CreateSnapshot, ref.
  rewrite Hn, Hsrc. cbn [orb]. destruct (Z.eqb_spec size 0); [done|].
  rewrite run_bind, run_get by done. unfold snapshot_ref. rewrite Hg.
  destruct (find_in s vg src) as [o|] eqn:Ho; [|eexists; split; [done|]; by split; [|intros []]].
  rewrite run_bind, run_get by done. set (name := "lvm-" +:+ snapshotName).
  destruct (find_in s vg name) as [v|] eqn:Hf.
  { destruct (lv_Origin v =s src); cbn [negb]; eexists; (split; [done|]); [by split; eauto|by split; [|intros []]]. }
  pose proof Ho as (Hin & Hvg & Hname)%find_volume_some.
  pose proof (wf_in _ _ Hw Hin) as ((Hw1 & Hw2 & _)%reportable_size & _ & Hne & _)%well_formed_spec.
  rewrite Hvg in Hne, Hw2. rewrite Hname in Hw1.
  assert (forall z, (forall n, z = Some n -> is_uint64 n) ->
    parse_form (form_args (FSnapshot true name vg src z)) = Some (FSnapshot true name vg src z)) as Hparse.
  { intros z Hzs. apply parse_form_driver. split; split; try done; by eapply all_bytes_no_sep. }
  unfold supported_type in Hty. destruct (ty =s DmThinType) eqn:Hdm.
  - apply eqb_true in Hdm as ->. change (DmThinType =s StripedType) with false. cbn iota.
    apply (run_lvcreate s (form_args (FSnapshot true name vg src None))).
    unfold lvcreate. rewrite Hparse, Ho by done. destruct (_ =s ThinVolType); [apply answers_add|cbn; eauto].
  - assert (ty = StripedType) as -> by (apply orb_true_iff in Hty as [Ht%eqb_true|Ht]; congruence).
    change (StripedType =s StripedType) with true. cbn iota.
    apply (run_lvcreate s (form_args (FSnapshot true name vg src (Some size)))).
    unfold lvcreate. rewrite Hparse, Ho by by intros n' [= <-]. apply answers_add.
Qed.

Lemma run_DeleteSnapshot s snapshotName vg : wf s -> snapshotName <> "" ->
  exists out, run sim_step (DeleteSnapshot T snapshotName vg) s =
    Some ((out, None), remove_ref s vg ("lvm-" +:+ snapshotName)).
Proof.
  intros Hw Hn%eqb_false. unfold DeleteSnapshot. rewrite Hn. apply run_remove; [done|by right].
Qed.
End run.

(** ** The commands *)

(** A run that ends, with an error exactly when the reference refuses. *)
Definition runs_as {S} (o : option (option error * S)) (ref : option S) (partial : S -> Prop) : Prop :=
  exists r s', o = Some (r, s') /\
    match ref with Some s1 => r = None /\ s' = s1 | None => r <> None /\ partial s' end.

Section commands.
Context (T : timeouts) (c : cli_context) (s : lvm_sim) (Hw : wf s).

Lemma run_createLV va args :
  volumeHelperArgs va = Ok args -> parses args c -> va_action va = actionTypeCreate ->
  is_uint64 (va_size va) -> (va_size va <> 0)%Z -> supported_type (va_lvmType va) = true ->
  let vg := va_vgName va in
  runs_as (run sim_step (createLV T c) s) (create_ref s vg (va_name va) (va_size va) (va_lvmType va))
    (fun s' => s' = s \/ ensure_pool s vg = Some s').
Proof.
  intros Ha Hp Hc Hs Hz Hty vg. pose proof (fun name value => parsed_value va args c name value Ha Hp) as Hv.
  unfold volume_flags in Hv. rewrite Hc in Hv. cbn [String.eqb] in Hv.
  unfold createLV, required, required_size.
  rewrite (Hv flagLVName (va_name va)), (Hv flagVGName vg), (Hv flagLVMType (va_lvmType va)) by set_solver.
  rewrite (parsed_size va args) by (done || by rewrite Hc).
  assert (va_name va <> "" /\ va_lvmType va <> "") as [Hn%eqb_false Ht%eqb_false].
  { split; [|by intros E; rewrite E in Hty]. unfold volumeHelperArgs in Ha. go_ok. done. }
  rewrite Hn, Ht. destruct (Z.eqb_spec (va_size va) 0); [done|].
  destruct (String.eqb_spec vg "") as [E|E].
  { eexists _, _. split; [done|]. unfold create_ref. rewrite E.
    destruct (group_pvs s "") as [pvs|] eqn:Hg; [by destruct (wf_groups _ Hw _ _ Hg) as (_ & ? & _)|]. split; [done|by left]. }
  unfold try. rewrite run_bind. destruct (run_EnsureVG T s vg Hw) as (r & -> & Hr).
  destruct r as [e|].
  { eexists _, _. split; [done|]. unfold create_ref.
    destruct (group_pvs s vg) as [pvs|] eqn:Hg; [by discriminate (proj2 Hr (ex_intro _ _ eq_refl))|].
    split; [done|by left]. }
  rewrite run_bind.
  destruct (run_CreateLVS T s vg (va_name va) (va_size va) (va_lvmType va)) as ([out r] & s' & -> & Hcr);
    [done|by apply Hr|done..|].
  unfold runs_as. destruct (create_ref _ _ _ _ _) as [s1|]; destruct Hcr as [Hcr Hst]; cbn [snd] in Hcr.
  - subst r. by eexists _, _.
  - destruct r; [|done]. by eexists _, _.
Qed.

Lemma run_deleteLV va src args :
  volumeHelperArgs va = Ok args -> parses args c -> va_action va = actionTypeDelete ->
  va_srcInfo va = Some src -> srcVGName src <> "" -> srcType src <> "" ->
  run sim_step (deleteLV T c) s = Some (None, delete_ref s (srcVGName src) (va_name va) (srcType src)).
Proof.
  intros Ha Hp Hd Hsrc Hg%eqb_false Ht%eqb_false.
  pose proof (fun name value => parsed_value va args c name value Ha Hp) as Hv.
  unfold volume_flags in Hv. rewrite Hd, Hsrc in Hv. cbn [default] in Hv.
  change (actionTypeDelete =s actionTypeCreate) with false in Hv.
  change (actionTypeDelete =s actionTypeDelete) with true in Hv.
  unfold deleteLV, required.
  rewrite (Hv flagLVName (va_name va)), (Hv flagSrcVGName (srcVGName src)), (Hv flagSrcType (srcType src))
    by set_solver.
  assert (va_name va <> "") as Hn%eqb_false by (unfold volumeHelperArgs in Ha; go_ok; done).
  rewrite Hn, Hg, Ht. unfold RemoveLVSInVG. rewrite run_bind.
  destruct (run_remove T s (srcVGName src) (va_name va) (srcVGName src +:+ "/" +:+ va_name va)
    (absent_message (va_name va))
    (Wrapf "unable to check logical volume %q/%q: %w" [AStr (srcVGName src); AStr (va_name va)]) Hw
    (or_introl eq_refl)) as [out ->].
  unfold delete_ref. destruct (srcType src =s DmThinType); [|done]. unfold try.
  rewrite run_bind, run_RemoveThinPool by by apply remove_wf. by destruct (idle_pool _ _).
Qed.

Lemma run_createSnap sa args :
  snapshotHelperArgs sa = Ok args -> parses args c -> sa_action sa = actionTypeCreate ->
  (0 < sa_snapSize sa)%Z -> is_int64 (sa_snapSize sa) -> supported_type (sa_lvType sa) = true ->
  runs_as (run sim_step (createSnap T c) s)
    (snapshot_ref s (sa_vgName sa) ("lvm-" +:+ sa_snapshotName sa) (sa_srcVolName sa) (sa_lvType sa))
    (fun s' => s' = s).
Proof.
  intros Ha Hp Hc Hpos Hs Hty.
  pose proof (fun name value => parsed_snapshot sa args c name value Ha Hp) as Hv.
  unfold snapshot_flags in Hv. rewrite Hc in Hv. cbn [String.eqb] in Hv.
  unfold createSnap, required, required_size.
  rewrite (Hv flagLVName (sa_srcVolName sa)), (Hv flagVGName (sa_vgName sa)),
    (Hv flagSnapName (sa_snapshotName sa)), (Hv flagLVMType (sa_lvType sa)) by set_solver.
  rewrite (parsed_snapshot_size sa args) by done.
  assert (sa_snapshotName sa <> "" /\ sa_srcVolName sa <> "" /\ sa_lvType sa <> "") as (Hn & Hsrc & Ht).
  { split_and!; [..|by intros E; rewrite E in Hty]; unfold snapshotHelperArgs in Ha; rewrite Hc in Ha; go_ok;
      [done|]. match goal with H : _ && _ = false |- _ => cbn in H; by go_bool end. }
  apply eqb_false in Ht. pose proof Hn as Hn'%eqb_false. pose proof Hsrc as Hsrc'%eqb_false.
  rewrite Hn', Hsrc', Ht. destruct (Z.eqb_spec (sa_snapSize sa) 0); [lia|].
  destruct (String.eqb_spec (sa_vgName sa) "") as [E|E].
  { eexists _, _. split; [done|]. unfold snapshot_ref. rewrite E.
    destruct (group_pvs s "") as [pvs|] eqn:Hg; [by destruct (wf_groups _ Hw _ _ Hg) as (_ & ? & _)|]. done. }
  unfold try. rewrite run_bind. destruct (run_EnsureVG T s (sa_vgName sa) Hw) as (r & -> & Hr).
  destruct r as [e|].
  { eexists _, _. split; [done|]. unfold snapshot_ref.
    destruct (group_pvs s (sa_vgName sa)) as [pvs|] eqn:Hg; [by discriminate (proj2 Hr (ex_intro _ _ eq_refl))|].
    done. }
  rewrite run_bind. change (negb createSnapshotForClone) with false.
  destruct (run_CreateSnapshot T s (sa_snapshotName sa) (sa_srcVolName sa) (sa_vgName sa) (sa_snapSize sa)
    (sa_lvType sa)) as ([out r] & -> & Hcr); [done|by apply Hr|done..| |lia|done|].
  { unfold is_uint64, is_int64, max_int64, max_uint64, two63, two64 in *. lia. }
  unfold runs_as. cbn [snd] in Hcr. destruct (snapshot_ref _ _ _ _ _) as [s1|]; cbn [default] in *.
  - rewrite (proj2 Hcr) by eauto. by eexists _, _.
  - destruct r; [by eexists _, _|]. by destruct (proj1 Hcr eq_refl).
Qed.

Lemma run_deleteSnap sa args :
  snapshotHelperArgs sa = Ok args -> parses args c -> sa_action sa = actionTypeDelete ->
  sa_vgName sa <> "" ->
  run sim_step (deleteSnap T c) s =
    Some (None, remove_ref s (sa_vgName sa) ("lvm-" +:+ sa_snapshotName sa)).
Proof.
  intros Ha Hp Hd Hg%eqb_false.
  pose proof (fun name value => parsed_snapshot sa args c name value Ha Hp) as Hv.
  unfold snapshot_flags in Hv. rewrite Hd in Hv.
  change (actionTypeDelete =s actionTypeCreate) with false in Hv.
  unfold deleteSnap, required.
  rewrite (Hv flagVGName (sa_vgName sa)), (Hv flagSnapName (sa_snapshotName sa)) by set_solver.
  assert (sa_snapshotName sa <> "") as Hn by (unfold snapshotHelperArgs in Ha; go_ok; done).
  pose proof Hn as Hn'%eqb_false. rewrite Hg, Hn', run_bind.
  by destruct (run_DeleteSnapshot T s (sa_snapshotName sa) (sa_vgName sa) Hw Hn) as [out ->].
Qed.
End commands.

(** ** Deleting undoes creating *)

Lemma without_id l vg name :
  (forall v, v ∈ l -> goes l vg name v = false) -> without l vg name = l.
Proof.
  unfold without. generalize (goes l vg name). intros g Hg.
  induction l as [|v l IH]; [done|]. cbn. rewrite (Hg v) by by left. cbn. f_equal. apply IH.
  intros w Hw. apply Hg. by right.
Qed.

Lemma create_ref_wf s vg name size ty s' : wf s -> create_ref s vg name size ty = Some s' -> wf s'.
Proof.
  intros Hw Hc. assert (forall s0 ty', wf s0 -> insert_sized s0 name vg size ty' = Some s' -> wf s') as Hi.
  { intros s0 ty' Hw0. unfold insert_sized. destruct (_ <=? _)%Z; [|done]. by apply insert_wf. }
  unfold create_ref in Hc. destruct (group_pvs s vg); [|done].
  destruct (find_in s vg name); [destruct (decide _); by simplify_eq|].
  destruct (ty =s DmThinType); [|by eapply Hi]. destruct (ensure_pool s vg) as [s1|] eqn:He; [|done].
  eapply Hi; [|exact Hc]. by eapply ensure_pool_wf.
Qed.

(** Nothing of the group hangs on the name. *)
Definition unused (s : lvm_sim) (vg name : string) : Prop :=
  forall v, v ∈ s_volumes s -> lv_VGName v = vg -> lv_Name v <> name /\ lv_Origin v <> name.

Lemma unused_free s vg name : unused s vg name -> find_in s vg name = None.
Proof.
  intros Hu. apply find_volume_none_iff. intros v Hv. unfold is_volume.
  destruct (String.eqb_spec (lv_VGName v) vg) as [E|]; [|done]. cbn. apply eqb_false. by apply (Hu v Hv).
Qed.

Lemma with_volumes_same s : with_volumes s (s_volumes s) = s.
Proof. by destruct s. Qed.

(** A volume put under an unused name goes alone. *)
Lemma remove_insert s v s' :
  insert_volume s v = Some s' -> unused s (lv_VGName v) (lv_Name v) ->
  (lv_SegType v = ThinPoolType -> count (thin_of (lv_VGName v)) (s_volumes s) = 0) ->
  remove_ref s' (lv_VGName v) (lv_Name v) = s.
Proof.
  unfold insert_volume. destruct (takes s v); [|done]. intros [= <-] Hu Hthin. unfold remove_ref, find_in.
  assert (is_volume (lv_VGName v) (lv_Name v) v = true) as Hv by (unfold is_volume; by rewrite !eqb_same).
  set (l := s_volumes s). assert (find_volume (lv_VGName v) (lv_Name v) (v :: l) = Some v) as Hf
    by (unfold find_volume; cbn; by rewrite Hv).
  cbn [with_volumes s_volumes]. rewrite Hf. transitivity (with_volumes s l); [|apply with_volumes_same].
  unfold with_volumes at 1. cbn [s_groups with_volumes]. f_equal. unfold without. cbn [List.filter].
  unfold goes at 1. rewrite Hv. cbn [orb negb].
  transitivity (List.filter (fun _ => true) l); [|clear; induction l as [|x l IH]; cbn; by rewrite ?IH].
  apply List.filter_ext_in. intros w Hw%list_elem_of_In. apply negb_true_iff. unfold goes. rewrite Hf.
  unfold is_volume. destruct (String.eqb_spec (lv_VGName w) (lv_VGName v)) as [E|]; [|done].
  destruct (Hu w Hw E) as [Hn%eqb_false Ho%eqb_false]. rewrite Hn, Ho. cbn [andb orb].
  apply andb_false_iff. destruct (String.eqb_spec (lv_SegType w) ThinVolType) as [Ht|]; [right|by left].
  apply eqb_false. intros Hp. specialize (Hthin Hp).
  pose proof (count_pos (thin_of (lv_VGName v)) l w Hw) as Hc. unfold thin_of in Hc, Hthin.
  rewrite E, Ht, !eqb_same in Hc. specialize (Hc eq_refl). unfold l in Hc. lia.
Qed.

(** When the pool of a group is the driver's own to make and remove: if it is there, thin
    volumes are in it; if it is not, there are none. *)
Definition pool_in_use (s : lvm_sim) (vg : string) : Prop :=
  idle_pool s vg = false /\
  (find_in s vg (pool_name vg) = None ->
   unused s vg (pool_name vg) /\ count (thin_of vg) (s_volumes s) = 0).

Lemma delete_create s vg name size ty s' :
  create_ref s vg name size ty = Some s' -> unused s vg name -> supported_type ty = true ->
  (ty = DmThinType -> pool_in_use s vg) -> delete_ref s' vg name ty = s.
Proof.
  intros Hc Hu Hty Hpool. unfold create_ref in Hc. rewrite (unused_free _ _ _ Hu) in Hc.
  destruct (group_pvs s vg) as [pvs|]; [|done]. unfold delete_ref.
  assert (forall s0 s1 ty', insert_sized s0 name vg size ty' = Some s1 -> unused s0 vg name ->
            ty' <> ThinPoolType -> remove_ref s1 vg name = s0) as Hundo.
  { intros s0 s1 ty' Hi Hu0 Hne. unfold insert_sized in Hi. destruct (_ <=? _)%Z; [|done].
    by apply (remove_insert s0 (new_volume name vg (round_up size) ty' "")). }
  destruct (ty =s DmThinType) eqn:Hdm; cbn [andb].
  2:{ apply (Hundo s s' _ Hc Hu). unfold striped_type. by destruct (_ =? _)%Z. }
  apply eqb_true in Hdm. destruct (Hpool Hdm) as [Hidle Hnone].
  destruct (ensure_pool s vg) as [s1|] eqn:He; [|done]. unfold ensure_pool in He.
  destruct (find_in s vg (pool_name vg)) as [p|] eqn:Hp.
  - destruct (_ =s _); [|done]. injection He as <-. rewrite (Hundo s s' _ Hc Hu) by done. by rewrite Hidle.
  - destruct (Hnone eq_refl) as [Hup Hthin].
    set (pool := new_volume (pool_name vg) vg pool_bytes ThinPoolType "") in He.
    assert (s_volumes s1 = pool :: s_volumes s) as Hs1
      by (unfold insert_volume in He; destruct (takes s pool); by simplify_eq).
    assert (name <> "" /\ name <> pool_name vg) as [Hne Hnp].
    { unfold insert_sized, insert_volume in Hc. destruct (_ <=? _)%Z; [|done].
      destruct (takes s1 _) eqn:Ht; [|done]. apply takes_free in Ht as (Hwf & Hfree & _).
      apply well_formed_spec in Hwf as (_ & Hne & _). split; [done|]. intros E.
      pose proof (find_volume_none _ _ _ pool Hfree) as Hn. rewrite Hs1 in Hn. specialize (Hn ltac:(by left)).
      unfold is_volume in Hn. cbn [new_volume lv_Name lv_VGName pool] in Hn. by rewrite E, !eqb_same in Hn. }
    rewrite (Hundo s1 s' _ Hc); [|intros v Hv Hg|done].
    2:{ rewrite Hs1 in Hv. apply elem_of_cons in Hv as [->|Hv]; [|by apply Hu].
        split; [|done]. cbn. congruence. }
    assert (idle_pool s1 vg = true) as ->.
    { unfold idle_pool. rewrite Hs1. cbn [existsb]. unfold is_pool at 1. cbn [new_volume pool lv_VGName lv_Name lv_SegType].
      rewrite !eqb_same, count_cons, Hthin. unfold thin_of. cbn [new_volume pool lv_VGName lv_SegType].
      change (ThinPoolType =s ThinVolType) with false. by rewrite andb_false_r. }
    by apply (remove_insert s pool).
Qed.

(** ** Guarantees *)




(** A host with two groups, and the requests of the witnesses. *)
Definition two_groups : lvm_sim := {| s_groups := [("vg", 1%Z); ("vg2", 2%Z)]; s_volumes := [] |}.

Lemma two_groups_wf : wf two_groups.
Proof.
  split; [done|vm_compute; discriminate|]. intros vg pvs. unfold group_pvs. cbn [two_groups s_groups List.find fst].
  destruct (String.eqb_spec "vg" vg) as [<-|]; [intros [= <-]; split_and!; done|].
  destruct (String.eqb_spec "vg2" vg) as [<-|]; [intros [= <-]; split_and!; done|done].
Qed.

Definition thin_create : volumeAction := {|
  va_action := actionTypeCreate; va_name := "pvc-1"; va_nodeName := "node"; va_size := 1048576;
  va_lvmType := DmThinType; va_provisionerImage := "image"; va_pullPolicy := "Always";
  va_namespace := "ns"; va_vgName := "vg"; va_hostWritePath := "/tmp"; va_srcInfo := None;
  va_helperConfig := DefaultHelperConfig |}.
Definition thin_args : list string := "createlv" :: flag_operands (volume_flags thin_create).
Definition delete_args : list string := "deletelv" :: flag_operands (volume_flags delete_action).

(** The pool is made, and the volume in it, rounded up to an extent. *)
Example thin_create_run : run sim_step (createLV initial_timeouts (context_of (volume_flags thin_create))) two_groups =
  Some (None, with_volumes two_groups
    [new_volume "pvc-1" "vg" 4194304 ThinVolType ""; new_volume "vg-thinpool" "vg" pool_bytes ThinPoolType ""]).
Proof. vm_compute. reflexivity. Qed.


Definition snapshot_create : snapshotAction := {|
  sa_action := actionTypeCreate; sa_srcVolName := "pvc-1"; sa_nodeName := "node"; sa_snapshotName := "snapshot-1";
  sa_snapSize := 1048576; sa_provisionerImage := "image"; sa_pullPolicy := "Always"; sa_namespace := "ns";
  sa_vgName := "vg"; sa_lvType := DmThinType; sa_hostWritePath := "/tmp"; sa_helperConfig := DefaultHelperConfig |}.


