(* ===== verification/CloneSpec.v ===== *)
(** * What the provisioner's clonelv achieves

    A clone opens the source, provisions the target and copies the device, or, from
    a thin snapshot in the same group, takes a writable snapshot.  [clone_env] is an
    [LvmHost] with the two devices, and logs what is written to the target. *)
From S2P Require Import Prelude GoStrings Errors Objects Effects Config Validation Json Lvm.
From S2P Require Import LvmHost LvmSpec HelperPod HelperSpec Provisioner ProvisionerSpec.

(** What was done to a device, newest first. *)
Inductive device_event :=
| Copied (src dst : string) (err : option ext_error)
| Synced (path : string) (err : option ext_error).

Record clone_request := {
  q_srcVG : string; q_srcLV : string; q_srcType : string;
  q_dstVG : string; q_dstLV : string; q_type : string; q_size : Z }.

Definition q_srcDev (q : clone_request) : string := device (q_srcVG q) (q_srcLV q).
Definition q_dstDev (q : clone_request) : string := device (q_dstVG q) (q_dstLV q).

(** The clone is a snapshot of a thin snapshot. *)
Definition by_snapshot (q : clone_request) : bool :=
  has_prefix (q_srcLV q) snapshotPrefix && (q_srcType q =s DmThinType) && (q_srcType q =s q_type q)
  && (q_srcVG q =s q_dstVG q).

Section clone.
Context `{LvmHost H} (T : timeouts) (c : cli_context) (q : clone_request).

Definition clone_commands (h : H) (cmd : string) (a : list string) : Prop :=
  keeping cmd \/
  (by_snapshot q = false /\ create_policy (q_dstVG q) (q_dstLV q) h cmd a) \/
  (by_snapshot q = true /\ snapshot_policy (q_dstVG q) (q_dstLV q) (q_srcLV q) h cmd a).

(** The target is opened for writing and copied to only once it has the size and type
    asked for; the source is only read. *)
Definition clone_allowed (s : H * list device_event) (e : eff) : Prop :=
  match e with
  | Exec _ cmd a => clone_commands (fst s) cmd a
  | OpenDevice false p => p = q_srcDev q
  | OpenDevice true p => p = q_dstDev q /\ provisioned (q_dstVG q) (q_dstLV q) (q_size q) (q_type q) (fst s)
  | CopyDevice src dst =>
      src = q_srcDev q /\ dst = q_dstDev q /\
      provisioned (q_dstVG q) (q_dstLV q) (q_size q) (q_type q) (fst s)
  | SyncDevice p => p = q_dstDev q
  | CloseFile p => p = q_srcDev q \/ p = q_dstDev q
  | _ => False
  end.

Definition clone_step (s : H * list device_event) (e : eff) :
    resp e -> H * list device_event -> Prop :=
  match e as e return resp e -> H * list device_event -> Prop with
  | Exec t cmd a => fun x s' => exec (fst s) t cmd a x (fst s') /\ snd s' = snd s
  | CopyDevice src dst => fun err s' => s' = (fst s, Copied src dst err :: snd s)
  | SyncDevice p => fun err s' => s' = (fst s, Synced p err :: snd s)
  | _ => fun _ s' => s' = s
  end.

Definition clone_env : env (H * list device_event) := {| allowed := clone_allowed; step := clone_step |}.

(** The commands of an operation of Lvm.v inside a clone. *)
Lemma wp_commands {R} policy (m : prog R) Q h l :
  (forall h c a, policy h c a -> clone_commands h c a) ->
  wp (lvm_env policy) m Q h -> wp clone_env m (fun r s => Q r (fst s) /\ snd s = l) (h, l).
Proof.
  intros Hp Hm.
  eapply wp_mono; [|eapply (wp_sim (lvm_env policy) clone_env (fun h s => s = (h, l))); [|reflexivity|exact Hm]].
  - intros r s (h' & -> & HQ). done.
  - intros h' s e -> Ha. destruct e; try done. split; [by apply Hp|].
    intros x [h2 l2] [Hx Hl]. cbn in *. exists h2. by subst.
Qed.

Lemma wp_ensureCloneVolumeGroups src dst h l :
  wp clone_env (ensureCloneVolumeGroups T src dst) (fun _ s => snd s = l) (h, l).
Proof.
  eapply wp_mono; [|apply (wp_commands (fun _ cmd _ => keeping cmd) _ (fun _ _ => True)); [by left|]].
  { by intros r s [_ Hs]. }
  assert (forall vg h, wp (lvm_env (fun (_ : H) cmd _ => keeping cmd)) (EnsureVG T vg) (fun _ _ => True) h) as He.
  { intros vg h0. eapply wp_mono; [|by apply wp_EnsureVG]. done. }
  eapply wp_try; [apply He| |done]. intros h1 _. destruct (dst =s src); [done|].
  eapply wp_try; [apply He|done|done].
Qed.

(** What a clone that answers without an error has done. *)
Definition cloned (s : H * list device_event) : Prop :=
  if by_snapshot q then snapshot_of (q_dstVG q) (q_dstLV q) (q_srcLV q) (fst s) /\ snd s = []
  else provisioned (q_dstVG q) (q_dstLV q) (q_size q) (q_type q) (fst s) /\
       snd s = [Synced (q_dstDev q) None; Copied (q_srcDev q) (q_dstDev q) None].

(** The copy, once the target is provisioned. *)
Lemma wp_copy h :
  provisioned (q_dstVG q) (q_dstLV q) (q_size q) (q_type q) h -> by_snapshot q = false ->
  wp clone_env
    (with_device true (q_dstDev q) (fun e => Wrapf "unable to open target device: %w" [] e)
       (let* err := CloneDevice (q_srcDev q) (q_dstDev q) in
        match err with
        | Some e => Ret (Some (Wrapf "unable to clone device: %w" [] (Ext e)))
        | None =>
            let* err := call (SyncDevice (q_dstDev q)) in
            match err with
            | Some e => Ret (Some (Wrapf "unable to sync target device: %w" [] (Ext e)))
            | None => Ret None
            end
        end))
    (fun r s => r = None -> cloned s) (h, []).
Proof.
  intros Hpr Hby. cbn. split; [done|]. intros [e|] ? ->; cbn; [done|]. split; [done|].
  intros [e|] ? ->; cbn.
  { split; [by right|]. by intros ? ? ->. }
  split; [done|]. intros [e|] ? ->; cbn.
  { split; [by right|]. by intros ? ? ->. }
  split; [by right|]. intros ? ? -> _. unfold cloned. by rewrite Hby.
Qed.

(** The context holds the request. *)
Record holds_request : Prop := {
  hr_srcVG : flag_string c flagSrcVGName = q_srcVG q;
  hr_srcLV : flag_string c flagSrcLVName = q_srcLV q;
  hr_srcType : flag_string c flagSrcType = q_srcType q;
  hr_dstVG : flag_string c flagVGName = q_dstVG q;
  hr_dstLV : flag_string c flagLVName = q_dstLV q;
  hr_type : flag_string c flagLVMType = q_type q;
  hr_size : flag_uint64 c flagLVSize = q_size q }.

Lemma wp_clonelv h :
  holds_request -> is_uint64 (q_size q) -> has_byte "/" (q_srcVG q) = false ->
  q_dstLV q <> pool_name (q_dstVG q) ->
  wp clone_env (clonelv T c) (fun r s => r = None -> cloned s) (h, []).
Proof.
  intros [Hr1 Hr2 Hr3 Hr4 Hr5 Hr6 Hr7] Hs Hslash Hne. unfold clonelv.
  rewrite Hr1, Hr2, Hr3, Hr4, Hr5, Hr6, Hr7.
  do 6 (apply wp_required; [intros _|done]). apply wp_required_size; [intros _|done].
  eapply wp_try; [apply wp_ensureCloneVolumeGroups| |done].
  intros [h1 l] Hl. cbn in Hl. subst l. fold (by_snapshot q). destruct (by_snapshot q) eqn:Hby.
  - assert (q_srcVG q = q_dstVG q) as Hvg by (unfold by_snapshot in Hby; by go_bool).
    eapply wp_bind_mono.
    + apply (wp_commands (snapshot_policy (q_dstVG q) (q_dstLV q) (q_srcLV q))); [by right; right|].
      rewrite Hvg in Hslash |- *.
      exact (wp_CreateSnapshot T (q_dstLV q) (q_srcLV q) (q_dstVG q) _ _ true h1 Hslash).
    + intros [out [e|]] [h2 l2] [Hc Hl2]; cbn in *; [done|]. intros _.
      destruct (Hc eq_refl) as [Hsn _]. unfold cloned. by rewrite Hby.
  - unfold with_device at 1. cbn [call bind wp]. split; [done|]. intros [e|] ? ->; [done|].
    apply wp_bind_in. eapply wp_bind_mono.
    + apply (wp_commands (create_policy (q_dstVG q) (q_dstLV q))); [by right; left|]. by apply wp_CreateLVS.
    + intros [out [e|]] [h2 l2] [Hc Hl2]; cbn [fst snd] in *; subst l2.
      { cbn. split; [by left|]. by intros ? ? ->. }
      eapply wp_mono; [|by apply wp_copy; auto]. intros r s Hr. cbn. split; [by left|].
      by intros ? ? ->.
Qed.
End clone.

(** The request of a clone action. *)
Definition request_of (va : volumeAction) (src : srcInfo) : clone_request := {|
  q_srcVG := srcVGName src; q_srcLV := srcLVName src; q_srcType := srcType src;
  q_dstVG := va_vgName va; q_dstLV := va_name va; q_type := va_lvmType va; q_size := va_size va |}.

(** [clonelv] with the arguments of a clone. *)
Lemma wp_clone_action `{LvmHost H} T c va src args (h : H) :
  volumeHelperArgs va = Ok args -> parses args c -> va_action va = actionTypeClone ->
  va_srcInfo va = Some src -> is_uint64 (va_size va) -> has_byte "/" (srcVGName src) = false ->
  va_name va <> pool_name (va_vgName va) ->
  wp (clone_env (request_of va src)) (clonelv T c) (fun r s => r = None -> cloned (request_of va src) s)
    (h, []).
Proof.
  intros Ha Hp Hc Hsrc Hs Hslash Hne. apply wp_clonelv; [|done..].
  pose proof (fun name value => parsed_value va args c name value Ha Hp) as Hv.
  unfold volume_flags in Hv. rewrite Hc, Hsrc in Hv. cbn [default] in Hv.
  change (actionTypeClone =s actionTypeCreate) with false in Hv.
  change (actionTypeClone =s actionTypeDelete) with false in Hv.
  constructor; cbn [request_of q_srcVG q_srcLV q_srcType q_dstVG q_dstLV q_type q_size];
    try (apply Hv; set_solver).
  apply (parsed_size va args); [done..|by rewrite Hc].
Qed.


Definition clone_action : volumeAction := {|
  va_action := actionTypeClone; va_name := "pvc-2"; va_nodeName := "node"; va_size := 1048576;
  va_lvmType := StripedType; va_provisionerImage := "image"; va_pullPolicy := "Always";
  va_namespace := "ns"; va_vgName := "vg"; va_hostWritePath := "/tmp";
  va_srcInfo := Some {| srcLVName := "pvc-1"; srcVGName := "vg"; srcType := StripedType |};
  va_helperConfig := DefaultHelperConfig |}.
Definition clone_source : srcInfo := {| srcLVName := "pvc-1"; srcVGName := "vg"; srcType := StripedType |}.

