(* ===== verification/Container.v ===== *)
(** * A helper pod's container, from its command line to what it leaves on the host

    [main] of cmd/provisioner: the command line parsed by urfave/cli, the [Before] hook,
    the action, the exit code.  [pod_run] is one run of the container of a helper pod on
    a host; [helper_pod_refines] says that a run which exits with 0 has done what the
    action the pod was made for asks, so that the controller may take the phase
    [Succeeded] for the deed. *)
From S2P Require Import Prelude GoStrings Errors Objects Effects Config Validation Json Lvm.
From S2P Require Import LvmHost LvmReport LvmSim LvmSpec HelperPod HelperSpec Provisioner ProvisionerSpec SimSpec CloneSpec Controller ControllerSpec.

(** ** The process *)

(** [App.Run] up to the action: the library, given the hook for usage errors, finds the
    sub-command of a command line and its context, or fails. *)
Definition command_line : Type := (error -> error) -> list string -> result error (cli_command * cli_context).

Definition onUsageError (err : error) : error := Wrapf "usage error: %w" [] err.

(** The exit code; [klog.Fatalf] exits with 255. *)
Definition main (app : command_line) (args : list string) : prog Z :=
  match app onUsageError args with
  | Err e => Ret 255%Z
  | Ok (cmd, c) =>
      match Before c initial_timeouts with
      | Err e => Ret 255%Z
      | Ok T =>
          let* err := cmd_action cmd T c in
          match err with
          | Some e => Ret 255%Z
          | None => Ret 0%Z
          end
      end
  end.

(** What the library documents: a command line of the two global flags, the name of a
    sub-command and values for the flags it declares is read as that sub-command with
    those values, when it is accepted at all. *)
Definition reads_commands (app : command_line) : Prop :=
  forall hook t1 t2 cmd flags size cmd' c,
    declared cmd flags size ->
    app hook (["--command-timeout=" +:+ t1; "--thin-pool-create-timeout=" +:+ t2]
              ++ cmd_name cmd :: flag_operands flags)%list = Ok (cmd', c) ->
    cmd' = cmd /\ parses (cmd_name cmd :: flag_operands flags) c.

(** ** What the actions ask of the host *)

Section container.
Context `{LvmHost H}.

(** The host, and what was done to its devices, newest first. *)
Definition machine : env (H * list device_event) :=
  {| allowed := fun _ _ => True; step := clone_step |}.

(** The conditions under which an action has its meaning: the checks of the controller,
    and that the volume does not have the name of the group's thin pool. *)
Record fit (va : volumeAction) : Prop := {
  fit_size : is_uint64 (va_size va);
  fit_name : va_action va <> actionTypeDelete -> va_name va <> pool_name (va_vgName va);
  fit_src src : va_srcInfo va = Some src -> has_byte "/" (srcVGName src) = false }.

Record fit_snapshot (sa : snapshotAction) : Prop := {
  fit_snap_size : is_int64 (sa_snapSize sa);
  fit_snap_vg : has_byte "/" (sa_vgName sa) = false }.

(** [vg/name] is gone and with it at most what depends on it and the pool of the group. *)
Definition volume_gone (vg name : string) (h h' : H) : Prop :=
  find_volume vg name (volumes h') = None /\
  (forall v, v ∈ volumes h' -> v ∈ volumes h) /\
  (forall v, v ∈ volumes h -> is_volume vg name v = false ->
     ~ depends_on (volumes h) vg name v ->
     is_volume vg (pool_name vg) v = false -> lv_Origin v <> pool_name vg -> v ∈ volumes h').

(** From [h] to the host and device log [s]. *)
Inductive volume_done (va : volumeAction) (h : H) (s : H * list device_event) : Prop :=
| done_create :
    va_action va = actionTypeCreate ->
    provisioned (va_vgName va) (va_name va) (va_size va) (va_lvmType va) (fst s) ->
    volume_done va h s
| done_delete src :
    va_action va = actionTypeDelete -> va_srcInfo va = Some src ->
    (only_pool (volumes h) (srcVGName src) (pool_name (srcVGName src)) ->
     volume_gone (srcVGName src) (va_name va) h (fst s)) ->
    volume_done va h s
| done_clone src :
    va_action va = actionTypeClone -> va_srcInfo va = Some src ->
    cloned (request_of va src) s ->
    volume_done va h s.

Inductive snapshot_done (sa : snapshotAction) (h h' : H) : Prop :=
| done_snapshot h0 :
    sa_action sa = actionTypeCreate -> volumes h0 = volumes h ->
    snapshot_created (sa_vgName sa) (backend_name false (sa_snapshotName sa)) (sa_srcVolName sa)
      (sa_lvType sa) h0 h' ->
    snapshot_done sa h h'
| done_unsnapshot :
    sa_action sa = actionTypeDelete ->
    removed (sa_vgName sa) (backend_name false (sa_snapshotName sa)) h h' ->
    snapshot_done sa h h'.

(** ** The actions on the machine *)

Lemma wp_lvm_machine {R} policy (m : prog R) Q h l :
  wp (lvm_env policy) m Q h -> wp machine m (fun r s => Q r (fst s) /\ snd s = l) (h, l).
Proof.
  intros Hm.
  eapply wp_mono; [|eapply (wp_sim (lvm_env policy) machine (fun h s => s = (h, l))); [|reflexivity|exact Hm]].
  - intros r s (h' & -> & HQ). done.
  - intros h' s e -> Ha. destruct e; try done. split; [done|].
    intros x [h2 l2] [Hx Hl]. cbn in *. exists h2. by subst.
Qed.

(** The machine allows everything: a condition may wait until the end. *)
Lemma wp_machine_later {R} (P : Prop) (m : prog R) Q s :
  (P -> wp machine m Q s) -> wp machine m (fun r s => P -> Q r s) s.
Proof.
  revert s. induction m as [r|e k IH]; intros s Hm; [done|]. split; [done|].
  intros x s' Hs. apply IH. intros HP. by apply (proj2 (Hm HP)).
Qed.

(** The source of a deletion or a clone is known. *)
Lemma action_source va args : volumeHelperArgs va = Ok args -> va_action va <> actionTypeCreate ->
  is_Some (va_srcInfo va).
Proof.
  unfold volumeHelperArgs. intros Ha Hc. go_ok. apply eqb_false in Hc. rewrite Hc in Ha.
  destruct (va_srcInfo va); [done|]. repeat case_match; done.
Qed.

Lemma wp_volume_action va args T c h :
  volumeHelperArgs va = Ok args -> parses args c -> fit va ->
  wp machine (cmd_action (volume_command va) T c) (fun r s => r = None -> volume_done va h s) (h, []).
Proof.
  intros Ha Hp [Hs Hn Hsrc]. unfold volume_command.
  destruct (volume_args_action _ _ Ha) as [[Hc|[Hc|Hc]] _]; rewrite Hc.
  - change (actionTypeCreate =s actionTypeCreate) with true. cbn [cmd_action createLVCmd].
    eapply wp_mono; [|eapply wp_lvm_machine, wp_createLV; try done].
    + intros r s [Hr _] Hnone. by apply done_create, Hr.
    + apply Hn. by rewrite Hc.
  - change (actionTypeDelete =s actionTypeCreate) with false.
    change (actionTypeDelete =s actionTypeDelete) with true. cbn [cmd_action deleteLVCmd].
    destruct (action_source _ _ Ha) as [src Hi]; [by rewrite Hc|].
    eapply wp_mono; [|apply (wp_machine_later (only_pool (volumes h) (srcVGName src) (pool_name (srcVGName src)))
                               _ (fun r s => r = None -> volume_gone (srcVGName src) (va_name va) h (fst s)))].
    + intros r s Hr Hnone. eapply done_delete; eauto.
    + intros Hpool. eapply wp_mono; [|eapply wp_lvm_machine, wp_deleteLV; eauto].
      by intros r s [Hr _].
  - change (actionTypeClone =s actionTypeCreate) with false.
    change (actionTypeClone =s actionTypeDelete) with false. cbn [cmd_action cloneLVCmd].
    destruct (action_source _ _ Ha) as [src Hi]; [by rewrite Hc|].
    eapply wp_mono; [|eapply (wp_env_mono (clone_env (request_of va src)) machine)].
    + intros r s Hr Hnone. eapply done_clone; [done|exact Hi|]. exact (Hr Hnone).
    + done.
    + by intros s e x s' _ Hx.
    + eapply wp_clone_action; eauto. apply Hn. by rewrite Hc.
Qed.

Lemma wp_snapshot_action sa args T c h :
  snapshotHelperArgs sa = Ok args -> parses args c -> fit_snapshot sa ->
  wp machine (cmd_action (snapshot_command sa) T c) (fun r s => r = None -> snapshot_done sa h (fst s)) (h, []).
Proof.
  intros Ha Hp [Hs Hvg]. unfold snapshot_command.
  destruct (String.eqb_spec (sa_action sa) actionTypeCreate) as [Hc|Hc]; cbn [cmd_action createSnapCmd deleteSnapCmd].
  - eapply wp_mono; [|eapply wp_lvm_machine, wp_createSnap; eauto].
    intros r s [Hr _] Hnone. destruct (Hr Hnone) as (h0 & Hv & Hcr). eapply done_snapshot; eauto.
  - assert (sa_action sa = actionTypeDelete) as Hd.
    { unfold snapshotHelperArgs in Ha. go_ok. apply eqb_false in Hc. rewrite Hc in Ha.
      destruct (String.eqb_spec (sa_action sa) actionTypeDelete); done. }
    eapply wp_mono; [|eapply wp_lvm_machine, wp_deleteSnap; eauto].
    intros r s [Hr _] Hnone. apply done_unsnapshot; auto.
Qed.

(** ** One run of a helper pod's container *)

(** The kubelet runs the command of the pod's container with its arguments. *)
Definition pod_run (app : command_line) (p : pod) (h : H) (code : Z) (s : H * list device_event) : Prop :=
  exists c, ps_containers (pod_spec_of p) = [c] /\ c_command c = ["csi-lvmplugin-provisioner"] /\
    executes machine (main app (c_args c)) (h, []) code s.

Lemma wp_main app cmd flags size t1 t2 Q s :
  reads_commands app -> declared cmd flags size ->
  (forall T c, parses (cmd_name cmd :: flag_operands flags) c ->
     wp machine (cmd_action cmd T c) (fun r s => r = None -> Q s) s) ->
  wp machine (main app (["--command-timeout=" +:+ t1; "--thin-pool-create-timeout=" +:+ t2]
                        ++ cmd_name cmd :: flag_operands flags)%list)
    (fun code s => code = 0%Z -> Q s) s.
Proof.
  intros Happ Hd Hk. unfold main.
  destruct (app _ _) as [[cmd' c]|e] eqn:Hr; [|done].
  apply (Happ _ _ _ _ _ size) in Hr as [-> Hp]; [|done].
  destruct (Before _ _) as [T|e]; [|done].
  eapply wp_bind_mono; [by apply Hk|]. intros [e|] s' Hs; cbn; [done|]. auto.
Qed.

Lemma volume_run_done app va p h s :
  reads_commands app -> volume_pod va p -> fit va -> pod_run app p h 0 s -> volume_done va h s.
Proof.
  intros Happ (args & Ha & ->) Hf (c & Hc & _ & Hx). injection Hc as <-. cbn [c_args newHelperContainer] in Hx.
  pose proof (volume_args _ _ Ha) as Hargs. rewrite Hargs in Hx.
  refine (wp_executes machine _ (fun code s => code = 0%Z -> volume_done va h s) _ _ _ _ Hx eq_refl).
  eapply wp_main; [done|apply volume_flags_declared|]. intros T c Hp. rewrite <- Hargs in Hp.
  by eapply wp_volume_action.
Qed.

Lemma snapshot_run_done app sa p h s :
  reads_commands app -> snapshot_pod sa p -> fit_snapshot sa -> pod_run app p h 0 s ->
  snapshot_done sa h (fst s).
Proof.
  intros Happ (args & Ha & ->) Hf (c & Hc & _ & Hx). injection Hc as <-. cbn [c_args newHelperContainer] in Hx.
  pose proof (snapshot_args_of _ _ Ha) as Hargs. rewrite Hargs in Hx.
  refine (wp_executes machine _ (fun code s => code = 0%Z -> snapshot_done sa h (fst s)) _ _ _ _ Hx eq_refl).
  eapply wp_main; [done|apply snapshot_flags_declared|]. intros T c Hp. rewrite <- Hargs in Hp.
  by eapply wp_snapshot_action.
Qed.
End container.


(** ** A library and a host for which this is so *)

Fixpoint read_operands (args : list string) : option (list (string * string)) :=
  match args with
  | [] => Some []
  | flag :: value :: rest =>
      match strip_prefix "--" flag, read_operands rest with
      | Some name, Some flags => Some ((name, value) :: flags)
      | _, _ => None
      end
  | _ => None
  end.

Lemma read_flag_operands flags : read_operands (flag_operands flags) = Some flags.
Proof.
  induction flags as [|[name value] flags IH]; [done|].
  change (flag_operands ((name, value) :: flags)) with (("--" +:+ name) :: value :: flag_operands flags).
  cbn [read_operands]. by rewrite strip_prefix_app, IH.
Qed.

(** A context in which the timeouts are the defaults. *)
Definition with_default_timeouts (c : cli_context) : cli_context := {|
  flag_string := flag_string c; flag_uint64 := flag_uint64 c; flag_int64 := flag_int64 c;
  flag_duration := fun name =>
    if name =s flagCommandTimeout then DefaultHelperCommandTimeout else DefaultThinPoolCreateTimeout |}.

(** Commands by their names, flags as pairs of operands. *)
Definition simple_app : command_line := fun hook args =>
  match args with
  | _ :: _ :: name :: operands =>
      match List.find (fun cmd => cmd_name cmd =s name) commands, read_operands operands with
      | Some cmd, Some flags => Ok (cmd, with_default_timeouts (context_of flags))
      | _, _ => Err (hook (Errorf "invalid command line" []))
      end
  | _ => Err (hook (Errorf "invalid command line" []))
  end.

Lemma find_command cmd : cmd ∈ commands ->
  List.find (fun c => cmd_name c =s cmd_name cmd) commands = Some cmd.
Proof.
  unfold commands. rewrite !elem_of_cons, elem_of_nil.
  by intros [->|[->|[->|[->|[->|[]]]]]].
Qed.

Lemma simple_app_reads : reads_commands simple_app.
Proof.
  intros hook t1 t2 cmd flags size cmd' c (Hc & _) Hr. unfold simple_app in Hr. cbn [app] in Hr.
  rewrite find_command, read_flag_operands in Hr by done. injection Hr as <- <-. split; [done|].
  exact (context_of_parses (cmd_name cmd) flags).
Qed.

(** A run on the computed host is an execution on the machine. *)
Lemma run_executes {R} (m : prog R) (h : sig wf) l r s' :
  run sim_step m (`h) = Some (r, s') ->
  exists h' : sig wf, `h' = s' /\ executes (machine (H := sig wf)) m (h, l) r (h', l).
Proof.
  revert h. induction m as [r0|e k IH]; intros h; cbn [run executes].
  - intros [= -> <-]. by exists h.
  - destruct e; try done. cbn [sim_step]. destruct (tool (`h) command args) as [x s1] eqn:Hx. intros Hr.
    pose proof (tool_wf _ _ _ _ _ (proj2_sig h) Hx) as Hw.
    destruct (IH x (exist wf s1 Hw) Hr) as (h' & <- & He). exists h'. split; [done|].
    exists x, (exist wf s1 Hw, l). split; [|done]. cbn. split; [|done]. exact Hx.
Qed.

