(* ===== verification/Interleaving.v ===== *)
(** * Two provisioner pods on one volume group

    Admission lets several helper pods work on one volume group at a time
    (Admission.v), so the commands of two provisioners interleave; [pair_step] is
    that interleaving over a shared host.  The theorem shows that [RemoveThinPool]'s
    check of the pool and its removal are not one step. *)
From S2P Require Import Prelude GoStrings Errors Objects Effects Config Validation Json Lvm.
From S2P Require Import LvmHost LvmSpec HelperPod HelperSpec Provisioner ProvisionerSpec.

Inductive pair_step {S A B} (E : env S) : prog A * prog B * S -> prog A * prog B * S -> Prop :=
| left_step e k q s x s' :
    allowed E s e -> step E s e x s' -> pair_step E (Vis e k, q, s) (k x, q, s')
| right_step p e k s x s' :
    allowed E s e -> step E s e x s' -> pair_step E (p, Vis e k, s) (p, k x, s').

(** ** Answers of the host of a list of volumes *)

Section answers.
Variables (t : Z) (h : list logicalVolume).

Lemma exec_keeping c a out : keeping c -> (c = "lvs" -> a <> lvs_args /\ a <> counts_args) ->
  list_exec h t c a (out, None) h.
Proof.
  intros Hk Hl. unfold list_exec. split_and!; intros; subst; try done.
  - exfalso. revert Hk. unfold keeping. set_solver.
  - by destruct Hl.
  - by destruct Hl.
  - exfalso. revert Hk. unfold keeping. set_solver.
  - exfalso. revert Hk. unfold keeping. set_solver.
Qed.

Lemma exec_lvs out : parse_report out = Some h -> list_exec h t "lvs" lvs_args (out, None) h.
Proof. intros Hp. unfold list_exec. split_and!; intros; try done; discriminate. Qed.

Lemma exec_counts out :
  (forall vg m pool n, thin_pool_counts vg (split (byte_of 10) out) ∅ = Ok m -> m !! pool = Some n ->
     n = Z.of_nat (count (thin_of vg) h)) ->
  list_exec h t "lvs" counts_args (out, None) h.
Proof. intros Hp. unfold list_exec. split_and!; intros; try discriminate; eauto. Qed.

Lemma not_keeping c : c ∉ ["lvs"; "vgs"; "vgscan"; "vgchange"; "blkid"; "wipefs"; "resize2fs"; "xfs_growfs"] ->
  ~ keeping c.
Proof. done. Qed.

Lemma exec_lvcreate a v out : lvcreate_makes h a v -> find_volume (lv_VGName v) (lv_Name v) h = None ->
  list_exec h t "lvcreate" a (out, None) (v :: h).
Proof.
  intros Hm Hf. unfold list_exec. split_and!; intros; try discriminate; try (eexists; split_and!; done).
  exfalso. revert H. unfold keeping. set_solver.
Qed.

Lemma exec_lvremove vg name out h' :
  has_byte "/" vg = false -> find_volume vg name h' = None ->
  (forall v, v ∈ h' -> v ∈ h) ->
  (forall v, v ∈ h -> is_volume vg name v = false -> ~ depends_on h vg name v -> v ∈ h') ->
  vg <> "" ->
  list_exec h t "lvremove" ["-q"; "-y"; vg +:+ "/" +:+ name] (out, None) h'.
Proof.
  intros Hs Hf Hsub Hk Hne. unfold list_exec. split_and!; try discriminate.
  - intros Hq. exfalso. revert Hq. unfold keeping. set_solver.
  - intros _ _ vg' name' operand [= <-] [E|E] _ Hs'.
    + apply app_sep_inj in E as [<- <-]; [|done..]. auto.
    + destruct vg as [|ch vg]; [done|]. cbn in E. injection E as -> _. cbn in Hs. discriminate.
Qed.
End answers.

(** ** The race *)

Definition the_pool : logicalVolume := {|
  lv_Name := "vg-thinpool"; lv_VGName := "vg"; lv_Size := "1073741824"; lv_SegType := ThinPoolType;
  lv_Origin := "" |}.
Definition thin_volume (name : string) : logicalVolume := {|
  lv_Name := name; lv_VGName := "vg"; lv_Size := "1048576"; lv_SegType := ThinVolType; lv_Origin := "" |}.

Definition thin_create_action : volumeAction := {|
  va_action := actionTypeCreate; va_name := "pvc-2"; va_nodeName := "node"; va_size := 1048576;
  va_lvmType := DmThinType; va_provisionerImage := "image"; va_pullPolicy := "Always";
  va_namespace := "ns"; va_vgName := "vg"; va_hostWritePath := "/tmp"; va_srcInfo := None;
  va_helperConfig := DefaultHelperConfig |}.

Definition dq : string := byte_string (byte_of 34).
(** One volume of a [lvs] JSON report. *)
Definition report_volume (v : logicalVolume) : string :=
  let field k value := dq +:+ k +:+ dq +:+ ":" +:+ dq +:+ value +:+ dq in
  "{" +:+ join "," [field "lv_name" (lv_Name v); field "vg_name" (lv_VGName v); field "lv_size" (lv_Size v);
                    field "segtype" (lv_SegType v); field "origin" (lv_Origin v)] +:+ "}".
Definition report (l : list logicalVolume) : string :=
  "{" +:+ dq +:+ "report" +:+ dq +:+ ":[{" +:+ dq +:+ "lv" +:+ dq +:+ ":[" +:+
  join "," (report_volume <$> l) +:+ "]}]}".

Lemma remove_volume t :
  list_exec [the_pool; thin_volume "pvc-1"] t "lvremove" ["-q"; "-y"; "vg/pvc-1"] ("", None) [the_pool].
Proof.
  apply (exec_lvremove _ _ "vg" "pvc-1"); [done|reflexivity|set_solver| |done].
  intros v. rewrite !elem_of_cons. intros [->|[->|Hv]] Hne _; [by left|discriminate Hne|].
  by apply elem_of_nil in Hv.
Qed.

Lemma pool_is_empty t :
  list_exec [the_pool] t "lvs" counts_args ("  vg thin-pool vg-thinpool 0", None) [the_pool].
Proof.
  apply exec_counts. intros vg m pool n Hm Hn.
  change (split (byte_of 10) "  vg thin-pool vg-thinpool 0") with ["  vg thin-pool vg-thinpool 0"] in Hm.
  cbn [thin_pool_counts] in Hm.
  change (fields "  vg thin-pool vg-thinpool 0") with ["vg"; "thin-pool"; "vg-thinpool"; "0"] in Hm.
  cbn -[String.eqb thin_of] in Hm. destruct (String.eqb_spec "vg" vg) as [<-|Hne]; cbn in Hm; simplify_eq.
  injection Hm as <-.
  apply lookup_insert_Some in Hn as [[_ <-]|[_ Hn]]; [by rewrite count_cons|done].
Qed.

Lemma create_volume t :
  list_exec [the_pool] t "lvcreate"
    ["-v"; "--yes"; "-n"; "pvc-2"; "-W"; "y"; "-V"; "1048576b"; "--thin-pool"; "vg-thinpool"; "vg";
     "--addtag"; "harvester-csi-lvm"] ("", None) [thin_volume "pvc-2"; the_pool].
Proof.
  apply exec_lvcreate; [|reflexivity].
  apply (makes_thin [the_pool] "pvc-2" "vg" 1048576 1048576 "vg-thinpool" "harvester-csi-lvm");
    [lia|split; vm_compute; discriminate].
Qed.

Lemma remove_pool t :
  list_exec [thin_volume "pvc-2"; the_pool] t "lvremove" ["-q"; "-y"; "vg/vg-thinpool"] ("", None) [].
Proof.
  apply (exec_lvremove _ _ "vg" "vg-thinpool"); [done|reflexivity|set_solver| |done].
  intros v. rewrite !elem_of_cons. intros [->|[->|Hv]] Hne Hd; [|discriminate Hne|done].
  exfalso. apply Hd. split; [done|]. right. split; [done|]. by exists the_pool.
Qed.

Definition any_command (_ : list logicalVolume) (_ : string) (_ : list string) : Prop := True.
Abbreviation E := (lvm_env any_command).

Ltac expose :=
  match goal with |- rtc _ (?p, ?q, ?s) _ =>
    let p' := eval hnf in p in let q' := eval hnf in q in change (rtc (pair_step E) (p', q', s) (Ret None, Ret None, [])) end.
Ltac left_answers out h' :=
  eapply rtc_l; [apply (left_step E) with (x := (out, None)) (s' := h'); [exact I|cbn [step lvm_env lvm_step exec list_host]]|cbv beta; expose].
Ltac right_answers out h' :=
  eapply rtc_l; [apply (right_step E) with (x := (out, None)) (s' := h'); [exact I|cbn [step lvm_env lvm_step exec list_host]]|cbv beta; expose].

(** C39: the removal of a thin pool can race with a creation: on a group whose thin pool has
    one volume, [deletelv] of that volume and [createlv] of another can interleave, with
    every command succeeding and both provisioners answering without an error, so that
    the pool is removed with the volume just created in it, which is then gone. *)
Theorem thin_pool_race :
  exists args args' h,
    volumeHelperArgs delete_action = Ok args /\ volumeHelperArgs thin_create_action = Ok args' /\
    rtc (pair_step (lvm_env any_command))
      (deleteLV initial_timeouts (context_of (volume_flags delete_action)),
       createLV initial_timeouts (context_of (volume_flags thin_create_action)),
       [the_pool; thin_volume "pvc-1"])
      (Ret None, Ret None, h) /\
    find_volume "vg" "pvc-2" h = None.
Proof.
  eexists _, _, []. split_and!; [reflexivity..| |reflexivity]. expose.
  left_answers (report [the_pool; thin_volume "pvc-1"]) [the_pool; thin_volume "pvc-1"].
  { apply exec_lvs. vm_compute. reflexivity. }
  left_answers "" [the_pool].
  { apply remove_volume. }
  left_answers "  vg thin-pool vg-thinpool 0" [the_pool].
  { apply pool_is_empty. }
  right_answers "vg" [the_pool].
  { apply exec_keeping; [|done]. unfold keeping. set_solver. }
  right_answers "" [the_pool].
  { apply exec_keeping; [|done]. unfold keeping. set_solver. }
  right_answers (report [the_pool]) [the_pool].
  { apply exec_lvs. vm_compute. reflexivity. }
  right_answers (report [the_pool]) [the_pool].
  { apply exec_lvs. vm_compute. reflexivity. }
  right_answers "  twi-a-tz--" [the_pool].
  { apply exec_keeping; [unfold keeping; set_solver|done]. }
  right_answers "1" [the_pool].
  { apply exec_keeping; [unfold keeping; set_solver|done]. }
  left_answers (report [the_pool]) [the_pool].
  { apply exec_lvs. vm_compute. reflexivity. }
  right_answers "" [thin_volume "pvc-2"; the_pool].
  { apply create_volume. }
  left_answers "" (@nil logicalVolume).
  { apply remove_pool. }
  reflexivity.
Qed.
