(* ===== verification/System.v ===== *)
(** * The whole driver: handlers, API server, kubelets and hosts together

    Any number of the controller's handlers run interleaved, one effect at a time,
    sharing the helper pods and the admission mutex; kubelets run the containers of the
    pods on the hosts of their nodes; pods and hosts change by themselves too, but
    nobody forges the success of a helper pod.  [answers_backed] says that a positive
    answer of a handler rests on a run of the provisioner, on the right node's host,
    that did what the answer says.

    A container run is one step of the host: runs that overlap on a volume group are the
    subject of Interleaving.v.  A request reads objects (volumes, nodes, contents,
    records) that change only by its own writes while it runs.  Requests for the same
    operation on the same object ask for the same pod ([plan]): helper pods are told
    apart by name only. *)
From S2P Require Import Prelude GoStrings Errors Objects Effects Config Validation Json Lvm.
From S2P Require Import LvmHost LvmReport LvmSim LvmSpec HelperPod HelperSpec Admission Provisioner ProvisionerSpec SimSpec CloneSpec Controller ControllerSpec Container.

(** ** The calls of the controller *)

Inductive rpc :=
| RpcCreateVolume (req : create_volume_request)
| RpcDeleteVolume (req : delete_volume_request)
| RpcCreateSnapshot (req : create_snapshot_request)
| RpcDeleteSnapshot (req : delete_snapshot_request).

Inductive answer :=
| Created (r : result error csi_volume)
| Deleted (r : result error unit)
| SnapshotTaken (r : result error csi_snapshot)
| SnapshotDeleted (r : result error unit).

Section calls.
Context (cs : controllerServer) (fuel : nat).

Definition handler (c : rpc) : prog answer :=
  match c with
  | RpcCreateVolume req => let* r := CreateVolume cs fuel req in Ret (Created r)
  | RpcDeleteVolume req => let* r := DeleteVolume cs fuel req in Ret (Deleted r)
  | RpcCreateSnapshot req => let* r := CreateSnapshot cs fuel req in Ret (SnapshotTaken r)
  | RpcDeleteSnapshot req => let* r := DeleteSnapshot cs fuel req in Ret (SnapshotDeleted r)
  end.

(** Sizes are machine integers; no volume is called like a thin pool. *)
Definition rpc_ok (c : rpc) : Prop :=
  match c with
  | RpcCreateVolume req =>
      (forall r, cv_capacity req = Some r -> is_int64 (required_bytes r)) /\
      forall vg, cv_name req <> pool_name vg
  | _ => True
  end.

Definition rpc_pods (c : rpc) : objects -> pod -> Prop :=
  match c with
  | RpcCreateVolume req => creates cs req
  | RpcDeleteVolume req => deletes cs (dv_id req)
  | RpcCreateSnapshot req => snapshots cs req
  | RpcDeleteSnapshot req => deletes_snapshot cs (ds_id req)
  end.

Definition rpc_writes (c : rpc) : world -> eff -> Prop :=
  match c with
  | RpcCreateSnapshot req => snapshot_writes cs req
  | RpcDeleteSnapshot req => forgets cs (ds_id req)
  | _ => no_writes
  end.

(** The pods a call that starts with these objects may come to run. *)
Definition may_run (c : rpc) (o : objects) (p : pod) : Prop :=
  match c with
  | RpcCreateSnapshot req => exists node vg ty size,
      source_at o (cr_source_volume req) node vg ty size /\
      snapshot_pod (newCreateSnapshotAction cs (cr_name req) (cr_source_volume req) node vg ty size) p
  | _ => rpc_pods c o p
  end.

(** What an answer stands for, given which actions ran; [o] and [o'] are the objects at
    its start and at its end. *)
Definition backed (c : rpc) (o o' : objects) (a : answer) (vran : volumeAction -> Prop)
    (sran : snapshotAction -> Prop) : Prop :=
  match c, a with
  | RpcCreateVolume req, Created r => forall v, r = Ok v -> volume_created cs o req v vran
  | RpcDeleteVolume req, Deleted r => r = Ok tt -> volume_deleted cs o (dv_id req) vran
  | RpcCreateSnapshot req, SnapshotTaken r => forall snap, r = Ok snap -> snapshot_taken cs o o' req snap sran
  | RpcDeleteSnapshot req, SnapshotDeleted r => r = Ok tt -> snapshot_deleted cs o (ds_id req) sran
  | _, _ => False
  end.

Lemma wp_handler c w :
  ready fuel w -> rpc_ok c ->
  wp (world_env (rpc_pods c) (rpc_writes c)) (handler c)
    (fun a w' => backed c (fst w) (fst w') a (volume_seen (snd w')) (snapshot_seen (snd w'))) w.
Proof.
  intros Hr Hok. destruct c as [req|req|req|req]; cbn [handler rpc_pods rpc_writes].
  - destruct Hok as [Hcap _]. eapply wp_bind_mono; [by apply wp_CreateVolume|]. by intros r w' [_ Hv].
  - eapply wp_bind_mono; [by apply wp_DeleteVolume|]. by intros r w' [_ Hv].
  - eapply wp_bind_mono; [by apply wp_CreateSnapshot_request|]. by intros r w' Hv.
  - eapply wp_bind_mono; [by apply wp_DeleteSnapshot_request|]. by intros r w' Hv.
Qed.

(** *** The pods of a call do not depend on what the call itself writes *)

Lemma located_fewer o k id content loc :
  located (with_cms o (delete k (o_cms o))) id content loc -> located o id content loc.
Proof.
  intros [node vg Hn Hne Hv Hvg|cm l Hn Hv Hcm Hl]; [by apply located_annotations|].
  cbn in Hcm; apply lookup_delete_Some in Hcm as [_ Hcm]. by eapply located_record.
Qed.

Lemma deletes_fewer o k id p :
  deletes_snapshot cs id (with_cms o (delete k (o_cms o))) p -> deletes_snapshot cs id o p.
Proof.
  intros (content & node & vg & Hin & Hh & Hat & Hp). exists content, node, vg.
  split_and!; [done..| |done]. destruct Hat as [loc Hv Hne Hl|volume pv node vg ty Hv Hne Hpv Hm|volume node vg Hv Hne Hno Hrec].
  - apply at_existing; [done..|]. by eapply located_fewer.
  - by eapply at_source.
  - eapply at_record; [done..|]. destruct Hrec as (cm & Hcm & Hloc).
    cbn in Hcm; apply lookup_delete_Some in Hcm as [_ Hcm]. by exists cm.
Qed.

Lemma may_run_step c w e x w' p :
  world_allowed (rpc_pods c) (rpc_writes c) w e -> world_step w e x w' ->
  may_run c (fst w') p -> may_run c (fst w) p.
Proof.
  destruct w as [o s]. intros Ha Hs.
  destruct e; cbn in Hs; try (by subst w'); try (by destruct Hs as [-> _]); try (by destruct Hs as (s' & -> & _)).
  - destruct c; cbn in Ha; try done; [|by destruct Ha].
    destruct x as [e|]; [destruct Hs as [[->|[_ ->]] _]|destruct Hs as [_ ->]]; done.
  - destruct c as [| |req|req]; cbn in Ha; try done; [by destruct Ha as (? & ? & ? & ? & _ & ?)|].
    destruct x as [e|]; [destruct Hs as [[->| ->] _]|subst w']; cbn; try done; apply deletes_fewer.
Qed.

Lemma rpc_pods_may_run c o p : rpc_pods c o p -> may_run c o p.
Proof. destruct c; cbn; try done. intros (node & vg & ty & size & Hs & _ & Hp). by exists node, vg, ty, size. Qed.

(** A pod the driver makes has not run yet. *)
Lemma may_run_new c o p : may_run c o p -> pod_status_of p = no_status.
Proof.
  destruct c; cbn; unfold creates, deletes, snapshots, deletes_snapshot.
  - by intros (? & ? & ? & ? & ? & ? & _ & _ & args & _ & ->).
  - by intros (? & ? & ? & ? & _ & _ & _ & args & _ & ->).
  - by intros (? & ? & ? & ? & _ & args & _ & ->).
  - by intros (? & ? & ? & _ & _ & _ & args & _ & ->).
Qed.

(** *** The actions of a call have their meaning *)

Lemma metadata_vg pv node vg ty : metadataFromPV (Some pv) = Ok (node, vg, ty) -> vg_name vg.
Proof.
  unfold metadataFromPV. intros H. apply rbind_ok in H as ([vg' ty'] & Ha & H).
  go_ok. unfold lvmAttributesFromPV in Ha. destruct (pv_csi pv); [|done]. go_ok.
  by match goal with H : validateVGName _ = Ok ?u |- _ => destruct u; apply validateVGName_ok in H end.
Qed.

Lemma clone_source_vg o node ty size source src :
  clone_source o node ty size source src -> has_byte "/" (srcVGName src) = false.
Proof.
  intros Hs. apply vg_name_no_slash. destruct Hs as [id pv vg ty' n _ _ Hm|id content volume handle n pv vg ty' _ _ _ _ _ Hm|
    id content handle n loc _ _ _ _ _ Hl]; [by eapply metadata_vg..|].
  destruct Hl as [node' vg _ _ _ Hvg|cm loc _ _ _ Hl]; [done|]. by eapply location_handle.
Qed.

Lemma provisions_fit o req ty vg size node topology action :
  rpc_ok (RpcCreateVolume req) -> create_volume_checks cs req = Ok (ty, vg, size, node, topology) ->
  provisions cs o req ty vg size node action -> fit action.
Proof.
  intros [Hcap Hname] Hc Hp. destruct (create_checks_ok _ _ _ _ _ _ _ Hc) as (_ & Hrange & _).
  destruct (capacity_ok _ _ Hrange) as (r & Hr & <- & Hpos). pose proof (Hcap _ Hr) as Hi.
  assert (is_uint64 (required_bytes r)) as Hu
    by (revert Hi; unfold is_int64, is_uint64, max_int64, max_uint64, two63, two64; lia).
  destruct Hp as [Hsrc|source src Hsrc Hs]; (split; cbn; [done|intros _; apply Hname|]).
  - done.
  - intros src' [= <-]. by eapply clone_source_vg.
Qed.

Lemma delete_fit pv node vg ty id :
  metadataFromPV (Some pv) = Ok (node, vg, ty) -> fit (newDeleteVolumeAction cs id node vg ty).
Proof.
  intros Hm. split; cbn; [by split|done|]. intros src [= <-]. cbn. by eapply vg_name_no_slash, metadata_vg.
Qed.

Lemma snapshot_fit o volume node vg ty size id :
  source_at o volume node vg ty size -> fit_snapshot (newCreateSnapshotAction cs id volume node vg ty size).
Proof.
  intros (pv & _ & Hm & Hb). split; cbn; [|by eapply vg_name_no_slash, metadata_vg].
  unfold requiredBytesFromPersistentVolume in Hb. destruct (pv_csi pv); [|done].
  destruct (parse_int _) as [n|] eqn:Hn; [|done]. go_ok. by eapply parse_int_bounds.
Qed.

Lemma snapshot_at_vg o id content node vg : snapshot_at o id content node vg -> has_byte "/" vg = false.
Proof.
  intros Hs. apply vg_name_no_slash. destruct Hs as [loc _ _ Hl|volume pv node vg ty _ _ _ Hm|volume node vg _ _ _ Hr].
  - destruct Hl as [node' vg _ _ _ Hvg|cm loc _ _ _ Hl]; [done|]. by eapply location_handle.
  - by eapply metadata_vg.
  - destruct Hr as (cm & _ & Hl). by apply location_handle in Hl as (_ & _ & Hl).
Qed.

Lemma delete_snapshot_fit o id content node vg :
  snapshot_at o id content node vg -> fit_snapshot (newDeleteSnapshotAction cs id node vg).
Proof. intros Hs. split; cbn; [split; vm_compute; discriminate|by eapply snapshot_at_vg]. Qed.

(** What runs of an answer's actions become when every pod the call may run that was
    seen to succeed [meant] its action. *)
Lemma backed_by c o o' a (s : request) (vran : volumeAction -> Prop) (sran : snapshotAction -> Prop) :
  rpc_ok c ->
  (forall action p, may_run c o p -> volume_pod action p -> fit action ->
     seen_terminal p PodSucceeded s -> vran action) ->
  (forall action p, may_run c o p -> snapshot_pod action p -> fit_snapshot action ->
     seen_terminal p PodSucceeded s -> sran action) ->
  backed c o o' a (volume_seen s) (snapshot_seen s) -> backed c o o' a vran sran.
Proof.
  intros Hok Hv Hs. destruct c as [req|req|req|req], a as [r|r|r|r]; try done; cbn [backed].
  - intros Hb v Hr. destruct (Hb v Hr) as (ty & vg & size & node & topology & Hc & H1 & H2 & H3 & H4 & H5 & action & Hp & p & Hvp & Hseen).
    exists ty, vg, size, node, topology. split_and!; [done..|]. exists action. split; [done|].
    eapply Hv; [|done| |done]; [|by eapply provisions_fit]. by exists ty, vg, size, node, topology, action.
  - intros Hb Hr. destruct (Hb Hr) as [Hn|(pv & node & vg & ty & Hpv & Hm & Hd)]; [by left|right].
    exists pv, node, vg, ty. split_and!; [done..|]. destruct Hd as [Hd|(p & Hvp & Hseen)]; [by left|].
    destruct (decide (node ∈ o_nodes o)) as [Hnode|]; [right|by left].
    eapply Hv; [|done| |done]; [|by eapply delete_fit]. by exists pv, node, vg, ty.
  - intros Hb snap Hr. destruct (Hb snap Hr) as (H1 & H2 & H3 & node & vg & ty & size & Hat & H4 & H5 & H6 & p & Hsp & Hseen).
    split_and!; [done..|]. exists node, vg, ty, size. split_and!; [done..|].
    eapply Hs; [|done| |done]; [|by eapply snapshot_fit]. by exists node, vg, ty, size.
  - intros Hb Hr. destruct (Hb Hr) as [Hn|[Hn|(content & node & vg & Hin & Hh & Hat & p & Hsp & Hseen)]];
      [by left|by right; left|right; right].
    exists content, node, vg. split_and!; [done..|].
    eapply Hs; [|done| |done]; [|by eapply delete_snapshot_fit]. by exists content, node, vg.
Qed.
End calls.

(** ** The system *)

(** A container run that ended with exit code 0. *)
Record run_record (H : Type) := {
  r_node : string; r_pod : pod; r_before : H; r_after : H * list device_event }.
Arguments r_node {H} _.
Arguments r_pod {H} _.
Arguments r_before {H} _.
Arguments r_after {H} _.

(** A call under way: the objects at its start, the rest of its program, what it sees. *)
Record thread := { t_rpc : rpc; t_start : objects; t_prog : prog answer; t_world : world }.

Record system (H : Type) := {
  sy_pods : gmap string pod; sy_owner : option nat; sy_threads : gmap nat thread;
  sy_hosts : string -> H; sy_runs : list (run_record H) }.
Arguments sy_pods {H} _.
Arguments sy_owner {H} _.
Arguments sy_threads {H} _.
Arguments sy_hosts {H} _.
Arguments sy_runs {H} _.
Arguments Build_system {H} _ _ _ _ _.

Definition succeeded (p : pod) : Prop := st_phase (pod_status_of p) = PodSucceeded.
Definition pod_like (p q : pod) : Prop := pod_name p = pod_name q /\ pod_spec_of p = pod_spec_of q.

#[export] Instance pod_like_equiv : Equivalence pod_like.
Proof. split; red; unfold pod_like; intuition congruence. Qed.

Definition moves (t : thread) (m : prog answer) (w : world) : thread :=
  {| t_rpc := t_rpc t; t_start := t_start t; t_prog := m; t_world := w |}.

Definition is_pod_call (e : eff) : bool :=
  match e with PodGet _ _ | PodList _ | PodCreate _ _ | PodDelete _ _ _ _ => true | _ => false end.

(** The API server answers about pods; other effects leave them alone. *)
Definition pods_answer (s : gmap string pod) (e : eff) (x : resp e) (s' : gmap string pod) : Prop :=
  if is_pod_call e then api_answers s e x s' else s' = s.

Definition set_host {H} (hosts : string -> H) (node : string) (h : H) : string -> H :=
  fun n => if decide (n = node) then h else hosts n.

Definition ended (code : Z) : pod_status :=
  {| st_phase := if (code =? 0)%Z then PodSucceeded else PodFailed; st_reason := ""; st_message := "";
     st_containers := [] |}.

Section system.
Context `{LvmHost H} (cs : controllerServer) (fuel : nat) (app : command_line).
(** The pod that requests for a name of a helper ask for. *)
Context (plan : string -> option pod).

(** No helper pod succeeds, or comes, by itself. *)
Definition honest (s s' : gmap string pod) : Prop :=
  forall n p', s' !! n = Some p' -> is_Some (plan n) ->
    exists p, s !! n = Some p /\ pod_like p' p /\ (succeeded p' -> succeeded p).

Inductive system_step (s : system H) : system H -> Prop :=
| sys_call i c o polls :
    sy_threads s !! i = None -> rpc_ok c -> polls < fuel ->
    (forall p, may_run cs c o p -> plan (pod_name p) = Some p) ->
    system_step s (Build_system (sy_pods s) (sy_owner s)
      (<[i := {| t_rpc := c; t_start := o; t_prog := handler cs fuel c; t_world := (o, new_request polls) |}]>
         (sy_threads s)) (sy_hosts s) (sy_runs s))
| sys_effect i t e k x w ps :
    sy_threads s !! i = Some t -> t_prog t = Vis e k -> is_lock e = false ->
    world_step (t_world t) e x w -> pods_answer (sy_pods s) e x ps ->
    system_step s (Build_system ps (sy_owner s) (<[i := moves t (k x) w]> (sy_threads s))
                     (sy_hosts s) (sy_runs s))
| sys_lock i t k w :
    sy_threads s !! i = Some t -> t_prog t = Vis AdmissionLock k -> sy_owner s = None ->
    world_step (t_world t) AdmissionLock tt w ->
    system_step s (Build_system (sy_pods s) (Some i) (<[i := moves t (k tt) w]> (sy_threads s))
                     (sy_hosts s) (sy_runs s))
| sys_unlock i t k w :
    sy_threads s !! i = Some t -> t_prog t = Vis AdmissionUnlock k ->
    world_step (t_world t) AdmissionUnlock tt w ->
    system_step s (Build_system (sy_pods s) None (<[i := moves t (k tt) w]> (sy_threads s))
                     (sy_hosts s) (sy_runs s))
| sys_pods ps :
    honest (sy_pods s) ps ->
    system_step s (Build_system ps (sy_owner s) (sy_threads s) (sy_hosts s) (sy_runs s))
| sys_container n p code r :
    sy_pods s !! n = Some p -> podTerminal p = false ->
    let node := ps_node_name (pod_spec_of p) in
    pod_run app p (sy_hosts s node) code r ->
    system_step s (Build_system (<[n := set_status p (ended code) (pod_deletion p)]> (sy_pods s))
      (sy_owner s) (sy_threads s) (set_host (sy_hosts s) node (fst r))
      (if (code =? 0)%Z
       then {| r_node := node; r_pod := p; r_before := sy_hosts s node; r_after := r |} :: sy_runs s
       else sy_runs s))
| sys_host node h :
    system_step s (Build_system (sy_pods s) (sy_owner s) (sy_threads s) (set_host (sy_hosts s) node h)
                     (sy_runs s)).

(** A run of the planned pod [q]. *)
Definition run_of (q : pod) (r : run_record H) : Prop :=
  r_node r = ps_node_name (pod_spec_of q) /\ pod_run app q (r_before r) 0 (r_after r).

Definition witnessed (runs : list (run_record H)) (q : pod) : Prop := exists r, r ∈ runs /\ run_of q r.

Lemma witnessed_more r runs q : witnessed runs q -> witnessed (r :: runs) q.
Proof. intros (r' & Hr & Hq). exists r'. split; [by right|done]. Qed.

(** What an action asks for was done by a run, on the action's node. *)
Definition volume_executed (runs : list (run_record H)) (action : volumeAction) : Prop :=
  exists r, r ∈ runs /\ r_node r = va_nodeName action /\ volume_done action (r_before r) (r_after r).
Definition snapshot_executed (runs : list (run_record H)) (action : snapshotAction) : Prop :=
  exists r, r ∈ runs /\ r_node r = sa_nodeName action /\ snapshot_done action (r_before r) (fst (r_after r)).

(** ** The invariant *)

(** Planned pods are as planned, and those that succeeded have run. *)
Definition pods_backed (runs : list (run_record H)) (s : gmap string pod) : Prop :=
  forall n p q, s !! n = Some p -> plan n = Some q ->
    pod_like p q /\ (succeeded p -> witnessed runs q).

Record thread_backed (runs : list (run_record H)) (t : thread) : Prop := {
  tb_ok : rpc_ok (t_rpc t);
  tb_plan p : may_run cs (t_rpc t) (t_start t) p -> plan (pod_name p) = Some p;
  tb_objects p : may_run cs (t_rpc t) (fst (t_world t)) p -> may_run cs (t_rpc t) (t_start t) p;
  tb_prog : wp (world_env (rpc_pods cs (t_rpc t)) (rpc_writes cs (t_rpc t))) (t_prog t)
    (fun a w => backed cs (t_rpc t) (t_start t) (fst w) a (volume_seen (snd w)) (snapshot_seen (snd w)))
    (t_world t);
  tb_seen p q : seen (snd (t_world t)) = Some p -> plan (pod_name p) = Some q -> succeeded p ->
    witnessed runs q }.

Record system_ok (s : system H) : Prop := {
  so_pods : pods_backed (sy_runs s) (sy_pods s);
  so_threads i t : sy_threads s !! i = Some t -> thread_backed (sy_runs s) t }.

Lemma pod_run_like p q h code r : pod_like p q -> pod_run app p h code r -> pod_run app q h code r.
Proof. intros [_ Hs]. unfold pod_run. by rewrite Hs. Qed.

Lemma pods_backed_honest runs s s' : honest s s' -> pods_backed runs s -> pods_backed runs s'.
Proof.
  intros Hh Hb n p' q Hp' Hq. destruct (Hh n p' Hp') as (p & Hp & Hlike & Hsuc); [by exists q|].
  destruct (Hb n p q Hp Hq) as [Hl Hw]. split; [by transitivity p|auto].
Qed.

Lemma honest_refl s : honest s s.
Proof. intros n p Hp _. by exists p. Qed.

Lemma honest_status (s : gmap string pod) n p d :
  s !! n = Some p -> honest s (<[n := set_status p (pod_status_of p) d]> s).
Proof.
  intros Hp m p' [[<- <-]|[_ Hp']]%lookup_insert_Some _; [by exists p|by exists p'].
Qed.

(** Answers about pods are honest, but for the creation of a planned pod. *)
Lemma answer_honest s e x s' : pods_answer s e x s' ->
  honest s s' \/ exists ns p, e = PodCreate ns p /\ s !! pod_name p = None /\ s' = <[pod_name p := p]> s.
Proof.
  unfold pods_answer. destruct e; cbn; try (intros ->; left; apply honest_refl);
    try (intros [-> _]; left; apply honest_refl).
  - intros [[Hn ->]|[_ ->]]; [right; by exists namespace, p|left; apply honest_refl].
  - intros [->|[->|(p & t & Hp & ->)]]; left; [apply honest_refl| |by apply honest_status].
    intros n p [_ Hp]%lookup_delete_Some _. by exists p.
Qed.

(** The pod a call saw last is one the API server had. *)
Lemma seen_step (s s' : gmap string pod) w e x w' p :
  world_step w e x w' -> pods_answer s e x s' -> seen (snd w') = Some p ->
  seen (snd w) = Some p \/ s !! pod_name p = Some p.
Proof.
  destruct w as [o r]. unfold pods_answer.
  destruct e; cbn; try (by intros [-> _] _; left);
    try (by intros (r' & -> & ->) _; left); try (by intros (r' & -> & [_ ->]) _; left).
  - intros (r' & -> & [Hn ->]) [-> Hx]. cbn. destruct x as [v|e]; [|done]. intros ->.
    destruct Hx as [Hs _]. right. by rewrite (Hn p eq_refl).
  - destruct x as [e|]; [intros [[->|[_ ->]] _]|intros [_ ->]]; by left.
  - destruct x as [e|]; [intros [[->| ->] _]|intros ->]; by left.
  - intros (r' & -> & Hr') _. destruct x as [e|]; cbn; [subst r'|destruct Hr' as (_ & -> & _)]; by left.
  - intros -> _. by left.
Qed.

Lemma thread_backed_more r runs t : thread_backed runs t -> thread_backed (r :: runs) t.
Proof.
  intros [H1 H2 H3 H4 H5]. split; [done..|]. intros p q Hp Hq Hs. by eapply witnessed_more, H5.
Qed.

(** A thread that takes an answer stays backed. *)
Lemma thread_backed_step runs s s' t e k x w :
  pods_backed runs s -> thread_backed runs t -> t_prog t = Vis e k ->
  world_step (t_world t) e x w -> pods_answer s e x s' -> thread_backed runs (moves t (k x) w).
Proof.
  intros Hb [H1 H2 H3 H4 H5] Ht Hw Hx. rewrite Ht in H4. destruct H4 as [Ha Hk].
  split; cbn; [done|done| |by apply Hk|].
  - intros p Hp. apply H3. exact (may_run_step cs _ _ _ _ _ _ Ha Hw Hp).
  - intros p q Hp Hq Hs. destruct (seen_step _ _ _ _ _ _ _ Hw Hx Hp) as [Hold|Hnew]; [by eapply H5|].
    by eapply Hb.
Qed.

(** The pods after the answer to a backed thread. *)
Lemma pods_backed_step runs s s' t e k x w :
  pods_backed runs s -> thread_backed runs t -> t_prog t = Vis e k ->
  world_step (t_world t) e x w -> pods_answer s e x s' -> pods_backed runs s'.
Proof.
  intros Hb Ht He Hw Hx. apply answer_honest in Hx as [Hh|(ns & p & -> & Hnew & ->)];
    [by eapply pods_backed_honest|].
  pose proof (tb_prog _ _ Ht) as Hp. rewrite He in Hp. destruct Hp as [(desired & Hok & -> & _) _].
  apply rpc_pods_may_run, (tb_objects _ _ Ht) in Hok. pose proof (tb_plan _ _ Ht _ Hok) as Hplan.
  intros n p q [[<- <-]|[_ Hp]]%lookup_insert_Some Hq; [|by eapply Hb].
  assert (q = desired) as -> by congruence. split; [done|].
  unfold succeeded. by rewrite (may_run_new _ _ _ _ Hok).
Qed.

Lemma update_backed runs (ts : gmap nat thread) i t :
  thread_backed runs t -> (forall j t, ts !! j = Some t -> thread_backed runs t) ->
  forall j t', <[i := t]> ts !! j = Some t' -> thread_backed runs t'.
Proof. intros Hi Ho j t' [[<- <-]|[_ Hj]]%lookup_insert_Some; [done|by eapply Ho]. Qed.

(** The pods and runs after a container has ended. *)
Lemma container_backed runs (s : gmap string pod) n p code h r :
  pods_backed runs s -> s !! n = Some p -> podTerminal p = false -> pod_run app p h code r ->
  let node := ps_node_name (pod_spec_of p) in
  pods_backed (if (code =? 0)%Z
               then {| r_node := node; r_pod := p; r_before := h; r_after := r |} :: runs else runs)
    (<[n := set_status p (ended code) (pod_deletion p)]> s).
Proof.
  intros Hb Hp Ht Hrun node m p' q [[<- <-]|[_ Hp']]%lookup_insert_Some Hq.
  - destruct (Hb n p q Hp Hq) as [Hlike _]. split; [by transitivity p|].
    unfold succeeded. cbn. destruct (Z.eqb_spec code 0) as [->|]; [|done]. intros _.
    eexists. split; [by left|]. split; [|by eapply pod_run_like].
    unfold node. by destruct Hlike as [_ ->].
  - destruct (Hb m p' q Hp' Hq) as [Hlike Hs]. split; [done|]. intros Hsuc.
    case_match; [apply witnessed_more|]; auto.
Qed.

Lemma system_ok_step s s' : system_ok s -> system_step s s' -> system_ok s'.
Proof.
  intros [Hb Ht] Hstep.
  destruct Hstep as [i c o polls Hi Hok Hpolls Hplan|i t e k x w ps Hi He Hl Hw Hx|i t k w Hi He Ho Hw
                    |i t k w Hi He Hw|ps Hh|n p code r Hp Hterm node Hrun|node h]; (split; cbn; [|try (apply update_backed; [|done])]);
    try done.
  - split; cbn; [done..| |done]. exact (wp_handler cs fuel c (o, new_request polls) (conj eq_refl Hpolls) Hok).
  - exact (pods_backed_step _ _ _ _ _ _ _ _ Hb (Ht _ _ Hi) He Hw Hx).
  - exact (thread_backed_step _ _ _ _ _ _ _ _ Hb (Ht _ _ Hi) He Hw Hx).
  - exact (thread_backed_step _ _ (sy_pods s) _ AdmissionLock _ tt _ Hb (Ht _ _ Hi) He Hw eq_refl).
  - exact (thread_backed_step _ _ (sy_pods s) _ AdmissionUnlock _ tt _ Hb (Ht _ _ Hi) He Hw eq_refl).
  - by eapply pods_backed_honest.
  - by apply container_backed.
  - intros i t Hi. case_match; [apply thread_backed_more|]; by eapply Ht.
Qed.

(** A pod that a backed thread saw succeed was run for its action. *)
Lemma seen_executed runs t p :
  thread_backed runs t -> may_run cs (t_rpc t) (t_start t) p ->
  seen_terminal p PodSucceeded (snd (t_world t)) -> witnessed runs p.
Proof.
  intros Ht Hp (p' & Hs & Hn & Hph). eapply (tb_seen _ _ Ht); [done| |done].
  rewrite Hn. by apply (tb_plan _ _ Ht).
Qed.

Lemma backed_answer s i t a :
  reads_commands app -> system_ok s -> sy_threads s !! i = Some t -> t_prog t = Ret a ->
  backed cs (t_rpc t) (t_start t) (fst (t_world t)) a (volume_executed (sy_runs s))
    (snapshot_executed (sy_runs s)).
Proof.
  intros Happ [_ Hts] Hi Ha. pose proof (Hts _ _ Hi) as Ht. pose proof (tb_prog _ _ Ht) as Hw.
  rewrite Ha in Hw. eapply backed_by; [apply (tb_ok _ _ Ht)|..|exact Hw].
  - intros action p Hp Hv Hf Hseen. destruct (seen_executed _ _ _ Ht Hp Hseen) as (r & Hr & Hnode & Hrun).
    exists r. split_and!; [done| |by eapply volume_run_done].
    rewrite Hnode. by destruct Hv as (args & _ & ->).
  - intros action p Hp Hv Hf Hseen. destruct (seen_executed _ _ _ Ht Hp Hseen) as (r & Hr & Hnode & Hrun).
    exists r. split_and!; [done| |by eapply snapshot_run_done].
    rewrite Hnode. by destruct Hv as (args & _ & ->).
Qed.
End system.

(** Nothing has happened yet: no calls, no helper pods. *)
Definition fresh {H} (hosts : string -> H) : system H :=
  Build_system ∅ None ∅ hosts [].


(** *** A volume is created *)

Definition demo_host : sig wf := exist wf two_groups two_groups_wf.
Definition demo_pod : pod :=
  newHelperPod (volumeParams (newCreateVolumeAction a_server "pvc-1" "node" StripedType "vg" 1048576)) create_args.
Definition demo_plan (n : string) : option pod := if n =s pod_name demo_pod then Some demo_pod else None.
Definition demo_volume : csi_volume := {|
  v_id := "pvc-1"; v_capacity := 1048576;
  v_context := buildVolumeContext (cv_parameters a_request) 1048576; v_source := None;
  v_topology := [{[topologyKeyNode := "node"]}] |}.
Definition not_found_error : ext_error :=
  mkExt "not found" true false false None None false false.

Lemma demo_may_run o p : may_run a_server (RpcCreateVolume a_request) o p -> p = demo_pod.
Proof.
  intros (ty & vg & size & node & topology & action & Hc & Hp & args & Ha & ->).
  assert (create_volume_checks a_server a_request =
    Ok (StripedType, "vg", 1048576%Z, "node", [{[topologyKeyNode := "node"]}])) as Hc' by (vm_compute; reflexivity).
  rewrite Hc' in Hc. injection Hc as <- <- <- <- <-.
  destruct Hp as [_|source src Hs _]; [|discriminate Hs].
  assert (volumeHelperArgs (newCreateVolumeAction a_server (cv_name a_request) "node" StripedType "vg" 1048576) =
            Ok create_args) as Ha' by reflexivity.
  rewrite Ha' in Ha. by injection Ha as <-.
Qed.

Lemma demo_name vg : cv_name a_request <> pool_name vg.
Proof.
  intros E%(f_equal String.length). unfold pool_name in E. rewrite string_length_app in E. cbn in E. lia.
Qed.

(** The program of the call, along the answers below. *)
Lemma demo_trace :
  exists k1 k2 k3 k4 k5 k6 k7,
    handler a_server 11 (RpcCreateVolume a_request) = Vis AdmissionLock k1 /\
    k1 tt = Vis (PodGet "ns" (pod_name demo_pod)) k2 /\
    k2 (Err not_found_error) = Vis (PodList "ns") k3 /\
    k3 (Ok []) = Vis (PodCreate "ns" demo_pod) k4 /\
    k4 None = Vis AdmissionUnlock k5 /\
    k5 tt = Vis (PodGet "ns" (pod_name demo_pod)) k6 /\
    k6 (Ok (Some (set_status demo_pod (ended 0) None))) = Vis (PodDelete DetachedCtx "ns" (pod_name demo_pod) None) k7 /\
    k7 None = Ret (Created (Ok demo_volume)).
Proof. do 7 eexists. repeat (split; [reflexivity|]). reflexivity. Qed.

(** The system with that call only: its program, what it has seen, the pods, the mutex. *)
Definition demo_thread (m : prog answer) (s : request) : thread :=
  {| t_rpc := RpcCreateVolume a_request; t_start := fst empty_world; t_prog := m;
     t_world := (fst empty_world, s) |}.
Definition demo_system (m : prog answer) (s : request) (ps : gmap string pod) (owner : option nat)
    (hosts : string -> sig wf) (runs : list (run_record (sig wf))) : system (sig wf) :=
  Build_system ps owner {[0%nat := demo_thread m s]} hosts runs.
Definition demo_request (seen : option pod) (locked : bool) : request :=
  {| seen := seen; expired := None; polls_left := 10; locked := locked |}.
Abbreviation demo_steps := (rtc (system_step a_server 11 simple_app demo_plan)).

(** The call takes the next answer of the API server. *)
Lemma demo_call e k x m s s' ps ps' owner hosts runs z :
  k x = m -> is_pod_call e = true -> api_answers ps e x ps' -> request_step s e x s' ->
  demo_steps (demo_system m s' ps' owner hosts runs) z ->
  demo_steps (demo_system (Vis e k) s ps owner hosts runs) z.
Proof.
  intros <- Hc Hx Hs Hz. eapply rtc_l; [|exact Hz].
  assert (system_step a_server 11 simple_app demo_plan (demo_system (Vis e k) s ps owner hosts runs)
    (Build_system ps' owner (<[0%nat := demo_thread (k x) s']> {[0%nat := demo_thread (Vis e k) s]}) hosts runs)) as Hstep.
  { apply (sys_effect a_server 11 simple_app demo_plan (demo_system (Vis e k) s ps owner hosts runs) 0%nat
             (demo_thread (Vis e k) s) e k x (fst empty_world, s') ps').
    - apply lookup_singleton_eq.
    - reflexivity.
    - by destruct e.
    - destruct e; try discriminate Hc; cbn; by exists s'.
    - unfold pods_answer. by rewrite Hc. }
  by rewrite insert_singleton_eq in Hstep.
Qed.

Lemma demo_lock k m s ps hosts runs z :
  k tt = m ->
  demo_steps (demo_system m {| seen := seen s; expired := expired s; polls_left := polls_left s; locked := true |}
                ps (Some 0%nat) hosts runs) z ->
  demo_steps (demo_system (Vis AdmissionLock k) s ps None hosts runs) z.
Proof.
  intros <- Hz. eapply rtc_l; [|exact Hz]. unfold demo_system at 2.
  rewrite <- (insert_singleton_eq 0%nat _ (demo_thread (Vis AdmissionLock k) s)).
  apply (sys_lock a_server 11 simple_app demo_plan (demo_system (Vis AdmissionLock k) s ps None hosts runs) 0%nat
           (demo_thread (Vis AdmissionLock k) s) k (fst empty_world, _)); [apply lookup_singleton_eq|done..|].
  by eexists.
Qed.

Lemma demo_unlock k m s ps owner hosts runs z :
  k tt = m ->
  demo_steps (demo_system m {| seen := seen s; expired := expired s; polls_left := polls_left s; locked := false |}
                ps None hosts runs) z ->
  demo_steps (demo_system (Vis AdmissionUnlock k) s ps owner hosts runs) z.
Proof.
  intros <- Hz. eapply rtc_l; [|exact Hz]. unfold demo_system at 2.
  rewrite <- (insert_singleton_eq 0%nat _ (demo_thread (Vis AdmissionUnlock k) s)).
  apply (sys_unlock a_server 11 simple_app demo_plan (demo_system (Vis AdmissionUnlock k) s ps owner hosts runs) 0%nat
           (demo_thread (Vis AdmissionUnlock k) s) k (fst empty_world, _)); [apply lookup_singleton_eq|done..|].
  by eexists.
Qed.

Lemma demo_container m s p owner r z :
  podTerminal p = false -> pod_run simple_app p demo_host 0 r ->
  (forall hosts runs, demo_steps (demo_system m s {[pod_name p := set_status p (ended 0) (pod_deletion p)]} owner hosts runs) (z hosts runs)) ->
  exists hosts runs, demo_steps (demo_system m s {[pod_name p := p]} owner (fun _ => demo_host) []) (z hosts runs).
Proof.
  intros Ht Hr Hz.
  pose proof (sys_container a_server 11 simple_app demo_plan
    (demo_system m s {[pod_name p := p]} owner (fun _ => demo_host) []) (pod_name p) p 0 r
    (lookup_singleton_eq _ _) Ht Hr) as Hstep.
  cbn [sy_pods demo_system sy_owner sy_threads sy_hosts sy_runs] in Hstep. rewrite insert_singleton_eq in Hstep.
  do 2 eexists. eapply rtc_l; [exact Hstep|]. apply Hz.
Qed.

Lemma demo_reachable : exists s t,
  demo_steps (fresh (fun _ => demo_host)) s /\
  sy_threads s !! 0%nat = Some t /\ t_rpc t = RpcCreateVolume a_request /\
  t_prog t = Ret (Created (Ok demo_volume)).
Proof.
  destruct (run_executes (main simple_app (c_args (newHelperContainer (volumeParams create_action) "lvm-create" create_args)))
              demo_host [] 0%Z
              (with_volumes two_groups [new_volume "pvc-1" "vg" 4194304 LinearType ""])) as (h' & _ & Hrun);
    [vm_compute; reflexivity|].
  destruct demo_trace as (k1 & k2 & k3 & k4 & k5 & k6 & k7 & E0 & E1 & E2 & E3 & E4 & E5 & E6 & E7).
  destruct (demo_container (Vis (PodGet "ns" (pod_name demo_pod)) k6) (demo_request None false) demo_pod None (h', [])
    (fun hosts runs => demo_system (Ret (Created (Ok demo_volume)))
       (demo_request (Some (set_status demo_pod (ended 0) None)) false) ∅ None hosts runs)) as (hosts & runs & Hrest).
  { reflexivity. }
  { eexists. split; [reflexivity|split; [reflexivity|exact Hrun]]. }
  { intros hosts runs. eapply demo_call; [exact E6|done| | |].
    - split; [reflexivity|]. rewrite lookup_singleton_eq. split; [reflexivity|by eexists].
    - split; [|reflexivity]. by intros p [= <-].
    - eapply demo_call; [exact E7|done|right; left; reflexivity|reflexivity|]. rewrite delete_singleton_eq. apply rtc_refl. }
  exists (demo_system (Ret (Created (Ok demo_volume)))
            (demo_request (Some (set_status demo_pod (ended 0) None)) false) ∅ None hosts runs),
    (demo_thread (Ret (Created (Ok demo_volume))) (demo_request (Some (set_status demo_pod (ended 0) None)) false)).
  split; [|split; [exact (lookup_singleton_eq 0%nat _)|split; reflexivity]].
  eapply rtc_l.
  { apply (sys_call a_server 11 simple_app demo_plan _ 0%nat (RpcCreateVolume a_request) (fst empty_world) 10);
      [apply lookup_empty|split; [intros c [= <-]; split; vm_compute; discriminate|exact demo_name]|lia|].
    intros p ->%demo_may_run. reflexivity. }
  rewrite E0. change (<[0%nat := ?t]> (sy_threads (fresh _))) with ({[0%nat := t]} : gmap nat thread).
  change (Build_system (sy_pods (fresh ?h)) _ _ _ _) with
    (demo_system (Vis AdmissionLock k1) (demo_request None false) ∅ None h []).
  eapply demo_lock; [exact E1|]. eapply (demo_call (PodGet "ns" (pod_name demo_pod)) _ (Err not_found_error)); [exact E2|done|done|by split|].
  eapply (demo_call (PodList "ns") _ (Ok [])); [exact E3|done|done|reflexivity|].
  eapply (demo_call (PodCreate "ns" demo_pod) _ None); [exact E4|done|by left|reflexivity|]. rewrite insert_empty.
  eapply demo_unlock; [exact E5|]. exact Hrest.
Qed.

