(* ===== verification/Reliable.v ===== *)
(** * What the controller's handlers answer when nothing goes wrong around them

    [api_step] is a computed Kubernetes: every request is carried out, an absent object
    is reported as such, and a helper pod has ended by the time it is looked at again,
    well or not as [outcome] says.  There the handlers not only are right when they
    answer: they do answer, with exactly the volume or snapshot asked for, having run
    exactly the helper pod of the request once and left no pod behind. *)
From S2P Require Import Prelude GoStrings Errors Objects Effects Config Validation Paths HelperPod HelperSpec.
From S2P Require Import LvmSim SimSpec Admission Controller ControllerSpec Container System.

(** The objects, the helper pods, the mutex, and the pods run so far, newest first. *)
Record kube := { k_objects : objects; k_pods : gmap string pod; k_locked : bool; k_ran : list pod }.

Definition already_exists_error : ext_error :=
  mkExt "already exists" false true false None None false false.

Section api.
Variable outcome : pod -> bool.
Variable now : Z.

Definition with_objects (s : kube) (o : objects) : kube :=
  {| k_objects := o; k_pods := k_pods s; k_locked := k_locked s; k_ran := k_ran s |}.
Definition with_pods (s : kube) (ps : gmap string pod) : kube :=
  {| k_objects := k_objects s; k_pods := ps; k_locked := k_locked s; k_ran := k_ran s |}.
Definition with_lock (s : kube) (b : bool) : kube :=
  {| k_objects := k_objects s; k_pods := k_pods s; k_locked := b; k_ran := k_ran s |}.

(** The pod after its container has ended. *)
Definition finished (p : pod) : pod :=
  set_status p (ended (if outcome p then 0 else 1)) (pod_deletion p).

Definition runs_pod (s : kube) (p : pod) : kube :=
  {| k_objects := k_objects s; k_pods := <[pod_name p := finished p]> (k_pods s);
     k_locked := k_locked s; k_ran := p :: k_ran s |}.

Definition get_of {A} (m : gmap string A) (n : string) : result ext_error (option A) :=
  match m !! n with Some v => Ok (Some v) | None => Err not_found_error end.

Definition api_step (e : eff) (s : kube) : option (resp e * kube) :=
  let o := k_objects s in
  match e as e return option (resp e * kube) with
  | PodGet _ n => Some (get_of (k_pods s) n, s)
  | PodList _ => Some (Ok (map_to_list (k_pods s)).*2, s)
  | PodCreate _ p =>
      match k_pods s !! pod_name p with
      | Some _ => Some (Some already_exists_error, s)
      | None => Some (None, runs_pod s p)
      end
  | PodDelete _ _ n _ =>
      match k_pods s !! n with
      | None => Some (Some not_found_error, s)
      | Some _ => Some (None, with_pods s (delete n (k_pods s)))
      end
  | PersistentVolumeGet n => Some (get_of (o_pvs o) n, s)
  | NodeGet n => Some (if decide (n ∈ o_nodes o) then None else Some not_found_error, s)
  | ConfigMapGet _ n => Some (get_of (o_cms o) n, s)
  | ConfigMapCreate _ cm =>
      match o_cms o !! cm_name cm with
      | Some _ => Some (Some already_exists_error, s)
      | None => Some (None, with_objects s (with_cms o (<[cm_name cm := cm]> (o_cms o))))
      end
  | ConfigMapDelete _ n =>
      match o_cms o !! n with
      | None => Some (Some not_found_error, s)
      | Some _ => Some (None, with_objects s (with_cms o (delete n (o_cms o))))
      end
  | SnapshotContentList => Some (Ok (o_contents o), s)
  | CtxErr => Some (None, s)
  | WaitRetry => Some (None, s)
  | UnixNow => Some (now, s)
  | AdmissionLock => if k_locked s then None else Some (tt, with_lock s true)
  | AdmissionUnlock => Some (tt, with_lock s false)
  | _ => None
  end.

(** ** Running a helper pod *)

(** There is room for the pod: no pod of its name, and none of its groups at its limit. *)
Record has_room (s : kube) (limit : Z) (p : pod) : Prop := {
  room_name : k_pods s !! pod_name p = None;
  room_limit : (0 < limit)%Z;
  room_groups : helperVGs p <> [];
  room_active : admitted limit (map_to_list (k_pods s)).*2 p }.

Definition ran (s : kube) (p : pod) : kube :=
  {| k_objects := k_objects s; k_pods := k_pods s; k_locked := false; k_ran := p :: k_ran s |}.

Lemma check_groups_room listed p limit groups :
  (forall vg, vg ∈ groups -> (Z.of_nat (countActiveHelpers listed p vg) < limit)%Z) ->
  check_groups listed p limit groups = None.
Proof.
  induction groups as [|g gs IH]; intros Hg; [done|]. unfold check_groups. fold check_groups.
  destruct (Z.ltb_spec (Z.of_nat (countActiveHelpers listed p g)) limit) as [_|Hge].
  - apply IH. intros vg Hvg. apply Hg. by right.
  - specialize (Hg g ltac:(by left)). lia.
Qed.

Lemma run_admit ns s limit p : has_room s limit p ->
  run api_step (admitHelper ns p limit) s = Some (None, s).
Proof.
  intros [_ Hl Hg Ha]. unfold admitHelper. destruct (Z.leb_spec limit 0); [lia|]. cbn.
  destruct (helperVGs p) as [|g gs] eqn:E; [done|]. cbn [run]. rewrite check_groups_room; [done|].
  intros vg Hvg. apply Ha. by rewrite E.
Qed.

Lemma run_ensure ns s limit p : k_locked s = false -> has_room s limit p ->
  run api_step (ensureHelper ns p limit) s =
  Some (None, {| k_objects := k_objects s; k_pods := <[pod_name p := finished p]> (k_pods s);
                 k_locked := false; k_ran := p :: k_ran s |}).
Proof.
  intros Hlock Hr. pose proof Hr as [Hn _ _ _]. unfold ensureHelper. cbn [call bind run api_step]. rewrite Hlock.
  assert (run api_step (ensure_locked ns p limit) (with_lock s true) = Some (None, runs_pod (with_lock s true) p)) as He.
  { unfold ensure_locked. cbn [call bind run api_step]. unfold get_of. cbn [with_lock k_pods]. rewrite Hn.
    cbn [not_found_error is_not_found observe ext_of ext_not_found negb]. unfold try. rewrite run_bind.
    rewrite run_admit by (destruct Hr; by constructor). cbn [run api_step]. cbn [with_lock k_pods]. by rewrite Hn. }
  rewrite run_bind, He. reflexivity.
Qed.

(** What the pod's end means to the request. *)
Definition pod_error (p : pod) (params : helperParams) : option error :=
  if outcome p then None else Some (helperFailure (finished p) (hp_resource params) (hp_action params)).

Lemma run_runHelper ns fuel p params s :
  k_locked s = false -> has_room s (MaxActive (hp_config params)) p ->
  run api_step (runHelper ns (S fuel) p params) s = Some (pod_error p params, ran s p).
Proof.
  intros Hlock Hr. unfold runHelper, try. rewrite run_bind, run_ensure by done. cbn [waitForHelper call bind run api_step].
  unfold get_of. cbn [k_pods]. rewrite lookup_insert_eq. cbn [helperResult finished set_status pod_status_of].
  unfold pod_error. destruct (outcome p) eqn:Ho; cbn [Z.eqb ended st_phase].
  - change (PodSucceeded =s PodFailed) with false. change (PodSucceeded =s PodSucceeded) with true.
    cbn [bind negb deleteHelper call run api_step k_pods]. rewrite lookup_insert_eq. cbn [run].
    unfold with_pods. cbn [k_pods k_objects k_locked k_ran]. by rewrite delete_insert_id by apply Hr.
  - change (PodFailed =s PodFailed) with true.
    cbn [bind negb deleteHelper call run api_step k_pods]. rewrite lookup_insert_eq. cbn [run].
    unfold with_pods. cbn [k_pods k_objects k_locked k_ran]. rewrite delete_insert_id by apply Hr.
    unfold finished. by rewrite Ho.
Qed.

(** ** The handlers *)

Variable cs : controllerServer.
Variable fuel : nat.
Let limit := MaxActive (cs_helperConfig cs).

Lemma run_volume_helper action args s :
  volumeHelperArgs action = Ok args -> k_locked s = false ->
  let p := newHelperPod (volumeParams action) args in
  has_room s (MaxActive (va_helperConfig action)) p ->
  run api_step (createVolumeHelper (S fuel) action) s = Some (pod_error p (volumeParams action), ran s p).
Proof.
  intros Ha Hl p Hr. unfold createVolumeHelper. rewrite Ha. unfold try. rewrite run_bind, run_runHelper by done.
  by destruct (pod_error _ _).
Qed.

Lemma run_snapshot_helper action args s :
  snapshotHelperArgs action = Ok args -> k_locked s = false ->
  let p := newHelperPod (snapshotParams action) args in
  has_room s (MaxActive (sa_helperConfig action)) p ->
  run api_step (createSnapshotHelper (S fuel) action) s = Some (pod_error p (snapshotParams action), ran s p).
Proof.
  intros Ha Hl p Hr. unfold createSnapshotHelper. rewrite Ha. unfold try. rewrite run_bind, run_runHelper by done.
  by destruct (pod_error _ _).
Qed.

Lemma run_volume_action_ok action args s r :
  r = Ok action -> volumeHelperArgs action = Ok args -> k_locked s = false ->
  let p := newHelperPod (volumeParams action) args in
  has_room s (MaxActive (va_helperConfig action)) p ->
  run api_step (run_volume_action (S fuel) r) s = Some (pod_error p (volumeParams action), ran s p).
Proof.
  intros -> Ha Hl p Hr. unfold run_volume_action, try. rewrite run_bind, (run_volume_helper _ args) by done.
  by destruct (pod_error _ _).
Qed.

(** *** Reading the objects *)

(** One content per handle. *)
Definition unique_handle (o : objects) (id : string) : Prop :=
  forall c c', c ∈ o_contents o -> c' ∈ o_contents o -> has_handle id c -> has_handle id c' -> c = c'.

Lemma run_getContent id content s :
  content ∈ o_contents (k_objects s) -> has_handle id content -> unique_handle (k_objects s) id ->
  run api_step (getSnapshotContent id) s = Some (Ok (Some content), s).
Proof.
  intros Hin Hh Hu. unfold getSnapshotContent. cbn [call bind run api_step]. do 3 f_equal.
  destruct (List.find _ _) as [c|] eqn:Hf.
  - apply List.find_some in Hf as [Hc Hn]. f_equal. apply list_elem_of_In in Hc. apply names_snapshot_ok in Hn.
    by apply Hu.
  - eapply List.find_none in Hf; [|by apply list_elem_of_In]. by apply names_snapshot_no in Hf.
Qed.

Lemma run_get_source id pv s :
  o_pvs (k_objects s) !! id = Some pv -> run api_step (get_source_volume id) s = Some (Ok (Some pv), s).
Proof. intros Hpv. unfold get_source_volume, get_of. cbn [call bind run api_step]. unfold get_of. by rewrite Hpv. Qed.

Lemma run_lookup id cm loc s :
  o_cms (k_objects s) !! snapshotLocationConfigMapName id = Some cm ->
  snapshotLocationFromConfigMap (Some cm) id = Ok loc ->
  run api_step (lookupSnapshotLocation cs id) s = Some (Ok (Some (loc_nodeName loc, loc_vgName loc)), s).
Proof.
  intros Hcm Hl. unfold lookupSnapshotLocation. cbn [call bind run api_step]. unfold get_of. by rewrite Hcm, Hl.
Qed.

Lemma run_resolve id content loc s :
  located (k_objects s) id content loc ->
  run api_step (resolvePreExistingSnapshotLocation cs id content) s = Some (Ok loc, s).
Proof.
  unfold resolvePreExistingSnapshotLocation. intros [node vg -> Hn -> Hvg|cm loc' Hn Hv Hcm Hl].
  - apply eqb_false in Hn. pose proof (vg_nonempty _ Hvg) as Hne. apply eqb_false in Hne. rewrite Hn, Hne. cbn [Bool.eqb negb].
    rewrite (proj2 (validateVGName_ok _) Hvg). done.
  - rewrite Hn, Hv, eqb_same. cbn [Bool.eqb negb]. rewrite run_bind, (run_lookup _ _ _ _ Hcm Hl).
    destruct (location_handle _ _ _ Hl) as [<- _]. by destruct loc'.
Qed.

(** *** CreateVolume *)

(** The contents a request may name are told apart by their handles. *)
Definition unique_source (o : objects) (req : create_volume_request) : Prop :=
  match cv_source req with Some (SourceSnapshot id) => unique_handle o id | _ => True end.

Lemma clone_action_ok src srcNode name node ty vg srcSize size :
  srcNode = node -> (srcSize <= size)%Z ->
  newCloneVolumeAction cs (Some src) srcNode name node ty vg srcSize size = Ok (clone_va cs src name node ty vg size).
Proof. intros -> Hle. apply newCloneVolumeAction_ok. by exists src. Qed.

Lemma generate_action pv lv name node ty vg srcVG srcTy n size :
  metadataFromPV (Some pv) = Ok (node, srcVG, srcTy) -> (n <= size)%Z ->
  generateVolumeActionForClone cs (Some pv) lv name node ty vg n size =
    Ok (clone_va cs {| srcLVName := lv; srcVGName := srcVG; srcType := srcTy |} name node ty vg size).
Proof. intros Hm Hn. unfold generateVolumeActionForClone. rewrite Hm. by apply clone_action_ok. Qed.

Lemma run_clone source src req node ty vg size args s :
  cv_source req = Some source -> clone_source (k_objects s) node ty size source src ->
  unique_source (k_objects s) req ->
  let action := clone_va cs src (cv_name req) node ty vg size in
  volumeHelperArgs action = Ok args -> k_locked s = false ->
  let p := newHelperPod (volumeParams action) args in has_room s limit p ->
  run api_step (cloneFromContentSource cs (S fuel) (Some source) (cv_name req) node ty vg size) s =
    Some (pod_error p (volumeParams action), ran s p).
Proof.
  intros Hsrc Hs Hu action Ha Hl p Hr. unfold unique_source in Hu. rewrite Hsrc in Hu.
  destruct Hs as [id pv svg sty n Hid Hpv Hm Hb Hn|id content volume handle n pv svg sty Hid Hin Hh Hmeta Hpv Hm Hn
                 |id content handle n loc Hid Hin Hh Hvh Hmeta Hloc Hnode Hn]; cbn [cloneFromContentSource];
    apply eqb_false in Hid.
  - unfold cloneFromVolumeSource. rewrite Hid, run_bind, (run_get_source _ _ _ Hpv). unfold cloneFromVolume.
    rewrite Hb. apply run_volume_action_ok; [|done..]. by apply generate_action.
  - unfold cloneFromSnapshotSource. rewrite Hid, run_bind, (run_getContent _ content) by done.
    unfold cloneFromSnapshot. destruct (sc_volume_handle content) as [vh|] eqn:Hvh.
    2:{ exfalso. revert Hmeta. unfold metadataFromSnapshotContent. by rewrite Hvh. }
    unfold cloneFromDynamicSnapshot. rewrite Hmeta, run_bind, (run_get_source _ _ _ Hpv).
    apply run_volume_action_ok; [|done..]. by apply generate_action.
  - unfold cloneFromSnapshotSource. rewrite Hid, run_bind, (run_getContent _ content) by done.
    unfold cloneFromSnapshot. rewrite Hvh. unfold cloneFromPreProvisionedSnapshot. rewrite run_bind.
    unfold preProvisionedSnapshotCloneAction. rewrite Hmeta. unfold try_ok. rewrite run_bind, (run_resolve _ _ loc) by done.
    cbn [run]. apply run_volume_action_ok; [|done..]. apply clone_action_ok; [done|].
    destruct (Z.eqb_spec n 0); [lia|]. destruct Hn; lia.
Qed.

Lemma run_provision req ty vg size node action args s :
  provisions cs (k_objects s) req ty vg size node action -> unique_source (k_objects s) req ->
  volumeHelperArgs action = Ok args -> k_locked s = false ->
  let p := newHelperPod (volumeParams action) args in has_room s limit p ->
  run api_step (provisionVolume cs (S fuel) req node ty vg size) s =
    Some (pod_error p (volumeParams action), ran s p).
Proof.
  intros Hp Hu Ha Hl p Hr. unfold provisionVolume. destruct Hp as [Hsrc|source src Hsrc Hs]; rewrite Hsrc.
  - unfold try. rewrite run_bind, (run_volume_helper _ args) by done. by destruct (pod_error _ _).
  - by apply (run_clone source src).
Qed.

(** The good answer if the pod does its work, otherwise [Internal] with its failure. *)
Definition answers {A} (p : pod) (good : A) (r : result error A) : Prop :=
  if outcome p then r = Ok good else exists e, r = Err e /\ status_code e = Internal.

Lemma answers_cases {A} p params (good : A) :
  answers p good (match pod_error p params with None => Ok good | Some e => Err e end).
Proof. unfold answers, pod_error. destruct (outcome p); [done|]. by eexists. Qed.

Lemma served_CreateVolume req ty vg size node topology action p s :
  create_volume_checks cs req = Ok (ty, vg, size, node, topology) ->
  provisions cs (k_objects s) req ty vg size node action -> unique_source (k_objects s) req ->
  volume_pod action p -> k_locked s = false -> has_room s limit p ->
  exists r, run api_step (CreateVolume cs (S fuel) req) s = Some (r, ran s p) /\
    answers p {| v_id := cv_name req; v_capacity := size;
                 v_context := buildVolumeContext (cv_parameters req) size;
                 v_source := cv_source req; v_topology := topology |} r.
Proof.
  intros Hc Hp Hu (args & Ha & ->) Hl Hr. unfold CreateVolume. rewrite Hc. cbn [check_ok].
  eexists. split; [rewrite run_bind, (run_provision _ _ _ _ _ action args) by done|apply (answers_cases _ (volumeParams action))].
  by destruct (pod_error _ _).
Qed.

(** *** DeleteVolume *)

Lemma served_DeleteVolume req pv node vg ty p s :
  dv_id req <> "" -> validateControllerServiceRequest cs RPC_CREATE_DELETE_VOLUME = Ok tt ->
  o_pvs (k_objects s) !! dv_id req = Some pv -> metadataFromPV (Some pv) = Ok (node, vg, ty) ->
  node ∈ o_nodes (k_objects s) -> volume_pod (newDeleteVolumeAction cs (dv_id req) node vg ty) p ->
  k_locked s = false -> has_room s limit p ->
  exists r, run api_step (DeleteVolume cs (S fuel) req) s = Some (r, ran s p) /\ answers p tt r.
Proof.
  intros Hid Hcap Hpv Hm Hnode (args & Ha & ->) Hl Hr. apply eqb_false in Hid. unfold DeleteVolume, validateDeleteVolumeRequest.
  rewrite Hid, Hcap. cbn [guard rbind map_err check_ok].
  unfold persistentVolumeForDeletion, nodeAvailableForDeletion, try_ok. cbn [call bind run api_step]. unfold get_of.
  rewrite Hpv. cbn [bind run]. rewrite Hm. cbn [map_err check_ok bind run api_step call].
  rewrite decide_True by done. cbn [bind negb]. eexists.
  split; [|apply (answers_cases _ (volumeParams (newDeleteVolumeAction cs (dv_id req) node vg ty)))].
  unfold try. rewrite run_bind, (run_volume_helper _ args) by done. by destruct (pod_error _ _).
Qed.

(** *** CreateSnapshot *)

(** The objects with the location of a snapshot on record. *)
Definition with_record (o : objects) (id node vg : string) : objects :=
  match o_cms o !! snapshotLocationConfigMapName id with
  | Some _ => o
  | None => with_cms o (<[snapshotLocationConfigMapName id :=
      location_configMap {| loc_handle := id; loc_nodeName := node; loc_vgName := vg |} (cs_namespace cs)]> (o_cms o))
  end.

Lemma run_record id node vg s :
  validate_location {| loc_handle := id; loc_nodeName := node; loc_vgName := vg |} = Ok tt ->
  (o_cms (k_objects s) !! snapshotLocationConfigMapName id = None \/ recorded (k_objects s) id node vg) ->
  run api_step (recordSnapshotLocation cs id node vg) s =
    Some (None, with_objects s (with_record (k_objects s) id node vg)).
Proof.
  intros Hv Hrec. unfold recordSnapshotLocation, with_record. rewrite Hv. cbn [call bind run api_step].
  change (cm_name (location_configMap _ _)) with (snapshotLocationConfigMapName id).
  destruct Hrec as [Hn|(cm & Hcm & Hloc)].
  - by rewrite Hn.
  - rewrite Hcm. cbn [bind is_already_exists observe ext_of already_exists_error ext_already_exists negb call run api_step].
    unfold get_of. rewrite Hcm. cbn [bind]. rewrite Hloc. rewrite bool_decide_true by done. cbn [negb run]. by destruct s.
Qed.

Lemma served_CreateSnapshot req node vg ty size p s :
  cr_name req <> "" -> cr_source_volume req <> "" ->
  source_at (k_objects s) (cr_source_volume req) node vg ty size ->
  validate_location {| loc_handle := cr_name req; loc_nodeName := node; loc_vgName := vg |} = Ok tt ->
  (o_cms (k_objects s) !! snapshotLocationConfigMapName (cr_name req) = None \/
   recorded (k_objects s) (cr_name req) node vg) ->
  snapshot_pod (newCreateSnapshotAction cs (cr_name req) (cr_source_volume req) node vg ty size) p ->
  k_locked s = false -> has_room s limit p ->
  exists r, run api_step (CreateSnapshot cs (S fuel) req) s =
      Some (r, ran (with_objects s (with_record (k_objects s) (cr_name req) node vg)) p) /\
    answers p {| sn_id := cr_name req; sn_source := cr_source_volume req; sn_size := size;
                 sn_created := now; sn_ready := true |} r.
Proof.
  intros Hn Hsv (pv & Hpv & Hm & Hb) Hval Hrec (args & Ha & ->) Hl [R1 R2 R3 R4]. apply eqb_false in Hn, Hsv.
  unfold CreateSnapshot, validateCreateSnapshotRequest. rewrite Hn, Hsv. cbn [guard rbind map_err check_ok].
  unfold try_ok. rewrite run_bind, (run_get_source _ _ _ Hpv). rewrite Hm. cbn [map_err check_ok]. rewrite Hb.
  cbn [map_err check_ok]. unfold try. rewrite run_bind, run_record by done.
  eexists. split; [|apply (answers_cases _ (snapshotParams (newCreateSnapshotAction cs (cr_name req) (cr_source_volume req) node vg ty size)))].
  rewrite run_bind, (run_snapshot_helper _ args) by (done || by constructor). by destruct (pod_error _ _).
Qed.

(** *** DeleteSnapshot *)

Definition without_record (o : objects) (id : string) : objects :=
  with_cms o (delete (snapshotLocationConfigMapName id) (o_cms o)).

Lemma run_forget id s :
  exists r, run api_step (forgetSnapshotLocation cs id) s = Some (r, with_objects s (without_record (k_objects s) id)).
Proof.
  unfold forgetSnapshotLocation, without_record. cbn [call bind run api_step].
  destruct (o_cms (k_objects s) !! snapshotLocationConfigMapName id) as [cm|] eqn:Hcm; cbn; eexists; [done|].
  f_equal. f_equal. rewrite delete_id by done. by destruct s as [[] ? ? ?].
Qed.

Lemma run_pvLocation id volume s :
  run api_step (pvLocation id volume) s =
    Some (match o_pvs (k_objects s) !! volume with
          | None => Err (Ext not_found_error)
          | Some pv => match metadataFromPV (Some pv) with
                       | Ok (node, vg, _) => Ok {| loc_handle := id; loc_nodeName := node; loc_vgName := vg |}
                       | Err e => Err e
                       end
          end, s).
Proof.
  unfold pvLocation. cbn [call bind run api_step]. unfold get_of.
  destruct (o_pvs (k_objects s) !! volume) as [pv|]; [|done]. cbn [bind].
  by destruct (metadataFromPV (Some pv)) as [[[node vg] ty]|e].
Qed.

Lemma run_deleteAction id content node vg s :
  snapshot_at (k_objects s) id content node vg ->
  run api_step (deleteSnapshotAction cs id (Some content)) s =
    Some (Ok (Some (newDeleteSnapshotAction cs id node vg)), s).
Proof.
  intros Hat. unfold deleteSnapshotAction.
  destruct Hat as [loc Hv Hne Hl|volume pv node vg ty Hv Hne Hpv Hm|volume node vg Hv Hne Hno (cm & Hcm & Hloc)]; rewrite Hv;
    apply eqb_false in Hne.
  - unfold deletePreExistingSnapshotAction. rewrite Hne. unfold try_ok. by rewrite run_bind, (run_resolve _ _ loc).
  - unfold deleteDynamicSnapshotAction. rewrite Hne. unfold try_ok. rewrite run_bind.
    unfold dynamicSnapshotLocation. by rewrite run_bind, run_pvLocation, Hpv, Hm.
  - unfold deleteDynamicSnapshotAction. rewrite Hne. unfold try_ok. rewrite run_bind.
    unfold dynamicSnapshotLocation. rewrite run_bind, run_pvLocation.
    assert (exists e, (match o_pvs (k_objects s) !! volume with
          | None => Err (Ext not_found_error)
          | Some pv => match metadataFromPV (Some pv) with
                       | Ok (node, vg, _) => Ok {| loc_handle := id; loc_nodeName := node; loc_vgName := vg |}
                       | Err e => Err e
                       end
          end) = Err e /\ status_code e = Unknown) as (e & -> & He).
    { destruct (o_pvs (k_objects s) !! volume) as [pv|]; [|by eexists].
      pose proof (own_metadata (Some pv)) as Hown.
      destruct (metadataFromPV (Some pv)) as [m|e] eqn:Hm; [by destruct (Hno pv m eq_refl)|].
      exists e. split; [done|]. apply Hown. }
    rewrite bool_decide_false by by rewrite He. unfold recordedLocation.
    by rewrite run_bind, run_bind, (run_lookup _ _ _ _ Hcm Hloc).
Qed.

Lemma served_DeleteSnapshot req content node vg p s :
  ds_id req <> "" -> content ∈ o_contents (k_objects s) -> has_handle (ds_id req) content ->
  unique_handle (k_objects s) (ds_id req) -> snapshot_at (k_objects s) (ds_id req) content node vg ->
  snapshot_pod (newDeleteSnapshotAction cs (ds_id req) node vg) p -> k_locked s = false -> has_room s limit p ->
  exists r, run api_step (DeleteSnapshot cs (S fuel) req) s =
      Some (r, ran (if outcome p then with_objects s (without_record (k_objects s) (ds_id req)) else s) p) /\
    answers p tt r.
Proof.
  intros Hid Hin Hh Hu Hat (args & Ha & ->) Hl Hr. apply eqb_false in Hid. unfold DeleteSnapshot. rewrite Hid.
  unfold try_ok. rewrite run_bind, (run_getContent _ content) by done. rewrite run_bind, (run_deleteAction _ _ node vg) by done.
  eexists. split; [|apply (answers_cases _ (snapshotParams (newDeleteSnapshotAction cs (ds_id req) node vg)))].
  unfold try. rewrite run_bind, (run_snapshot_helper _ args) by done. unfold pod_error. destruct (outcome _); [|done].
  rewrite run_bind. edestruct run_forget as [r ->]. done.
Qed.
End api.

(** ** Requests that are served *)

(** What a call deserves that finds these objects: the helper pod it takes, its good
    answer and the objects afterwards. *)
Inductive served (cs : controllerServer) (now : Z) (o : objects) : rpc -> pod -> answer -> objects -> Prop :=
| served_volume req ty vg size node topology action p :
    create_volume_checks cs req = Ok (ty, vg, size, node, topology) ->
    provisions cs o req ty vg size node action -> unique_source o req -> volume_pod action p ->
    served cs now o (RpcCreateVolume req) p
      (Created (Ok {| v_id := cv_name req; v_capacity := size;
                      v_context := buildVolumeContext (cv_parameters req) size;
                      v_source := cv_source req; v_topology := topology |})) o
| served_deletion req pv node vg ty p :
    dv_id req <> "" -> validateControllerServiceRequest cs RPC_CREATE_DELETE_VOLUME = Ok tt ->
    o_pvs o !! dv_id req = Some pv -> metadataFromPV (Some pv) = Ok (node, vg, ty) ->
    node ∈ o_nodes o -> volume_pod (newDeleteVolumeAction cs (dv_id req) node vg ty) p ->
    served cs now o (RpcDeleteVolume req) p (Deleted (Ok tt)) o
| served_snapshot req node vg ty size p :
    cr_name req <> "" -> cr_source_volume req <> "" ->
    source_at o (cr_source_volume req) node vg ty size ->
    validate_location {| loc_handle := cr_name req; loc_nodeName := node; loc_vgName := vg |} = Ok tt ->
    (o_cms o !! snapshotLocationConfigMapName (cr_name req) = None \/ recorded o (cr_name req) node vg) ->
    snapshot_pod (newCreateSnapshotAction cs (cr_name req) (cr_source_volume req) node vg ty size) p ->
    served cs now o (RpcCreateSnapshot req) p
      (SnapshotTaken (Ok {| sn_id := cr_name req; sn_source := cr_source_volume req; sn_size := size;
                            sn_created := now; sn_ready := true |}))
      (with_record cs o (cr_name req) node vg)
| served_snapshot_deletion req content node vg p :
    ds_id req <> "" -> content ∈ o_contents o -> has_handle (ds_id req) content ->
    unique_handle o (ds_id req) -> snapshot_at o (ds_id req) content node vg ->
    snapshot_pod (newDeleteSnapshotAction cs (ds_id req) node vg) p ->
    served cs now o (RpcDeleteSnapshot req) p (SnapshotDeleted (Ok tt)) (without_record o (ds_id req)).

(** The code of the error of an answer. *)
Definition answer_code (a : answer) : option code :=
  let code_of {A} (r : result error A) := match r with Ok _ => None | Err e => Some (status_code e) end in
  match a with Created r => code_of r | Deleted r => code_of r | SnapshotTaken r => code_of r | SnapshotDeleted r => code_of r end.

(** From the result of a handler to its answer. *)
Lemma answers_wrap {A} outcome p (good : A) (r : result error A) (f : result error A -> answer) (P : Prop) :
  (forall e, answer_code (f (Err e)) = Some (status_code e)) -> P ->
  answers outcome p good r ->
  if outcome p then f r = f (Ok good) /\ P else answer_code (f r) = Some Internal.
Proof.
  unfold answers. intros Hf HP. destruct (outcome p); [by intros ->|]. intros (e & -> & He). by rewrite Hf, He.
Qed.


(** The call of System.v's example. *)
Definition quiet_kube : kube := {| k_objects := fst empty_world; k_pods := ∅; k_locked := false; k_ran := [] |}.

