(* ===== verification/Budget.v ===== *)
(** * How long an operation can take

    Every command runs under a timeout, so an operation takes at most the timeouts of
    the commands on its longest path.  [spends n p]: whatever the commands of [p] answer,
    each has a positive timeout and together they have at most [n] nanoseconds. *)
From S2P Require Import Prelude GoStrings Errors Objects Effects Config Json Lvm Mount HelperPod Provisioner.

Definition is_command (e : eff) : bool := match e with Exec _ _ _ => true | _ => false end.
(** The timeout of a command; other effects are not timed by the driver. *)
Definition charge (e : eff) : Z := match e with Exec t _ _ => t | _ => 0 end.

Fixpoint spends {R} (n : Z) (p : prog R) : Prop :=
  match p with
  | Ret _ => (0 <= n)%Z
  | Vis e k => (is_command e = true -> (0 < charge e)%Z) /\ forall x, spends (n - charge e) (k x)
  end.

Lemma spends_le {R} (p : prog R) n m : (n <= m)%Z -> spends n p -> spends m p.
Proof.
  revert n m. induction p as [r|e k IH]; intros n m Hnm; cbn; [lia|]. intros [He Hk]. split; [done|].
  intros x. eapply IH; [|apply Hk]. lia.
Qed.

Lemma spends_bind {R R'} (p : prog R) (f : R -> prog R') n a b :
  spends a p -> (forall r, spends b (f r)) -> (a + b <= n)%Z -> spends n (bind p f).
Proof.
  revert n a. induction p as [r|e k IH]; intros n a; cbn [bind spends].
  - intros Ha Hf Hn. eapply spends_le; [|apply Hf]. lia.
  - intros [He Hk] Hf Hn. split; [done|]. intros x. eapply IH; [apply Hk|done|lia].
Qed.

Lemma spends_try {R} (p : prog (option error)) (fail : error -> R) k n a b :
  (0 <= b)%Z -> spends a p -> spends b k -> (a + b <= n)%Z -> spends n (try p fail k).
Proof. intros Hb Hp Hk. apply spends_bind; [done|]. by intros [e|]. Qed.

Lemma spends_try_ok {A B} (p : prog (result error A)) (k : A -> prog (result error B)) n a b :
  (0 <= b)%Z -> spends a p -> (forall x, spends b (k x)) -> (a + b <= n)%Z -> spends n (try_ok p k).
Proof. intros Hb Hp Hk. apply spends_bind; [done|]. by intros [x|e]. Qed.

(** A command and the rest. *)
Lemma spends_exec {R} t c a (k : string * option ext_error -> prog R) n :
  (0 < t)%Z -> (forall x, spends (n - t) (k x)) -> spends n (Vis (Exec t c a) k).
Proof. by split. Qed.

Lemma spends_required value flag k n : (0 <= n)%Z -> spends n k -> spends n (required value flag k).
Proof. unfold required. by case_match. Qed.
Lemma spends_required_size value flag k n : (0 <= n)%Z -> spends n k -> spends n (required_size value flag k).
Proof. unfold required_size. by case_match. Qed.

(** Runs through a program: commands, branches, and operations whose cost is known. *)
Ltac spend :=
  repeat first
    [ progress cbn [Execute call bind fst snd ex_timeout ex_timed newCommandExecutor SetTimeout negb]
    | apply spends_exec; [lia|intros [? [?|]]]
    | match goal with
      | |- spends _ (Ret _) => cbn [spends]; lia
      | |- spends _ (Vis _ _) => split; [discriminate|intros ?; cbn [charge]]
      | |- spends _ (if ?b then _ else _) => destruct b
      | |- spends _ (match ?x with _ => _ end) => destruct x
      end ].

Section provisioner.
Context (T : timeouts) (Hc : (0 < commandTimeout T)%Z) (Hp : (0 < thinPoolCreateTimeout T)%Z).
Let c := commandTimeout T.
Let p := thinPoolCreateTimeout T.

Lemma spends_list : spends c (listLogicalVolumes T).
Proof. unfold listLogicalVolumes, c. spend. Qed.

Lemma spends_get vg name : spends c (getLogicalVolume T vg name).
Proof. eapply (spends_try_ok _ _ _ c 0); [lia|apply spends_list|intros x; cbn; lia|lia]. Qed.

Lemma spends_VgExists vg : spends c (VgExists T vg).
Proof. unfold VgExists, c. spend. Qed.

Lemma spends_EnsureVG vg : spends (4 * c) (EnsureVG T vg).
Proof.
  unfold c. eapply (spends_try _ _ _ _ (3 * c) c); unfold c; [lia| | |lia].
  - eapply (spends_bind _ _ _ c (2 * c)); [apply spends_VgExists| |unfold c; lia]. intros [|]; unfold c; [spend|].
    eapply (spends_try _ _ _ _ c c); unfold c; [lia| | |lia].
    + unfold scanVolumeGroups. spend.
    + eapply (spends_bind _ _ _ c 0); [apply spends_VgExists|intros [|]; spend|unfold c; lia].
  - eapply (spends_try _ _ _ _ c 0); unfold c; [lia| |spend|lia]. unfold activateVolumeGroups. spend.
Qed.

Lemma spends_prepareThinPool vg ty : spends (3 * c + p) (prepareThinPool T vg ty).
Proof.
  unfold prepareThinPool. destruct (negb _); [cbn; lia|].
  eapply (spends_bind _ _ _ c (2 * c + p)); [apply spends_get| |lia]. intros [[pool|]|e]; [| |cbn; lia].
  - eapply (spends_try _ _ _ _ c 0); [lia| |cbn; lia|lia]. unfold checkThinPool, validateThinPool, c. spend.
  - eapply (spends_try _ _ _ _ (2 * c + p) 0); [lia| |cbn; lia|lia].
    unfold createThinPool, p. spend. eapply (spends_bind _ _ _ (2 * c) 0); [|intros ?; cbn; lia|lia].
    unfold handleThinPoolCreateError. destruct (negb _); [cbn; lia|].
    eapply (spends_bind _ _ _ (2 * c) 0); [|intros [?|]; cbn; lia|lia].
    eapply (spends_bind _ _ _ c c); [apply spends_get| |lia]. unfold c. intros [[pool|]|e']; spend.
Qed.

Lemma spends_CreateLVS vg name size ty : spends (6 * c + p) (CreateLVS T vg name size ty).
Proof.
  unfold CreateLVS. destruct (_ =? 0)%Z; [cbn; lia|]. destruct (_ && _); [cbn; lia|].
  eapply (spends_bind _ _ _ c (5 * c + p)); [apply spends_get| |lia]. intros [[v|]|e]; [| |cbn; lia].
  - destruct (validateExistingVolume _ _ _); cbn; lia.
  - eapply (spends_bind _ _ _ (3 * c + p) (2 * c)); [apply spends_prepareThinPool| |lia]. intros [pool|e]; [|cbn; lia].
    unfold pvCount, c. spend.
Qed.

Lemma spends_RemoveLVSInVG vg name : spends (2 * c) (RemoveLVSInVG T vg name).
Proof.
  eapply (spends_bind _ _ _ c c); [apply spends_get| |lia]. unfold c. intros [[v|]|e]; spend.
Qed.

Lemma spends_RemoveThinPool vg : spends (3 * c) (RemoveThinPool T vg).
Proof.
  eapply (spends_bind _ _ _ c (2 * c)); [unfold getThinPoolAndCounts, c; spend| |lia].
  intros [m|e]; [|cbn; lia]. destruct (m !! _) as [n|]; [|cbn; lia]. destruct (0 <? n)%Z; [cbn; lia|].
  eapply (spends_bind _ _ _ (2 * c) 0); [apply spends_RemoveLVSInVG|intros [? [?|]]; cbn; lia|lia].
Qed.

Lemma spends_CreateSnapshot name src vg size ty b : spends (3 * c) (CreateSnapshot T name src vg size ty b).
Proof.
  unfold CreateSnapshot. destruct (_ || _); [cbn; lia|]. destruct (_ =? 0)%Z; [cbn; lia|].
  eapply (spends_bind _ _ _ c (2 * c)); [apply spends_get| |lia]. intros [[v|]|e]; [|cbn; lia..].
  eapply (spends_bind _ _ _ c c); [apply spends_get| |lia]. unfold c. intros [[w|]|e]; spend.
Qed.

Lemma spends_DeleteSnapshot name vg : spends (2 * c) (DeleteSnapshot T name vg).
Proof.
  unfold DeleteSnapshot. destruct (_ =s _); [cbn; lia|].
  eapply (spends_bind _ _ _ c c); [apply spends_get| |lia]. unfold c. intros [[v|]|e]; spend.
Qed.

Lemma spends_with_device write path fail k n :
  (0 <= n)%Z -> spends n k -> spends n (with_device write path fail k).
Proof.
  intros Hn Hk. unfold with_device. cbn [call bind]. split; [done|]. intros [e|]; cbn [charge].
  - cbn. lia.
  - eapply (spends_bind _ _ _ n 0); [done|intros r; cbn; split; [done|lia]|lia].
Qed.

Variable ctx : cli_context.

Lemma spends_createLV : spends (10 * c + p) (createLV T ctx).
Proof.
  unfold createLV. repeat (apply spends_required || apply spends_required_size; [lia|]).
  eapply (spends_try _ _ _ _ (4 * c) (6 * c + p)); [lia|apply spends_EnsureVG| |lia].
  eapply (spends_bind _ _ _ (6 * c + p) 0); [apply spends_CreateLVS|intros [? [?|]]; cbn; lia|lia].
Qed.

Lemma spends_deleteLV : spends (5 * c) (deleteLV T ctx).
Proof.
  unfold deleteLV. repeat (apply spends_required; [lia|]).
  eapply (spends_bind _ _ _ (2 * c) (3 * c)); [apply spends_RemoveLVSInVG| |lia]. intros [out [e|]]; [cbn; lia|].
  destruct (_ =s _); [|cbn; lia]. eapply (spends_try _ _ _ _ (3 * c) 0); [lia|apply spends_RemoveThinPool|cbn; lia|lia].
Qed.

Lemma spends_createSnap : spends (7 * c) (createSnap T ctx).
Proof.
  unfold createSnap. repeat (apply spends_required || apply spends_required_size; [lia|]).
  eapply (spends_try _ _ _ _ (4 * c) (3 * c)); [lia|apply spends_EnsureVG| |lia].
  eapply (spends_bind _ _ _ (3 * c) 0); [apply spends_CreateSnapshot|intros [? [?|]]; cbn; lia|lia].
Qed.

Lemma spends_deleteSnap : spends (2 * c) (deleteSnap T ctx).
Proof.
  unfold deleteSnap. repeat (apply spends_required; [lia|]).
  eapply (spends_bind _ _ _ (2 * c) 0); [apply spends_DeleteSnapshot|intros [? [?|]]; cbn; lia|lia].
Qed.

Lemma spends_clonelv : spends (14 * c + p) (clonelv T ctx).
Proof.
  unfold clonelv. do 6 (apply spends_required; [lia|]). apply spends_required_size; [lia|].
  eapply (spends_try _ _ _ _ (8 * c) (6 * c + p)); [lia| | |lia].
  - unfold ensureCloneVolumeGroups.
    eapply (spends_try _ _ _ _ (4 * c) (4 * c)); [lia|apply spends_EnsureVG| |lia]. destruct (_ =s _); [cbn; lia|].
    eapply (spends_try _ _ _ _ (4 * c) 0); [lia|apply spends_EnsureVG|cbn; lia|lia].
  - destruct (_ && _).
    + eapply (spends_bind _ _ _ (3 * c) 0); [apply spends_CreateSnapshot|intros [? [?|]]; cbn; lia|lia].
    + apply spends_with_device; [lia|].
      eapply (spends_bind _ _ _ (6 * c + p) 0); [apply spends_CreateLVS| |lia].
      intros [out [e|]]; [cbn; lia|]. apply spends_with_device; [lia|]. unfold CloneDevice. spend.
Qed.
End provisioner.

(** ** The node's operations *)

Section node.
Context (T : timeouts) (Hc : (0 < commandTimeout T)%Z).
Let c := commandTimeout T.
Let ex := newCommandExecutor T.

Lemma spends_unmount path : spends (3 * unmountTimeout) (unmountTarget path).
Proof.
  unfold unmountTarget, forceUnmount, lazyUnmount, unmountExecutor, unmountTimeout, second.
  repeat (cbn [Execute call bind ex_timeout]; apply spends_exec; [lia|]; intros [? ?];
          cbn [bind]; destruct (isUnmountComplete _ _); [cbn; lia|]; try (destruct (negb _); [cbn; lia|])).
  cbn. lia.
Qed.

Lemma spends_getFilesystemType path : spends (2 * c) (getFilesystemType ex path).
Proof. unfold getFilesystemType, getFilesystemTypeFromWipefs, c, ex. spend. Qed.

Lemma spends_mountLV name path vg fs opts ro : spends (5 * c) (mountLV T name path vg fs opts ro).
Proof.
  unfold mountLV. eapply (spends_bind _ _ _ (3 * c) (2 * c)); [| |lia].
  - eapply (spends_bind _ _ _ (2 * c) c); [apply spends_getFilesystemType| |lia]. unfold c. intros [ty|e]; spend.
  - intros [out [e|]]; [cbn; lia|]. unfold mountFilesystem. cbn [call bind]. split; [done|]. intros [e|]; cbn [charge].
    + cbn. lia.
    + eapply (spends_bind _ _ _ (2 * c) 0); [|intros [? [?|]]; spend|lia].
      unfold performFilesystemMount, validateExistingMount, c. spend.
      eapply (spends_bind _ _ _ 0 0); [spend|intros [?|]; cbn; lia|lia].
Qed.

Lemma spends_bindMountLV name path vg ro :
  spends (2 * c + 3 * unmountTimeout) (bindMountLV T name path vg ro).
Proof.
  assert (0 < unmountTimeout)%Z as Hu by (unfold unmountTimeout, second; lia).
  unfold bindMountLV. eapply (spends_try _ _ _ _ 0 (2 * c + 3 * unmountTimeout)); [lia| | |lia].
  - unfold prepareBindMountTarget, validateExistingBindMountTarget. spend.
  - eapply (spends_bind _ _ _ c (c + 3 * unmountTimeout)); [unfold performBindMount, c, ex; spend| |lia].
    intros [out [e|]]; [cbn; lia|]. destruct ro; [|cbn; lia].
    eapply (spends_bind _ _ _ (c + 3 * unmountTimeout) 0); [|intros [? [?|]]; cbn; lia|lia].
    unfold remountBindReadOnly, c. spend.
    eapply (spends_bind _ _ _ (3 * unmountTimeout) 0); [apply spends_unmount|intros ?; cbn; lia|lia].
Qed.

Lemma spends_extendLVS name size b path : spends (5 * c) (extendLVS T name size b path).
Proof.
  unfold extendLVS. eapply (spends_bind _ _ _ c (4 * c)); [| |lia].
  - eapply (spends_try_ok _ _ _ c 0); [lia|by apply spends_list|intros x; cbn; lia|lia].
  - intros [v|e]; [|cbn; lia]. eapply (spends_bind _ _ _ c (3 * c)); [| |lia].
    + unfold ensureLogicalVolumeSize, c. spend.
    + intros [out [e|]]; [cbn; lia|]. destruct b; [cbn; lia|].
      eapply (spends_bind _ _ _ (3 * c) 0); [|intros [? ?]; cbn; lia|lia].
      eapply (spends_bind _ _ _ (2 * c) c); [apply spends_getFilesystemType| |lia].
      unfold c. intros [ty|e]; spend.
Qed.
End node.

(** C23: every operation ends: with positive timeouts, each command that an operation of the
    provisioner or the node runs has a positive timeout, and whatever the commands
    answer, they take together at most this many command timeouts, plus one thin-pool
    timeout where a pool may be created and 90 seconds where a mount may be undone (the
    copy of a clone's device is not timed). *)
Theorem operations_end T c :
  (0 < commandTimeout T)%Z -> (0 < thinPoolCreateTimeout T)%Z ->
  (spends (10 * commandTimeout T + thinPoolCreateTimeout T) (createLV T c) /\
   spends (5 * commandTimeout T) (deleteLV T c) /\
   spends (7 * commandTimeout T) (createSnap T c) /\
   spends (2 * commandTimeout T) (deleteSnap T c) /\
   spends (14 * commandTimeout T + thinPoolCreateTimeout T) (clonelv T c)) /\
  (forall name path vg fs opts ro, spends (5 * commandTimeout T) (mountLV T name path vg fs opts ro)) /\
  (forall name path vg ro, spends (2 * commandTimeout T + 90 * second) (bindMountLV T name path vg ro)) /\
  (forall path, spends (90 * second) (unmountTarget path)) /\
  (forall name size b path, spends (5 * commandTimeout T) (extendLVS T name size b path)).
Proof.
  intros Hc Hp.
  split_and!; intros;
    first [ by apply spends_createLV | by apply spends_deleteLV | by apply spends_createSnap
          | by apply spends_deleteSnap | by apply spends_clonelv | by apply spends_mountLV
          | by apply spends_bindMountLV | by apply spends_unmount | by apply spends_extendLVS ].
Qed.

Lemma operations_end_witness :
  (0 < commandTimeout initial_timeouts)%Z /\
  spends (10 * commandTimeout initial_timeouts + thinPoolCreateTimeout initial_timeouts)
    (createLV initial_timeouts {| flag_string := fun n => n; flag_uint64 := fun _ => 1%Z;
                                  flag_int64 := fun _ => 1%Z; flag_duration := fun _ => 0%Z |}).
Proof. split; [reflexivity|]. apply operations_end; reflexivity. Defined.
